(** * text-sql: the constrained NL-to-SQL pipeline, embedded and verified

    A shallow embedding of the deterministic parts of the pipeline:
    the AST validator ([ast_validator.py]), the validation engine
    ([validation_engine.py]), the SQL Guard ([sql_guard.py]), the
    failure handling of the planner ([llm_planner.py]) and the lexical
    shortlister ([run_nl2sql_clean.py]).

    Python [str] values are lists of characters.  The character classes
    of [re] and of the [str] methods (word characters, blanks, digits,
    case folding) are taken on ASCII text, where they are the classes
    below; a code above 127 is a byte of a UTF-8 sequence and belongs to
    no class, while Python counts the letters and blanks of other
    scripts in.  The results below are results on ASCII text, apart from
    the test for Chinese characters, which reads the bytes of the UTF-8
    encoding.

    A Python set is a list: the source tests membership and emptiness of
    its sets, and iterates over them only to build lists of messages or
    other sets.

    sqlglot, json, pydantic, the LLM client and the replacement templates
    of [re] are outside the repository: they appear as fields of an
    interface record or as section variables, never as axioms.  A call
    that may raise returns an option, [None] standing for the exception;
    where the source tells exceptions apart, so does the type of the
    result. *)

From Stdlib Require Import String Ascii List Arith Bool Lia ZArith QArith.
From Stdlib Require Import Permutation Sorted.
Import ListNotations.
Close Scope Q_scope.

Set Implicit Arguments.
Set Warnings "-register-all".

(** ** Characters and strings *)

Definition str := list ascii.

Notation "$ s" := (list_ascii_of_string s%string) (at level 1, format "$ s").

Definition code (c : ascii) : nat := nat_of_ascii c.

Definition in_range (lo hi : nat) (c : ascii) : bool :=
  (lo <=? code c) && (code c <=? hi).

Definition is_digit (c : ascii) : bool := in_range 48 57 c.
Definition is_upper (c : ascii) : bool := in_range 65 90 c.
Definition is_lower (c : ascii) : bool := in_range 97 122 c.

(** "\w" *)
Definition is_word (c : ascii) : bool :=
  is_digit c || is_upper c || is_lower c || (code c =? 95).

(** "\s", and what [str.strip] removes: TAB..CR, FS..US and the space. *)
Definition is_space (c : ascii) : bool := in_range 9 13 c || in_range 28 32 c.

Definition lower_char (c : ascii) : ascii :=
  if is_upper c then ascii_of_nat (code c + 32) else c.

(** [str.lower] *)
Definition lower (s : str) : str := map lower_char s.

Definition ascii_eqb (a b : ascii) : bool := code a =? code b.

Fixpoint str_eqb (a b : str) : bool :=
  match a, b with
  | [], [] => true
  | x :: a', y :: b' => ascii_eqb x y && str_eqb a' b'
  | _, _ => false
  end.

(** [x in l] for a list (or set) of strings *)
Definition mem (x : str) (l : list str) : bool := existsb (str_eqb x) l.

Fixpoint drop_while (p : ascii -> bool) (s : str) : str :=
  match s with
  | c :: s' => if p c then drop_while p s' else s
  | [] => []
  end.

Fixpoint take_while (p : ascii -> bool) (s : str) : str :=
  match s with
  | c :: s' => if p c then c :: take_while p s' else []
  | [] => []
  end.

(** [str.strip] *)
Definition strip (s : str) : str :=
  rev (drop_while is_space (rev (drop_while is_space s))).

(** [str.rstrip] *)
Definition rstrip (s : str) : str := rev (drop_while is_space (rev s)).

(** [s.startswith(p)] *)
Fixpoint starts_with (p s : str) : bool :=
  match p, s with
  | [], _ => true
  | x :: p', y :: s' => ascii_eqb x y && starts_with p' s'
  | _ :: _, [] => false
  end.

(** [s.endswith(p)] *)
Definition ends_with (p s : str) : bool := starts_with (rev p) (rev s).

(** [a in b] for strings *)
Fixpoint is_substring (a b : str) : bool :=
  starts_with a b ||
  match b with
  | [] => false
  | _ :: b' => is_substring a b'
  end.

(** [s[1:-1]] *)
Definition slice_1_m1 (s : str) : str := removelast (tl s).

Definition last_opt (prev : option ascii) (m : str) : option ascii :=
  match rev m with
  | c :: _ => Some c
  | [] => prev
  end.

Definition opt_test (p : ascii -> bool) (o : option ascii) : bool :=
  match o with Some c => p c | None => false end.

(** [str.isdigit] *)
Definition isdigit (s : str) : bool :=
  match s with [] => false | _ => forallb is_digit s end.

(** Decimal numerals: [int(text)] on a run of digits and [str(n)]. *)
Definition digit_val (c : ascii) : Z := Z.of_nat (code c - 48).

Definition int_of_digits (s : str) : Z :=
  fold_left (fun acc c => 10 * acc + digit_val c)%Z s 0%Z.

Definition digit_char (d : nat) : ascii := ascii_of_nat (48 + d).

Fixpoint nat_digits (fuel n : nat) (acc : str) : str :=
  match fuel with
  | 0 => acc
  | S f =>
      let acc' := digit_char (n mod 10) :: acc in
      if n <? 10 then acc' else nat_digits f (n / 10) acc'
  end.

Definition str_of_nat (n : nat) : str := nat_digits (S n) n [].

Definition str_of_Z (z : Z) : str :=
  if (z <? 0)%Z then $"-" ++ str_of_nat (Z.to_nat (- z)) else str_of_nat (Z.to_nat z).

(** ** The regular expressions of the source

    Patterns are quoted with blanks between their parts where needed.
    Every pattern of the source matches a non-empty text and backtracks
    in one way at most, so each is a function from the character before
    the current position ([None] at the start of the subject) and the rest
    of the subject to the matched text, its replacement and what follows
    the match. *)

Module Re.

Definition rule := option ascii -> str -> option (str * str * str).

(** "\b" between the previous character and the head of [s] *)
Definition word_boundary (prev : option ascii) (s : str) : bool :=
  xorb (opt_test is_word prev) (opt_test is_word (hd_error s)).

(** a literal, case-sensitive; the rest of the subject *)
Fixpoint lit (p s : str) : option str :=
  match p, s with
  | [], _ => Some s
  | x :: p', y :: s' => if ascii_eqb x y then lit p' s' else None
  | _ :: _, [] => None
  end.

(** a lower-case literal under [(?i)] *)
Fixpoint lit_ci (p s : str) : option str :=
  match p, s with
  | [], _ => Some s
  | x :: p', y :: s' => if ascii_eqb x (lower_char y) then lit_ci p' s' else None
  | _ :: _, [] => None
  end.

(** "\s*": what follows the longest run of blanks *)
Definition spaces0 (s : str) : str := drop_while is_space s.

(** "\s+" *)
Definition spaces1 (s : str) : option str :=
  match s with
  | c :: _ => if is_space c then Some (drop_while is_space s) else None
  | [] => None
  end.

(** "(\d+)": the digits and the rest *)
Definition digits1 (s : str) : option (str * str) :=
  match take_while is_digit s with
  | [] => None
  | d => Some (d, drop_while is_digit s)
  end.

(** [re.sub(pattern, repl, s)] *)
Fixpoint sub_loop (r : rule) (fuel : nat) (prev : option ascii) (s : str) : str :=
  match fuel, s with
  | S f, c :: s' =>
      match r prev s with
      | Some (x :: m, rep, rest) => rep ++ sub_loop r f (last_opt prev (x :: m)) rest
      | _ => c :: sub_loop r f (Some c) s'
      end
  | _, _ => s
  end.

Definition sub (r : rule) (s : str) : str := sub_loop r (length s) None s.

(** [re.sub(pattern, repl, s, count=1)] *)
Fixpoint sub_first (r : rule) (prev : option ascii) (s : str) : str :=
  match s with
  | c :: s' =>
      match r prev s with
      | Some (_ :: _, rep, rest) => rep ++ rest
      | _ => c :: sub_first r (Some c) s'
      end
  | [] => []
  end.

(** [re.search(pattern, s) is not None] *)
Fixpoint search_loop (r : rule) (prev : option ascii) (s : str) : bool :=
  match s with
  | c :: s' =>
      match r prev s with
      | Some (_ :: _, _, _) => true
      | _ => search_loop r (Some c) s'
      end
  | [] => false
  end.

Definition search (r : rule) (s : str) : bool := search_loop r None s.

(** [re.split(pattern, s)] for a pattern without groups *)
Fixpoint split_loop (r : rule) (fuel : nat) (prev : option ascii)
         (cur : str) (s : str) : list str :=
  match fuel, s with
  | S f, c :: s' =>
      match r prev s with
      | Some (x :: m, _, rest) => cur :: split_loop r f (last_opt prev (x :: m)) [] rest
      | _ => split_loop r f (Some c) (cur ++ [c]) s'
      end
  | _, _ => [cur ++ s]
  end.

Definition split (r : rule) (s : str) : list str :=
  split_loop r (length s) None [] s.

(** [re.split(pattern, s, maxsplit=1)] for a pattern that is one group:
    what comes before the first match, the match and what follows it;
    [None] when there is no match, where [re.split] returns [[s]] *)
Fixpoint split_first (r : rule) (prev : option ascii) (cur : str) (s : str)
  : option (str * str * str) :=
  match s with
  | c :: s' =>
      match r prev s with
      | Some (x :: m, _, rest) => Some (cur, x :: m, rest)
      | _ => split_first r (Some c) (cur ++ [c]) s'
      end
  | [] => None
  end.

(** [re.findall(pattern, s)]: the replacement slot carries the group *)
Fixpoint findall_loop (r : rule) (fuel : nat) (prev : option ascii) (s : str)
  : list str :=
  match fuel, s with
  | S f, c :: s' =>
      match r prev s with
      | Some (x :: m, g, rest) => g :: findall_loop r f (last_opt prev (x :: m)) rest
      | _ => findall_loop r f (Some c) s'
      end
  | _, _ => []
  end.

Definition findall (r : rule) (s : str) : list str :=
  findall_loop r (length s) None s.

End Re.

Definition upto (s rest : str) : str := firstn (length s - length rest) s.

Definition is_empty (s : str) : bool := match s with [] => true | _ => false end.

Definition is_empty_list {A : Type} (l : list A) : bool :=
  match l with [] => true | _ => false end.

Definition bind {A B : Type} (o : option A) (k : A -> option B) : option B :=
  match o with Some a => k a | None => None end.

Notation "'do' x <- e ; k" := (bind e (fun x => k))
  (at level 10, x pattern, e at level 99, k at level 200, only parsing).

(** [sep.join(parts)] *)
Fixpoint join (sep : str) (parts : list str) : str :=
  match parts with
  | [] => []
  | [p] => p
  | p :: ps => p ++ sep ++ join sep ps
  end.

(** Python dictionaries with string keys, in insertion order *)
Fixpoint dict_set {A : Type} (k : str) (v : A) (d : list (str * A)) : list (str * A) :=
  match d with
  | [] => [(k, v)]
  | (k', v') :: d' => if str_eqb k k' then (k, v) :: d' else (k', v') :: dict_set k v d'
  end.

Definition dict_of {A : Type} (items : list (str * A)) : list (str * A) :=
  fold_left (fun d kv => dict_set (fst kv) (snd kv) d) items [].

(** ** The part of sqlglot's expression trees that the source touches

    An expression is an instance of a class with a dictionary [args] from
    keys to children; a leaf (identifier, literal) carries its text.  The
    source reads trees through [find_all], [args.get], [name] and [set]. *)

Module SqlGlot.

Inductive Class : Type :=
  | Select | Union | With | Subquery | Table | Column
  | Identifier (quoted : bool) | Literal (is_string : bool) | Star | Null | Var
  | Alias | From | Join | Where | Group | Having | Order | Ordered | Limit | Offset
  | Window | Count | Sum | Avg | Min | Max
  | And | Or | Not | Paren | EQ | Is | Anonymous | Func.

Inductive Expression : Type :=
  Exp (cls : Class) (text : str) (args : list (str * list Expression))
      (comments : list str).

Definition cls (e : Expression) : Class := let 'Exp c _ _ _ := e in c.
Definition text (e : Expression) : str := let 'Exp _ t _ _ := e in t.
Definition args (e : Expression) := let 'Exp _ _ a _ := e in a.
Definition comments (e : Expression) : list str := let 'Exp _ _ _ c := e in c.

Fixpoint lookup {A : Type} (k : str) (d : list (str * A)) : option A :=
  match d with
  | [] => None
  | (k', v) :: d' => if str_eqb k k' then Some v else lookup k d'
  end.

Fixpoint remove_key {A : Type} (k : str) (d : list (str * A)) : list (str * A) :=
  match d with
  | [] => []
  | (k', v) :: d' => if str_eqb k k' then remove_key k d' else (k', v) :: remove_key k d'
  end.

(** [e.args.get(k)]; no child and [None] are both the empty list *)
Definition arg (e : Expression) (k : str) : list Expression :=
  match lookup k (args e) with Some v => v | None => [] end.

(** [e.set(k, None)] *)
Definition unset (k : str) (e : Expression) : Expression :=
  let 'Exp c t a cm := e in Exp c t (remove_key k a) cm.

(** [e.set(k, v)]: the value of a key that is there is replaced in its
    place, a new key comes last *)
Definition set (k : str) (v : list Expression) (e : Expression) : Expression :=
  let 'Exp c t a cm := e in Exp c t (dict_set k v a) cm.

(** [e.this] *)
Definition this (e : Expression) : option Expression := hd_error (arg e $"this").

(** an optional child as the value of a key *)
Definition child (o : option Expression) : list Expression :=
  match o with Some e => [e] | None => [] end.

(** [Expression.text(key)] *)
Definition text_of (e : Expression) (key : str) : str :=
  match arg e key with
  | [Exp (Identifier _) t _ _] => t
  | [Exp (Literal _) t _ _] => t
  | [Exp Var t _ _] => t
  | [Exp Star _ _ _] => $"*"
  | [Exp Null _ _ _] => $"NULL"
  | _ => []
  end.

(** [e.name] *)
Definition name (e : Expression) : str := text_of e $"this".

(** [e.walk()]: the node and all its descendants.  The source only asks
    whether a class occurs, collects sets, or updates every node found,
    so the order of the walk does not matter to it. *)
Fixpoint walk (e : Expression) : list Expression :=
  match e with
  | Exp _ _ a _ =>
      e :: flat_map (fun kv => flat_map walk (snd kv)) a
  end.

(** [e.find_all(cls)] with the class given as a test *)
Definition find_all (is_cls : Class -> bool) (e : Expression) : list Expression :=
  filter (fun n => is_cls (cls n)) (walk e).

Definition is_Select (c : Class) : bool := match c with Select => true | _ => false end.
Definition is_Union (c : Class) : bool := match c with Union => true | _ => false end.
Definition is_With (c : Class) : bool := match c with With => true | _ => false end.
Definition is_Table (c : Class) : bool := match c with Table => true | _ => false end.
Definition is_Column (c : Class) : bool := match c with Column => true | _ => false end.
Definition is_Identifier (c : Class) : bool :=
  match c with Identifier _ => true | _ => false end.
Definition is_Alias (c : Class) : bool := match c with Alias => true | _ => false end.
Definition is_Join (c : Class) : bool := match c with Join => true | _ => false end.
Definition is_Where (c : Class) : bool := match c with Where => true | _ => false end.
Definition is_Group (c : Class) : bool := match c with Group => true | _ => false end.
Definition is_Order (c : Class) : bool := match c with Order => true | _ => false end.
Definition is_Limit (c : Class) : bool := match c with Limit => true | _ => false end.
Definition is_agg (c : Class) : bool :=
  match c with Count | Sum | Avg | Min | Max => true | _ => false end.

(** [for s in e.find_all(exp.Select): if s.args.get(k) is not None: s.set(k, None)] *)
Fixpoint unset_in_selects (k : str) (e : Expression) : Expression :=
  match e with
  | Exp c t a cm =>
      let a' := map (fun kv => (fst kv, map (unset_in_selects k) (snd kv))) a in
      Exp c t (if is_Select c then remove_key k a' else a') cm
  end.

(** [e.bfs()]: the nodes level by level, the children of a node in the
    order of its [args] *)
Fixpoint level (k : nat) (e : Expression) : list Expression :=
  match k with
  | 0 => [e]
  | S k' => flat_map (fun kv => flat_map (level k') (snd kv)) (args e)
  end.

Fixpoint height (e : Expression) : nat :=
  match e with
  | Exp _ _ a _ => S (list_max (flat_map (fun kv => map height (snd kv)) a))
  end.

Definition bfs (e : Expression) : list Expression :=
  flat_map (fun k => level k e) (seq 0 (height e)).

(** [e.find(cls)]: the first node of the class in breadth-first order *)
Definition find (is_cls : Class -> bool) (e : Expression) : option Expression :=
  hd_error (filter (fun n => is_cls (cls n)) (bfs e)).

(** the level of the node that [e.find(cls)] returns *)
Definition first_depth (is_cls : Class -> bool) (e : Expression) : option nat :=
  List.find (fun k => existsb (fun n => is_cls (cls n)) (level k e))
            (seq 0 (height e)).

(** a list mapped from left to right with a state *)
Fixpoint map_acc {A S : Type} (g : A -> S -> A * S) (l : list A) (s : S)
  : list A * S :=
  match l with
  | [] => ([], s)
  | x :: l' =>
      let (x', s') := g x s in
      let (l'', s'') := map_acc g l' s' in
      (x' :: l'', s'')
  end.

(** [f] applied to the leftmost node of the class on level [k], unless
    [done] *)
Fixpoint update_level (is_cls : Class -> bool) (f : Expression -> Expression)
         (k : nat) (e : Expression) (done : bool) : Expression * bool :=
  match k with
  | 0 => if negb done && is_cls (cls e) then (f e, true) else (e, done)
  | S k' =>
      let 'Exp c t a cm := e in
      let (a', done') :=
        map_acc (fun kv d =>
                   let (es, d') := map_acc (update_level is_cls f k') (snd kv) d in
                   ((fst kv, es), d'))
                a done in
      (Exp c t a' cm, done')
  end.

(** [n = e.find(cls)] followed by an update of [n] in place: the tree
    with [f] applied to that node *)
Definition update_first (is_cls : Class -> bool) (f : Expression -> Expression)
           (e : Expression) : Expression :=
  match first_depth is_cls e with
  | Some k => fst (update_level is_cls f k e false)
  | None => e
  end.

(** What the source asks of the library.  [None] stands for a raised
    exception. *)
Record Lib : Type := {
    (** [sqlglot.parse_one(sql, read=dialect)] *)
    parse_one : str -> str -> option Expression;
    (** [e.sql(dialect=dialect)]; [None] when the generator raises *)
    sql : Expression -> str -> option str;
    (** [str(e)] *)
    __str__ : Expression -> str;
    (** the name of [e.alias] when [e.alias] is an [exp.Identifier] *)
    alias_identifier : Expression -> option str;
    (** the text that [join.on] yields for a [Join] node, when truthy *)
    join_on : Expression -> option str;
    (** [exp.and_] on its operands, an operand being [None] where Python
        has [None] *)
    and_ : list (option Expression) -> option Expression
  }.

End SqlGlot.

(** ** ast_validator.py *)

Module AstValidator.

Import Re SqlGlot.

Inductive error : Type :=
  | Parse_failed
  | Missing_table (t : str)
  | Missing_join (j : str)
  | Missing_predicate (p : str)
  | Unauthorized_table (t : str)
  | Unauthorized_column (c : str).

Record ASTValidationResult : Type := {
    passed : bool;
    errors : list error;
    missing_items : list str
  }.

(** "\b\w+\." replaced by the empty string *)
Definition table_prefix : rule := fun prev s =>
  if word_boundary prev s then
    match take_while is_word s, drop_while is_word s with
    | x :: w, dot :: rest =>
        if ascii_eqb dot "." then Some ((x :: w) ++ [dot], [], rest) else None
    | _, _ => None
    end
  else None.

Definition is_ident_start (c : ascii) : bool := is_lower c || (code c =? 95).
Definition is_ident_char (c : ascii) : bool :=
  is_lower c || is_digit c || (code c =? 95).

(** the group "( [a-z_] [a-z0-9_]* )" *)
Definition ident (s : str) : option (str * str) :=
  match s with
  | c :: s' =>
      if is_ident_start c
      then Some (c :: take_while is_ident_char s', drop_while is_ident_char s')
      else None
  | [] => None
  end.

(** "\bnot \s+ ( [a-z_] [a-z0-9_]* ) \s+ is \s+ null\b" replaced by "\1 is not null" *)
Definition not_is_null : rule := fun prev s =>
  if word_boundary prev s then
    do r1 <- lit $"not" s;
    do r2 <- spaces1 r1;
    do (x, r3) <- ident r2;
    do r4 <- spaces1 r3;
    do r5 <- lit $"is" r4;
    do r6 <- spaces1 r5;
    do r7 <- lit $"null" r6;
    if opt_test is_word (hd_error r7) then None
    else Some (upto s r7, x ++ $" is not null", r7)
  else None.

(** "\bnot \s+ ( [a-z_] [a-z0-9_]* ) \s+ is \s+ not \s+ null\b" replaced by "\1 is null" *)
Definition not_is_not_null : rule := fun prev s =>
  if word_boundary prev s then
    do r1 <- lit $"not" s;
    do r2 <- spaces1 r1;
    do (x, r3) <- ident r2;
    do r4 <- spaces1 r3;
    do r5 <- lit $"is" r4;
    do r6 <- spaces1 r5;
    do r7 <- lit $"not" r6;
    do r8 <- spaces1 r7;
    do r9 <- lit $"null" r8;
    if opt_test is_word (hd_error r9) then None
    else Some (upto s r9, x ++ $" is null", r9)
  else None.

(** "\s+" replaced by one space *)
Definition blanks : rule := fun _ s =>
  match s with
  | c :: _ =>
      if is_space c then Some (take_while is_space s, $" ", drop_while is_space s)
      else None
  | [] => None
  end.

Definition normalize_predicate (predicate : str) : str :=
  let s := lower predicate in
  let s := sub table_prefix s in
  let s := sub not_is_null s in
  let s := sub not_is_not_null s in
  sub blanks (strip s).

(** "(?i)\band\b" *)
Definition and_word : rule := fun prev s =>
  if word_boundary prev s then
    do rest <- lit_ci $"and" s;
    if opt_test is_word (hd_error rest) then None else Some (upto s rest, [], rest)
  else None.

(** the body of the loop over the parts *)
Definition strip_one_paren (p : str) : str :=
  let s := strip p in
  if starts_with $"(" s && ends_with $")" s then strip (slice_1_m1 s) else s.

Definition decompose_predicate_to_atoms (predicate : str) : list str :=
  match predicate with
  | [] => []
  | _ =>
      filter (fun s => negb (is_empty s))
             (map strip_one_paren (split and_word predicate))
  end.

(** "\s*=\s*" replaced by "=" *)
Definition equals_sign : rule := fun _ s =>
  match spaces0 s with
  | c :: rest =>
      if ascii_eqb c "=" then Some (upto s (spaces0 rest), $"=", spaces0 rest) else None
  | [] => None
  end.

Definition normalize_join_condition (join_condition : str) : str :=
  let normalized := sub table_prefix (lower join_condition) in
  let normalized := sub equals_sign normalized in
  sub blanks (strip normalized).

Definition check_predicate_presence (where_conditions : list str)
           (required_predicate : str) : bool :=
  match decompose_predicate_to_atoms required_predicate with
  | [] => false
  | atoms =>
      forallb (fun atom =>
                 let atom_norm := normalize_predicate atom in
                 existsb (fun condition =>
                            is_substring atom_norm (normalize_predicate condition))
                         where_conditions)
              atoms
  end.

Definition check_join_presence (join_conditions : list str) (required_join : str)
  : bool :=
  let required_norm := normalize_join_condition required_join in
  existsb (fun j => is_substring required_norm (normalize_join_condition j))
          join_conditions.

Section WithLibrary.

Variable lib : Lib.

Definition extract_table_references (expr : Expression) : list str :=
    flat_map (fun table =>
                match name table with
                | [] => []
                | table_name => [lower table_name]
                end)
             (find_all is_Table expr).

Definition extract_column_references (expr : Expression) : list str :=
    flat_map (fun col =>
                match name col with
                | [] => []
                | col_name => [lower col_name]
                end)
             (find_all is_Column expr).

Definition extract_join_conditions (expr : Expression) : list str :=
    flat_map (fun j =>
                match join_on lib j with
                | Some t => [lower t]
                | None => []
                end)
             (find_all is_Join expr).

Definition extract_where_conditions (expr : Expression) : list str :=
    flat_map (fun w =>
                match arg w $"this" with
                | this :: _ =>
                    match sql lib this $"mysql" with
                    | Some condition => [lower condition]
                    | None => [lower (__str__ lib this)]
                    end
                | [] => []
                end)
             (find_all is_Where expr).

Definition result_of (errs : list error) (missing : list str) : ASTValidationResult :=
    {| passed := is_empty_list errs; errors := errs; missing_items := missing |}.

Definition validate_must_tables_ast (expr : Expression) (must_tables : list str)
    : ASTValidationResult :=
    let used_tables := extract_table_references expr in
    let missing_tables :=
      filter (fun must_table => negb (mem (lower must_table) used_tables)) must_tables in
    result_of (map Missing_table missing_tables) missing_tables.

Definition validate_must_joins_ast (expr : Expression) (must_joins : list str)
    : ASTValidationResult :=
    let join_conditions := extract_join_conditions expr in
    let missing_joins :=
      filter (fun must_join => negb (check_join_presence join_conditions must_join))
             must_joins in
    result_of (map Missing_join missing_joins) missing_joins.

Definition validate_must_predicates_ast (expr : Expression)
             (must_predicates : list str) : ASTValidationResult :=
    let where_conditions := extract_where_conditions expr in
    let missing_predicates :=
      filter (fun must_pred => negb (check_predicate_presence where_conditions must_pred))
             must_predicates in
    result_of (map Missing_predicate missing_predicates) missing_predicates.

Definition validate_allowed_tables_ast (expr : Expression)
             (allowed_tables : list str) : ASTValidationResult :=
    let used_tables := extract_table_references expr in
    let allowed_lower := map lower allowed_tables in
    let unauthorized_tables :=
      filter (fun used_table => negb (mem used_table allowed_lower)) used_tables in
    result_of (map Unauthorized_table unauthorized_tables) unauthorized_tables.

(** the set built by the first loop: bare and table-prefixed forms *)
Definition all_allowed_columns (allowed_columns : list (str * list str)) : list str :=
    flat_map (fun tc =>
                flat_map (fun col =>
                            [lower col; lower (fst tc) ++ $"." ++ lower col])
                         (snd tc))
             allowed_columns.

Definition table_column_map (allowed_columns : list (str * list str))
    : list (str * list str) :=
    map (fun tc => (lower (fst tc), map lower (snd tc))) allowed_columns.

Definition validate_allowed_columns_ast (expr : Expression)
             (allowed_columns : list (str * list str)) : ASTValidationResult :=
    let used_columns := extract_column_references expr in
    let unauthorized_columns :=
      filter (fun used_col =>
                negb (mem used_col (all_allowed_columns allowed_columns))
                && negb (existsb (fun tc => mem used_col (snd tc))
                                 (table_column_map allowed_columns)))
             used_columns in
    result_of (map Unauthorized_column unauthorized_columns) unauthorized_columns.

(** [if xs: r = check(expr, xs); if not r.passed: collect] *)
Definition when_given {A : Type} (xs : list A) (r : ASTValidationResult)
    : ASTValidationResult :=
    match xs with
    | [] => result_of [] []
    | _ => r
    end.

Definition comprehensive_ast_validation (sql_text : str)
             (must_tables must_joins must_predicates allowed_tables : list str)
             (allowed_columns : list (str * list str)) : ASTValidationResult :=
    match parse_one lib sql_text $"mysql" with
    | None => {| passed := false; errors := [Parse_failed]; missing_items := [] |}
    | Some expr =>
        let r1 := when_given must_tables (validate_must_tables_ast expr must_tables) in
        let r2 := when_given must_joins (validate_must_joins_ast expr must_joins) in
        let r3 := when_given must_predicates
                             (validate_must_predicates_ast expr must_predicates) in
        let r4 := when_given allowed_tables
                             (validate_allowed_tables_ast expr allowed_tables) in
        let r5 := when_given allowed_columns
                             (validate_allowed_columns_ast expr allowed_columns) in
        result_of (errors r1 ++ errors r2 ++ errors r3 ++ errors r4 ++ errors r5)
                  (missing_items r1 ++ missing_items r2 ++ missing_items r3)
    end.

End WithLibrary.

(** the suggestions of [suggest_repair_actions]: what to add, by kind *)
Inductive action : Type :=
| Add_join (missing_item : str)
| Add_where (missing_item : str)
| Include_table (missing_item : str).

Definition predicate_operators : list str :=
  [$"is not null"; $"="; $">"; $"<"; $"like"].

Definition suggest_repair_actions (validation_result : ASTValidationResult)
  : list action :=
  map (fun missing_item =>
         if is_substring $"=" missing_item then Add_join missing_item
         else if existsb (fun op => is_substring op (lower missing_item))
                         predicate_operators
              then Add_where missing_item
              else Include_table missing_item)
      (missing_items validation_result).

End AstValidator.

(** ** Checks shared by the validation engine and the Guard *)

Module Checks.

Import Re.

(** "(?i)select\s*\*" (the pattern ends with an escaped star) *)
Definition select_star : rule := fun _ s =>
  do r1 <- lit_ci $"select" s;
  match spaces0 r1 with
  | c :: rest => if ascii_eqb c "*" then Some (upto s rest, [], rest) else None
  | [] => None
  end.

(** "specific_\w+" under re.I *)
Definition placeholder : rule := fun _ s =>
  do r1 <- lit_ci $"specific_" s;
  match take_while is_word r1 with
  | [] => None
  | _ => Some (upto s (drop_while is_word r1), [], drop_while is_word r1)
  end.

(** the class from U+4E00 to U+9FA5 on UTF-8 text: the three bytes from
    E4 B8 80 to E9 BE A5 *)
Definition cjk : rule := fun _ s =>
  match s with
  | b0 :: b1 :: b2 :: rest =>
      let n := (Z.of_nat (code b0) * 65536 + Z.of_nat (code b1) * 256
                + Z.of_nat (code b2))%Z in
      if (14989440 <=? n)%Z && (n <=? 15318693)%Z
         && in_range 128 191 b1 && in_range 128 191 b2
      then Some ([b0; b1; b2], [], rest)
      else None
  | _ => None
  end.

End Checks.

(** ** llm_planner.py: the plan and the planner's failure handling *)

Module Planner.

Import Re.

Inductive Task : Type :=
  | task_list | task_count | task_trend | task_rank | task_detail | task_filter
  | task_distribution.

Inductive Subject : Type :=
  | subj_app | subj_node | subj_account | subj_user | subj_endpoint | subj_service
  | subj_process | subj_risk.

Record PlanV1 : Type := {
    task : Task;
    subject : Subject;
    risk : list str;
    must_tables : list str;
    must_joins : list str;
    must_predicates : list str;
    should_predicates : list str;
    should_projection : list str;
    should_tables : list str;
    may_projection : list str;
    may_predicates : list str;
    timeframe_days : option Z;
    groupby : list str;
    aggregates : list str;
    alt_perspectives : list (list (str * str));
    confidence : Q;
    reasoning : str
  }.

(** [PlanV1()] *)
Definition PlanV1_default : PlanV1 := {|
    task := task_list;
    subject := subj_app;
    risk := [$"weak_password"];
    must_tables := [];
    must_joins := [];
    must_predicates := [];
    should_predicates := [];
    should_projection := [];
    should_tables := [];
    may_projection := [];
    may_predicates := [];
    timeframe_days := None;
    groupby := [];
    aggregates := [];
    alt_perspectives := [];
    confidence := (8 # 10)%Q;
    reasoning := []
  |}.

(** the compatibility properties *)
Definition required_tables (p : PlanV1) : list str := must_tables p.
Definition required_joins (p : PlanV1) : list str := must_joins p.
Definition required_predicates (p : PlanV1) : list str := must_predicates p.

Definition is_brace (open : bool) (c : ascii) : bool :=
  ascii_eqb c (if open then "{" else "}")%char.

(** [re.search] of "\{.*\}" under re.DOTALL: from the first opening brace
    to the last closing brace after it *)
Definition json_object (s : str) : option str :=
  match drop_while (fun c => negb (is_brace true c)) s with
  | [] => None
  | open :: t =>
      match drop_while (fun c => negb (is_brace false c)) (rev t) with
      | [] => None
      | body => Some (open :: rev body)
      end
  end.

Definition is_name_start (c : ascii) : bool :=
  is_upper c || is_lower c || (code c =? 95).

(** "\b ( [a-zA-Z_] [a-zA-Z0-9_]* ) \." with its group *)
Definition table_ref : rule := fun prev s =>
  if word_boundary prev s && opt_test is_name_start (hd_error s) then
    match drop_while is_word s with
    | dot :: rest =>
        if ascii_eqb dot "." then Some (upto s rest, take_while is_word s, rest) else None
    | [] => None
    end
  else None.

Definition _has_unknown_table_ref (allowed_tables : list str) (texts : list str) : bool :=
  existsb (fun text =>
             existsb (fun m => negb (mem m allowed_tables)) (findall table_ref text))
          texts.

Definition _filter_tables (allowed_tables : list str) (items : list str) : list str :=
  filter (fun x => mem x allowed_tables) items.

Definition with_tables (plan : PlanV1) (must should : list str) : PlanV1 := {|
    task := task plan;
    subject := subject plan;
    risk := risk plan;
    must_tables := must;
    must_joins := must_joins plan;
    must_predicates := must_predicates plan;
    should_predicates := should_predicates plan;
    should_projection := should_projection plan;
    should_tables := should;
    may_projection := may_projection plan;
    may_predicates := may_predicates plan;
    timeframe_days := timeframe_days plan;
    groupby := groupby plan;
    aggregates := aggregates plan;
    alt_perspectives := alt_perspectives plan;
    confidence := confidence plan;
    reasoning := reasoning plan
  |}.

(** the two assignments that clean a plan *)
Definition clean (allowed_tables : list str) (plan : PlanV1) : PlanV1 :=
  with_tables plan (_filter_tables allowed_tables (must_tables plan))
                   (_filter_tables allowed_tables (should_tables plan)).

(** the exceptions of a call to the model, by the [except] clause of
    [llm_plan] that they meet: [json.JSONDecodeError], any other instance
    of [Exception], and what is no instance of [Exception]
    ([KeyboardInterrupt], [SystemExit]) *)
Inductive raised : Type :=
  | JSONDecodeError
  | Exception_
  | BaseException_.

(** how a call to the model ends *)
Inductive reply : Type :=
  | Answers (raw_response : str)
  | Fails (e : raised).

(** how a call of [llm_plan] ends.  The clause for [json.JSONDecodeError]
    prints [raw_response]: where this variable is not bound yet, the clause
    itself raises [UnboundLocalError], which nothing catches. *)
Inductive outcome : Type :=
  | Returns (plan : PlanV1)
  | Raises_UnboundLocalError
  | Raises_BaseException.

Section LlmPlan.

(** the value of [json.loads] *)
Variable Json : Type.
(** [json.loads]; [None] for [json.JSONDecodeError] *)
Variable json_loads : str -> option Json.
(** the pydantic constructor on the parsed data; [None] for a
    validation error *)
Variable PlanV1_of : Json -> option PlanV1.
(** the table names read from [json.loads(schema_clip)] *)
Variable schema_tables : str -> option (list str).
(** [_chat_once(PROMPT_SYS, user_prompt, model, temperature)] *)
Variable _chat_once : str -> reply.
Variable _build_planner_prompt :
    str -> str -> str -> list str -> list (str * list str) -> list str -> str -> str.
(** the text of the retry hint for the allowed tables *)
Variable retry_hint_of : list str -> str.

(** what [json.loads] and the constructor make of a response text *)
Inductive parsed : Type :=
  | No_json
  | Bad_json
  | Schema_violation
  | Valid (plan : PlanV1).

Definition parse_response (raw_response : str) : parsed :=
    match json_object raw_response with
    | None => No_json
    | Some json_str =>
        match json_loads json_str with
        | None => Bad_json
        | Some plan_data =>
            match PlanV1_of plan_data with
            | None => Schema_violation
            | Some plan => Valid plan
            end
        end
    end.

Definition allowed_tables_of (schema_clip : str) (semantic_tables : list str)
    : list str :=
    match schema_tables schema_clip with
    | Some ts => ts
    | None => semantic_tables
    end.

Definition need_retry (allowed_tables : list str) (original plan : PlanV1) : bool :=
    (length (must_tables plan) <? length (must_tables original))
    || _has_unknown_table_ref allowed_tables (must_predicates plan)
    || _has_unknown_table_ref allowed_tables (must_joins plan).

Definition llm_plan (question kb_hint schema_clip : str) (semantic_tables : list str)
             (semantic_colmap : list (str * list str)) : outcome :=
    let allowed_tables := allowed_tables_of schema_clip semantic_tables in
    let user_prompt :=
      _build_planner_prompt question kb_hint schema_clip semantic_tables
                            semantic_colmap allowed_tables [] in
    match _chat_once user_prompt with
    | Fails JSONDecodeError => Raises_UnboundLocalError
    | Fails Exception_ => Returns PlanV1_default
    | Fails BaseException_ => Raises_BaseException
    | Answers raw_response =>
        match parse_response raw_response with
        | No_json => Returns PlanV1_default
        | Bad_json => Returns PlanV1_default
        | Schema_violation => Returns PlanV1_default
        | Valid original =>
            let plan := clean allowed_tables original in
            if need_retry allowed_tables original plan then
              let user_prompt_retry :=
                _build_planner_prompt question kb_hint schema_clip semantic_tables
                                      semantic_colmap allowed_tables
                                      (retry_hint_of allowed_tables) in
              match _chat_once user_prompt_retry with
              | Fails JSONDecodeError => Returns PlanV1_default
              | Fails Exception_ => Returns PlanV1_default
              | Fails BaseException_ => Raises_BaseException
              | Answers raw_response_retry =>
                  match parse_response raw_response_retry with
                  | No_json => Returns plan
                  | Bad_json => Returns PlanV1_default
                  | Schema_violation => Returns PlanV1_default
                  | Valid plan_retry => Returns (clean allowed_tables plan_retry)
                  end
              end
            else Returns plan
        end
    end.

End LlmPlan.

(** a response without a JSON object, with a text that is no JSON, or
    with JSON that is no plan *)
Definition unusable {Json : Type} (json_loads : str -> option Json)
           (PlanV1_of : Json -> option PlanV1) (raw : str) : Prop :=
  match parse_response json_loads PlanV1_of raw with
  | Valid _ => False
  | _ => True
  end.

(** [plan.projection_priority] *)
Definition projection_priority (p : PlanV1) : list str := should_projection p.

(** ** [apply_plan_to_context] *)

(** step 1: the required tables that are not there yet, appended in turn *)
Definition add_required (table_names required : list str) : list str :=
  fold_left (fun updated_tables table =>
               if mem table updated_tables then updated_tables
               else updated_tables ++ [table])
            required table_names.

(** [col.split('.', 1)] for a column that holds a dot *)
Fixpoint split_at_dot (before col : str) : option (str * str) :=
  match col with
  | [] => None
  | c :: rest =>
      if ascii_eqb c "." then Some (before, rest) else split_at_dot (before ++ [c]) rest
  end.

(** the priority columns that belong to a table *)
Definition table_priority_cols (priority : list str) (table : str) (cols : list str)
  : list str :=
  flat_map (fun col =>
              match split_at_dot [] col with
              | Some (t, c) => if str_eqb t table && mem c cols then [c] else []
              | None => if mem col cols then [col] else []
              end)
           priority.

(** step 2, for one table: priority columns first, eight columns at most *)
Definition reordered (priority : list str) (table : str) (cols : list str) : list str :=
  let priority_cols := table_priority_cols priority table cols in
  let other_cols := filter (fun c => negb (mem c priority_cols)) cols in
  firstn 8 (priority_cols ++ other_cols).

Definition apply_plan_to_context (plan : PlanV1) (table_names : list str)
           (selected_columns : list (str * list str)) (auto_evidence_parts : list str)
  : list str * list (str * list str) * list str :=
  let updated_tables := add_required table_names (required_tables plan) in
  let updated_columns :=
    match projection_priority plan with
    | [] => selected_columns
    | priority =>
        map (fun tc => (fst tc, reordered priority (fst tc) (snd tc))) selected_columns
    end in
  let updated_evidence :=
    auto_evidence_parts
    ++ match required_predicates plan with
       | [] => []
       | predicates => [$"业务约束: " ++ join $" AND " predicates]
       end
    ++ match required_joins plan with
       | [] => []
       | joins => [$"推荐连接: " ++ join $"; " joins]
       end
    ++ match timeframe_days plan with
       | Some days =>
           if (days =? 0)%Z then []
           else [$"时间范围: 最近" ++ str_of_Z days ++ $"天"]
       | None => []
       end
    ++ match groupby plan with
       | [] => []
       | fields => [$"分组字段: " ++ join $", " fields]
       end
    ++ match aggregates plan with
       | [] => []
       | functions => [$"聚合函数: " ++ join $", " functions]
       end in
  (updated_tables, updated_columns, updated_evidence).

End Planner.

(** ** llm_generator.py: the safety contract *)

Module Generator.

Record SafetyContract : Type := {
    allowed_tables : list str;
    allowed_columns : list (str * list str);
    must_tables : list str;
    must_joins : list str;
    must_predicates : list str;
    should_predicates : list str;
    should_projection : list str;
    may_predicates : list str;
    may_projection : list str;
    timeframe_days : option Z;
    forbidden_clauses : list str
  }.

(** [x or d] for an optional list: [None] and the empty list are falsy *)
Definition or_list (x : option (list str)) (d : list str) : list str :=
  match x with
  | Some (y :: l) => y :: l
  | _ => d
  end.

Definition make_safety_contract
           (allowed_tables : list str) (allowed_cols : list (str * list str))
           (must_tables must_joins must_predicates should_predicates
            should_projection may_predicates may_projection : option (list str))
           (timeframe_days : option Z)
           (forbidden_clauses required_joins required_predicates : option (list str))
  : SafetyContract := {|
  allowed_tables := allowed_tables;
  allowed_columns := allowed_cols;
  must_tables := or_list must_tables [];
  must_joins := or_list must_joins (or_list required_joins []);
  must_predicates := or_list must_predicates (or_list required_predicates []);
  should_predicates := or_list should_predicates [];
  should_projection := or_list should_projection [];
  may_predicates := or_list may_predicates [];
  may_projection := or_list may_projection [];
  timeframe_days := timeframe_days;
  forbidden_clauses := or_list forbidden_clauses [$"ORDER BY"]
|}.

End Generator.

(** ** validation_engine.py *)

Module ValidationEngine.

Import Re SqlGlot.

(** a candidate dictionary; [repaired] is [None] while the key is absent *)
Record Candidate : Type := {
    label : str;
    sql : str;
    checks : list (str * bool);
    confidence : Q;
    repaired : option bool
  }.

Inductive error : Type :=
  | Select_star
  | Chinese_content
  | Placeholder
  | Syntax_error
  | Ast (e : AstValidator.error).

Record ValidationResult : Type := {
    passed : bool;
    errors : list error
  }.

(** "(\w+)\." with its group, for [re.findall] *)
Definition word_dot_group : rule := fun _ s =>
  match take_while is_word s, drop_while is_word s with
  | x :: w, dot :: rest =>
      if ascii_eqb dot "." then Some ((x :: w) ++ [dot], x :: w, rest) else None
  | _, _ => None
  end.

(** "\w+\." replaced by the empty string *)
Definition word_dot : rule := fun _ s =>
  match take_while is_word s, drop_while is_word s with
  | x :: w, dot :: rest =>
      if ascii_eqb dot "." then Some ((x :: w) ++ [dot], [], rest) else None
  | _, _ => None
  end.

(** [a or b] on lists *)
Definition or_else {A : Type} (a b : list A) : list A :=
  match a with [] => b | _ => a end.

(** [enumerate(xs)] *)
Definition enumerate {A : Type} (xs : list A) : list (nat * A) :=
  combine (seq 0 (length xs)) xs.

(** [selection_key]: the tuple [(is_repaired, len(sql), idx)] *)
Definition selection_key (item : nat * Candidate) : bool * nat * nat :=
  let (idx, candidate) := item in
  (match repaired candidate with Some b => b | None => false end,
   length (sql candidate), idx).

Definition bool_ltb (a b : bool) : bool := negb a && b.

(** the order of Python tuples, [k1 <= k2] *)
Definition key_leb (k1 k2 : bool * nat * nat) : bool :=
  let '(r1, l1, i1) := k1 in
  let '(r2, l2, i2) := k2 in
  bool_ltb r1 r2
  || (Bool.eqb r1 r2 && ((l1 <? l2) || ((l1 =? l2) && (i1 <=? i2)))).

(** [list.sort(key=selection_key)] is stable: an item goes in front of
    the first item whose key is not smaller than its own *)
Fixpoint insert_by_key (x : nat * Candidate) (l : list (nat * Candidate))
  : list (nat * Candidate) :=
  match l with
  | [] => [x]
  | y :: l' =>
      if key_leb (selection_key x) (selection_key y) then x :: l
      else y :: insert_by_key x l'
  end.

Definition sort_by_key (l : list (nat * Candidate)) : list (nat * Candidate) :=
  fold_right insert_by_key [] l.

(** The result, and the argument list as the call leaves it: the sort
    is in place. *)
Definition deterministic_selection (candidates : list (nat * Candidate))
  : option Candidate * list (nat * Candidate) :=
  match candidates with
  | [] => (None, [])
  | _ =>
      let sorted := sort_by_key candidates in
      (option_map snd (hd_error sorted), sorted)
  end.

Definition repaired_with (new_sql : str) (c : Candidate) : Candidate := {|
    label := label c;
    sql := new_sql;
    checks := checks c;
    confidence := confidence c;
    repaired := Some true
  |}.

(** [list(set(xs))]: every element once.  Python lists a set in an order
    of its own; the elements are taken here in the order in which they
    first occur. *)
Fixpoint list_of_set (xs : list str) : list str :=
  match xs with
  | [] => []
  | x :: xs' => x :: filter (fun y => negb (str_eqb x y)) (list_of_set xs')
  end.

(** "(?i)\bwhere\b" *)
Definition where_word : rule := fun prev s =>
  if word_boundary prev s then
    do rest <- lit_ci $"where" s;
    if opt_test is_word (hd_error rest) then None else Some (upto s rest, [], rest)
  else None.

(** "w1 \s+ w2 \b" under (?i): what follows the match *)
Definition two_words (w1 w2 : str) (s : str) : option str :=
  do r1 <- lit_ci w1 s;
  do r2 <- spaces1 r1;
  do r3 <- lit_ci w2 r2;
  if opt_test is_word (hd_error r3) then None else Some r3.

(** "(?i)( \bgroup\s+by\b | \border\s+by\b | \blimit\b )" *)
Definition clause_keyword : rule := fun prev s =>
  if word_boundary prev s then
    match two_words $"group" $"by" s with
    | Some rest => Some (upto s rest, [], rest)
    | None =>
        match two_words $"order" $"by" s with
        | Some rest => Some (upto s rest, [], rest)
        | None =>
            do rest <- lit_ci $"limit" s;
            if opt_test is_word (hd_error rest) then None
            else Some (upto s rest, [], rest)
        end
    end
  else None.

Definition backslash : ascii := ascii_of_nat 92.

(** the "(p)" of the clause *)
Definition parenthesised (p : str) : str := $"(" ++ p ++ $")".

(** [" AND ".join(f"({p})" for p in predicates)] *)
Definition clause_of (predicates : list str) : str :=
  join $" AND " (map parenthesised predicates).

(** [exp.Where(this=e)] *)
Definition Where_of (e : option Expression) : Expression :=
  Exp Where [] [($"this", child e)] [].

(** [exp.Anonymous(this=pred)] *)
Definition Anonymous_of (pred : str) : Expression := Exp Anonymous pred [] [].

Section WithLibrary.

Variable lib : Lib.

(** What [re] makes of a replacement template that holds a backslash,
    for a pattern without groups: [None] when it raises [re.error] (an
    escape or a group reference that it refuses), and else the replacement
    as a function of the text matched.  A template without a backslash
    stands for itself. *)
Variable compile_template : str -> option (str -> str).

Definition template (repl : str) : option (str -> str) :=
    if existsb (ascii_eqb backslash) repl then compile_template repl
    else Some (fun _ => repl).

(** [re.sub(pattern, repl, s, count=1)]: the template is compiled first *)
Definition sub_first_template (r : rule) (repl : str) (s : str) : option str :=
    do expand <- template repl;
    match split_first r None [] s with
    | Some (before, m, rest) => Some (before ++ expand m ++ rest)
    | None => Some s
    end.

Definition inferred_tables (contract : Generator.SafetyContract) : list str :=
    flat_map (fun j =>
                filter (fun table => mem table (Generator.allowed_tables contract))
                       (findall word_dot_group j))
             (Generator.must_joins contract).

Definition must_tables_to_use (plan : Planner.PlanV1)
             (contract : Generator.SafetyContract) : list str :=
    let plan_must_tables :=
      or_else (Planner.must_tables plan) (Planner.required_tables plan) in
    let chosen := or_else plan_must_tables (Generator.must_tables contract) in
    match chosen, Generator.must_joins contract with
    | [], _ :: _ => list_of_set (inferred_tables contract)
    | _, _ => chosen
    end.

(** [comprehensive_ast_validation] catches the failure of the parser
    itself, and [extract_where_conditions] that of the generator: the
    two [except] branches of the source are not reached. *)
Definition validate_must_constraints (sql_text : str) (plan : Planner.PlanV1)
             (contract : Generator.SafetyContract) : ValidationResult :=
    let ast_result :=
      AstValidator.comprehensive_ast_validation lib sql_text
        (must_tables_to_use plan contract)
        (Generator.must_joins contract)
        (Generator.must_predicates contract)
        (Generator.allowed_tables contract)
        (Generator.allowed_columns contract) in
    {| passed := AstValidator.passed ast_result;
       errors := map Ast (AstValidator.errors ast_result) |}.

(** the body of the loop over the predicates: what one predicate adds to
    [new_conditions] *)
Definition condition_of (pred : str) : list (option Expression) :=
    match parse_one lib ($"SELECT * FROM dummy WHERE " ++ pred) $"mysql" with
    | Some pred_expr =>
        if is_Select (cls pred_expr) then
          match find is_Where pred_expr with
          | Some where_node => [this where_node]
          | None => []
          end
        else []
    | None => [Some (Anonymous_of pred)]
    end.

(** the first part of [_inject_missing_predicates], on the tree: [None]
    when the statement is no [Select] or when an exception is caught, and
    the second part takes over *)
Definition inject_in_tree (sql_text : str) (predicates : list str) : option str :=
    do parsed <- parse_one lib sql_text $"mysql";
    if is_Select (cls parsed) then
      let new_conditions := flat_map condition_of predicates in
      do parsed <-
        match find is_Where parsed, new_conditions with
        | _, [] => Some parsed
        | Some existing_where, _ =>
            do combined <- and_ lib (this existing_where :: new_conditions);
            Some (update_first is_Where (set $"this" [combined]) parsed)
        | None, [where_expr] => Some (set $"where" [Where_of where_expr] parsed)
        | None, _ =>
            do where_expr <- and_ lib new_conditions;
            Some (set $"where" [Where_of (Some where_expr)] parsed)
        end;
      SqlGlot.sql lib parsed $"mysql"
    else None.

(** the second part, on the text; [None] when [re.sub] raises *)
Definition inject_in_text (sql_text : str) (predicates : list str) : option str :=
    let clause := clause_of predicates in
    if search where_word sql_text then
      sub_first_template where_word ($"WHERE " ++ clause ++ $" AND ") sql_text
    else
      match split_first clause_keyword None [] sql_text with
      | None => Some (rstrip sql_text ++ $" WHERE " ++ clause)
      | Some (before, keyword, rest) =>
          Some (rstrip before ++ $" WHERE " ++ clause ++ $" " ++ keyword ++ rest)
      end.

(** [None] when the call raises *)
Definition _inject_missing_predicates (sql_text : str) (predicates : list str)
    : option str :=
    match predicates with
    | [] => Some sql_text
    | _ =>
        match inject_in_tree sql_text predicates with
        | Some repaired_sql => Some repaired_sql
        | None => inject_in_text sql_text predicates
        end
    end.

Definition _fallback_string_repair (sql_text : str) (must_predicates : list str)
    : option str :=
    let sql_lower := lower sql_text in
    let missing_predicates :=
      filter (fun must_pred =>
                negb (is_substring (sub word_dot (lower must_pred)) sql_lower))
             must_predicates in
    match missing_predicates with
    | [] => Some sql_text
    | _ => _inject_missing_predicates sql_text missing_predicates
    end.

(** the atoms that [minimal_repair] finds missing *)
Definition missing_atoms (existing_conditions must_predicates : list str) : list str :=
    flat_map (fun must_pred =>
                filter (fun atom =>
                          negb (AstValidator.check_predicate_presence
                                  existing_conditions atom))
                       (AstValidator.decompose_predicate_to_atoms must_pred))
             must_predicates.

(** the body of the [try] of [minimal_repair]; [None] when it raises *)
Definition repair_on_tree (sql_text : str) (must_predicates : list str) : option str :=
    do parsed_expr <- parse_one lib sql_text $"mysql";
    let existing_conditions := AstValidator.extract_where_conditions lib parsed_expr in
    match missing_atoms existing_conditions must_predicates with
    | [] => Some sql_text
    | missing_predicates => _inject_missing_predicates sql_text missing_predicates
    end.

(** [None] when the call raises: an exception of the [try] is caught, one
    of [_fallback_string_repair] is not *)
Definition minimal_repair (sql_text : str) (plan : Planner.PlanV1)
             (contract : Generator.SafetyContract) : option str :=
    match Generator.must_predicates contract with
    | [] => Some sql_text
    | must_predicates =>
        match repair_on_tree sql_text must_predicates with
        | Some repaired_sql => Some repaired_sql
        | None => _fallback_string_repair sql_text must_predicates
        end
    end.

Definition check_basic_sql_validity (sql_text : str) : ValidationResult :=
    let errs :=
      (if search Checks.select_star sql_text then [Select_star] else [])
      ++ (if search Checks.cjk sql_text then [Chinese_content] else [])
      ++ (if search Checks.placeholder sql_text then [Placeholder] else [])
      ++ (match parse_one lib sql_text $"mysql" with
          | Some _ => []
          | None => [Syntax_error]
          end) in
    {| passed := is_empty_list errs; errors := errs |}.

(** The branch that the body of the loop of [simple_candidate_filter]
    takes on one candidate; [Repair_raised] when [minimal_repair] raises. *)
Inductive verdict : Type :=
  | No_sql
  | Invalid_basic
  | Passed_as_is
  | Repaired_ok (repaired_sql : str)
  | Repair_failed (repaired_sql : str)
  | Repair_raised.

Definition judge (plan : Planner.PlanV1) (contract : Generator.SafetyContract)
             (candidate : Candidate) : verdict :=
    let sql_text := sql candidate in
    if is_empty sql_text then No_sql
    else if negb (passed (check_basic_sql_validity sql_text)) then Invalid_basic
    else if passed (validate_must_constraints sql_text plan contract) then Passed_as_is
    else
      match minimal_repair sql_text plan contract with
      | None => Repair_raised
      | Some repaired_sql =>
          if passed (validate_must_constraints repaired_sql plan contract)
          then Repaired_ok repaired_sql
          else Repair_failed repaired_sql
      end.

(** the loop over the candidates; [None] when a repair raises, which ends
    the loop and the call *)
Definition simple_candidate_filter (candidates : list Candidate)
             (plan : Planner.PlanV1) (contract : Generator.SafetyContract)
    : option (list (nat * Candidate)) :=
    fold_left (fun so_far ic =>
                 do valid_candidates <- so_far;
                 match judge plan contract (snd ic) with
                 | Passed_as_is => Some (valid_candidates ++ [ic])
                 | Repaired_ok repaired_sql =>
                     Some (valid_candidates
                           ++ [(fst ic, repaired_with repaired_sql (snd ic))])
                 | Repair_raised => None
                 | _ => Some valid_candidates
                 end)
              (enumerate candidates) (Some []).

(** the outer [None] when the call raises, the inner one when it returns
    [None] *)
Definition validate_and_select_best (candidates : list Candidate)
             (plan : Planner.PlanV1) (contract : Generator.SafetyContract)
    : option (option Candidate) :=
    do valid_candidates <- simple_candidate_filter candidates plan contract;
    match valid_candidates with
    | [] => Some None
    | _ => Some (fst (deterministic_selection valid_candidates))
    end.

End WithLibrary.

(** what the loop of the filter appends for a candidate, by its branch *)
Definition kept_as (v : verdict) (ic : nat * Candidate) : list (nat * Candidate) :=
  match v with
  | Passed_as_is => [ic]
  | Repaired_ok repaired_sql => [(fst ic, repaired_with repaired_sql (snd ic))]
  | _ => []
  end.

Definition raised (v : verdict) : bool :=
  match v with
  | Repair_raised => true
  | _ => false
  end.

(** the branches in which [minimal_repair] is called *)
Definition attempted (v : verdict) : Prop :=
  match v with
  | Repaired_ok _ | Repair_failed _ | Repair_raised => True
  | _ => False
  end.

(** keys, and lists in ascending order of their keys *)
Definition key := (bool * nat * nat)%type.

Definition le_all (x : nat * Candidate) (l : list (nat * Candidate)) : Prop :=
  Forall (fun y => key_leb (selection_key x) (selection_key y) = true) l.

Inductive sorted : list (nat * Candidate) -> Prop :=
| sorted_nil : sorted []
| sorted_cons : forall x l, le_all x l -> sorted l -> sorted (x :: l).

(** [_are_predicates_equivalent]: the predicates with blanks collapsed,
    and then with their table prefixes removed *)
Definition _are_predicates_equivalent (pred1 pred2 : str) : bool :=
  let p1 := sub AstValidator.blanks (lower (strip pred1)) in
  let p2 := sub AstValidator.blanks (lower (strip pred2)) in
  if str_eqb p1 p2 then true
  else
    let core1 := sub word_dot p1 in
    let core2 := sub word_dot p2 in
    str_eqb core1 core2.

End ValidationEngine.

(** ** The schema file: tables with their column names *)

Record table_def : Type := {
  table_name : str;
  table_columns : list str
}.

Definition m_schema_t := list table_def.

(** [s.split(sep)] for a one-character separator *)
Fixpoint split_char (sep : ascii) (cur : str) (s : str) : list str :=
  match s with
  | [] => [cur]
  | c :: s' =>
      if ascii_eqb c sep then cur :: split_char sep [] s'
      else split_char sep (cur ++ [c]) s'
  end.

(** ** sql_guard.py *)

Module SqlGuard.

Import Re SqlGlot.

Inductive SQLValidationError : Type :=
  | Chinese_content
  | Placeholder
  | Select_star
  | Parse_failed
  | Not_a_query
  | Unauthorized_tables (names : list str)
  | Unauthorized_columns (names : list str)
  | Rewrite_failed.

Inductive outcome : Type :=
  | Returns (sql_text : str)
  | Raises (e : SQLValidationError).

(** The process environment: the two variables the Guard reads, and the
    order in which the set [RESERVED_LIKE] happens to be iterated. *)
Record Env : Type := {
    SQL_PERMISSIVE_MODE : bool;
    SQL_PERMITTED_ALIASES : str;
    reserved_order : list str
  }.

Definition RESERVED_LIKE : list str := [$"check"; $"desc"; $"key"; $"user"].

Definition DEFAULT_DERIVED_ALIASES : list str :=
  [$"d"; $"date"; $"cnt"; $"count"; $"total"; $"num"; $"dt"; $"day"].

Definition backtick : ascii := "`"%char.

Definition _normalize (name : str) : str :=
  lower (filter (fun c => negb (ascii_eqb c backtick)) name).

Definition _get_permitted_aliases (env : Env) : list str :=
  let extra :=
    match SQL_PERMITTED_ALIASES env with
    | [] => []
    | env_val =>
        flat_map (fun s => match strip s with [] => [] | t => [lower t] end)
                 (split_char "," [] env_val)
    end in
  DEFAULT_DERIVED_ALIASES ++ extra.

Definition non_empty (names : list str) : list str :=
  filter (fun n => negb (is_empty n)) names.

Definition _collect_table_names (expression : Expression) : list str :=
  non_empty
    (map (fun t =>
            match arg t $"this" with
            | [Exp (Identifier _) id_text _ _] => _normalize id_text
            | _ => _normalize (name t)
            end)
         (find_all is_Table expression)).

Definition _collect_column_names (expression : Expression) : list str :=
  flat_map (fun c =>
              match arg c $"this" with
              | [Exp (Identifier _) id_text _ _] => [_normalize id_text]
              | _ => []
              end)
           (find_all is_Column expression).

(** "/\*.*?\*/" under re.S, replaced by one space *)
Fixpoint after_comment_end (s : str) : option str :=
  match s with
  | a :: ((b :: rest) as s') =>
      if ascii_eqb a "*" && ascii_eqb b "/" then Some rest else after_comment_end s'
  | _ => None
  end.

Definition block_comment : rule := fun _ s =>
  do r1 <- lit $"/*" s;
  do rest <- after_comment_end r1;
  Some (upto s rest, $" ", rest).

Definition is_newline (c : ascii) : bool := code c =? 10.

(** "--.*?$" under re.M, replaced by one space *)
Definition line_comment : rule := fun _ s =>
  do r1 <- lit $"--" s;
  let rest := drop_while (fun c => negb (is_newline c)) r1 in
  Some (upto s rest, $" ", rest).

Definition _remove_comments (sql_text : str) : str :=
  sub line_comment (sub block_comment sql_text).

(** ";\s*$" replaced by the empty string *)
Definition trailing_semicolon : rule := fun _ s =>
  match s with
  | c :: rest =>
      if ascii_eqb c ";" && forallb is_space rest then Some (s, [], []) else None
  | [] => None
  end.

Definition _strip_trailing_semicolon (sql_text : str) : str :=
  sub trailing_semicolon (strip sql_text).

(** "(?i)\blimit\b" *)
Definition limit_word : rule := fun prev s =>
  if word_boundary prev s then
    do rest <- lit_ci $"limit" s;
    if opt_test is_word (hd_error rest) then None else Some (upto s rest, [], rest)
  else None.

Definition _has_limit (sql_text : str) : bool := search limit_word sql_text.

Definition is_comma (c : ascii) : bool := ascii_eqb c ",".

(** "(?i)\blimit\s*(\d+)\s*,\s*(\d+)" with [repl_offset_count] *)
Definition limit_offset_count (max_limit : Z) : rule := fun prev s =>
  if word_boundary prev s then
    do r1 <- lit_ci $"limit" s;
    do (offset, r2) <- digits1 (spaces0 r1);
    match spaces0 r2 with
    | c :: r3 =>
        if is_comma c then
          do (count, r4) <- digits1 (spaces0 r3);
          Some (upto s r4,
                $"LIMIT " ++ str_of_Z (int_of_digits offset) ++ $", "
                 ++ str_of_Z (Z.min (int_of_digits count) max_limit),
                r4)
        else None
    | [] => None
    end
  else None.

(** the lookahead "\s*," *)
Definition comma_ahead (s : str) : bool := opt_test is_comma (hd_error (spaces0 s)).

(** "(?i)\blimit\s*(\d+)(?!\s*,)" with [repl_single].  When the longest
    run of digits is followed by a comma the engine gives the last digit
    back, and the lookahead then succeeds in front of that digit. *)
Definition limit_single (max_limit : Z) : rule := fun prev s =>
  if word_boundary prev s then
    do r1 <- lit_ci $"limit" s;
    do (count, r2) <- digits1 (spaces0 r1);
    if negb (comma_ahead r2) then
      Some (upto s r2, $"LIMIT " ++ str_of_Z (Z.min (int_of_digits count) max_limit), r2)
    else
      match rev count with
      | last_digit :: ((_ :: _) as shorter) =>
          Some (upto s (last_digit :: r2),
                $"LIMIT " ++ str_of_Z (Z.min (int_of_digits (rev shorter)) max_limit),
                last_digit :: r2)
      | _ => None
      end
  else None.

Definition _clamp_limit (sql_text : str) (max_limit : Z) : str :=
  let new_sql := sub (limit_offset_count max_limit) sql_text in
  sub (limit_single max_limit) new_sql.

Definition interval_units : list str :=
  [$"second"; $"minute"; $"hour"; $"day"; $"week"; $"month"; $"quarter"; $"year"].

(** the alternation of units: the first that matches *)
Fixpoint first_unit (units : list str) (s : str) : option (str * str) :=
  match units with
  | [] => None
  | u :: units' =>
      match lit_ci u s with
      | Some rest => Some (upto s rest, rest)
      | None => first_unit units' s
      end
  end.

(** "(?i)\bINTERVAL\s+'(\d+)'\s+(SECOND|MINUTE|HOUR|DAY|WEEK|MONTH|QUARTER|YEAR)"
    replaced by "INTERVAL \1 \2" *)
Definition interval_literal : rule := fun prev s =>
  if word_boundary prev s then
    do r1 <- lit_ci $"interval" s;
    do r2 <- spaces1 r1;
    do r3 <- lit $"'" r2;
    do (n, r4) <- digits1 r3;
    do r5 <- lit $"'" r4;
    do r6 <- spaces1 r5;
    do (unit, r7) <- first_unit interval_units r6;
    Some (upto s r7, $"INTERVAL " ++ n ++ $" " ++ unit, r7)
  else None.

Definition _fix_interval_literals (sql_text : str) : str :=
  sub interval_literal sql_text.

(** a character of the class "[`\w]" *)
Definition is_guard (c : ascii) : bool := is_word c || ascii_eqb c backtick.

(** "(?i)(?<![`\w])kw(?![`\w])", replaced by the match between backticks *)
Definition reserved (kw : str) : rule := fun prev s =>
  if opt_test is_guard prev then None
  else
    do rest <- lit_ci kw s;
    if opt_test is_guard (hd_error rest) then None
    else Some (upto s rest, [backtick] ++ upto s rest ++ [backtick], rest).

(** the loop over the set, in the order the environment gives *)
Definition _quote_reserved_identifiers (env : Env) (sql_text : str) : str :=
  fold_left (fun s kw => sub (reserved kw) s) (reserved_order env) sql_text.

(** "`\s*asc\s*`" and "`\s*desc\s*`" under re.I *)
Definition quoted_direction (word upper : str) : rule := fun _ s =>
  do r1 <- lit [backtick] s;
  do r2 <- lit_ci word (spaces0 r1);
  do r3 <- lit [backtick] (spaces0 r2);
  Some (upto s r3, upper, r3).

Definition _unquote_order_dir (sql_text : str) : str :=
  sub (quoted_direction $"desc" $"DESC") (sub (quoted_direction $"asc" $"ASC") sql_text).

(** the four rewritings applied to every generated text *)
Definition normalise_text (env : Env) (base_sql : str) : str :=
  _unquote_order_dir
    (_quote_reserved_identifiers env
       (_fix_interval_literals (_strip_trailing_semicolon base_sql))).

Section WithLibrary.

Variable lib : Lib.

Definition alias_names (e : Expression) : list str :=
    match alias_identifier lib e with
    | Some a_name => match a_name with [] => [] | _ => [_normalize a_name] end
    | None => []
    end.

Definition _collect_select_aliases (expression : Expression) : list str :=
    flat_map (fun sel => flat_map alias_names (arg sel $"expressions"))
             (find_all is_Select expression)
    ++ flat_map alias_names (find_all is_Alias expression).

Definition schema_columns (m_schema : m_schema_t) : list (str * list str) :=
    dict_of (map (fun t => (_normalize (table_name t),
                            map _normalize (table_columns t)))
                 m_schema).

Definition contract_cols (allowed_columns_by_table : list (str * list str))
             (tbl : str) : list str :=
    flat_map (fun tcs =>
                if str_eqb (_normalize (fst tcs)) tbl
                then map _normalize (snd tcs) else [])
             allowed_columns_by_table.

(** the column sets after narrowing by the contract *)
Definition table_to_columns (m_schema : m_schema_t)
             (allowed_columns_by_table : list (str * list str))
    : list (str * list str) :=
    match allowed_columns_by_table with
    | [] => schema_columns m_schema
    | _ =>
        map (fun tc =>
               match contract_cols allowed_columns_by_table (fst tc) with
               | [] => tc
               | cc => (fst tc, filter (fun c => mem c cc) (snd tc))
               end)
            (schema_columns m_schema)
    end.

Definition unknown_columns (env : Env) (expr : Expression) (m_schema : m_schema_t)
             (allowed_columns_by_table : list (str * list str)) : list str :=
    let used_columns := _collect_column_names expr in
    let select_aliases := _collect_select_aliases expr in
    let all_allowed_columns :=
      flat_map snd (table_to_columns m_schema allowed_columns_by_table) in
    filter (fun c =>
              negb (mem c all_allowed_columns)
              && negb (mem c select_aliases)
              && negb (mem c (_get_permitted_aliases env))
              && negb (isdigit c))
           used_columns.

Definition is_single_row_agg (expr2 : Expression) : bool :=
    is_Select (cls expr2)
    && negb (is_empty_list (find_all is_agg expr2))
    && is_empty_list (find_all is_Group expr2).

(** the LIMIT policy on the normalised text *)
Definition limit_policy (env : Env) (dialect norm_sql : str) (max_limit : Z) : str :=
    let by_text :=
      if negb (_has_limit norm_sql)
      then norm_sql ++ $" LIMIT " ++ str_of_Z max_limit
      else _clamp_limit norm_sql max_limit in
    match parse_one lib norm_sql dialect with
    | Some expr2 =>
        if is_single_row_agg expr2
        then
          match sql lib (unset_in_selects $"limit" expr2) dialect with
          | Some cleaned => normalise_text env cleaned
          | None => norm_sql
          end
        else by_text
    | None => by_text
    end.

Definition validate_and_rewrite (env : Env) (sql_text dialect : str)
             (m_schema : m_schema_t) (max_limit : Z) (keep_order_by : bool)
             (allowed_columns_by_table : list (str * list str)) : outcome :=
    let sql_text := _remove_comments sql_text in
    if search Checks.cjk sql_text then Raises Chinese_content
    else if search Checks.placeholder sql_text then Raises Placeholder
    else if search Checks.select_star sql_text then Raises Select_star
    else
      match parse_one lib sql_text dialect with
      | None => Raises Parse_failed
      | Some expr =>
          if negb (is_Select (cls expr) || is_Union (cls expr) || is_With (cls expr))
          then Raises Not_a_query
          else
            let allowed_tables := map (fun t => _normalize (table_name t)) m_schema in
            let unknown_tables :=
              filter (fun t => negb (mem t allowed_tables)) (_collect_table_names expr) in
            match unknown_tables with
            | _ :: _ => Raises (Unauthorized_tables unknown_tables)
            | [] =>
                match unknown_columns env expr m_schema allowed_columns_by_table with
                | (_ :: _) as unknown_cols => Raises (Unauthorized_columns unknown_cols)
                | [] =>
                    let permissive_mode := SQL_PERMISSIVE_MODE env in
                    let expr :=
                      if negb permissive_mode && negb keep_order_by
                      then unset_in_selects $"order" expr else expr in
                    match sql lib expr dialect with
                    | None => Raises Rewrite_failed
                    | Some base_sql =>
                        let norm_sql := normalise_text env base_sql in
                        if permissive_mode then Returns norm_sql
                        else Returns (limit_policy env dialect norm_sql max_limit)
                    end
                end
            end
      end.

End WithLibrary.

End SqlGuard.

(** ** run_nl2sql_clean.py: the dynamic top-K of the lexical shortlister *)

Module Shortlister.

Definition filter_m_schema (m_schema : m_schema_t) (table_names : list str)
  : m_schema_t :=
  filter (fun t => mem (table_name t) table_names) m_schema.

(** [scored.sort(key=lambda x: x[1], reverse=True)]: stable, highest
    score first *)
Fixpoint insert_desc (x : str * Q) (l : list (str * Q)) : list (str * Q) :=
  match l with
  | [] => [x]
  | y :: l' =>
      if Qle_bool (snd y) (snd x) then x :: l else y :: insert_desc x l'
  end.

Definition sort_desc (l : list (str * Q)) : list (str * Q) :=
  fold_right insert_desc [] l.

Definition high_score_count (scored : list (str * Q)) : nat :=
  length (filter (fun ns => Qle_bool 5 (snd ns)) scored).

(** the value of [dynamic_topk] after the two tests *)
Definition dynamic_topk (topk : Z) (scored : list (str * Q)) : Z :=
  let len := Z.of_nat (length scored) in
  let max_score := match scored with ns :: _ => snd ns | [] => 0%Q end in
  let k := if Qle_bool 10 max_score then Z.min (topk + 4) len else topk in
  if 2 <=? high_score_count scored then Z.min (topk + 2) len else k.

Section Scoring.

(** [score_table_simple], a float; the scores are only compared here *)
Variable score_table_simple : table_def -> list str -> Q.

Definition auto_select_tables (m_schema : m_schema_t) (tokens : list str) (topk : Z)
    : m_schema_t * list (str * Q) :=
    let scored :=
      sort_desc (map (fun t => (table_name t, score_table_simple t tokens)) m_schema) in
    let kept := firstn (Z.to_nat (Z.max 1 (dynamic_topk topk scored))) scored in
    (filter_m_schema m_schema (map fst kept), kept).

End Scoring.

(** the scored list of the source *)
Definition scored_of (score : table_def -> list str -> Q) (m_schema : m_schema_t)
           (tokens : list str) : list (str * Q) :=
  sort_desc (map (fun t => (table_name t, score t tokens)) m_schema).

End Shortlister.

(** ** The wording of the specification

    Definitions that follow the words of the specification, and of its
    statements as amended, for comparison with the code. *)

Module Spec.

Import Re.

(** *** The MUST-predicate check as the specification has it

    The specification splits a required predicate on the word AND "at top
    level", that is outside every parenthesis, strips one pair of wrapping
    parentheses per atom, and lets the predicate pass when all its atoms are
    found. *)

Definition depth_after (depth : nat) (c : ascii) : nat :=
  if ascii_eqb c "(" then S depth
  else if ascii_eqb c ")" then pred depth
  else depth.

Fixpoint split_top_level (fuel depth : nat) (prev : option ascii)
         (cur : str) (s : str) : list str :=
  match fuel, s with
  | S f, c :: s' =>
      match (if depth =? 0 then AstValidator.and_word prev s else None) with
      | Some (x :: m, _, rest) =>
          cur :: split_top_level f 0 (last_opt prev (x :: m)) [] rest
      | _ => split_top_level f (depth_after depth c) (Some c) (cur ++ [c]) s'
      end
  | _, _ => [cur ++ s]
  end.

Definition top_level_atoms (predicate : str) : list str :=
  filter (fun s => negb (is_empty s))
         (map AstValidator.strip_one_paren
              (split_top_level (length predicate) 0 None [] predicate)).

Definition predicate_present (where_conditions : list str) (required_predicate : str)
  : bool :=
  forallb (fun atom =>
             existsb (fun condition =>
                        is_substring (AstValidator.normalize_predicate atom)
                                     (AstValidator.normalize_predicate condition))
                     where_conditions)
          (top_level_atoms required_predicate).

(** *** What a repair leaves alone

    The specification lets the repair inject predicates into the WHERE
    clause and add neither tables nor joins.  [outside_where e] is the
    tree [e] without its WHERE clauses: the argument [where] of every node
    and every child of the class [Where] are left out. *)

Fixpoint outside_where (e : SqlGlot.Expression) : SqlGlot.Expression :=
  match e with
  | SqlGlot.Exp c t a cm =>
      SqlGlot.Exp
        c t
        (SqlGlot.remove_key
           $"where"
           (map (fun kv =>
                   (fst kv,
                    flat_map (fun n =>
                                if SqlGlot.is_Where (SqlGlot.cls n) then []
                                else [outside_where n])
                             (snd kv)))
                a))
        cm
  end.

(** the keywords in front of which the repair puts a WHERE clause: GROUP
    BY and ORDER BY, with blanks between the two words, and LIMIT, in any
    letter case *)
Definition is_clause_keyword (kw : str) : Prop :=
  lower kw = $"limit"
  \/ exists first blanks second,
      kw = first ++ blanks ++ second
      /\ (lower first = $"group" \/ lower first = $"order")
      /\ blanks <> [] /\ forallb is_space blanks = true
      /\ lower second = $"by".

(** *** The order of the selection

    The specification selects the candidate that is minimal under the key
    (repaired flag, length of the SQL, original index): an unrepaired
    candidate comes before a repaired one, then the shorter SQL comes
    first, then the smaller index. *)

Definition repaired_flag (c : ValidationEngine.Candidate) : bool :=
  match ValidationEngine.repaired c with
  | Some true => true
  | _ => false
  end.

Definition sql_length (c : ValidationEngine.Candidate) : nat :=
  length (ValidationEngine.sql c).

(** [x] does not come after [y] *)
Definition not_after (x y : nat * ValidationEngine.Candidate) : Prop :=
  (repaired_flag (snd x) = false /\ repaired_flag (snd y) = true)
  \/ (repaired_flag (snd x) = repaired_flag (snd y)
      /\ (sql_length (snd x) < sql_length (snd y)
          \/ (sql_length (snd x) = sql_length (snd y) /\ fst x <= fst y))).

(** *** The MUST-predicate check as it is, told on words

    The amended statement speaks of words: a predicate is split at every
    word AND, table prefixes are words followed by a dot, NOT X IS NULL is
    a sequence of words.  A text is read as a list of tokens: the maximal
    runs of word characters, the maximal runs of blanks, and the other
    characters one by one. *)

Inductive token : Type :=
  | Word (w : str)
  | Blank (b : str)
  | Other (c : ascii).

(** a character put in front of the tokens of a text *)
Definition push (c : ascii) (ts : list token) : list token :=
  if is_word c then
    match ts with
    | Word w :: ts' => Word (c :: w) :: ts'
    | _ => Word [c] :: ts
    end
  else if is_space c then
    match ts with
    | Blank b :: ts' => Blank (c :: b) :: ts'
    | _ => Blank [c] :: ts
    end
  else Other c :: ts.

Definition tokens (s : str) : list token := fold_right push [] s.

Definition text_of (t : token) : str :=
  match t with
  | Word w => w
  | Blank b => b
  | Other c => [c]
  end.

Definition untokens (ts : list token) : str := flat_map text_of ts.

(** the word AND, in any letter case *)
Definition is_and (t : token) : bool :=
  match t with
  | Word w => str_eqb (lower w) $"and"
  | _ => false
  end.

(** the tokens between the words AND, whatever the parentheses *)
Fixpoint split_on_and (cur : list token) (ts : list token) : list (list token) :=
  match ts with
  | [] => [cur]
  | t :: ts' =>
      if is_and t then cur :: split_on_and [] ts' else split_on_and (cur ++ [t]) ts'
  end.

Definition pieces (predicate : str) : list str :=
  map untokens (split_on_and [] (tokens predicate)).

(** a piece stripped, and freed of one pair of wrapping parentheses and
    of the blanks within *)
Definition unwrapped (piece : str) : str :=
  match strip piece with
  | [] => []
  | first :: rest =>
      match rev rest with
      | last :: inner =>
          if ascii_eqb first "(" && ascii_eqb last ")" then strip (rev inner)
          else first :: rest
      | [] => [first]
      end
  end.

Definition atoms (predicate : str) : list str :=
  filter (fun atom => negb (is_empty atom)) (map unwrapped (pieces predicate)).

(** A rewriting of a text by windows: where the tokens from a position on
    begin with a given sequence, the sequence is replaced by a text and
    the reading goes on behind it; elsewhere the token is kept. *)
Definition window : Type := list token -> option (str * list token).

Fixpoint rewrite_windows (win : window) (fuel : nat) (ts : list token) : str :=
  match fuel, ts with
  | S f, t :: ts' =>
      match win ts with
      | Some (replacement, behind) => replacement ++ rewrite_windows win f behind
      | None => text_of t ++ rewrite_windows win f ts'
      end
  | _, _ => untokens ts
  end.

Definition rewritten (win : window) (s : str) : str :=
  rewrite_windows win (length s) (tokens s).

(** a table prefix: a word and the dot that follows it, replaced by
    nothing *)
Definition table_prefix : window := fun ts =>
  match ts with
  | Word _ :: Other c :: behind => if ascii_eqb c "." then Some ([], behind) else None
  | _ => None
  end.

(** an identifier X: a small letter or an underscore, and then small
    letters, digits and underscores *)
Definition is_identifier (x : str) : bool :=
  match x with
  | [] => false
  | c :: x' =>
      (is_lower c || ascii_eqb c "_")
      && forallb (fun d => is_lower d || is_digit d || ascii_eqb d "_") x'
  end.

(** not X is null, replaced by X is not null *)
Definition not_x_is_null : window := fun ts =>
  match ts with
  | Word n :: Blank _ :: Word x :: Blank _ :: Word i :: Blank _ :: Word u :: behind =>
      if str_eqb n $"not" && is_identifier x && str_eqb i $"is" && str_eqb u $"null"
      then Some (x ++ $" is not null", behind)
      else None
  | _ => None
  end.

(** not X is not null, replaced by X is null *)
Definition not_x_is_not_null : window := fun ts =>
  match ts with
  | Word n :: Blank _ :: Word x :: Blank _ :: Word i :: Blank _ :: Word n' :: Blank _
    :: Word u :: behind =>
      if str_eqb n $"not" && is_identifier x && str_eqb i $"is"
         && str_eqb n' $"not" && str_eqb u $"null"
      then Some (x ++ $" is null", behind)
      else None
  | _ => None
  end.

(** a run of blanks, replaced by one space *)
Definition blanks : window := fun ts =>
  match ts with
  | Blank _ :: behind => Some ($" ", behind)
  | _ => None
  end.

(** the normalization: lower case, table prefixes stripped, NOT X IS NULL
    rewritten to X IS NOT NULL and then NOT X IS NOT NULL to X IS NULL, the
    text stripped and its blanks collapsed *)
Definition normalised (predicate : str) : str :=
  let s := lower predicate in
  let s := rewritten table_prefix s in
  let s := rewritten not_x_is_null s in
  let s := rewritten not_x_is_not_null s in
  rewritten blanks (strip s).

(** an atom is found in a condition when, both normalised, the atom is a
    piece of the condition *)
Definition found_in (atom condition : str) : Prop :=
  exists l r, normalised condition = l ++ normalised atom ++ r.

(** a token list as [tokens] builds it: runs that are not empty, of one
    kind each, no two runs of a kind in a row *)
Definition well_formed_token (t : token) : bool :=
  match t with
  | Word w => negb (is_empty w) && forallb is_word w
  | Blank b => negb (is_empty b) && forallb is_space b
  | Other c => negb (is_word c) && negb (is_space c)
  end.

Definition may_follow (t u : token) : bool :=
  match t, u with
  | Word _, Word _ => false
  | Blank _, Blank _ => false
  | _, _ => true
  end.

Fixpoint well_formed (ts : list token) : bool :=
  match ts with
  | [] => true
  | t :: ts' =>
      well_formed_token t
      && match ts' with
         | [] => true
         | u :: _ => may_follow t u
         end
      && well_formed ts'
  end.

End Spec.

(** ** Occurrences of a reserved word that are left unquoted *)

Module Occurrence.

Import Re SqlGuard.

(** the character next to an occurrence, on either side *)
Definition free_side (o : option ascii) : Prop := opt_test is_guard o = false.

(** [kw] occurs in [s], in any case, with neither a word character nor a
    backtick next to it: what "(?<![`\w])kw(?![`\w])" matches *)
Definition stands_bare (kw : str) (s : str) : Prop :=
  exists l w r,
    s = l ++ w ++ r /\ lower w = kw
    /\ free_side (hd_error (rev l)) /\ free_side (hd_error r).

(** the test of [reserved kw] at the head of [s] *)
Definition head_test (kw : str) (prev : option ascii) (s : str) : bool :=
  match reserved kw prev s with
  | Some (_ :: _, _, _) => true
  | _ => false
  end.

(** [kw] still stands bare somewhere in [s], after the character [p]:
  the search of [reserved kw] from a position on *)
Definition bare_after (kw : str) (p : option ascii) (s : str) : bool :=
  search_loop (reserved kw) p s.

(** a character that is no letter of [kw] *)
Definition inert (kw : str) (c : ascii) : bool :=
  negb (existsb (ascii_eqb (lower_char c)) kw).

(** what a replacement text must be for a substitution to create no bare
    occurrence of [kw] *)
Definition disciplined (kw : str) (rep : str) : Prop :=
  opt_test is_guard (hd_error rep) = true
  /\ opt_test (inert kw) (hd_error rep) = true
  /\ opt_test is_guard (hd_error (rev rep)) = true
  /\ (forallb is_guard rep = true \/ forallb (inert kw) rep = true).

(** [out] is [s] with some segments replaced, none of the kept positions
    starting a bare occurrence of [kw] *)
Inductive quiet (kw : str) : option ascii -> str -> str -> Prop :=
  | quiet_nil : forall p, quiet kw p [] []
  | quiet_keep : forall p c s out,
      head_test kw p (c :: s) = false ->
      quiet kw (Some c) s out ->
      quiet kw p (c :: s) (c :: out)
  | quiet_repl : forall p m rep rest out,
      opt_test is_guard (hd_error (rev m)) = true ->
      disciplined kw rep ->
      quiet kw (hd_error (rev m)) rest out ->
      quiet kw p (m ++ rest) (rep ++ out).

(** a rule whose replacements are disciplined for [kw] *)
Definition disciplined_rule (kw : str) (r : rule) : Prop :=
  forall prev s x m rep rest,
    r prev s = Some (x :: m, rep, rest) ->
    s = (x :: m) ++ rest
    /\ opt_test is_guard (hd_error (rev (x :: m))) = true
    /\ disciplined kw rep.

(** what a word must be for the clamping of a LIMIT to leave it alone *)
Definition clamp_safe (kw : str) : Prop :=
  forallb is_lower kw = true
  /\ forallb (inert kw) $"LIMIT " = true
  /\ forallb (inert kw) $", " = true
  /\ inert kw "-" = true.

(** what a word must be for every rewriting of the Guard to leave its
    quoted occurrences alone; check, key and user are such words *)
Definition quotable (kw : str) : Prop :=
  forallb is_lower kw = true
  /\ inert kw backtick = true
  /\ disciplined kw $"ASC"
  /\ disciplined kw $"DESC"
  /\ clamp_safe kw
  /\ forallb (inert kw) $" LIMIT " = true.

End Occurrence.

(** ** sqlglot on the statements used as examples

    What [parse_one] and [sql] do, under the mysql dialect, on the few
    statements that the examples below run through the code. *)

Module Example.

Import SqlGlot.

Definition class_code (c : Class) : nat * bool :=
  match c with
  | Select => (0, false) | Union => (1, false) | With => (2, false)
  | Subquery => (3, false) | Table => (4, false) | Column => (5, false)
  | Identifier q => (6, q) | Literal s => (7, s) | Star => (8, false)
  | Null => (9, false) | Var => (10, false) | Alias => (11, false)
  | From => (12, false) | Join => (13, false) | Where => (14, false)
  | Group => (15, false) | Having => (16, false) | Order => (17, false)
  | Ordered => (18, false) | Limit => (19, false) | Offset => (20, false)
  | Window => (21, false) | Count => (22, false) | Sum => (23, false)
  | Avg => (24, false) | Min => (25, false) | Max => (26, false)
  | And => (27, false) | Or => (28, false) | Not => (29, false)
  | Paren => (30, false) | EQ => (31, false) | Is => (32, false)
  | Anonymous => (33, false) | Func => (34, false)
  end.

Definition class_eqb (a b : Class) : bool :=
  (fst (class_code a) =? fst (class_code b))
  && Bool.eqb (snd (class_code a)) (snd (class_code b)).

Fixpoint strs_eqb (a b : list str) : bool :=
  match a, b with
  | [], [] => true
  | x :: a', y :: b' => str_eqb x y && strs_eqb a' b'
  | _, _ => false
  end.

Fixpoint exp_eqb (a b : Expression) {struct a} : bool :=
  match a, b with
  | Exp c1 t1 a1 m1, Exp c2 t2 a2 m2 =>
      class_eqb c1 c2 && str_eqb t1 t2 && strs_eqb m1 m2
      && (fix args_eqb (x y : list (str * list Expression)) {struct x} : bool :=
            match x, y with
            | [], [] => true
            | (k1, es1) :: x', (k2, es2) :: y' =>
                str_eqb k1 k2
                && (fix es_eqb (p q : list Expression) {struct p} : bool :=
                      match p, q with
                      | [], [] => true
                      | e1 :: p', e2 :: q' => exp_eqb e1 e2 && es_eqb p' q'
                      | _, _ => false
                      end) es1 es2
                && args_eqb x' y'
            | _, _ => false
            end) a1 a2
  end.

Definition node (c : Class) (a : list (str * list Expression)) : Expression :=
  Exp c [] a [].
Definition ident (n : str) : Expression := Exp (Identifier false) n [] [].
Definition col (n : str) : Expression := node Column [($"this", [ident n])].
Definition qualified_col (t n : str) : Expression :=
  node Column [($"this", [ident n]); ($"table", [ident t])].
Definition tbl (n : str) : Expression := node Table [($"this", [ident n])].
Definition string_lit (s : str) : Expression := Exp (Literal true) s [] [].
Definition number_lit (s : str) : Expression := Exp (Literal false) s [] [].
Definition eq_ (a b : Expression) : Expression :=
  node EQ [($"this", [a]); ($"expression", [b])].
Definition order_by (keys : list Expression) : Expression :=
  node Order [($"expressions", keys)].
Definition ascending (e : Expression) : Expression := node Ordered [($"this", [e])].
Definition descending (e : Expression) : Expression :=
  node Ordered [($"this", [e]); ($"desc", [Exp Var $"True" [] []])].
Definition select_ (exprs : list Expression) (t : Expression)
           (more : list (str * list Expression)) : Expression :=
  node Select ([($"expressions", exprs); ($"from", [node From [($"this", [t])]])] ++ more).

(** SELECT a FROM t WHERE b = 'limit' *)
Definition q_literal : str := $"SELECT a FROM t WHERE b = 'limit'".
Definition e_literal : Expression :=
  select_ [col $"a"] (tbl $"t")
          [($"where", [node Where [($"this", [eq_ (col $"b") (string_lit $"limit")])]])].

(** SELECT a FROM t UNION SELECT a FROM u ORDER BY a: the ORDER BY that
    follows a set operation is an argument of the [Union] node *)
Definition q_union : str := $"SELECT a FROM t UNION SELECT a FROM u ORDER BY a".
Definition e_union : Expression :=
  node Union [($"this", [select_ [col $"a"] (tbl $"t") []]);
              ($"expression", [select_ [col $"a"] (tbl $"u") []]);
              ($"order", [order_by [ascending (col $"a")]])].

(** a window function: its ORDER BY is an argument of the [Window] node *)
Definition q_window : str := $"SELECT a, ROW_NUMBER() OVER (ORDER BY b) FROM t".
Definition e_window : Expression :=
  select_ [col $"a";
           node Window [($"this", [Exp Func $"ROW_NUMBER" [] []]);
                        ($"order", [order_by [ascending (col $"b")]])]]
          (tbl $"t") [].

(** a comment introduced by the number sign: the parser keeps it on the
    table and the generator prints it as a block comment *)
Definition q_hash : str := $"SELECT a FROM t # c".
Definition q_block : str := $"SELECT a FROM t /* c */".
Definition e_commented : Expression :=
  select_ [col $"a"] (Exp Table [] [($"this", [ident $"t"])] [$" c"]) [].

Definition q_limit200 : str := $"SELECT a FROM t LIMIT 200".
Definition q_limit200_spaced : str := $"SELECT a FROM t   LIMIT 200".
Definition e_limit200 : Expression :=
  select_ [col $"a"] (tbl $"t")
          [($"limit", [node Limit [($"expression", [number_lit $"200"])]])].

(** SELECT a FROM t ORDER BY a DESC *)
Definition q_desc : str := $"SELECT a FROM t ORDER BY a DESC".
Definition e_desc : Expression :=
  select_ [col $"a"] (tbl $"t") [($"order", [order_by [descending (col $"a")]])].

(** SELECT a FROM t WHERE b = 1 *)
Definition q_where : str := $"SELECT a FROM t WHERE b = 1".
Definition c_where : Expression := eq_ (col $"b") (number_lit $"1").
Definition e_where : Expression :=
  select_ [col $"a"] (tbl $"t") [($"where", [node Where [($"this", [c_where])]])].

(** SELECT a FROM t, and the same with the condition t.b = 1 *)
Definition q_plain : str := $"SELECT a FROM t".
Definition e_plain : Expression := select_ [col $"a"] (tbl $"t") [].
Definition q_where_q : str := $"SELECT a FROM t WHERE t.b = 1".
Definition c_where_q : Expression := eq_ (qualified_col $"t" $"b") (number_lit $"1").
Definition e_where_q : Expression :=
  select_ [col $"a"] (tbl $"t") [($"where", [node Where [($"this", [c_where_q])]])].

(** SELECT * FROM dummy WHERE t.b = 1: the statement that the repair
    parses to read the predicate t.b = 1 *)
Definition q_dummy_b1 : str := $"SELECT * FROM dummy WHERE t.b = 1".
Definition e_dummy_b1 : Expression :=
  select_ [Exp Star [] [] []] (tbl $"dummy")
          [($"where", [node Where [($"this", [c_where_q])]])].

(** SELECT a FROM t WHERE b = 2 UNION SELECT a FROM u *)
Definition q_union_where : str := $"SELECT a FROM t WHERE b = 2 UNION SELECT a FROM u".
Definition c_b2 : Expression := eq_ (col $"b") (number_lit $"2").
Definition e_union_where : Expression :=
  node Union [($"this", [select_ [col $"a"] (tbl $"t")
                                 [($"where", [node Where [($"this", [c_b2])]])]]);
              ($"expression", [select_ [col $"a"] (tbl $"u") []])].

(** SELECT a FROM user: the generator prints the name of the table as it
    is, and the parser reads the name between backticks as a quoted
    identifier *)
Definition q_user : str := $"SELECT a FROM user".
Definition q_user_quoted : str := $"SELECT a FROM `user`".
Definition e_user : Expression := select_ [col $"a"] (tbl $"user") [].
Definition e_user_quoted : Expression :=
  select_ [col $"a"] (node Table [($"this", [Exp (Identifier true) $"user" [] []])]) [].

Definition parses : list (str * Expression) :=
  [(q_literal, e_literal); (q_union, e_union); (q_window, e_window);
   (q_hash, e_commented); (q_block, e_commented);
   (q_limit200, e_limit200); (q_limit200_spaced, e_limit200);
   (q_desc, e_desc); (q_where, e_where);
   (q_user, e_user); (q_user_quoted, e_user_quoted);
   (q_plain, e_plain); (q_where_q, e_where_q); (q_dummy_b1, e_dummy_b1);
   (q_union_where, e_union_where)].

Definition prints : list (Expression * str) :=
  [(e_literal, q_literal); (e_union, q_union); (e_window, q_window);
   (e_commented, q_block); (e_limit200, q_limit200); (e_desc, q_desc);
   (e_where, q_where); (c_where, $"b = 1");
   (e_user, q_user); (e_user_quoted, q_user_quoted);
   (e_plain, q_plain); (e_where_q, q_where_q); (c_where_q, $"t.b = 1");
   (e_union_where, q_union_where); (c_b2, $"b = 2")].

Fixpoint printed (e : Expression) (table : list (Expression * str)) : option str :=
  match table with
  | [] => None
  | (e', s) :: table' => if exp_eqb e e' then Some s else printed e table'
  end.

(** [exp.and_]: the operands that are not [None], conjoined from the
    left; it raises when there is none *)
Definition conjunction (operands : list (option Expression)) : option Expression :=
  match flat_map child operands with
  | [] => None
  | e :: es =>
      Some (fold_left (fun acc x => node And [($"this", [acc]); ($"expression", [x])])
                      es e)
  end.

Definition sqlglot : Lib := {|
    parse_one := fun sql_text dialect =>
                   if str_eqb dialect $"mysql" then lookup sql_text parses else None;
    sql := fun e _ => printed e prints;
    __str__ := fun e => match printed e prints with Some s => s | None => [] end;
    alias_identifier := fun _ => None;
    join_on := fun _ => None;
    and_ := conjunction
  |}.

Definition env : SqlGuard.Env := {|
    SqlGuard.SQL_PERMISSIVE_MODE := false;
    SqlGuard.SQL_PERMITTED_ALIASES := [];
    SqlGuard.reserved_order := [$"user"; $"check"; $"key"; $"desc"]
  |}.

Definition schema : m_schema_t :=
  [{| table_name := $"t"; table_columns := [$"a"; $"b"] |};
   {| table_name := $"u"; table_columns := [$"a"] |}].

Definition schema_user : m_schema_t :=
  [{| table_name := $"user"; table_columns := [$"a"] |}].

(** two candidates that passed: a short one that was repaired and a longer
    one that was not *)
Definition candidate_A : ValidationEngine.Candidate := {|
  ValidationEngine.label := $"A";
  ValidationEngine.sql := $"SELECT a FROM t WHERE b = 1";
  ValidationEngine.checks := [];
  ValidationEngine.confidence := 1;
  ValidationEngine.repaired := Some true
|}.

Definition candidate_B : ValidationEngine.Candidate := {|
  ValidationEngine.label := $"B";
  ValidationEngine.sql := $"SELECT a, b FROM t WHERE b = 1";
  ValidationEngine.checks := [];
  ValidationEngine.confidence := 1;
  ValidationEngine.repaired := None
|}.

Definition two_candidates : list (nat * ValidationEngine.Candidate) :=
  [(0, candidate_A); (1, candidate_B)].

(** *** A candidate whose predicates are present and whose table is not *)

Definition plan_needs_u : Planner.PlanV1 := {|
  Planner.task := Planner.task_list;
  Planner.subject := Planner.subj_app;
  Planner.risk := [];
  Planner.must_tables := [$"u"];
  Planner.must_joins := [];
  Planner.must_predicates := [$"t.b = 1"];
  Planner.should_predicates := [];
  Planner.should_projection := [];
  Planner.should_tables := [];
  Planner.may_projection := [];
  Planner.may_predicates := [];
  Planner.timeframe_days := None;
  Planner.groupby := [];
  Planner.aggregates := [];
  Planner.alt_perspectives := [];
  Planner.confidence := 1%Q;
  Planner.reasoning := []
|}.

Definition contract_b1 : Generator.SafetyContract := {|
  Generator.allowed_tables := [$"t"; $"u"];
  Generator.allowed_columns := [($"t", [$"a"; $"b"]); ($"u", [$"a"])];
  Generator.must_tables := [$"u"];
  Generator.must_joins := [];
  Generator.must_predicates := [$"t.b = 1"];
  Generator.should_predicates := [];
  Generator.should_projection := [];
  Generator.may_predicates := [];
  Generator.may_projection := [];
  Generator.timeframe_days := None;
  Generator.forbidden_clauses := [$"ORDER BY"]
|}.

Definition candidate_where : ValidationEngine.Candidate := {|
  ValidationEngine.label := $"A";
  ValidationEngine.sql := q_where;
  ValidationEngine.checks := [];
  ValidationEngine.confidence := 1;
  ValidationEngine.repaired := None
|}.

Definition candidate_plain : ValidationEngine.Candidate := {|
  ValidationEngine.label := $"P";
  ValidationEngine.sql := q_plain;
  ValidationEngine.checks := [];
  ValidationEngine.confidence := 1;
  ValidationEngine.repaired := None
|}.

Definition candidate_union : ValidationEngine.Candidate := {|
  ValidationEngine.label := $"U";
  ValidationEngine.sql := q_union_where;
  ValidationEngine.checks := [];
  ValidationEngine.confidence := 1;
  ValidationEngine.repaired := None
|}.

(** [re] on the templates of the examples that hold a backslash: the
    escape of the predicate below is refused *)
Definition refused (repl : str) : option (str -> str) := None.

(** a contract whose MUST predicate holds the escape of a digit *)
Definition escaped_predicate : str :=
  $"t.b LIKE 'x" ++ [ValidationEngine.backslash] ++ $"d'".

Definition contract_escaped : Generator.SafetyContract := {|
  Generator.allowed_tables := [$"t"; $"u"];
  Generator.allowed_columns := [($"t", [$"a"; $"b"]); ($"u", [$"a"])];
  Generator.must_tables := [];
  Generator.must_joins := [];
  Generator.must_predicates := [escaped_predicate];
  Generator.should_predicates := [];
  Generator.should_projection := [];
  Generator.may_predicates := [];
  Generator.may_projection := [];
  Generator.timeframe_days := None;
  Generator.forbidden_clauses := [$"ORDER BY"]
|}.

(** *** A column qualified by a table that does not allow it *)

Definition allowed_t1_t2 : list (str * list str) :=
  [($"T1", [$"a"]); ($"T2", [$"c"])].

Definition schema_t1_t2 : m_schema_t :=
  [{| table_name := $"T1"; table_columns := [$"a"] |};
   {| table_name := $"T2"; table_columns := [$"c"] |}].

(** SELECT T1.c FROM T1 *)
Definition e_t1_c : Expression := select_ [qualified_col $"T1" $"c"] (tbl $"T1") [].

(** *** A planner whose retry answers without JSON *)

Definition double_quote : ascii := ascii_of_nat 34.
Definition quoted (s : str) : str := [double_quote] ++ s ++ [double_quote].

(** the first answer: the object with task count and must_tables [ghost] *)
Definition answer_count_ghost : str :=
  $"{" ++ quoted $"task" ++ $": " ++ quoted $"count" ++ $", "
   ++ quoted $"must_tables" ++ $": [" ++ quoted $"ghost" ++ $"]}".

Definition answer_prose : str := $"I cannot produce a plan.".

Definition plan_count_ghost : Planner.PlanV1 := {|
  Planner.task := Planner.task_count;
  Planner.subject := Planner.subj_app;
  Planner.risk := [$"weak_password"];
  Planner.must_tables := [$"ghost"];
  Planner.must_joins := [];
  Planner.must_predicates := [];
  Planner.should_predicates := [];
  Planner.should_projection := [];
  Planner.should_tables := [];
  Planner.may_projection := [];
  Planner.may_predicates := [];
  Planner.timeframe_days := None;
  Planner.groupby := [];
  Planner.aggregates := [];
  Planner.alt_perspectives := [];
  Planner.confidence := (8 # 10)%Q;
  Planner.reasoning := []
|}.

(** json and pydantic on that answer *)
Definition json_loads (text : str) : option str :=
  if str_eqb text answer_count_ghost then Some text else None.

Definition PlanV1_of (data : str) : option Planner.PlanV1 :=
  if str_eqb data answer_count_ghost then Some plan_count_ghost else None.

Definition schema_tables (schema_clip : str) : option (list str) := Some [$"t"].

Definition retry_hint_of (allowed_tables : list str) : str := $"CRITICAL: Retry.".

Definition build_prompt (question kb_hint schema_clip : str) (semantic_tables : list str)
           (semantic_colmap : list (str * list str)) (allowed_tables : list str)
           (retry_hint : str) : str :=
  question ++ retry_hint.

(** the model answers the first prompt with the object and the retry with
    prose *)
Definition chat_once (user_prompt : str) : Planner.reply :=
  if ends_with $"Retry." user_prompt then Planner.Answers answer_prose
  else Planner.Answers answer_count_ghost.

(** a model that answers the first prompt with the object and fails at
    the retry *)
Definition chat_once_then (e : Planner.raised) (user_prompt : str) : Planner.reply :=
  if ends_with $"Retry." user_prompt then Planner.Fails e
  else Planner.Answers answer_count_ghost.

(** *** Thirteen tables, two of them named by the tokens *)

Definition bare_table (n : str) : table_def := {| table_name := n; table_columns := [] |}.

Definition thirteen_tables : m_schema_t :=
  map bare_table
      [$"t1"; $"t2"; $"t3"; $"t4"; $"t5"; $"t6"; $"t7"; $"t8"; $"t9"; $"t10";
       $"t11"; $"t12"; $"t13"].

(** [score_table_simple] on these tables: 10 + 5 + 15 for a table whose
    name is a token, 0 for the others *)
Definition score_by_name (t : table_def) (tokens : list str) : Q :=
  if mem (table_name t) tokens then 30%Q else 0%Q.

End Example.

(** ** run_nl2sql_clean.py: the contract that [do_ask] builds from a plan *)

Module Pipeline.

Definition is_trend (t : Planner.Task) : bool :=
  match t with
  | Planner.task_trend => true
  | _ => false
  end.

(** "\b ( [a-zA-Z_] [a-zA-Z0-9_]* ) \. ( [a-zA-Z_] [a-zA-Z0-9_]* ) \b": the
    two groups and what follows the match *)
Definition qualified_ref (prev : option ascii) (s : str) : option (str * str * str) :=
  if Re.word_boundary prev s && opt_test Planner.is_name_start (hd_error s) then
    match drop_while is_word s with
    | dot :: after_dot =>
        if ascii_eqb dot "." && opt_test Planner.is_name_start (hd_error after_dot)
        then Some (take_while is_word s, take_while is_word after_dot,
                   drop_while is_word after_dot)
        else None
    | [] => None
    end
  else None.

(** [re.findall] of that pattern: the pairs (table, column) *)
Fixpoint findall_refs (fuel : nat) (prev : option ascii) (s : str) : list (str * str) :=
  match fuel, s with
  | S f, c :: s' =>
      match qualified_ref prev s with
      | Some (t, col, rest) => (t, col) :: findall_refs f (last_opt prev col) rest
      | None => findall_refs f (Some c) s'
      end
  | _, _ => []
  end.

Definition refs_of (text : str) : list (str * str) :=
  findall_refs (length text) None text.

(** [tbl in selected_map] *)
Definition has_key (selected_map : list (str * list str)) (tbl : str) : bool :=
  existsb (fun kv => str_eqb (fst kv) tbl) selected_map.

(** [_add_col]: the column is appended to the list of the table, unless it
    is there *)
Definition _add_col (selected_map : list (str * list str)) (tbl col : str)
  : list (str * list str) :=
  if has_key selected_map tbl then
    map (fun kv =>
           if str_eqb (fst kv) tbl && negb (mem col (snd kv))
           then (fst kv, snd kv ++ [col]) else kv)
        selected_map
  else selected_map.

(** [_ensure_contract_columns]: the map as the call leaves it *)
Definition _ensure_contract_columns (plan_obj : Planner.PlanV1)
           (selected_map : list (str * list str)) : list (str * list str) :=
  let texts :=
    Planner.required_predicates plan_obj ++ Planner.required_joins plan_obj
    ++ Planner.groupby plan_obj ++ Planner.aggregates plan_obj in
  fold_left (fun selected_map s =>
               fold_left (fun selected_map tc =>
                            if has_key selected_map (fst tc)
                            then _add_col selected_map (fst tc) (snd tc)
                            else selected_map)
                         (refs_of s) selected_map)
            texts selected_map.

(** Step 3 of [do_ask]: the safety contract of a plan *)
Definition safety_contract_of (plan : Planner.PlanV1)
           (allowed_tables_in_schema : list str) (selected_cols : list (str * list str))
  : Generator.SafetyContract :=
  Generator.make_safety_contract
    allowed_tables_in_schema selected_cols
    (Some (ValidationEngine.or_else (Planner.must_tables plan)
                                    (Planner.required_tables plan)))
    None None
    (Some (Planner.should_predicates plan))
    (Some (Planner.should_projection plan))
    (Some (Planner.may_predicates plan))
    (Some (Planner.may_projection plan))
    (Planner.timeframe_days plan)
    (Some (if is_trend (Planner.task plan) then [] else [$"ORDER BY"]))
    (Some (Planner.required_joins plan))
    (Some (Planner.required_predicates plan)).

(** Step 6 of [do_ask]: the flag handed to the Guard *)
Definition keep_order_by_of (plan : Planner.PlanV1) : bool :=
  is_trend (Planner.task plan).

End Pipeline.

(** ** Shapes of texts *)

Module TextShape.

(** a text that does not end with a blank *)
Definition ends_solid (t : str) : Prop := opt_test is_space (hd_error (rev t)) = false.

End TextShape.

(** ** More examples *)

Module Cases.

(** the environment of the examples, in permissive mode *)
Definition env_permissive : SqlGuard.Env := {|
  SqlGuard.SQL_PERMISSIVE_MODE := true;
  SqlGuard.SQL_PERMITTED_ALIASES := [];
  SqlGuard.reserved_order := [$"user"; $"check"; $"key"; $"desc"]
|}.

(** a plan that requires the table t and the predicate t.b = 1, and groups
    by u.a *)
Definition plan_t_b1 : Planner.PlanV1 := {|
  Planner.task := Planner.task_trend;
  Planner.subject := Planner.subj_app;
  Planner.risk := [];
  Planner.must_tables := [$"t"];
  Planner.must_joins := [];
  Planner.must_predicates := [$"t.b = 1"];
  Planner.should_predicates := [];
  Planner.should_projection := [$"t.b"; $"a"; $"zz"];
  Planner.should_tables := [];
  Planner.may_projection := [];
  Planner.may_predicates := [];
  Planner.timeframe_days := None;
  Planner.groupby := [$"u.a"];
  Planner.aggregates := [];
  Planner.alt_perspectives := [];
  Planner.confidence := 1%Q;
  Planner.reasoning := []
|}.

Definition columns_t_u : list (str * list str) := [($"t", [$"a"]); ($"u", [$"a"])].

Definition contract_t_b1 : Generator.SafetyContract :=
  Pipeline.safety_contract_of plan_t_b1 [$"t"; $"u"]
                              [($"t", [$"a"; $"b"]); ($"u", [$"a"])].

End Cases.

(** ** Texts, token by token *)

Module TokenShape.

Import Spec.

Definition starts_with_word (ts : list token) : bool :=
  match ts with
  | Word _ :: _ => true
  | _ => false
  end.

Definition starts_with_blank (ts : list token) : bool :=
  match ts with
  | Blank _ :: _ => true
  | _ => false
  end.

(** a rule that does not match at a position *)
Definition no_match (o : option (str * str * str)) : Prop :=
  match o with
  | Some (_ :: _, _, _) => False
  | _ => True
  end.

(** a position at which no word goes on: the character before it and the
    character at it are not both word characters *)
Definition word_free (prev : option ascii) (s : str) : Prop :=
  opt_test is_word prev = false \/ opt_test is_word (hd_error s) = false.

(** a position at which no run of blanks goes on *)
Definition blank_free (prev : option ascii) (s : str) : Prop :=
  opt_test is_space prev = false \/ opt_test is_space (hd_error s) = false.

(** a text put in front of the first of a list of pieces *)
Definition prepend (cur : str) (l : list str) : list str :=
  match l with
  | p :: ps => (cur ++ p) :: ps
  | [] => [cur]
  end.

End TokenShape.

(** ** Trees, level by level *)

Module TreeShape.

Import SqlGlot.

(** what [Spec.outside_where] keeps of a child *)
Definition kept (n : Expression) : list Expression :=
  if is_Where (cls n) then [] else [Spec.outside_where n].

Definition has_where (l : list Expression) : bool :=
  existsb (fun n => is_Where (cls n)) l.

Definition children (a : list (str * list Expression)) : list Expression :=
  flat_map (fun kv => snd kv) a.

(** [f] applied to the first node of the class [Where] *)
Fixpoint replace_first (f : Expression -> Expression) (l : list Expression)
  : list Expression :=
  match l with
  | [] => []
  | x :: l' => if is_Where (cls x) then f x :: l' else x :: replace_first f l'
  end.

(** a pass that applies [f] to the first node of the class [Where] that it
    meets, unless that is done, told on the nodes [lev x] of one level *)
Definition passes (f : Expression -> Expression) (A : Type)
           (lev : A -> list Expression) (g : A -> bool -> A * bool) : Prop :=
  forall x d,
    lev (fst (g x d)) = (if d then lev x else replace_first f (lev x))
    /\ snd (g x d) = d || has_where (lev x).

End TreeShape.

(** * Properties *)

Unset Implicit Arguments.

(** ** Characters, strings and lists of strings *)

Lemma ascii_eqb_eq (a b : ascii) : ascii_eqb a b = true <-> a = b.
Proof.
  unfold ascii_eqb, code. rewrite Nat.eqb_eq. split; [|congruence].
  intro H. rewrite <- (ascii_nat_embedding a), <- (ascii_nat_embedding b).
  now f_equal.
Qed.

Lemma ascii_eqb_refl (a : ascii) : ascii_eqb a a = true.
Proof. now apply ascii_eqb_eq. Qed.

Lemma str_eqb_eq (a b : str) : str_eqb a b = true <-> a = b.
Proof.
  revert b. induction a as [|x a IH]; intros [|y b]; simpl; split; try easy.
  - rewrite andb_true_iff, ascii_eqb_eq, IH. now intros [-> ->].
  - intros [= -> ->]. rewrite ascii_eqb_refl. now apply IH.
Qed.

Lemma str_eq_dec (a b : str) : {a = b} + {a <> b}.
Proof. apply list_eq_dec, ascii_dec. Qed.

Lemma mem_In (x : str) (l : list str) : mem x l = true <-> In x l.
Proof.
  unfold mem. rewrite existsb_exists. split.
  - intros (y & Hy & E). apply str_eqb_eq in E. now subst.
  - intro H. exists x. split; [assumption|]. now apply str_eqb_eq.
Qed.

Lemma starts_with_spec (p s : str) : starts_with p s = true <-> exists r, s = p ++ r.
Proof.
  revert s. induction p as [|x p IH]; intros s; simpl.
  - split; [intros _; now exists s | easy].
  - destruct s as [|y s].
    + split; [easy | intros (r & [=])].
    + rewrite andb_true_iff, ascii_eqb_eq, IH. split.
      * intros (-> & r & ->). now exists r.
      * intros (r & [= -> ->]). split; [reflexivity | now exists r].
Qed.

Lemma is_substring_spec (a b : str) :
  is_substring a b = true <-> exists l r, b = l ++ a ++ r.
Proof.
  induction b as [|y b IH]; simpl.
  - rewrite orb_false_r, starts_with_spec. split.
    + intros (r & E). now exists [], r.
    + intros (l & r & E). destruct l; [now exists r|discriminate].
  - rewrite orb_true_iff, starts_with_spec, IH. split.
    + intros [(r & E) | (l & r & ->)]; [now exists [], r | now exists (y :: l), r].
    + intros (l & r & E). destruct l as [|z l].
      * left. now exists r.
      * right. injection E as -> ->. now exists l, r.
Qed.

(** ** C5: deterministic selection *)

Module C5.

Import ValidationEngine Example.

Lemma key_leb_refl (k : key) : key_leb k k = true.
Proof.
  destruct k as [[r l] i]. unfold key_leb, bool_ltb.
  rewrite Bool.eqb_reflx, Nat.eqb_refl, Nat.leb_refl.
  destruct r; simpl; now rewrite orb_true_r.
Qed.

Lemma key_leb_total (a b : key) : key_leb a b = false -> key_leb b a = true.
Proof.
  destruct a as [[r1 l1] i1], b as [[r2 l2] i2]. unfold key_leb, bool_ltb.
  destruct r1, r2; simpl; try discriminate; try reflexivity;
    destruct (l1 <? l2) eqn:L1, (l2 <? l1) eqn:L2,
             (l1 =? l2) eqn:E1, (l2 =? l1) eqn:E2,
             (i1 <=? i2) eqn:I1, (i2 <=? i1) eqn:I2; simpl;
    try discriminate; try reflexivity; intros _;
    repeat match goal with
           | H : (_ <? _) = _ |- _ => apply Nat.ltb_lt in H || apply Nat.ltb_ge in H
           | H : (_ =? _) = _ |- _ => apply Nat.eqb_eq in H || apply Nat.eqb_neq in H
           | H : (_ <=? _) = _ |- _ => apply Nat.leb_le in H || apply Nat.leb_gt in H
           end; lia.
Qed.

Lemma key_leb_trans (a b c : key) :
  key_leb a b = true -> key_leb b c = true -> key_leb a c = true.
Proof.
  destruct a as [[r1 l1] i1], b as [[r2 l2] i2], c as [[r3 l3] i3].
  unfold key_leb, bool_ltb.
  destruct r1, r2, r3; simpl; try discriminate; try reflexivity;
    rewrite !orb_true_iff, !andb_true_iff, !Nat.ltb_lt, !Nat.eqb_eq, !Nat.leb_le; lia.
Qed.

(** equal keys have equal indices *)
Lemma key_antisym_index (a b : nat * Candidate) :
  key_leb (selection_key a) (selection_key b) = true ->
  key_leb (selection_key b) (selection_key a) = true ->
  fst a = fst b.
Proof.
  destruct a as [i c], b as [j d]. unfold selection_key, key_leb, bool_ltb. simpl.
  destruct (match repaired c with Some b => b | None => false end),
           (match repaired d with Some b => b | None => false end);
    simpl; try discriminate;
    rewrite !orb_true_iff, !andb_true_iff, !Nat.ltb_lt, !Nat.eqb_eq, !Nat.leb_le; lia.
Qed.

Lemma insert_perm (x : nat * Candidate) (l : list (nat * Candidate)) :
  Permutation (x :: l) (insert_by_key x l).
Proof.
  induction l as [|y l IH]; simpl; [reflexivity|].
  destruct (key_leb _ _); [reflexivity|].
  rewrite perm_swap. now apply perm_skip.
Qed.

Lemma sort_perm (l : list (nat * Candidate)) : Permutation l (sort_by_key l).
Proof.
  induction l as [|x l IH]; simpl; [reflexivity|].
  rewrite <- insert_perm. now apply perm_skip.
Qed.

Lemma insert_sorted (x : nat * Candidate) (l : list (nat * Candidate)) :
  sorted l -> sorted (insert_by_key x l).
Proof.
  induction 1 as [|y l Hy Hs IH]; simpl.
  - constructor; constructor.
  - destruct (key_leb (selection_key x) (selection_key y)) eqn:E.
    + constructor; [|now constructor].
      constructor; [assumption|].
      unfold le_all in *. rewrite Forall_forall in *. intros z Hz.
      eapply key_leb_trans; [exact E | now apply Hy].
    + constructor; [|assumption].
      unfold le_all in *. rewrite Forall_forall in *. intros z Hz.
      apply (Permutation_in _ (Permutation_sym (insert_perm x l))) in Hz.
      destruct Hz as [<- | Hz]; [now apply key_leb_total | now apply Hy].
Qed.

Lemma sort_sorted (l : list (nat * Candidate)) : sorted (sort_by_key l).
Proof.
  induction l as [|x l IH]; simpl; [constructor | now apply insert_sorted].
Qed.

(** sorting a sorted list changes nothing: a second call sees the list
    as the first call left it *)
Lemma sort_of_sorted (l : list (nat * Candidate)) : sorted l -> sort_by_key l = l.
Proof.
  induction 1 as [|x l Hx Hs IH]; simpl; [reflexivity|].
  rewrite IH. destruct l as [|y l]; simpl; [reflexivity|].
  inversion Hx as [|? ? Hy _]; subst. now rewrite Hy.
Qed.

(** the order of the keys is the order of the specification *)
Lemma key_leb_not_after (x y : nat * Candidate) :
  key_leb (selection_key x) (selection_key y) = true <-> Spec.not_after x y.
Proof.
  destruct x as [i c], y as [j d].
  unfold selection_key, key_leb, bool_ltb, Spec.not_after, Spec.repaired_flag,
    Spec.sql_length. cbn [fst snd].
  rewrite orb_true_iff, !andb_true_iff, orb_true_iff, andb_true_iff,
    Nat.ltb_lt, Nat.eqb_eq, Nat.leb_le, negb_true_iff.
  destruct (repaired c) as [[|]|], (repaired d) as [[|]|]; cbn [Bool.eqb];
    intuition congruence.
Qed.

(** C5: on the empty list the selection returns None; on a non-empty list
    it returns a candidate of the list that is minimal under the key
    (repaired flag, length of the SQL, original index), compared in this
    order, an unrepaired candidate before a repaired one, a shorter SQL
    before a longer one, a smaller index before a larger one; it is the
    only such candidate when the indices are distinct; and a second run,
    on the list as the first run left it, returns the same candidate. *)
Theorem deterministic_selection_minimal (candidates : list (nat * Candidate)) :
  (candidates = [] -> fst (deterministic_selection candidates) = None)
  /\ (candidates <> [] ->
      exists i c,
        In (i, c) candidates
        /\ fst (deterministic_selection candidates) = Some c
        /\ (forall j d, In (j, d) candidates ->
              (Spec.repaired_flag c = false /\ Spec.repaired_flag d = true)
              \/ (Spec.repaired_flag c = Spec.repaired_flag d
                  /\ (length (sql c) < length (sql d)
                      \/ (length (sql c) = length (sql d) /\ i <= j))))
        /\ (NoDup (map fst candidates) ->
            forall j d, In (j, d) candidates -> (j, d) <> (i, c) ->
                        ~ Spec.not_after (j, d) (i, c)))
  /\ fst (deterministic_selection (snd (deterministic_selection candidates)))
     = fst (deterministic_selection candidates).
Proof.
  split; [now intros ->|]. split.
  - intros Hne. unfold deterministic_selection.
    destruct candidates as [|x0 l0] eqn:Ec; [easy|]. rewrite <- Ec. clear Hne.
    assert (Hp := sort_perm candidates). assert (Hs := sort_sorted candidates).
    destruct (sort_by_key candidates) as [|[i c] rest] eqn:Es.
    { apply Permutation_sym, Permutation_nil in Hp. congruence. }
    exists i, c.
    assert (Hin : In (i, c) candidates).
    { apply (Permutation_in _ (Permutation_sym Hp)). now left. }
    assert (Hmin : forall j d, In (j, d) candidates ->
                     key_leb (selection_key (i, c)) (selection_key (j, d)) = true).
    { intros j d Hj. apply (Permutation_in _ Hp) in Hj.
      inversion Hs as [|? ? Hall _]; subst.
      destruct Hj as [[= <- <-] | Hj]; [apply key_leb_refl|].
      unfold le_all in Hall. rewrite Forall_forall in Hall. now apply Hall. }
    split; [exact Hin|]. split; [reflexivity|]. split.
    { intros j d Hj. exact (proj1 (key_leb_not_after (i, c) (j, d)) (Hmin j d Hj)). }
    intros Hnd j d Hj Hneq Hle. apply key_leb_not_after in Hle.
    apply Hneq.
    assert (Eij : j = i) by (apply (key_antisym_index (j, d) (i, c)); auto).
    subst j. f_equal.
    clear - Hnd Hj Hin. induction candidates as [|[k e] l IH]; [easy|].
    simpl in Hnd. inversion Hnd as [|? ? Hk Hl]; subst.
    destruct Hj as [[= -> ->] | Hj], Hin as [[= <-] | Hin]; try reflexivity.
    + exfalso. apply Hk. change i with (fst (i, c)). now apply in_map.
    + exfalso. apply Hk. change k with (fst (k, d)). now apply in_map.
    + now apply IH.
  - unfold deterministic_selection.
    destruct candidates as [|x0 l0] eqn:Ec; [reflexivity|]. rewrite <- Ec.
    assert (Hs := sort_sorted candidates). simpl.
    destruct (sort_by_key candidates) as [|y rest] eqn:Es; [reflexivity|].
    now rewrite (sort_of_sorted _ Hs).
Qed.

(** of the two candidates the one selected is B, at index 1: it was not
    repaired, while A, at index 0 and with the shorter SQL, was *)
Lemma deterministic_selection_example :
  two_candidates <> []
  /\ NoDup (map fst two_candidates)
  /\ fst (deterministic_selection two_candidates) = Some candidate_B
  /\ Spec.repaired_flag candidate_B = false
  /\ Spec.repaired_flag candidate_A = true
  /\ length (sql candidate_A) < length (sql candidate_B)
  /\ (forall j d, In (j, d) two_candidates -> (j, d) <> (1, candidate_B) ->
                  ~ Spec.not_after (j, d) (1, candidate_B)).
Proof.
  assert (Hne : two_candidates <> []) by discriminate.
  assert (Hnd : NoDup (map fst two_candidates)).
  { simpl. repeat constructor; simpl; intuition discriminate. }
  assert (Hb : fst (deterministic_selection two_candidates) = Some candidate_B)
    by reflexivity.
  split; [exact Hne|]. split; [exact Hnd|]. split; [exact Hb|].
  split; [reflexivity|]. split; [reflexivity|]. split; [simpl; lia|].
  destruct (proj1 (proj2 (deterministic_selection_minimal two_candidates)) Hne)
    as (i & c & Hin & Hsel & _ & Huniq).
  rewrite Hb in Hsel. injection Hsel as <-.
  assert (Ei : i = 1).
  { destruct Hin as [H | [H | []]].
    - apply (f_equal (fun x => label (snd x))) in H. discriminate H.
    - apply (f_equal fst) in H. symmetry. exact H. }
  subst i. exact (Huniq Hnd).
Defined.

End C5.


(** ** C8: the planner on a response it cannot use *)

Module C8.

Import Planner.

(** C8, as amended: whenever the first response is unusable (no JSON
    object, JSON that does not parse, or a plan that violates the schema)
    [llm_plan] returns the default plan, whose task is list, whose subject
    is app and whose MUST, SHOULD and MAY sets are empty; the same holds
    when the response to the retry does not parse or violates the schema;
    a retry response without any JSON object leaves the cleaned first plan
    in place.  In each of these cases the call returns: nothing is
    raised. *)
Theorem unusable_response_gives_default
        (Json : Type) (json_loads : str -> option Json)
        (PlanV1_of : Json -> option PlanV1)
        (schema_tables : str -> option (list str))
        (chat : str -> reply)
        (build : str -> str -> str -> list str -> list (str * list str) ->
                 list str -> str -> str)
        (hint : list str -> str)
        (question kb_hint schema_clip : str) (semantic_tables : list str)
        (semantic_colmap : list (str * list str)) :
  let allowed := allowed_tables_of schema_tables schema_clip semantic_tables in
  let prompt := build question kb_hint schema_clip semantic_tables semantic_colmap allowed in
  let plan :=
    llm_plan json_loads PlanV1_of schema_tables chat build hint
             question kb_hint schema_clip semantic_tables semantic_colmap in
  (forall raw, chat (prompt []) = Answers raw ->
               unusable json_loads PlanV1_of raw -> plan = Returns PlanV1_default)
  /\ (forall raw original raw_retry,
        chat (prompt []) = Answers raw ->
        parse_response json_loads PlanV1_of raw = Valid original ->
        need_retry allowed original (clean allowed original) = true ->
        chat (prompt (hint allowed)) = Answers raw_retry ->
        unusable json_loads PlanV1_of raw_retry ->
        (json_object raw_retry <> None -> plan = Returns PlanV1_default)
        /\ (json_object raw_retry = None -> plan = Returns (clean allowed original)))
  /\ (task PlanV1_default = task_list
      /\ subject PlanV1_default = subj_app
      /\ must_tables PlanV1_default = [] /\ must_joins PlanV1_default = []
      /\ must_predicates PlanV1_default = []
      /\ should_tables PlanV1_default = [] /\ should_predicates PlanV1_default = []
      /\ should_projection PlanV1_default = []
      /\ may_predicates PlanV1_default = [] /\ may_projection PlanV1_default = []).
Proof.
  intros allowed prompt plan. split; [|split].
  - intros raw Hc Hu. subst plan. unfold llm_plan. fold allowed. fold prompt.
    rewrite Hc. unfold unusable in Hu.
    now destruct (parse_response json_loads PlanV1_of raw).
  - intros raw original raw_retry Hc Hp Hn Hc2 Hu. subst plan. unfold llm_plan.
    fold allowed. fold prompt. rewrite Hc, Hp, Hn, Hc2.
    unfold unusable in Hu. unfold parse_response in *.
    destruct (json_object raw_retry) as [js|]; [|split; [easy | reflexivity]].
    split; [|discriminate]. intros _.
    destruct (json_loads js) as [d|]; [|reflexivity].
    now destruct (PlanV1_of d).
  - repeat split.
Qed.

(** a first response without a JSON object *)
Lemma unusable_response_example :
  unusable Example.json_loads Example.PlanV1_of Example.answer_prose
  /\ llm_plan Example.json_loads Example.PlanV1_of Example.schema_tables
              (fun _ => Answers Example.answer_prose) Example.build_prompt
              Example.retry_hint_of $"q" [] [] [] []
     = Returns PlanV1_default.
Proof.
  split; [exact I|].
  apply (proj1 (unusable_response_gives_default
                  str Example.json_loads Example.PlanV1_of Example.schema_tables
                  (fun _ => Answers Example.answer_prose) Example.build_prompt
                  Example.retry_hint_of $"q" [] [] [] []) Example.answer_prose).
  - reflexivity.
  - exact I.
Defined.

(** C8, as stated, fails on the response to the retry: the first response
    is a plan that names an unknown table, the retry is answered without
    any JSON object, and the plan returned has the task count, which the
    default plan has not. *)
Lemma retry_without_json_keeps_first_plan :
  json_object Example.answer_prose = None
  /\ exists plan,
      llm_plan Example.json_loads Example.PlanV1_of Example.schema_tables
               Example.chat_once Example.build_prompt Example.retry_hint_of
               $"q" [] [] [] []
      = Returns plan
      /\ task plan = task_count
      /\ plan <> PlanV1_default.
Proof.
  split; [reflexivity|].
  exists (clean [$"t"] Example.plan_count_ghost).
  split; [reflexivity|]. split; [reflexivity|]. intro H.
  apply (f_equal task) in H. vm_compute in H. discriminate.
Qed.

End C8.

(** ** C10: the dynamic top-K *)

Module C10.

Import Shortlister.

Lemma insert_desc_length (x : str * Q) (l : list (str * Q)) :
  length (insert_desc x l) = S (length l).
Proof.
  induction l as [|y l IH]; simpl; [reflexivity|].
  destruct (Qle_bool _ _); simpl; congruence.
Qed.

Lemma sort_desc_length (l : list (str * Q)) : length (sort_desc l) = length l.
Proof.
  induction l as [|x l IH]; simpl; [reflexivity|].
  now rewrite insert_desc_length, IH.
Qed.

(** C10 on the code: the list returned is the ranked list cut at
    [dynamic_topk]; when the best score is at least 10 and at least two
    tables score at least 5, the second test overwrites what the first one
    set, and K is the base plus 2, not the base plus 4 plus 2. *)
Theorem second_boost_overwrites_first
        (score : table_def -> list str -> Q) (m_schema : m_schema_t)
        (tokens : list str) (topk : Z) :
  let scored := scored_of score m_schema tokens in
  (0 <= topk)%Z ->
  (topk + 2 <= Z.of_nat (length m_schema))%Z ->
  (exists best rest, scored = best :: rest /\ Qle_bool 10 (snd best) = true) ->
  2 <= high_score_count scored ->
  snd (auto_select_tables score m_schema tokens topk)
  = firstn (Z.to_nat (topk + 2)) scored
  /\ length (snd (auto_select_tables score m_schema tokens topk)) = Z.to_nat (topk + 2).
Proof.
  intros scored H0 Hlen (best & rest & Es & Hbest) Hhigh.
  assert (L : length scored = length m_schema).
  { unfold scored, scored_of. now rewrite sort_desc_length, length_map. }
  assert (K : dynamic_topk topk scored = (topk + 2)%Z).
  { unfold dynamic_topk. apply Nat.leb_le in Hhigh. rewrite Hhigh, L. lia. }
  unfold auto_select_tables. fold (scored_of score m_schema tokens). fold scored.
  cbn [snd]. rewrite K.
  replace (Z.max 1 (topk + 2)) with (topk + 2)%Z by lia.
  split; [reflexivity|]. rewrite length_firstn, L. lia.
Qed.

(** thirteen tables, the tokens t1 and t2, the base K of 8: ten tables are
    returned, where base plus 4 plus 2 would keep all thirteen *)
Lemma second_boost_example :
  (0 <= 8)%Z
  /\ (8 + 2 <= Z.of_nat (length Example.thirteen_tables))%Z
  /\ 2 <= high_score_count (scored_of Example.score_by_name Example.thirteen_tables
                                      [$"t1"; $"t2"])
  /\ length (snd (auto_select_tables Example.score_by_name Example.thirteen_tables
                                     [$"t1"; $"t2"] 8)) = 10.
Proof.
  split; [lia|]. split; [vm_compute; discriminate|]. split; [vm_compute; lia|].
  apply (second_boost_overwrites_first Example.score_by_name Example.thirteen_tables
                                       [$"t1"; $"t2"] 8%Z).
  - lia.
  - vm_compute. discriminate.
  - eexists. eexists. split; [vm_compute; reflexivity | reflexivity].
  - vm_compute. lia.
Defined.

End C10.

(** ** C7: the column whitelists read bare names *)

Module C7.

Import SqlGlot.

Lemma filter_none {A : Type} (f : A -> bool) (l : list A) :
  (forall x, In x l -> f x = false) -> filter f l = [].
Proof.
  induction l as [|x l IH]; intro H; simpl; [reflexivity|].
  rewrite (H x (or_introl eq_refl)). apply IH. intros y Hy. apply H. now right.
Qed.

Lemma in_all_allowed_columns (allowed_columns : list (str * list str)) (t c : str)
      (cols : list str) :
  In (t, cols) allowed_columns -> In c (map lower cols) ->
  In c (AstValidator.all_allowed_columns allowed_columns).
Proof.
  intros Ht Hc. unfold AstValidator.all_allowed_columns.
  apply in_flat_map. exists (t, cols). split; [assumption|]. simpl.
  apply in_map_iff in Hc as (col & <- & Hcol).
  apply in_flat_map. exists col. split; [assumption | now left].
Qed.

(** C7: in the AST validator and in the Guard a column reference passes the
    whitelist as soon as its bare name is in the allowed set of any table;
    the table that qualifies the reference is not read, so that T1.c and c
    are the same reference to both checks. *)
Theorem whitelists_read_bare_names
        (lib : Lib) (env : SqlGuard.Env) (expr : Expression)
        (allowed_columns : list (str * list str)) (m_schema : m_schema_t)
        (allowed_columns_by_table : list (str * list str)) :
  (Forall (fun c => exists t cols, In (t, cols) allowed_columns /\ In c (map lower cols))
          (AstValidator.extract_column_references expr) ->
   AstValidator.passed (AstValidator.validate_allowed_columns_ast expr allowed_columns)
   = true)
  /\ (Forall (fun c => exists t cols,
                  In (t, cols) (SqlGuard.table_to_columns m_schema allowed_columns_by_table)
                  /\ In c cols)
             (SqlGuard._collect_column_names expr) ->
      SqlGuard.unknown_columns lib env expr m_schema allowed_columns_by_table = [])
  /\ (forall q n,
        AstValidator.extract_column_references (Example.qualified_col q n)
        = AstValidator.extract_column_references (Example.col n)
        /\ SqlGuard._collect_column_names (Example.qualified_col q n)
           = SqlGuard._collect_column_names (Example.col n)).
Proof.
  split; [|split].
  - intro H. unfold AstValidator.validate_allowed_columns_ast.
    rewrite filter_none; [reflexivity|].
    intros c Hc. rewrite Forall_forall in H.
    destruct (H c Hc) as (t & cols & Ht & Hcols).
    assert (M : mem c (AstValidator.all_allowed_columns allowed_columns) = true).
    { apply mem_In. eapply in_all_allowed_columns; eassumption. }
    now rewrite M.
  - intro H. unfold SqlGuard.unknown_columns.
    apply filter_none. intros c Hc. rewrite Forall_forall in H.
    destruct (H c Hc) as (t & cols & Ht & Hcols).
    assert (M : mem c (flat_map snd (SqlGuard.table_to_columns
                                       m_schema allowed_columns_by_table)) = true).
    { apply mem_In, in_flat_map. now exists (t, cols). }
    now rewrite M.
  - intros q n. split; reflexivity.
Qed.

(** SELECT T1.c FROM T1, when T1 allows only a and T2 allows c: the
    reference T1.c passes both checks *)
Lemma qualified_column_example :
  ~ In $"c" (map lower [$"a"])
  /\ AstValidator.passed
       (AstValidator.validate_allowed_columns_ast Example.e_t1_c Example.allowed_t1_t2)
     = true
  /\ SqlGuard.unknown_columns Example.sqlglot Example.env Example.e_t1_c
                              Example.schema_t1_t2 Example.allowed_t1_t2 = [].
Proof.
  split; [simpl; intuition discriminate|]. split.
  - apply (proj1 (whitelists_read_bare_names
                    Example.sqlglot Example.env Example.e_t1_c Example.allowed_t1_t2
                    Example.schema_t1_t2 Example.allowed_t1_t2)).
    repeat constructor. exists $"T2", [$"c"]. split; simpl; auto.
  - apply (proj1 (proj2 (whitelists_read_bare_names
                           Example.sqlglot Example.env Example.e_t1_c
                           Example.allowed_t1_t2 Example.schema_t1_t2
                           Example.allowed_t1_t2))).
    repeat constructor. exists $"t2", [$"c"]. split; simpl; auto.
Defined.

End C7.

(** ** The Guard, step by step *)

Module GuardFacts.

Import SqlGlot SqlGuard.

(** an accepted statement, and what is returned for it *)
Lemma accepted (lib : Lib) (env : Env) (sql_text dialect : str) (m_schema : m_schema_t)
      (max_limit : Z) (keep_order_by : bool)
      (allowed_columns_by_table : list (str * list str)) (expr : Expression)
      (base_sql : str) :
  Re.search Checks.cjk (_remove_comments sql_text) = false ->
  Re.search Checks.placeholder (_remove_comments sql_text) = false ->
  Re.search Checks.select_star (_remove_comments sql_text) = false ->
  parse_one lib (_remove_comments sql_text) dialect = Some expr ->
  is_Select (cls expr) || is_Union (cls expr) || is_With (cls expr) = true ->
  filter (fun t => negb (mem t (map (fun t => _normalize (table_name t)) m_schema)))
         (_collect_table_names expr) = [] ->
  unknown_columns lib env expr m_schema allowed_columns_by_table = [] ->
  sql lib (if negb (SQL_PERMISSIVE_MODE env) && negb keep_order_by
           then unset_in_selects $"order" expr else expr) dialect = Some base_sql ->
  validate_and_rewrite lib env sql_text dialect m_schema max_limit keep_order_by
                       allowed_columns_by_table
  = Returns
      (if SQL_PERMISSIVE_MODE env then normalise_text env base_sql
       else limit_policy lib env dialect (normalise_text env base_sql) max_limit).
Proof.
  intros H1 H2 H3 H4 H5 H6 H7 H8. unfold validate_and_rewrite. cbv zeta.
  rewrite H1, H2, H3, H4, H5, H6, H7. cbn [negb]. rewrite H8.
  now destruct (SQL_PERMISSIVE_MODE env).
Qed.

(** every text returned went through [normalise_text], and then at most
    through the LIMIT policy *)
Lemma returned (lib : Lib) (env : Env) (sql_text dialect : str) (m_schema : m_schema_t)
      (max_limit : Z) (keep_order_by : bool)
      (allowed_columns_by_table : list (str * list str)) (out : str) :
  validate_and_rewrite lib env sql_text dialect m_schema max_limit keep_order_by
                       allowed_columns_by_table = Returns out ->
  exists base,
    out = normalise_text env base
    \/ out = limit_policy lib env dialect (normalise_text env base) max_limit.
Proof.
  unfold validate_and_rewrite. cbv zeta.
  destruct (Re.search Checks.cjk _); [discriminate|].
  destruct (Re.search Checks.placeholder _); [discriminate|].
  destruct (Re.search Checks.select_star _); [discriminate|].
  destruct (parse_one lib _ dialect) as [expr|]; [|discriminate].
  destruct (negb _); [discriminate|].
  destruct (filter _ (_collect_table_names expr)); [|discriminate].
  destruct (unknown_columns lib env expr m_schema allowed_columns_by_table);
    [|discriminate].
  destruct (sql lib _ dialect) as [base_sql|]; [|discriminate].
  destruct (SQL_PERMISSIVE_MODE env); intros [= <-]; eexists; [left | right]; reflexivity.
Qed.

(** the four shapes of the result of the LIMIT policy *)
Lemma limit_policy_cases (lib : Lib) (env : Env) (dialect norm_sql : str) (max_limit : Z) :
  (exists cleaned,
      limit_policy lib env dialect norm_sql max_limit = normalise_text env cleaned)
  \/ limit_policy lib env dialect norm_sql max_limit = norm_sql
  \/ limit_policy lib env dialect norm_sql max_limit
     = norm_sql ++ $" LIMIT " ++ str_of_Z max_limit
  \/ limit_policy lib env dialect norm_sql max_limit = _clamp_limit norm_sql max_limit.
Proof.
  unfold limit_policy.
  destruct (parse_one lib norm_sql dialect) as [expr2|].
  - destruct (is_single_row_agg expr2).
    + destruct (sql lib _ dialect) as [cleaned|]; [left; eexists; reflexivity | auto].
    + destruct (_has_limit norm_sql); cbn [negb]; auto.
  - destruct (_has_limit norm_sql); cbn [negb]; auto.
Qed.

(** the LIMIT policy on a text that parses to something else than a
    single-row aggregate *)
Lemma limit_policy_by_text (lib : Lib) (env : Env) (dialect norm_sql : str)
      (max_limit : Z) (expr2 : Expression) :
  parse_one lib norm_sql dialect = Some expr2 ->
  is_single_row_agg expr2 = false ->
  limit_policy lib env dialect norm_sql max_limit
  = if negb (_has_limit norm_sql)
    then norm_sql ++ $" LIMIT " ++ str_of_Z max_limit
    else _clamp_limit norm_sql max_limit.
Proof. intros H1 H2. unfold limit_policy. now rewrite H1, H2. Qed.

(** quoting leaves alone a text in which no reserved word stands bare *)
Lemma quote_nothing (env : Env) (s : str) :
  (forall kw, In kw RESERVED_LIKE -> Re.sub (reserved kw) s = s) ->
  Forall (fun kw => In kw RESERVED_LIKE) (reserved_order env) ->
  _quote_reserved_identifiers env s = s.
Proof.
  intros Hs Ho. unfold _quote_reserved_identifiers.
  induction Ho as [|kw order Hkw _ IH]; simpl; [reflexivity|].
  now rewrite (Hs kw Hkw).
Qed.

Lemma normalise_nothing (env : Env) (s : str) :
  _strip_trailing_semicolon s = s ->
  _fix_interval_literals s = s ->
  (forall kw, In kw RESERVED_LIKE -> Re.sub (reserved kw) s = s) ->
  _unquote_order_dir s = s ->
  Forall (fun kw => In kw RESERVED_LIKE) (reserved_order env) ->
  normalise_text env s = s.
Proof.
  intros H1 H2 H3 H4 Ho. unfold normalise_text.
  now rewrite H1, H2, (quote_nothing env s H3 Ho), H4.
Qed.

Lemma unknown_columns_none (lib : Lib) (env : Env) (expr : Expression)
      (m_schema : m_schema_t) (allowed_columns_by_table : list (str * list str)) :
  Forall (fun c => mem c (flat_map snd (table_to_columns m_schema
                                          allowed_columns_by_table)) = true)
         (_collect_column_names expr) ->
  unknown_columns lib env expr m_schema allowed_columns_by_table = [].
Proof.
  intro H. unfold unknown_columns. rewrite Forall_forall in H.
  induction (_collect_column_names expr) as [|c l IH]; simpl; [reflexivity|].
  rewrite (H c (or_introl eq_refl)). simpl. apply IH. intros x Hx. apply H. now right.
Qed.

End GuardFacts.

Ltac reserved_cases :=
  let kw := fresh "kw" in
  let H := fresh "H" in
  intros kw H; simpl in H;
  repeat (destruct H as [<- | H]; [vm_compute; reflexivity|]);
  contradiction.

Ltac order_ok :=
  repeat (apply Forall_cons; [simpl; auto 10|]); apply Forall_nil.

Ltac no_rewriting :=
  apply GuardFacts.normalise_nothing;
  [vm_compute; reflexivity | vm_compute; reflexivity | reserved_cases
  | vm_compute; reflexivity | assumption].

(** ** C1: the LIMIT policy *)

Module C1.

Import SqlGlot SqlGuard Example.

(** C1 on the code, at a statement without LIMIT clause whose text holds
    the word limit in a string literal: whenever the library parses the
    statement to the tree of a plain SELECT and prints that tree as the
    same text, the Guard returns the text as it is, with no LIMIT at its end;
    the test for an existing LIMIT is a search for the word in the text. *)
Theorem limit_word_in_literal (lib : Lib) (env : Env) :
  parse_one lib q_literal $"mysql" = Some e_literal ->
  sql lib e_literal $"mysql" = Some q_literal ->
  SQL_PERMISSIVE_MODE env = false ->
  Forall (fun kw => In kw RESERVED_LIKE) (reserved_order env) ->
  validate_and_rewrite lib env q_literal $"mysql" schema 200 false [] = Returns q_literal
  /\ find_all is_Limit e_literal = []
  /\ _has_limit q_literal = true
  /\ ends_with $" LIMIT 200" q_literal = false.
Proof.
  intros Hp Hs Hm Ho.
  assert (Ec : _remove_comments q_literal = q_literal) by (vm_compute; reflexivity).
  split; [|repeat split].
  rewrite (GuardFacts.accepted lib env q_literal $"mysql" schema 200 false []
                               e_literal q_literal).
  - rewrite Hm.
    assert (En : normalise_text env q_literal = q_literal) by no_rewriting.
    rewrite En.
    rewrite (GuardFacts.limit_policy_by_text lib env $"mysql" q_literal 200
                                             e_literal Hp);
      [|reflexivity].
    f_equal.
  - now rewrite Ec.
  - now rewrite Ec.
  - now rewrite Ec.
  - now rewrite Ec.
  - reflexivity.
  - reflexivity.
  - apply GuardFacts.unknown_columns_none. repeat constructor.
  - rewrite Hm. exact Hs.
Qed.

(** The clamping itself, on the form with a comma: the second pattern gives
    the last digit of the offset back and clamps what is left of it, so that
    the offset 5000 becomes 2000. *)
Lemma clamp_limit_comma_form :
  _clamp_limit $"SELECT a FROM t LIMIT 5000, 10" 200 = $"SELECT a FROM t LIMIT 2000, 10"
  /\ _clamp_limit $"SELECT a FROM t LIMIT 500 OFFSET 5000" 200
     = $"SELECT a FROM t LIMIT 200 OFFSET 5000".
Proof. split; vm_compute; reflexivity. Qed.

(** sqlglot on the statement of the example *)
Lemma limit_word_in_literal_example :
  validate_and_rewrite sqlglot env q_literal $"mysql" schema 200 false []
  = Returns q_literal
  /\ find_all is_Limit e_literal = []
  /\ _has_limit q_literal = true
  /\ ends_with $" LIMIT 200" q_literal = false.
Proof.
  apply (limit_word_in_literal sqlglot env).
  - reflexivity.
  - reflexivity.
  - reflexivity.
  - order_ok.
Defined.

End C1.

(** ** C3: ORDER BY when the order is not to be kept *)

Module C3.

Import SqlGlot SqlGuard Example.

(** C3 on the code, at a UNION followed by ORDER BY and at a window
    function: the Guard removes the [order] argument of [Select] nodes only.
    Whenever the library parses the two statements to the trees of the
    examples, in which the ORDER BY belongs to the [Union] node and to the
    [Window] node, and prints these trees as the same texts, the statements
    are returned with their ORDER BY, followed by the LIMIT. *)
Theorem order_by_outside_select (lib : Lib) (env : Env) :
  parse_one lib q_union $"mysql" = Some e_union ->
  sql lib e_union $"mysql" = Some q_union ->
  parse_one lib q_window $"mysql" = Some e_window ->
  sql lib e_window $"mysql" = Some q_window ->
  SQL_PERMISSIVE_MODE env = false ->
  Forall (fun kw => In kw RESERVED_LIKE) (reserved_order env) ->
  (validate_and_rewrite lib env q_union $"mysql" schema 200 false []
   = Returns (q_union ++ $" LIMIT 200")
   /\ is_substring $"ORDER BY" (q_union ++ $" LIMIT 200") = true
   /\ find_all is_Order (unset_in_selects $"order" e_union) <> [])
  /\ (validate_and_rewrite lib env q_window $"mysql" schema 200 false []
      = Returns (q_window ++ $" LIMIT 200")
      /\ is_substring $"ORDER BY" (q_window ++ $" LIMIT 200") = true
      /\ find_all is_Order (unset_in_selects $"order" e_window) <> []).
Proof.
  intros Hpu Hsu Hpw Hsw Hm Ho. split.
  - split; [|split; [reflexivity | discriminate]].
    assert (Ec : _remove_comments q_union = q_union) by (vm_compute; reflexivity).
    rewrite (GuardFacts.accepted lib env q_union $"mysql" schema 200 false [] e_union
                                 q_union);
      try (rewrite Ec); try reflexivity; try assumption;
      [|rewrite Hm; exact Hsu].
    rewrite Hm.
    assert (En : normalise_text env q_union = q_union) by no_rewriting.
    rewrite En.
    rewrite (GuardFacts.limit_policy_by_text lib env $"mysql" q_union 200 e_union Hpu);
      reflexivity.
  - split; [|split; [reflexivity | discriminate]].
    assert (Ec : _remove_comments q_window = q_window) by (vm_compute; reflexivity).
    rewrite (GuardFacts.accepted lib env q_window $"mysql" schema 200 false [] e_window
                                 q_window);
      try (rewrite Ec); try reflexivity; try assumption;
      [|rewrite Hm; exact Hsw].
    rewrite Hm.
    assert (En : normalise_text env q_window = q_window) by no_rewriting.
    rewrite En.
    rewrite (GuardFacts.limit_policy_by_text lib env $"mysql" q_window 200
                                             e_window Hpw);
      reflexivity.
Qed.

(** sqlglot on the two statements *)
Lemma order_by_outside_select_example :
  (validate_and_rewrite sqlglot env q_union $"mysql" schema 200 false []
   = Returns (q_union ++ $" LIMIT 200")
   /\ is_substring $"ORDER BY" (q_union ++ $" LIMIT 200") = true
   /\ find_all is_Order (unset_in_selects $"order" e_union) <> [])
  /\ (validate_and_rewrite sqlglot env q_window $"mysql" schema 200 false []
      = Returns (q_window ++ $" LIMIT 200")
      /\ is_substring $"ORDER BY" (q_window ++ $" LIMIT 200") = true
      /\ find_all is_Order (unset_in_selects $"order" e_window) <> []).
Proof.
  apply (order_by_outside_select sqlglot env); try reflexivity. order_ok.
Defined.

End C3.

(** ** C6: the Guard applied twice *)

Module C6.

Import SqlGlot SqlGuard Example.

(** the text returned for the statement that ends with a number-sign comment *)
Lemma first_pass_text :
  q_block ++ $" LIMIT 200" = $"SELECT a FROM t /* c */ LIMIT 200".
Proof. reflexivity. Qed.

(** C6 on the code, at a statement that ends with a comment introduced by
    the number sign, which [_remove_comments] leaves in place: whenever the
    library keeps that comment on the tree and prints it as a block comment,
    the first pass returns the statement with the comment and a LIMIT, and
    the second pass, which removes block comments before it parses, returns
    another text. *)
Theorem second_pass_differs (lib : Lib) (env : Env) :
  parse_one lib q_hash $"mysql" = Some e_commented ->
  parse_one lib q_block $"mysql" = Some e_commented ->
  sql lib e_commented $"mysql" = Some q_block ->
  parse_one lib q_limit200_spaced $"mysql" = Some e_limit200 ->
  parse_one lib q_limit200 $"mysql" = Some e_limit200 ->
  sql lib e_limit200 $"mysql" = Some q_limit200 ->
  SQL_PERMISSIVE_MODE env = false ->
  Forall (fun kw => In kw RESERVED_LIKE) (reserved_order env) ->
  validate_and_rewrite lib env q_hash $"mysql" schema 200 false []
  = Returns (q_block ++ $" LIMIT 200")
  /\ validate_and_rewrite lib env (q_block ++ $" LIMIT 200") $"mysql" schema 200 false []
     = Returns q_limit200
  /\ q_block ++ $" LIMIT 200" <> q_limit200.
Proof.
  intros Hp1 Hp2 Hs1 Hp3 Hp4 Hs2 Hm Ho. split; [|split; [|discriminate]].
  - assert (Ec : _remove_comments q_hash = q_hash) by (vm_compute; reflexivity).
    rewrite (GuardFacts.accepted lib env q_hash $"mysql" schema 200 false [] e_commented
                                 q_block);
      try (rewrite Ec); try reflexivity; try assumption;
      [|rewrite Hm; exact Hs1].
    rewrite Hm.
    assert (En : normalise_text env q_block = q_block) by no_rewriting.
    rewrite En.
    rewrite (GuardFacts.limit_policy_by_text lib env $"mysql" q_block 200
                                             e_commented Hp2);
      reflexivity.
  - assert (Ec : _remove_comments (q_block ++ $" LIMIT 200") = q_limit200_spaced)
      by (vm_compute; reflexivity).
    rewrite (GuardFacts.accepted lib env (q_block ++ $" LIMIT 200") $"mysql" schema 200
                                 false [] e_limit200 q_limit200);
      try (rewrite Ec); try reflexivity; try assumption;
      [|rewrite Hm; exact Hs2].
    rewrite Hm.
    assert (En : normalise_text env q_limit200 = q_limit200) by no_rewriting.
    rewrite En.
    rewrite (GuardFacts.limit_policy_by_text lib env $"mysql" q_limit200 200
                                             e_limit200 Hp4);
      reflexivity.
Qed.

(** sqlglot on the statement and on what the first pass returns *)
Lemma second_pass_differs_example :
  validate_and_rewrite sqlglot env q_hash $"mysql" schema 200 false []
  = Returns (q_block ++ $" LIMIT 200")
  /\ validate_and_rewrite sqlglot env (q_block ++ $" LIMIT 200") $"mysql" schema 200
                          false []
     = Returns q_limit200
  /\ q_block ++ $" LIMIT 200" <> q_limit200.
Proof.
  apply (second_pass_differs sqlglot env); try reflexivity. order_ok.
Defined.

End C6.

(** ** What the patterns consume *)

Module Consumed.

Import Re.

Lemma take_drop (f : ascii -> bool) (s : str) : s = take_while f s ++ drop_while f s.
Proof.
  induction s as [|c s IH]; simpl; [reflexivity|].
  destruct (f c); simpl; [now f_equal | reflexivity].
Qed.

Lemma take_while_all (f : ascii -> bool) (s : str) : forallb f (take_while f s) = true.
Proof.
  induction s as [|c s IH]; simpl; [reflexivity|].
  destruct (f c) eqn:E; simpl; [now rewrite E | reflexivity].
Qed.

Lemma upto_app (m rest : str) : upto (m ++ rest) rest = m.
Proof.
  unfold upto. rewrite length_app.
  replace (length m + length rest - length rest) with (length m) by lia.
  rewrite firstn_app, Nat.sub_diag, firstn_all. simpl. now rewrite app_nil_r.
Qed.

Lemma lit_spec (p s rest : str) : lit p s = Some rest -> s = p ++ rest.
Proof.
  revert s. induction p as [|x p IH]; intros [|y s]; simpl; try discriminate.
  - now intros [= <-].
  - now intros [= <-].
  - destruct (ascii_eqb x y) eqn:E; [|discriminate].
    apply ascii_eqb_eq in E as ->. intro H. now rewrite (IH _ H).
Qed.

Lemma lit_ci_spec (p s rest : str) :
  lit_ci p s = Some rest -> exists m, s = m ++ rest /\ map lower_char m = p.
Proof.
  revert s. induction p as [|x p IH]; intros [|y s]; simpl; try discriminate.
  - intros [= <-]. now exists [].
  - intros [= <-]. now exists [].
  - destruct (ascii_eqb x (lower_char y)) eqn:E; [|discriminate].
    apply ascii_eqb_eq in E as ->. intro H.
    destruct (IH _ H) as (m & -> & <-). now exists (y :: m).
Qed.

Lemma lit_ci_complete (w rest : str) : lit_ci (map lower_char w) (w ++ rest) = Some rest.
Proof.
  induction w as [|c w IH]; simpl; [now destruct rest|].
  now rewrite ascii_eqb_refl.
Qed.

Lemma spaces0_spec (s : str) : s = take_while is_space s ++ spaces0 s.
Proof. apply take_drop. Qed.

Lemma digits1_spec (s d rest : str) :
  digits1 s = Some (d, rest) -> s = d ++ rest /\ d <> [] /\ forallb is_digit d = true.
Proof.
  unfold digits1. destruct (take_while is_digit s) as [|x t] eqn:E; [discriminate|].
  intros [= <- <-]. rewrite <- E. split; [apply take_drop|]. split.
  - rewrite E. discriminate.
  - apply take_while_all.
Qed.

(** the last character of a text; [last_opt] is the character that
    [Re.sub_loop] hands over to the next position *)
Lemma last_opt_cons (p : option ascii) (c : ascii) (m : str) :
  last_opt p (c :: m) = last_opt (Some c) m.
Proof.
  unfold last_opt. simpl. destruct (rev m) as [|x t] eqn:E; simpl; reflexivity.
Qed.

Lemma last_opt_nonempty (p : option ascii) (c : ascii) (m : str) :
  last_opt p (c :: m) = hd_error (rev (c :: m)).
Proof.
  unfold last_opt. simpl. destruct (rev m ++ [c]) as [|x t] eqn:E; [|reflexivity].
  now destruct (rev m).
Qed.

Lemma last_app (a b : str) :
  b <> [] -> hd_error (rev (a ++ b)) = hd_error (rev b).
Proof.
  intro H. rewrite rev_app_distr. destruct (rev b) as [|x t] eqn:E; [|reflexivity].
  apply (f_equal (@rev ascii)) in E. rewrite rev_involutive in E. now subst.
Qed.

Lemma last_of_all (f : ascii -> bool) (s : str) :
  s <> [] -> forallb f s = true -> opt_test f (hd_error (rev s)) = true.
Proof.
  intros Hne Hall. destruct (rev s) as [|x t] eqn:E.
  - apply (f_equal (@rev ascii)) in E. rewrite rev_involutive in E. now subst.
  - simpl. rewrite forallb_forall in Hall. apply Hall.
    apply in_rev. rewrite E. now left.
Qed.

(** a character whose lower case is a lower-case letter is a letter *)
Lemma letter_of_lower (c : ascii) : is_lower (lower_char c) = true -> is_word c = true.
Proof.
  destruct c as [[] [] [] [] [] [] [] []]; vm_compute; intro H;
    first [reflexivity | discriminate].
Qed.

(** decimal numerals *)
Lemma digit_char_is_digit (d : nat) : d < 10 -> is_digit (digit_char d) = true.
Proof.
  intro H. do 10 (destruct d as [|d]; [reflexivity|]). lia.
Qed.

Lemma nat_digits_spec (fuel n : nat) (acc : str) :
  exists ds, nat_digits fuel n acc = ds ++ acc
             /\ forallb is_digit ds = true
             /\ (0 < fuel -> ds <> []).
Proof.
  revert n acc. induction fuel as [|f IH]; intros n acc; cbn [nat_digits].
  - exists []. repeat split. lia.
  - assert (D : is_digit (digit_char (n mod 10)) = true).
    { apply digit_char_is_digit. apply Nat.mod_upper_bound. lia. }
    destruct (n <? 10).
    + exists [digit_char (n mod 10)]. cbn [forallb app]. rewrite D.
      repeat split. discriminate.
    + destruct (IH (n / 10) (digit_char (n mod 10) :: acc)) as (ds & -> & Hd & _).
      exists (ds ++ [digit_char (n mod 10)]). rewrite <- app_assoc.
      rewrite forallb_app, Hd. cbn [forallb app]. rewrite D. repeat split.
      now destruct ds.
Qed.

Lemma str_of_nat_digits (n : nat) :
  str_of_nat n <> [] /\ forallb is_digit (str_of_nat n) = true.
Proof.
  unfold str_of_nat. destruct (nat_digits_spec (S n) n []) as (ds & -> & Hd & Hne).
  rewrite app_nil_r. split; [apply Hne; lia | exact Hd].
Qed.

(** [str(n)] is a run of digits, after a minus sign when [n] is negative *)
Lemma str_of_Z_shape (z : Z) :
  exists sign ds, str_of_Z z = sign ++ ds
                  /\ (sign = [] \/ sign = $"-")
                  /\ ds <> [] /\ forallb is_digit ds = true.
Proof.
  unfold str_of_Z. destruct (z <? 0)%Z.
  - exists $"-", (str_of_nat (Z.to_nat (- z))).
    destruct (str_of_nat_digits (Z.to_nat (- z))). auto.
  - exists [], (str_of_nat (Z.to_nat z)).
    destruct (str_of_nat_digits (Z.to_nat z)). auto.
Qed.

End Consumed.

(** ** C9: reserved words in the returned text *)

Module C9.

Import Re SqlGuard Occurrence Consumed.

Lemma bare_after_cons (kw : str) (p : option ascii) (c : ascii) (s : str) :
  bare_after kw p (c :: s) = head_test kw p (c :: s) || bare_after kw (Some c) s.
Proof.
  unfold bare_after, head_test. cbn [search_loop].
  destruct (reserved kw p (c :: s)) as [[[m rep] rest]|]; [destruct m|]; reflexivity.
Qed.

Lemma head_test_true (kw : str) (p : option ascii) (s : str) :
  head_test kw p s = true
  <-> opt_test is_guard p = false /\ kw <> []
      /\ exists rest, lit_ci kw s = Some rest
                      /\ opt_test is_guard (hd_error rest) = false.
Proof.
  unfold head_test, reserved.
  destruct (opt_test is_guard p); [split; [discriminate | now intros [H _]]|].
  unfold bind. destruct (lit_ci kw s) as [rest|] eqn:L.
  2:{ split; [discriminate | now intros (_ & _ & r & H & _)]. }
  destruct (lit_ci_spec _ _ _ L) as (m & -> & Hm). rewrite upto_app.
  destruct (opt_test is_guard (hd_error rest)) eqn:G.
  { split; [discriminate|]. intros (_ & _ & r & [= <-] & H). congruence. }
  destruct m as [|x m]; simpl in Hm; subst kw.
  - split; [discriminate | now intros (_ & H & _)].
  - split; [|reflexivity]. intros _. repeat split; [discriminate|].
    exists rest. now split.
Qed.

Lemma not_inert (kw : str) (k y : ascii) :
  In k kw -> ascii_eqb k (lower_char y) = true -> inert kw y = false.
Proof.
  intros Hk E. unfold inert. apply negb_false_iff, existsb_exists.
  exists k. split; [assumption|]. apply ascii_eqb_eq in E. subst. apply ascii_eqb_refl.
Qed.

Lemma disciplined_head (kw rep : str) :
  disciplined kw rep ->
  exists r0 rep', rep = r0 :: rep' /\ is_guard r0 = true /\ inert kw r0 = true.
Proof.
  intros (H1 & H2 & _). destruct rep as [|r0 rep']; [discriminate|].
  exists r0, rep'. now repeat split.
Qed.

Lemma quiet_inv (kw : str) (q : option ascii) (s out : str) :
  quiet kw q s out ->
  (s = [] /\ out = [])
  \/ (exists c s' out',
        s = c :: s' /\ out = c :: out'
        /\ head_test kw q (c :: s') = false /\ quiet kw (Some c) s' out')
  \/ (exists m rep rest out',
        s = m ++ rest /\ out = rep ++ out'
        /\ opt_test is_guard (hd_error (rev m)) = true
        /\ disciplined kw rep
        /\ quiet kw (hd_error (rev m)) rest out').
Proof.
  destruct 1 as [p | p c s out Hh Hq | p m rep rest out Hm Hd Hq].
  - now left.
  - right. left. exists c, s, out.
    split; [reflexivity|]. split; [reflexivity|]. split; assumption.
  - right. right. exists m, rep, rest, out.
    split; [reflexivity|]. split; [reflexivity|]. split; [assumption|].
    split; assumption.
Qed.

(** a word read in the output at a position that was kept is read in the
    input as well *)
Lemma lit_ci_quiet (kw kw' : str) :
  (forall k, In k kw' -> In k kw) ->
  forall q s out rest',
    quiet kw q s out ->
    lit_ci kw' out = Some rest' ->
    opt_test is_guard (hd_error rest') = false ->
    exists rest, lit_ci kw' s = Some rest /\ opt_test is_guard (hd_error rest) = false.
Proof.
  induction kw' as [|x kw' IH]; intros Hsub q s out rest' Hq Hl Hg.
  - assert (E : rest' = out) by (destruct out; simpl in Hl; congruence). subst rest'.
    exists s. split; [now destruct s|].
    destruct (quiet_inv _ _ _ _ Hq)
      as [(-> & ->) | [(c & s' & out' & -> & -> & _ & _)
                      | (m & rep & rest0 & out' & -> & -> & _ & Hd & _)]].
    + reflexivity.
    + exact Hg.
    + destruct (disciplined_head _ _ Hd) as (r0 & rep' & -> & Hr & _).
      simpl in Hg. congruence.
  - destruct out as [|y out]; simpl in Hl; [discriminate|].
    destruct (ascii_eqb x (lower_char y)) eqn:E; [|discriminate].
    destruct (quiet_inv _ _ _ _ Hq)
      as [(_ & [=]) | [(c & s' & out' & -> & [= -> ->] & _ & Hq')
                      | (m & rep & rest0 & out' & -> & Eo & _ & Hd & _)]].
    + destruct (IH (fun k Hk => Hsub k (or_intror Hk)) _ _ _ _ Hq' Hl Hg)
        as (rest & Hr & Hg').
      exists rest. simpl. now rewrite E.
    + destruct (disciplined_head _ _ Hd) as (r0 & rep' & -> & _ & Hi).
      simpl in Eo. injection Eo as -> _.
      rewrite (not_inert kw x r0 (Hsub x (or_introl eq_refl)) E) in Hi. discriminate.
Qed.


(** the same for the test at the head of a kept position *)
Lemma head_test_quiet (kw : str) (p p' : option ascii) (c : ascii) (s out : str) :
  opt_test is_guard p = opt_test is_guard p' ->
  quiet kw (Some c) s out ->
  head_test kw p' (c :: out) = true ->
  head_test kw p (c :: s) = true.
Proof.
  intros Ep Hq Ht. apply head_test_true in Ht as (Hg & Hne & rest' & Hl & Hr).
  apply head_test_true. rewrite Ep. repeat split; try assumption.
  destruct kw as [|x kw]; [easy|]. simpl in Hl.
  destruct (ascii_eqb x (lower_char c)) eqn:E; [|discriminate].
  destruct (lit_ci_quiet (x :: kw) kw (fun k Hk => or_intror Hk) _ _ _ _ Hq Hl Hr)
    as (rest & Hl' & Hr').
  exists rest. simpl. rewrite E. now split.
Qed.

Lemma head_test_guarded (kw : str) (p : option ascii) (s : str) :
  opt_test is_guard p = true -> head_test kw p s = false.
Proof. intro H. unfold head_test, reserved. now rewrite H. Qed.

Lemma head_test_inert (kw : str) (p : option ascii) (c : ascii) (s : str) :
  inert kw c = true -> head_test kw p (c :: s) = false.
Proof.
  intro H. destruct (head_test kw p (c :: s)) eqn:E; [|reflexivity].
  apply head_test_true in E as (_ & Hne & rest & Hl & _).
  destruct kw as [|x kw]; [easy|]. simpl in Hl.
  destruct (ascii_eqb x (lower_char c)) eqn:Ex; [|discriminate].
  rewrite (not_inert (x :: kw) x c (or_introl eq_refl) Ex) in H. discriminate.
Qed.

(** no bare occurrence starts inside a replacement *)
Lemma bare_after_inert (kw : str) (out : str) (rep : str) :
  forall p,
    forallb (inert kw) rep = true ->
    bare_after kw (last_opt p rep) out = false ->
    bare_after kw p (rep ++ out) = false.
Proof.
  induction rep as [|x rep IH]; intros p Hall Ho; [exact Ho|].
  simpl in Hall. apply andb_true_iff in Hall as [Hx Hall].
  cbn [app]. rewrite bare_after_cons, (head_test_inert kw p x _ Hx). cbn [orb].
  apply IH; [assumption|]. now rewrite <- (last_opt_cons p).
Qed.

Lemma bare_after_guards (kw : str) (out : str) (rep : str) :
  forall p,
    opt_test is_guard p = true ->
    forallb is_guard rep = true ->
    bare_after kw (last_opt p rep) out = false ->
    bare_after kw p (rep ++ out) = false.
Proof.
  induction rep as [|x rep IH]; intros p Hp Hall Ho; [exact Ho|].
  simpl in Hall. apply andb_true_iff in Hall as [Hx Hall].
  cbn [app]. rewrite bare_after_cons, (head_test_guarded kw p _ Hp). cbn [orb].
  apply IH; [exact Hx | assumption |]. now rewrite <- (last_opt_cons p).
Qed.

Lemma bare_after_replacement (kw rep out : str) (p : option ascii) :
  disciplined kw rep ->
  bare_after kw (hd_error (rev rep)) out = false ->
  bare_after kw p (rep ++ out) = false.
Proof.
  intros Hd Ho. destruct (disciplined_head _ _ Hd) as (r0 & rep' & -> & Hr & Hi).
  destruct Hd as (_ & _ & _ & [Hall | Hall]).
  - cbn [app]. rewrite bare_after_cons, (head_test_inert kw p r0 _ Hi). cbn [orb].
    simpl in Hall. apply andb_true_iff in Hall as [_ Hall].
    apply bare_after_guards; [exact Hr | exact Hall |].
    now rewrite <- (last_opt_cons None), (last_opt_nonempty None).
  - apply bare_after_inert; [exact Hall|]. now rewrite (last_opt_nonempty p).
Qed.

(** the output of a quiet rewriting holds no bare occurrence *)
Lemma quiet_no_bare (kw : str) (p : option ascii) (s out : str) :
  quiet kw p s out ->
  forall p', opt_test is_guard p' = opt_test is_guard p -> bare_after kw p' out = false.
Proof.
  induction 1 as [p | p c s out Hh Hq IH | p m rep rest out Hm Hd Hq IH]; intros p' Ep.
  - reflexivity.
  - rewrite bare_after_cons, (IH (Some c) eq_refl), orb_false_r.
    destruct (head_test kw p' (c :: out)) eqn:E; [|reflexivity].
    rewrite (head_test_quiet kw p p' c s out (eq_sym Ep) Hq E) in Hh. discriminate.
  - apply bare_after_replacement; [exact Hd|]. apply IH.
    destruct Hd as (_ & _ & Hl & _). now rewrite Hl, Hm.
Qed.

Lemma bare_after_suffix (kw : str) (m rest : str) :
  forall p, bare_after kw p (m ++ rest) = false ->
            bare_after kw (last_opt p m) rest = false.
Proof.
  induction m as [|c m IH]; intros p H; [exact H|].
  cbn [app] in H. rewrite bare_after_cons in H.
  apply orb_false_iff in H as [_ H]. rewrite last_opt_cons. now apply IH.
Qed.

(** quoting [kw] itself is a quiet rewriting *)
Lemma sub_reserved_quiet (kw : str) :
  disciplined_rule kw (reserved kw) ->
  forall fuel s p, length s <= fuel -> quiet kw p s (sub_loop (reserved kw) fuel p s).
Proof.
  intros Hr. induction fuel as [|f IH]; intros s p Hlen.
  - destruct s; [constructor | simpl in Hlen; lia].
  - destruct s as [|c s]; [constructor|]. cbn [sub_loop].
    destruct (reserved kw p (c :: s)) as [[[m rep] rest]|] eqn:E.
    + destruct m as [|x m].
      * apply quiet_keep; [unfold head_test; now rewrite E|].
        apply IH. simpl in Hlen. lia.
      * destruct (Hr _ _ _ _ _ _ E) as (Es & Hm & Hd). rewrite Es.
        rewrite last_opt_nonempty.
        apply quiet_repl; [exact Hm | exact Hd|]. apply IH.
        apply (f_equal (@length ascii)) in Es. rewrite length_app in Es.
        simpl in Es, Hlen. lia.
    + apply quiet_keep; [unfold head_test; now rewrite E|].
      apply IH. simpl in Hlen. lia.
Qed.

(** a substitution with disciplined replacements, on a text without bare
    occurrence, is a quiet rewriting *)
Lemma sub_disciplined_quiet (kw : str) (r : rule) :
  disciplined_rule kw r ->
  forall fuel s p,
    length s <= fuel -> bare_after kw p s = false -> quiet kw p s (sub_loop r fuel p s).
Proof.
  intros Hr. induction fuel as [|f IH]; intros s p Hlen Hb.
  - destruct s; [constructor | simpl in Hlen; lia].
  - destruct s as [|c s]; [constructor|]. cbn [sub_loop].
    assert (Hkeep : quiet kw p (c :: s) (c :: sub_loop r f (Some c) s)).
    { rewrite bare_after_cons in Hb. apply orb_false_iff in Hb as [Hh Hb].
      apply quiet_keep; [exact Hh|]. apply IH; [simpl in Hlen; lia | exact Hb]. }
    destruct (r p (c :: s)) as [[[m rep] rest]|] eqn:E; [|exact Hkeep].
    destruct m as [|x m]; [exact Hkeep|].
    destruct (Hr _ _ _ _ _ _ E) as (Es & Hm & Hd).
    rewrite last_opt_nonempty. rewrite Es in Hb |- *.
    apply quiet_repl; [exact Hm | exact Hd|]. apply IH.
    + apply (f_equal (@length ascii)) in Es. rewrite length_app in Es.
      simpl in Es, Hlen. lia.
    + apply bare_after_suffix in Hb. now rewrite last_opt_nonempty in Hb.
Qed.

(** the two facts in the form in which they are used *)
Lemma sub_reserved_no_bare (kw : str) (s : str) :
  disciplined_rule kw (reserved kw) -> bare_after kw None (sub (reserved kw) s) = false.
Proof.
  intro Hr. unfold sub.
  apply (quiet_no_bare kw None s _ (sub_reserved_quiet kw Hr _ s None (le_n _)) None eq_refl).
Qed.

Lemma sub_keeps_no_bare (kw : str) (r : rule) (s : str) :
  disciplined_rule kw r ->
  bare_after kw None s = false -> bare_after kw None (sub r s) = false.
Proof.
  intros Hr Hb. unfold sub.
  apply (quiet_no_bare kw None s _
           (sub_disciplined_quiet kw r Hr _ s None (le_n _) Hb) None eq_refl).
Qed.


(** *** The replacements of the Guard are disciplined *)

Lemma letters_are_guards (m : str) :
  forallb is_lower (map lower_char m) = true -> forallb is_guard m = true.
Proof.
  induction m as [|c m IH]; simpl; [reflexivity|].
  rewrite !andb_true_iff. intros [Hc Hm]. split; [|now apply IH].
  unfold is_guard. now rewrite (letter_of_lower c Hc).
Qed.

Lemma last_of_snoc (a : str) (c : ascii) : hd_error (rev (a ++ [c])) = Some c.
Proof. now rewrite rev_app_distr. Qed.

(** quoting a reserved word *)
Lemma reserved_disciplined (kw kw' : str) :
  forallb is_lower kw' = true ->
  inert kw backtick = true ->
  disciplined_rule kw (reserved kw').
Proof.
  intros Hl Hb prev s x m rep rest E. unfold reserved in E.
  destruct (opt_test is_guard prev); [discriminate|]. unfold bind in E.
  destruct (lit_ci kw' s) as [r|] eqn:L; [|discriminate].
  destruct (opt_test is_guard (hd_error r)); [discriminate|].
  destruct (lit_ci_spec _ _ _ L) as (m0 & -> & Hm0). rewrite upto_app in E.
  injection E as -> <- ->.
  assert (G : forallb is_guard (x :: m) = true).
  { apply letters_are_guards. now rewrite Hm0. }
  split; [reflexivity|]. split; [apply last_of_all; [discriminate | exact G]|].
  assert (Hlast : hd_error (rev (backtick :: (x :: m) ++ [backtick])) = Some backtick).
  { change (backtick :: (x :: m) ++ [backtick])
      with ((backtick :: x :: m) ++ [backtick]).
    apply last_of_snoc. }
  unfold disciplined. rewrite Hlast.
  split; [reflexivity|]. split; [exact Hb|]. split; [reflexivity|].
  left. change (backtick :: (x :: m) ++ [backtick])
          with ([backtick] ++ (x :: m) ++ [backtick]).
  rewrite !forallb_app, G. reflexivity.
Qed.

(** taking the backticks off a direction *)
Lemma direction_disciplined (kw word upper : str) :
  disciplined kw upper -> disciplined_rule kw (quoted_direction word upper).
Proof.
  intros Hd prev s x m rep rest E. unfold quoted_direction, bind in E.
  destruct (lit [backtick] s) as [r1|] eqn:L1; [|discriminate].
  destruct (lit_ci word (spaces0 r1)) as [r2|] eqn:L2; [|discriminate].
  destruct (lit [backtick] (spaces0 r2)) as [r3|] eqn:L3; [|discriminate].
  injection E as Em <- <-.
  apply lit_spec in L1, L3. destruct (lit_ci_spec _ _ _ L2) as (mw & E2 & _).
  assert (Es : s = ([backtick] ++ take_while is_space r1 ++ mw
                    ++ take_while is_space r2 ++ [backtick]) ++ r3).
  { rewrite L1 at 1. rewrite (spaces0_spec r1) at 1. rewrite E2 at 1.
    rewrite (spaces0_spec r2) at 1. rewrite L3 at 1.
    now rewrite <- !app_assoc. }
  rewrite Es, upto_app in Em. rewrite <- Em. split; [exact Es|]. split; [|exact Hd].
  rewrite !app_assoc. now rewrite last_of_snoc.
Qed.


(** clamping a LIMIT *)
Lemma digit_is_guard (c : ascii) : is_digit c = true -> is_guard c = true.
Proof. intro H. unfold is_guard, is_word. now rewrite H. Qed.

Lemma digit_has_no_letter (c : ascii) :
  is_digit c = true -> is_lower (lower_char c) = false.
Proof.
  destruct c as [[] [] [] [] [] [] [] []]; vm_compute; intro H;
    first [reflexivity | discriminate].
Qed.

Lemma digit_inert (kw : str) (c : ascii) :
  forallb is_lower kw = true -> is_digit c = true -> inert kw c = true.
Proof.
  intros Hl Hc. unfold inert. apply negb_true_iff.
  destruct (existsb (ascii_eqb (lower_char c)) kw) eqn:E; [|reflexivity].
  apply existsb_exists in E as (k & Hk & Ek). apply ascii_eqb_eq in Ek. subst k.
  rewrite forallb_forall in Hl. specialize (Hl _ Hk).
  rewrite (digit_has_no_letter c Hc) in Hl. discriminate.
Qed.

Lemma digits_inert (kw ds : str) :
  forallb is_lower kw = true -> forallb is_digit ds = true ->
  forallb (inert kw) ds = true.
Proof.
  intros Hl Hd. rewrite forallb_forall in *. intros c Hc.
  apply digit_inert; [now apply forallb_forall | now apply Hd].
Qed.

Lemma str_of_Z_inert (kw : str) (z : Z) :
  forallb is_lower kw = true -> inert kw "-" = true ->
  forallb (inert kw) (str_of_Z z) = true.
Proof.
  intros Hl Hm. destruct (str_of_Z_shape z) as (sign & ds & -> & Hs & _ & Hd).
  rewrite forallb_app, (digits_inert kw ds Hl Hd), andb_true_r.
  destruct Hs as [-> | ->]; [reflexivity|]. simpl. now rewrite Hm.
Qed.

Lemma str_of_Z_last (z : Z) :
  str_of_Z z <> [] /\ opt_test is_guard (hd_error (rev (str_of_Z z))) = true.
Proof.
  destruct (str_of_Z_shape z) as (sign & ds & -> & _ & Hne & Hd). split.
  - destruct sign; [assumption | discriminate].
  - rewrite (last_app sign ds Hne). apply last_of_all; [assumption|].
    rewrite forallb_forall in *. intros c Hc. now apply digit_is_guard, Hd.
Qed.

Lemma digits_last (prefix ds : str) :
  ds <> [] -> forallb is_digit ds = true ->
  opt_test is_guard (hd_error (rev (prefix ++ ds))) = true.
Proof.
  intros Hne Hd. rewrite (last_app prefix ds Hne). apply last_of_all; [assumption|].
  rewrite forallb_forall in *. intros c Hc. now apply digit_is_guard, Hd.
Qed.

Lemma limit_text_disciplined (kw body : str) :
  forallb (inert kw) ($"LIMIT " ++ body) = true ->
  body <> [] ->
  opt_test is_guard (hd_error (rev body)) = true ->
  disciplined kw ($"LIMIT " ++ body).
Proof.
  intros Hi Hne Hl. unfold disciplined. rewrite (last_app $"LIMIT " body Hne).
  split; [reflexivity|]. split; [|split; [exact Hl | now right]].
  rewrite forallb_app in Hi. apply andb_true_iff in Hi as [Hi _].
  simpl in Hi. now apply andb_true_iff in Hi as [Hi _].
Qed.

Lemma limit_single_disciplined (kw : str) (max_limit : Z) :
  clamp_safe kw -> disciplined_rule kw (limit_single max_limit).
Proof.
  intros (Hl & H1 & H2 & H3) prev s x m rep rest E. unfold limit_single, bind in E.
  destruct (word_boundary prev s); [|discriminate].
  destruct (lit_ci $"limit" s) as [r1|] eqn:L1; [|discriminate].
  destruct (digits1 (spaces0 r1)) as [[count r2]|] eqn:D; [|discriminate].
  destruct (lit_ci_spec _ _ _ L1) as (ml & Es1 & _).
  destruct (digits1_spec _ _ _ D) as (Es2 & Hne & Hd).
  assert (Hrep : forall z, disciplined kw ($"LIMIT " ++ str_of_Z z)).
  { intro z. destruct (str_of_Z_last z) as [Hz1 Hz2].
    apply limit_text_disciplined; [|assumption|assumption].
    now rewrite forallb_app, H1, (str_of_Z_inert kw z Hl H3). }
  destruct (negb (comma_ahead r2)).
  - injection E as Em <- <-.
    assert (Es : s = (ml ++ take_while is_space r1 ++ count) ++ r2).
    { rewrite Es1 at 1. rewrite (spaces0_spec r1) at 1. rewrite Es2 at 1.
      now rewrite <- !app_assoc. }
    rewrite Es, upto_app in Em. rewrite <- Em. split; [exact Es|]. split; [|apply Hrep].
    rewrite app_assoc. now apply digits_last.
  - destruct (rev count) as [|last_digit [|y shorter]] eqn:R; try discriminate.
    injection E as Em <- <-.
    assert (Ec : count = rev (y :: shorter) ++ [last_digit]).
    { rewrite <- (rev_involutive count), R. reflexivity. }
    assert (Es : s = (ml ++ take_while is_space r1 ++ rev (y :: shorter))
                     ++ last_digit :: r2).
    { rewrite Es1 at 1. rewrite (spaces0_spec r1) at 1. rewrite Es2 at 1.
      rewrite Ec. rewrite <- !app_assoc. reflexivity. }
    rewrite Es, upto_app in Em. rewrite <- Em. split; [exact Es|]. split; [|apply Hrep].
    rewrite app_assoc. apply digits_last.
    + intro H. apply (f_equal (@length ascii)) in H. rewrite length_rev in H. discriminate.
    + rewrite Ec, forallb_app in Hd. now apply andb_true_iff in Hd as [Hd _].
Qed.

Lemma limit_offset_count_disciplined (kw : str) (max_limit : Z) :
  clamp_safe kw -> disciplined_rule kw (limit_offset_count max_limit).
Proof.
  intros (Hl & H1 & H2 & H3) prev s x m rep rest E.
  unfold limit_offset_count, bind in E.
  destruct (word_boundary prev s); [|discriminate].
  destruct (lit_ci $"limit" s) as [r1|] eqn:L1; [|discriminate].
  destruct (digits1 (spaces0 r1)) as [[offset r2]|] eqn:D1; [|discriminate].
  destruct (spaces0 r2) as [|c r3] eqn:S2; [discriminate|].
  destruct (is_comma c) eqn:C; [|discriminate].
  destruct (digits1 (spaces0 r3)) as [[count r4]|] eqn:D2; [|discriminate].
  injection E as Em <- <-.
  destruct (lit_ci_spec _ _ _ L1) as (ml & Es1 & _).
  destruct (digits1_spec _ _ _ D1) as (Es2 & _ & _).
  destruct (digits1_spec _ _ _ D2) as (Es3 & Hne & Hd).
  assert (Es : s = (ml ++ take_while is_space r1 ++ offset ++ take_while is_space r2
                    ++ [c] ++ take_while is_space r3 ++ count) ++ r4).
  { rewrite Es1 at 1. rewrite (spaces0_spec r1) at 1. rewrite Es2 at 1.
    rewrite (spaces0_spec r2) at 1. rewrite S2.
    rewrite (spaces0_spec r3) at 1. rewrite Es3 at 1.
    rewrite <- !app_assoc. reflexivity. }
  rewrite Es, upto_app in Em. rewrite <- Em. split; [exact Es|]. split.
  - rewrite !app_assoc. now apply digits_last.
  - set (z := Z.min (int_of_digits count) max_limit).
    destruct (str_of_Z_last z) as [Hz1 Hz2].
    change (disciplined kw ($"LIMIT " ++ (str_of_Z (int_of_digits offset)
                                          ++ $", " ++ str_of_Z z))).
    apply limit_text_disciplined.
    + rewrite !forallb_app, H1, H2, (str_of_Z_inert kw _ Hl H3),
        (str_of_Z_inert kw z Hl H3). reflexivity.
    + destruct (str_of_Z (int_of_digits offset)); discriminate.
    + rewrite !app_assoc. now rewrite (last_app _ (str_of_Z z) Hz1).
Qed.


(** *** Appending the LIMIT *)

Lemma lit_ci_into_inert (kw kw' t : str) :
  (forall k, In k kw' -> In k kw) ->
  forallb (inert kw) t = true ->
  forall a rest',
    lit_ci kw' (a ++ t) = Some rest' ->
    exists rest, lit_ci kw' a = Some rest /\ rest' = rest ++ t.
Proof.
  intros Hsub Ht. induction kw' as [|k kw' IH]; intros a rest' H.
  - exists a. split; [now destruct a|]. destruct (a ++ t); simpl in H; congruence.
  - destruct a as [|y a].
    + exfalso. destruct t as [|y t]; simpl in H; [discriminate|].
      destruct (ascii_eqb k (lower_char y)) eqn:E; [|discriminate].
      simpl in Ht. apply andb_true_iff in Ht as [Hy _].
      rewrite (not_inert kw k y (Hsub k (or_introl eq_refl)) E) in Hy. discriminate.
    + simpl in H |- *. destruct (ascii_eqb k (lower_char y)); [|discriminate].
      apply IH; [|exact H]. intros k' Hk'. apply Hsub. now right.
Qed.

Lemma bare_after_append (kw t : str) :
  forallb (inert kw) t = true ->
  opt_test is_guard (hd_error t) = false ->
  forall s p, bare_after kw p s = false -> bare_after kw p (s ++ t) = false.
Proof.
  intros Ht Hg. induction s as [|c s IH]; intros p H.
  - cbn [app]. rewrite <- (app_nil_r t). now apply bare_after_inert.
  - rewrite bare_after_cons in H. apply orb_false_iff in H as [Hh Hs].
    cbn [app]. rewrite bare_after_cons, (IH _ Hs), orb_false_r.
    destruct (head_test kw p (c :: s ++ t)) eqn:E; [|reflexivity].
    apply head_test_true in E as (Hp & Hne & rest' & Hl & Hr).
    destruct (lit_ci_into_inert kw kw t (fun k Hk => Hk) Ht (c :: s) rest' Hl)
      as (rest & Hl' & ->).
    assert (T : head_test kw p (c :: s) = true).
    { apply head_test_true. repeat split; try assumption. exists rest.
      split; [assumption|]. destruct rest; [reflexivity | exact Hr]. }
    congruence.
Qed.

(** *** The texts that the Guard returns *)

Lemma reserved_words_lower (k : str) :
  In k RESERVED_LIKE -> forallb is_lower k = true.
Proof.
  intro H. simpl in H.
  repeat (destruct H as [<- | H]; [reflexivity|]). contradiction.
Qed.

Lemma quotable_words (kw : str) :
  In kw [$"check"; $"key"; $"user"] -> quotable kw.
Proof.
  intro H. simpl in H.
  repeat (destruct H as [<- | H];
          [unfold quotable, clamp_safe, disciplined;
           repeat split; try reflexivity; left; reflexivity|]).
  contradiction.
Qed.

Lemma quote_no_bare (kw : str) :
  quotable kw ->
  forall order s,
    Forall (fun k => In k RESERVED_LIKE) order ->
    In kw order \/ bare_after kw None s = false ->
    bare_after kw None (fold_left (fun s k => sub (reserved k) s) order s) = false.
Proof.
  intros (Hl & Hb & _). induction order as [|k order IH]; intros s Ho H.
  - now destruct H.
  - inversion Ho as [|? ? Hk Ho']; subst. cbn [fold_left]. apply IH; [exact Ho'|].
    destruct (str_eq_dec k kw) as [-> | Hne].
    + right. apply sub_reserved_no_bare. now apply reserved_disciplined.
    + destruct H as [[Hk' | Hin] | Hs]; [contradiction | now left |].
      right. apply sub_keeps_no_bare; [|exact Hs].
      apply reserved_disciplined; [now apply reserved_words_lower | exact Hb].
Qed.

Lemma unquote_no_bare (kw s : str) :
  quotable kw ->
  bare_after kw None s = false -> bare_after kw None (_unquote_order_dir s) = false.
Proof.
  intros (_ & _ & Ha & Hd & _) H. unfold _unquote_order_dir.
  apply sub_keeps_no_bare; [now apply direction_disciplined|].
  apply sub_keeps_no_bare; [now apply direction_disciplined | exact H].
Qed.

Lemma normalise_no_bare (kw : str) (env : Env) (base : str) :
  quotable kw ->
  Forall (fun k => In k RESERVED_LIKE) (reserved_order env) ->
  In kw (reserved_order env) ->
  bare_after kw None (normalise_text env base) = false.
Proof.
  intros Hq Ho Hin. unfold normalise_text. apply unquote_no_bare; [exact Hq|].
  unfold _quote_reserved_identifiers. apply quote_no_bare; auto.
Qed.

Lemma clamp_no_bare (kw s : str) (max_limit : Z) :
  quotable kw ->
  bare_after kw None s = false -> bare_after kw None (_clamp_limit s max_limit) = false.
Proof.
  intros (_ & _ & _ & _ & Hc & _) H. unfold _clamp_limit.
  apply sub_keeps_no_bare; [now apply limit_single_disciplined|].
  apply sub_keeps_no_bare; [now apply limit_offset_count_disciplined | exact H].
Qed.

Lemma limit_appended_no_bare (kw s : str) (max_limit : Z) :
  quotable kw ->
  bare_after kw None s = false ->
  bare_after kw None (s ++ $" LIMIT " ++ str_of_Z max_limit) = false.
Proof.
  intros (Hl & _ & _ & _ & (_ & _ & _ & Hm) & Hi) H.
  apply bare_after_append; [|reflexivity | exact H].
  now rewrite forallb_app, Hi, (str_of_Z_inert kw max_limit Hl Hm).
Qed.

(** a bare occurrence is what the pattern finds, and conversely *)
Lemma stands_bare_found (kw s : str) :
  kw <> [] -> stands_bare kw s -> bare_after kw None s = true.
Proof.
  intros Hne (l & w & r & -> & Hw & Hl & Hr).
  assert (G : forall l p, free_side (last_opt p l) ->
                          bare_after kw p (l ++ w ++ r) = true).
  { clear l Hl. induction l as [|c l IH]; intros p Hp.
    - destruct w as [|c w]; [now subst kw|]. cbn [app].
      rewrite bare_after_cons.
      assert (T : head_test kw p ((c :: w) ++ r) = true).
      { apply head_test_true. repeat split; try assumption.
        exists r. split; [|exact Hr]. subst kw. apply lit_ci_complete. }
      cbn [app] in T. now rewrite T.
    - cbn [app]. rewrite bare_after_cons, (IH (Some c)), orb_true_r; [reflexivity|].
      now rewrite <- (last_opt_cons p). }
  apply G. unfold last_opt. unfold free_side in Hl. now destruct (rev l).
Qed.

Lemma found_stands_bare (kw s : str) :
  bare_after kw None s = true -> stands_bare kw s.
Proof.
  assert (G : forall s p, bare_after kw p s = true ->
                          exists l w r, s = l ++ w ++ r /\ lower w = kw
                                        /\ free_side (last_opt p l)
                                        /\ free_side (hd_error r)).
  { clear s. induction s as [|c s IH]; intros p H; [discriminate|].
    rewrite bare_after_cons in H. destruct (head_test kw p (c :: s)) eqn:E.
    - apply head_test_true in E as (Hp & _ & rest & Hl & Hr).
      destruct (lit_ci_spec _ _ _ Hl) as (m & Es & Hm).
      exists [], m, rest. now repeat split.
    - destruct (IH (Some c) H) as (l & w & r & -> & Hw & Hl & Hr).
      exists (c :: l), w, r. repeat split; try assumption.
      unfold free_side. now rewrite last_opt_cons. }
  intro H. destruct (G s None H) as (l & w & r & E & Hw & Hl & Hr).
  exists l, w, r. repeat split; assumption.
Qed.


(** C9, as amended: in every text that the Guard returns, no occurrence of
    check, key or user is left as the Guard's pattern would quote it, that
    is with neither a word character nor a backtick next to it: all such
    occurrences stand between backticks.  Nothing of the kind is said of
    desc, from which [_unquote_order_dir] takes the backticks off again. *)
Theorem reserved_words_are_quoted
        (lib : SqlGlot.Lib) (env : Env) (sql_text dialect : str) (m_schema : m_schema_t)
        (max_limit : Z) (keep_order_by : bool)
        (allowed_columns_by_table : list (str * list str)) (out kw : str) :
  Permutation (reserved_order env) RESERVED_LIKE ->
  In kw [$"check"; $"key"; $"user"] ->
  validate_and_rewrite lib env sql_text dialect m_schema max_limit keep_order_by
                       allowed_columns_by_table = Returns out ->
  ~ stands_bare kw out.
Proof.
  intros Hperm Hkw Hret Hbare.
  assert (Hq : quotable kw) by now apply quotable_words.
  assert (Hne : kw <> []).
  { simpl in Hkw. repeat (destruct Hkw as [<- | Hkw]; [discriminate|]). contradiction. }
  assert (Ho : Forall (fun k => In k RESERVED_LIKE) (reserved_order env)).
  { apply Forall_forall. intros k Hk. now apply (Permutation_in _ Hperm). }
  assert (Hin : In kw (reserved_order env)).
  { apply (Permutation_in _ (Permutation_sym Hperm)). simpl in Hkw |- *. tauto. }
  assert (Hn : forall base, bare_after kw None (normalise_text env base) = false).
  { intro base. now apply normalise_no_bare. }
  apply (stands_bare_found kw out Hne) in Hbare.
  destruct (GuardFacts.returned _ _ _ _ _ _ _ _ _ Hret) as (base & [-> | ->]).
  - rewrite Hn in Hbare. discriminate.
  - destruct (GuardFacts.limit_policy_cases lib env dialect (normalise_text env base)
                                            max_limit)
      as [(cleaned & E) | [E | [E | E]]]; rewrite E in Hbare.
    + rewrite Hn in Hbare. discriminate.
    + rewrite Hn in Hbare. discriminate.
    + rewrite (limit_appended_no_bare kw _ max_limit Hq (Hn base)) in Hbare.
      discriminate.
    + rewrite (clamp_no_bare kw _ max_limit Hq (Hn base)) in Hbare. discriminate.
Qed.

Lemma example_order : Permutation (reserved_order Example.env) RESERVED_LIKE.
Proof.
  apply NoDup_Permutation.
  - repeat constructor; simpl; intuition discriminate.
  - repeat constructor; simpl; intuition discriminate.
  - intro x. simpl. tauto.
Defined.

(** a table named user: the Guard returns its name between backticks *)
Lemma reserved_words_example :
  Permutation (reserved_order Example.env) RESERVED_LIKE
  /\ In $"user" [$"check"; $"key"; $"user"]
  /\ validate_and_rewrite Example.sqlglot Example.env Example.q_user $"mysql"
                          Example.schema_user 200 false []
     = Returns $"SELECT a FROM `user` LIMIT 200"
  /\ ~ stands_bare $"user" $"SELECT a FROM `user` LIMIT 200".
Proof.
  split; [exact example_order|]. split; [simpl; auto|]. split; [reflexivity|].
  apply (reserved_words_are_quoted Example.sqlglot Example.env Example.q_user $"mysql"
                                   Example.schema_user 200 false []
                                   $"SELECT a FROM `user` LIMIT 200" $"user").
  - exact example_order.
  - simpl. auto.
  - reflexivity.
Defined.

(** C9, as stated, fails for desc: with the ORDER BY kept, the direction
    DESC comes back from the Guard without backticks, although desc is a
    word of RESERVED_LIKE. *)
Lemma desc_is_returned_bare :
  In $"desc" RESERVED_LIKE
  /\ validate_and_rewrite Example.sqlglot Example.env Example.q_desc $"mysql"
                          Example.schema 200 true []
     = Returns $"SELECT a FROM t ORDER BY a DESC LIMIT 200"
  /\ stands_bare $"desc" $"SELECT a FROM t ORDER BY a DESC LIMIT 200"
  /\ is_substring [backtick] $"SELECT a FROM t ORDER BY a DESC LIMIT 200" = false.
Proof.
  split; [simpl; auto|]. split; [reflexivity|]. split; [|reflexivity].
  exists $"SELECT a FROM t ORDER BY a ", $"DESC", $" LIMIT 200".
  repeat split.
Qed.

End C9.

(** ** The Guard: what an accepted statement is made of *)

Module Acceptance.

Import SqlGlot SqlGuard.

Lemma filter_nil {A : Type} (f : A -> bool) (l : list A) :
  filter f l = [] -> forall x, In x l -> f x = false.
Proof.
  induction l as [|y l IH]; simpl; [easy|].
  destruct (f y) eqn:E; [discriminate|].
  intros H x [<- | Hx]; [exact E | now apply IH].
Qed.

(** X1: a statement for which the Guard returns a text has passed every
    check: without its comments it holds no Chinese character, no
    placeholder and no SELECT followed by a star; it parses to a SELECT, a
    UNION or a WITH; the name of every table it uses is, normalised, the
    name of a table of the schema; and every column name it uses belongs
    to the columns allowed for some table, or is the alias of a projection,
    a permitted alias, or a run of digits. *)
Theorem returned_statement_is_whitelisted
        (lib : Lib) (env : Env) (sql_text dialect : str) (m_schema : m_schema_t)
        (max_limit : Z) (keep_order_by : bool)
        (allowed_columns_by_table : list (str * list str)) (out : str) :
  validate_and_rewrite lib env sql_text dialect m_schema max_limit keep_order_by
                       allowed_columns_by_table = Returns out ->
  Re.search Checks.cjk (_remove_comments sql_text) = false
  /\ Re.search Checks.placeholder (_remove_comments sql_text) = false
  /\ Re.search Checks.select_star (_remove_comments sql_text) = false
  /\ exists expr,
      parse_one lib (_remove_comments sql_text) dialect = Some expr
      /\ is_Select (cls expr) || is_Union (cls expr) || is_With (cls expr) = true
      /\ (forall t, In t (_collect_table_names expr) ->
                    exists table, In table m_schema /\ _normalize (table_name table) = t)
      /\ (forall c, In c (_collect_column_names expr) ->
                    (exists t cols,
                        In (t, cols) (table_to_columns m_schema allowed_columns_by_table)
                        /\ In c cols)
                    \/ In c (_collect_select_aliases lib expr)
                    \/ In c (_get_permitted_aliases env)
                    \/ isdigit c = true).
Proof.
  unfold validate_and_rewrite. cbv zeta.
  destruct (Re.search Checks.cjk _) eqn:E1; [discriminate|].
  destruct (Re.search Checks.placeholder _) eqn:E2; [discriminate|].
  destruct (Re.search Checks.select_star _) eqn:E3; [discriminate|].
  destruct (parse_one lib _ dialect) as [expr|] eqn:E4; [|discriminate].
  destruct (is_Select (cls expr) || is_Union (cls expr) || is_With (cls expr)) eqn:E5;
    cbn [negb]; [|discriminate].
  destruct (filter _ (_collect_table_names expr)) eqn:E6; [|discriminate].
  destruct (unknown_columns lib env expr m_schema allowed_columns_by_table) eqn:E7;
    [|discriminate].
  intros _. repeat (split; [reflexivity|]). exists expr.
  split; [reflexivity|]. split; [exact E5|]. split.
  - intros t Ht. apply (filter_nil _ _ E6) in Ht.
    apply negb_false_iff, mem_In, in_map_iff in Ht as (table & Hn & Hin).
    now exists table.
  - intros c Hc. unfold unknown_columns in E7. apply (filter_nil _ _ E7) in Hc.
    destruct (mem c (flat_map snd (table_to_columns m_schema allowed_columns_by_table)))
      eqn:M1.
    { left. apply mem_In, in_flat_map in M1 as ([t cols] & Hin & Hcol).
      now exists t, cols. }
    destruct (mem c (_collect_select_aliases lib expr)) eqn:M2.
    { right. left. now apply mem_In. }
    destruct (mem c (_get_permitted_aliases env)) eqn:M3.
    { right. right. left. now apply mem_In. }
    right. right. right. simpl in Hc. now apply negb_false_iff in Hc.
Qed.

(** the statement with a string literal, accepted as it is *)
Lemma returned_statement_example :
  validate_and_rewrite Example.sqlglot Example.env Example.q_literal $"mysql"
                       Example.schema 200 false [] = Returns Example.q_literal
  /\ Re.search Checks.select_star (_remove_comments Example.q_literal) = false
  /\ exists expr,
      parse_one Example.sqlglot (_remove_comments Example.q_literal) $"mysql" = Some expr
      /\ forall t, In t (_collect_table_names expr) ->
                   exists table, In table Example.schema
                                 /\ _normalize (table_name table) = t.
Proof.
  assert (H : validate_and_rewrite Example.sqlglot Example.env Example.q_literal $"mysql"
                                   Example.schema 200 false []
              = Returns Example.q_literal) by reflexivity.
  split; [exact H|].
  destruct (returned_statement_is_whitelisted
              Example.sqlglot Example.env Example.q_literal $"mysql" Example.schema
              200 false [] Example.q_literal H)
    as (_ & _ & H3 & expr & H4 & _ & H6 & _).
  split; [exact H3|]. exists expr. split; [exact H4 | exact H6].
Defined.

(** X2: in permissive mode the Guard looks at neither [max_limit] nor
    [keep_order_by]: whatever their values, the outcome is the same, error
    or text. *)
Theorem permissive_mode_ignores_limit_and_order
        (lib : Lib) (env : Env) (sql_text dialect : str) (m_schema : m_schema_t)
        (max_limit max_limit' : Z) (keep_order_by keep_order_by' : bool)
        (allowed_columns_by_table : list (str * list str)) :
  SQL_PERMISSIVE_MODE env = true ->
  validate_and_rewrite lib env sql_text dialect m_schema max_limit keep_order_by
                       allowed_columns_by_table
  = validate_and_rewrite lib env sql_text dialect m_schema max_limit' keep_order_by'
                         allowed_columns_by_table.
Proof.
  intro Hp. unfold validate_and_rewrite. cbv zeta. rewrite Hp. cbn [negb andb].
  reflexivity.
Qed.

(** the statement with ORDER BY, in permissive mode: returned with its
    ORDER BY and without LIMIT, whatever is asked *)
Lemma permissive_mode_example :
  SQL_PERMISSIVE_MODE Cases.env_permissive = true
  /\ validate_and_rewrite Example.sqlglot Cases.env_permissive Example.q_desc $"mysql"
                          Example.schema 200 false []
     = validate_and_rewrite Example.sqlglot Cases.env_permissive Example.q_desc $"mysql"
                            Example.schema 5 true []
  /\ validate_and_rewrite Example.sqlglot Cases.env_permissive Example.q_desc $"mysql"
                          Example.schema 200 false []
     = Returns Example.q_desc.
Proof.
  split; [reflexivity|]. split; [|reflexivity].
  apply (permissive_mode_ignores_limit_and_order
           Example.sqlglot Cases.env_permissive Example.q_desc $"mysql" Example.schema
           200 5 false true []).
  reflexivity.
Defined.

Lemma dict_set_in {A : Type} (k : str) (v : A) (d : list (str * A)) (kv : str * A) :
  In kv (dict_set k v d) -> kv = (k, v) \/ In kv d.
Proof.
  induction d as [|[k' v'] d IH]; simpl.
  - intros [<- | []]. now left.
  - destruct (str_eqb k k'); simpl.
    + intros [<- | H]; [now left | now right; right].
    + intros [<- | H]; [now right; left|].
      destruct (IH H) as [-> | H']; [now left | now right; right].
Qed.

Lemma dict_of_in {A : Type} (items : list (str * A)) (kv : str * A) :
  In kv (dict_of items) -> In kv items.
Proof.
  unfold dict_of.
  assert (G : forall d, In kv (fold_left (fun d kv => dict_set (fst kv) (snd kv) d)
                                         items d) ->
                        In kv d \/ In kv items).
  { induction items as [|[k v] items IH]; intros d H; simpl in *; [now left|].
    destruct (IH _ H) as [H' | H']; [|now right; right].
    destruct (dict_set_in _ _ _ _ H') as [-> | H'']; [right; now left | now left]. }
  intro H. now destruct (G [] H).
Qed.

(** X3: the contract can only narrow what the schema allows.  Every entry
    of the column sets that the Guard checks against belongs to a table of
    the schema, and its columns are columns of that table; for a table
    for which the contract names at least one column, they are also
    columns that the contract names for it; a table for which the contract
    names no column, because it does not name the table or names it with
    an empty list, keeps all the columns of the schema. *)
Theorem contract_only_narrows_the_schema
        (m_schema : m_schema_t) (allowed_columns_by_table : list (str * list str))
        (t : str) (cols : list str) :
  In (t, cols) (table_to_columns m_schema allowed_columns_by_table) ->
  exists table,
    In table m_schema /\ _normalize (table_name table) = t
    /\ incl cols (map _normalize (table_columns table))
    /\ (contract_cols allowed_columns_by_table t = [] ->
        cols = map _normalize (table_columns table))
    /\ (contract_cols allowed_columns_by_table t <> [] ->
        incl cols (contract_cols allowed_columns_by_table t)).
Proof.
  assert (S : forall cols0, In (t, cols0) (schema_columns m_schema) ->
                exists table, In table m_schema /\ _normalize (table_name table) = t
                              /\ cols0 = map _normalize (table_columns table)).
  { intros cols0 H. apply dict_of_in, in_map_iff in H as (table & [= <- <-] & Hin).
    now exists table. }
  unfold table_to_columns. destruct allowed_columns_by_table as [|a0 al] eqn:Ea.
  - intro H. destruct (S cols H) as (table & Hin & Hn & ->).
    exists table. repeat split; try assumption; [apply incl_refl | easy].
  - rewrite <- Ea. intro H. apply in_map_iff in H as ([t0 cols0] & E & Hin).
    cbn [fst snd] in E.
    destruct (contract_cols allowed_columns_by_table t0) as [|c1 cc] eqn:Ec.
    + injection E as -> ->. destruct (S cols Hin) as (table & Ht & Hn & ->).
      exists table. rewrite Ec. repeat split; try assumption; [apply incl_refl | easy].
    + injection E as -> <-. destruct (S cols0 Hin) as (table & Ht & Hn & ->).
      exists table. rewrite Ec. repeat split; try assumption.
      * intros c Hc. now apply filter_In in Hc as [Hc _].
      * discriminate.
      * intros _ c Hc. apply filter_In in Hc as [_ Hc]. now apply mem_In.
Qed.

(** the table T1 of the example, for which the contract names the column a *)
Lemma contract_only_narrows_example :
  In ($"t1", [$"a"]) (table_to_columns Example.schema_t1_t2 Example.allowed_t1_t2)
  /\ exists table,
      In table Example.schema_t1_t2 /\ _normalize (table_name table) = $"t1"
      /\ incl [$"a"] (map _normalize (table_columns table))
      /\ (contract_cols Example.allowed_t1_t2 $"t1" = [] ->
          [$"a"] = map _normalize (table_columns table))
      /\ (contract_cols Example.allowed_t1_t2 $"t1" <> [] ->
          incl [$"a"] (contract_cols Example.allowed_t1_t2 $"t1")).
Proof.
  assert (H : In ($"t1", [$"a"])
                 (table_to_columns Example.schema_t1_t2 Example.allowed_t1_t2))
    by (now left).
  split; [exact H|].
  exact (contract_only_narrows_the_schema Example.schema_t1_t2 Example.allowed_t1_t2
                                          $"t1" [$"a"] H).
Defined.

End Acceptance.

(** ** The textual helpers of the Guard *)

Module GuardText.

Import Re SqlGuard TextShape.

Lemma drop_while_head (f : ascii -> bool) (s : str) :
  match drop_while f s with
  | [] => True
  | c :: _ => f c = false
  end.
Proof.
  induction s as [|c s IH]; simpl; [exact I|].
  destruct (f c) eqn:E; [exact IH | exact E].
Qed.

Lemma drop_while_solid (f : ascii -> bool) (s : str) :
  opt_test f (hd_error s) = false -> drop_while f s = s.
Proof. destruct s as [|c s]; simpl; [reflexivity|]. now intros ->. Qed.

Lemma strip_ends_solid (s : str) : ends_solid (strip s).
Proof.
  unfold ends_solid, strip. rewrite rev_involutive.
  generalize (drop_while_head is_space (rev (drop_while is_space s))).
  now destruct (drop_while is_space (rev (drop_while is_space s))).
Qed.

Lemma strip_starts_solid (s : str) : opt_test is_space (hd_error (strip s)) = false.
Proof.
  unfold strip.
  assert (H := drop_while_head is_space s).
  set (v := drop_while is_space s) in *.
  assert (L : opt_test is_space (hd_error (rev (rev v))) = false).
  { rewrite rev_involutive. now destruct v. }
  revert L. generalize (rev v). intros u.
  induction u as [|c u IH]; simpl; [reflexivity|].
  destruct (is_space c) eqn:E.
  - intros L. apply IH. destruct (rev u); [reflexivity | exact L].
  - intros L. exact L.
Qed.

Lemma ends_solid_tail (c : ascii) (t : str) :
  ends_solid (c :: t) -> t <> [] -> ends_solid t /\ forallb is_space t = false.
Proof.
  unfold ends_solid. intros H Hne. simpl in H.
  destruct (rev t) as [|d r] eqn:E.
  { apply (f_equal (@rev ascii)) in E. rewrite rev_involutive in E. now subst. }
  simpl in H. split; [exact H|].
  destruct (forallb is_space t) eqn:F; [|reflexivity].
  rewrite forallb_forall in F. rewrite <- (F d); [exact H|].
  apply in_rev. rewrite E. now left.
Qed.

Lemma sub_trailing_semicolon (t : str) :
  ends_solid t ->
  forall fuel prev, length t <= fuel ->
    sub_loop trailing_semicolon fuel prev t
    = match rev t with
      | c :: r => if ascii_eqb c ";" then rev r else t
      | [] => []
      end.
Proof.
  induction t as [|c t IH]; intros Hs fuel prev Hf.
  - now destruct fuel.
  - destruct fuel as [|f]; [simpl in Hf; lia|].
    cbn [sub_loop]. unfold trailing_semicolon at 1.
    destruct t as [|c' t'].
    + cbn [forallb]. rewrite andb_true_r. simpl.
      destruct (ascii_eqb c ";"); simpl; now destruct f.
    + destruct (ends_solid_tail c (c' :: t') Hs) as [Hs' F]; [discriminate|].
      rewrite F, andb_false_r.
      rewrite (IH Hs' f (Some c)); [|simpl in *; lia].
      change (rev (c :: c' :: t')) with (rev (c' :: t') ++ [c]).
      destruct (rev (c' :: t')) as [|d r] eqn:E.
      { apply (f_equal (@rev ascii)) in E. rewrite rev_involutive in E. discriminate. }
      cbn [app]. destruct (ascii_eqb d ";"); [|reflexivity].
      now rewrite rev_app_distr.
Qed.

(** X4: [_strip_trailing_semicolon] strips the text and then removes one
    semicolon at its very end, and nothing else: of two semicolons the
    first stays, and so do the blanks that stood in front of the one
    removed. *)
Theorem strip_trailing_semicolon_spec (sql_text : str) :
  _strip_trailing_semicolon sql_text
  = match rev (strip sql_text) with
    | c :: r => if ascii_eqb c ";" then rev r else strip sql_text
    | [] => []
    end.
Proof.
  unfold _strip_trailing_semicolon, sub.
  apply sub_trailing_semicolon; [apply strip_ends_solid | lia].
Qed.

(** the head of what is left when the rule does not apply at the head *)
Lemma line_comment_none (prev : option ascii) (s : str) :
  line_comment prev s = None <-> starts_with $"--" s = false.
Proof.
  unfold line_comment, bind.
  destruct s as [|a [|b s]]; simpl; try easy.
  - destruct (ascii_eqb "-" a); easy.
  - destruct (ascii_eqb "-" a); simpl; [|easy].
    destruct (ascii_eqb "-" b); easy.
Qed.

Lemma upto_nonempty (s rest : str) : length rest < length s -> upto s rest <> [].
Proof.
  unfold upto. intro H. destruct s as [|c s]; [simpl in H; lia|].
  destruct (length (c :: s) - length rest) eqn:D; [cbn [length] in *; lia|].
  simpl. discriminate.
Qed.

Lemma drop_while_length (f : ascii -> bool) (u : str) :
  length (drop_while f u) <= length u.
Proof.
  induction u as [|x u IHu]; simpl; [lia|]. destruct (f x); simpl; lia.
Qed.

Lemma line_comment_some (prev : option ascii) (s m rep rest : str) :
  line_comment prev s = Some (m, rep, rest) ->
  m <> [] /\ rep = $" " /\ length rest < length s.
Proof.
  unfold line_comment, bind.
  destruct s as [|a [|b s]]; simpl; try easy.
  - destruct (ascii_eqb "-" a); easy.
  - destruct (ascii_eqb "-" a); simpl; [|easy].
    destruct (ascii_eqb "-" b); simpl; [|easy].
    intros [= <- <- <-].
    assert (L := drop_while_length (fun c => negb (is_newline c)) s).
    split; [|split; [reflexivity | lia]].
    apply upto_nonempty. simpl. lia.
Qed.

Lemma no_dashes_after (fuel : nat) :
  forall prev s, length s <= fuel ->
    is_substring $"--" (sub_loop line_comment fuel prev s) = false
    /\ (starts_with $"-" s = false ->
        starts_with $"-" (sub_loop line_comment fuel prev s) = false).
Proof.
  induction fuel as [|f IH]; intros prev s Hf.
  - destruct s; [|simpl in Hf; lia]. split; reflexivity.
  - destruct s as [|c s]; [split; reflexivity|].
    cbn [sub_loop].
    destruct (line_comment prev (c :: s)) as [[[m rep] rest]|] eqn:E.
    + destruct (line_comment_some _ _ _ _ _ E) as (Hm & -> & Hl).
      destruct m as [|x m]; [easy|].
      assert (Hk : is_substring $"--" (sub_loop line_comment f
                                                (last_opt prev (x :: m)) rest) = false).
      { apply IH. simpl in Hl, Hf. lia. }
      split; [|reflexivity].
      change (is_substring $"--" (" "%char :: sub_loop line_comment f
                                                     (last_opt prev (x :: m)) rest) = false).
      cbn [is_substring]. apply orb_false_iff. split; [reflexivity | exact Hk].
    + apply line_comment_none in E.
      destruct (IH (Some c) s) as [H1 H2]; [simpl in Hf; lia|].
      split.
      * cbn [is_substring]. apply orb_false_iff. split; [|exact H1].
        destruct (ascii_eqb "-" c) eqn:Ec.
        -- assert (Es : starts_with $"-" s = false).
           { simpl in E. rewrite Ec in E. simpl in E.
             destruct s as [|b s]; [reflexivity|]. simpl in *.
             now rewrite andb_true_r in *. }
           specialize (H2 Es). simpl. rewrite Ec. simpl.
           destruct (sub_loop line_comment f (Some c) s); [reflexivity|].
           simpl in *. now rewrite andb_true_r in *.
        -- simpl. now rewrite Ec.
      * intro Hc. simpl in *. now rewrite andb_true_r in *.
Qed.

(** X5: the text that [_remove_comments] returns holds no two dashes in a
    row: every line comment has gone, up to the end of its line. *)
Theorem remove_comments_leaves_no_dashes (sql_text : str) :
  is_substring $"--" (_remove_comments sql_text) = false.
Proof.
  unfold _remove_comments, sub. apply no_dashes_after. lia.
Qed.

Lemma lower_char_idem (c : ascii) : lower_char (lower_char c) = lower_char c.
Proof.
  destruct c as [[] [] [] [] [] [] [] []]; vm_compute; reflexivity.
Qed.

Lemma lower_char_backtick (c : ascii) :
  ascii_eqb (lower_char c) backtick = ascii_eqb c backtick.
Proof.
  destruct c as [[] [] [] [] [] [] [] []]; vm_compute; reflexivity.
Qed.

(** X6: [_normalize] gives a name without backticks and without capital
    letters, is idempotent, and does not see the backticks around a quoted
    name. *)
Theorem normalize_normal_form (name : str) :
  _normalize (_normalize name) = _normalize name
  /\ ~ In backtick (_normalize name)
  /\ Forall (fun c => is_upper c = false) (_normalize name)
  /\ _normalize ([backtick] ++ name ++ [backtick]) = _normalize name.
Proof.
  unfold _normalize. repeat split.
  - induction name as [|c name IH]; [reflexivity|]. simpl.
    destruct (ascii_eqb c backtick) eqn:E; simpl; [exact IH|].
    rewrite lower_char_backtick, E. simpl. now rewrite lower_char_idem, IH.
  - intro H. unfold lower in H. apply in_map_iff in H as (c & Hc & Hin).
    apply filter_In in Hin as [_ Hb].
    assert (E : ascii_eqb (lower_char c) backtick = true) by (rewrite Hc; apply ascii_eqb_refl).
    rewrite lower_char_backtick in E. now rewrite E in Hb.
  - unfold lower. apply Forall_map, Forall_forall. intros c _.
    destruct c as [[] [] [] [] [] [] [] []]; vm_compute; reflexivity.
  - rewrite !filter_app. simpl. now rewrite app_nil_r.
Qed.

End GuardText.

(** ** The tree after the loop that strips a clause from every SELECT *)

Module Stripping.

Import SqlGlot.

(** induction on expression trees, through the lists of children *)
Lemma Expression_induction (P : Expression -> Prop) :
  (forall c t a cm, Forall (fun kv => Forall P (snd kv)) a -> P (Exp c t a cm)) ->
  forall e, P e.
Proof.
  intro H. fix IH 1. intros [c t a cm]. apply H.
  induction a as [|[k es] a IHa]; constructor; [|exact IHa].
  simpl. induction es as [|e es IHes]; constructor; [apply IH | exact IHes].
Qed.

Lemma lookup_remove_key {A : Type} (k : str) (d : list (str * A)) :
  lookup k (remove_key k d) = None.
Proof.
  induction d as [|[k' v] d IH]; simpl; [reflexivity|].
  destruct (str_eqb k k') eqn:E; [exact IH|]. simpl. now rewrite E.
Qed.

Lemma remove_key_in {A : Type} (k : str) (d : list (str * A)) (kv : str * A) :
  In kv (remove_key k d) -> In kv d.
Proof.
  induction d as [|[k' v] d IH]; simpl; [easy|].
  destruct (str_eqb k k'); simpl; intuition.
Qed.

(** X7: after the loop [for s in expr.find_all(exp.Select): s.set(k, None)]
    no SELECT node of the tree, at any depth, has an argument [k] left. *)
Theorem no_select_keeps_the_clause (k : str) (e : Expression) :
  Forall (fun n => is_Select (cls n) = true -> arg n k = [])
         (walk (unset_in_selects k e)).
Proof.
  induction e as [c t a cm IH] using Expression_induction.
  cbn [unset_in_selects walk]. constructor.
  - cbn [cls]. intro Hc. unfold arg. cbn [args]. rewrite Hc.
    now rewrite lookup_remove_key.
  - apply Forall_forall. intros n Hn.
    apply in_flat_map in Hn as ([k' es'] & Hkv & Hn). cbn [snd] in Hn.
    assert (Hkv' : In (k', es')
                      (map (fun kv => (fst kv, map (unset_in_selects k) (snd kv))) a)).
    { destruct (is_Select c); [now apply remove_key_in in Hkv | exact Hkv]. }
    apply in_map_iff in Hkv' as ([k0 es] & [= <- <-] & Hin).
    apply in_flat_map in Hn as (e' & He' & Hn).
    apply in_map_iff in He' as (e0 & <- & He0).
    rewrite Forall_forall in IH. specialize (IH _ Hin). cbn [snd] in IH.
    rewrite Forall_forall in IH. specialize (IH _ He0).
    rewrite Forall_forall in IH. now apply IH.
Qed.

(** the SELECT with an ORDER BY of its own *)
Lemma no_select_keeps_the_clause_example :
  arg Example.e_desc $"order" <> []
  /\ Forall (fun n => is_Select (cls n) = true -> arg n $"order" = [])
            (walk (unset_in_selects $"order" Example.e_desc)).
Proof.
  split; [discriminate|]. exact (no_select_keeps_the_clause $"order" Example.e_desc).
Defined.

End Stripping.

(** ** The AST validator as a whole *)

Module Validation.

Import SqlGlot AstValidator.

Lemma is_empty_app {A : Type} (l1 l2 : list A) :
  is_empty_list (l1 ++ l2) = is_empty_list l1 && is_empty_list l2.
Proof. now destruct l1. Qed.

Lemma when_given_passes {A : Type} (xs : list A) (r : ASTValidationResult) :
  is_empty_list (errors (when_given xs r)) = true
  <-> xs = [] \/ is_empty_list (errors r) = true.
Proof.
  destruct xs; simpl.
  - split; [now left | reflexivity].
  - split; [now right | intros [H | H]; [discriminate | exact H]].
Qed.

(** X8: the validation of a statement passes exactly when the statement
    parses and each family of constraints passes on its tree: the required
    tables, joins and predicates, and the two whitelists.  A whitelist that
    is empty is not checked at all: with no allowed table, or no allowed
    column, given, every table, or column, passes. *)
Theorem comprehensive_validation_passes
        (lib : Lib) (sql_text : str)
        (must_tables must_joins must_predicates allowed_tables : list str)
        (allowed_columns : list (str * list str)) :
  passed (comprehensive_ast_validation lib sql_text must_tables must_joins
                                       must_predicates allowed_tables allowed_columns)
  = true
  <-> exists expr,
      parse_one lib sql_text $"mysql" = Some expr
      /\ passed (validate_must_tables_ast expr must_tables) = true
      /\ passed (validate_must_joins_ast lib expr must_joins) = true
      /\ passed (validate_must_predicates_ast lib expr must_predicates) = true
      /\ (allowed_tables = []
          \/ passed (validate_allowed_tables_ast expr allowed_tables) = true)
      /\ (allowed_columns = []
          \/ passed (validate_allowed_columns_ast expr allowed_columns) = true).
Proof.
  unfold comprehensive_ast_validation.
  destruct (parse_one lib sql_text $"mysql") as [expr|];
    [|split; [discriminate | now intros (e & [=] & _)]].
  cbv zeta. unfold result_of at 1. cbn [passed].
  rewrite !is_empty_app, !andb_true_iff, !when_given_passes.
  split.
  - intros (H1 & H2 & H3 & H4 & H5). exists expr. split; [reflexivity|].
    split; [destruct H1 as [-> | H1]; [reflexivity | exact H1]|].
    split; [destruct H2 as [-> | H2]; [reflexivity | exact H2]|].
    split; [destruct H3 as [-> | H3]; [reflexivity | exact H3]|].
    split; assumption.
  - intros (e & [= <-] & H1 & H2 & H3 & H4 & H5).
    repeat split; try (right; assumption); assumption.
Qed.

Lemma strip_idempotent (s : str) : strip (strip s) = strip s.
Proof.
  assert (H1 := GuardText.strip_starts_solid s).
  assert (H2 := GuardText.strip_ends_solid s). unfold TextShape.ends_solid in H2.
  set (t := strip s) in *. unfold strip.
  rewrite (GuardText.drop_while_solid is_space t H1).
  rewrite (GuardText.drop_while_solid is_space (rev t) H2).
  apply rev_involutive.
Qed.

Lemma strip_one_paren_stripped (p : str) : strip (strip_one_paren p) = strip_one_paren p.
Proof.
  unfold strip_one_paren. cbv zeta.
  destruct (starts_with $"(" (strip p) && ends_with $")" (strip p));
    apply strip_idempotent.
Qed.

Lemma split_without_match (r : Re.rule) (s : str) :
  forall fuel prev cur,
    Re.search_loop r prev s = false -> Re.split_loop r fuel prev cur s = [cur ++ s].
Proof.
  induction s as [|c s IH]; intros fuel prev cur H.
  - now destruct fuel.
  - destruct fuel as [|f]; [reflexivity|].
    cbn [Re.split_loop Re.search_loop] in *.
    destruct (r prev (c :: s)) as [[[[|x m] rep] rest]|].
    + rewrite (IH f (Some c) (cur ++ [c]) H). now rewrite <- app_assoc.
    + discriminate.
    + rewrite (IH f (Some c) (cur ++ [c]) H). now rewrite <- app_assoc.
Qed.

(** X9: the atoms of a required predicate are never empty and carry no
    blank at either end; and a predicate in which the word AND does not
    occur gives one atom at most, the predicate itself, stripped and freed
    of one pair of wrapping parentheses. *)
Theorem atoms_are_clean (predicate : str) :
  (forall atom, In atom (decompose_predicate_to_atoms predicate) ->
                atom <> [] /\ strip atom = atom)
  /\ (Re.search and_word predicate = false ->
      decompose_predicate_to_atoms predicate
      = filter (fun s => negb (is_empty s)) [strip_one_paren predicate]).
Proof.
  split.
  - intros atom H. unfold decompose_predicate_to_atoms in H.
    destruct predicate as [|c p]; [easy|].
    apply filter_In in H as [H Hne]. split; [now destruct atom|].
    apply in_map_iff in H as (part & <- & _). apply strip_one_paren_stripped.
  - intro H. unfold decompose_predicate_to_atoms.
    destruct predicate as [|c p]; [reflexivity|].
    unfold Re.split. now rewrite (split_without_match _ _ _ _ _ H).
Qed.

(** a predicate between parentheses, with blanks around it *)
Lemma atoms_are_clean_example :
  Re.search and_word $" ( a = 1 ) " = false
  /\ decompose_predicate_to_atoms $" ( a = 1 ) " = [$"a = 1"].
Proof.
  split; [reflexivity|].
  rewrite (proj2 (atoms_are_clean $" ( a = 1 ) ")); reflexivity.
Defined.

(** X10: [suggest_repair_actions] gives one suggestion for each missing
    item and looks for the equals sign first: a required predicate that is
    missing and holds an equals sign is suggested as a JOIN to add, and no
    suggestion to add a WHERE condition ever concerns an item with an
    equals sign. *)
Theorem equality_predicates_are_suggested_as_joins
        (lib : Lib) (expr : Expression) (must_predicates : list str) :
  let result := validate_must_predicates_ast lib expr must_predicates in
  length (suggest_repair_actions result) = length (missing_items result)
  /\ (forall p, In p must_predicates ->
                check_predicate_presence (extract_where_conditions lib expr) p = false ->
                is_substring $"=" p = true ->
                In (Add_join p) (suggest_repair_actions result))
  /\ (forall item, In (Add_where item) (suggest_repair_actions result) ->
                   is_substring $"=" item = false).
Proof.
  intro result. unfold suggest_repair_actions. split; [apply length_map|]. split.
  - intros p Hp Hc He. apply in_map_iff. exists p. rewrite He. split; [reflexivity|].
    subst result. unfold validate_must_predicates_ast. cbn [missing_items result_of].
    apply filter_In. split; [exact Hp | now rewrite Hc].
  - intros item H. apply in_map_iff in H as (x & E & _).
    destruct (is_substring $"=" x) eqn:Ex; [discriminate|].
    destruct (existsb _ predicate_operators); [|discriminate].
    now injection E as <-.
Qed.

(** the required predicate a = 2 is missing from SELECT a FROM t WHERE b = 1 *)
Lemma equality_predicates_example :
  In (Add_join $"a = 2")
     (suggest_repair_actions
        (validate_must_predicates_ast Example.sqlglot Example.e_where [$"a = 2"])).
Proof.
  apply (proj1 (proj2 (equality_predicates_are_suggested_as_joins
                         Example.sqlglot Example.e_where [$"a = 2"]))).
  - now left.
  - reflexivity.
  - reflexivity.
Defined.

End Validation.

(** ** The normal form of a predicate *)

Module NormalForm.

Import Re AstValidator.

Lemma Forall_drop_while (P : ascii -> Prop) (f : ascii -> bool) (s : str) :
  Forall P s -> Forall P (drop_while f s).
Proof.
  induction 1 as [|c s Hc Hs IH]; simpl; [constructor|].
  destruct (f c); [exact IH | now constructor].
Qed.

Lemma Forall_take_while (P : ascii -> Prop) (f : ascii -> bool) (s : str) :
  Forall P s -> Forall P (take_while f s).
Proof.
  induction 1 as [|c s Hc Hs IH]; simpl; [constructor|].
  destruct (f c); constructor; assumption.
Qed.

Lemma sub_loop_preserves (P : ascii -> Prop) (r : rule) :
  (forall prev s m rep rest,
      r prev s = Some (m, rep, rest) -> Forall P s -> Forall P rep /\ Forall P rest) ->
  forall fuel prev s, Forall P s -> Forall P (sub_loop r fuel prev s).
Proof.
  intros Hr. induction fuel as [|f IH]; intros prev s Hs; [exact Hs|].
  destruct s as [|c s]; [constructor|]. cbn [sub_loop].
  destruct (r prev (c :: s)) as [[[[|x m] rep] rest]|] eqn:E.
  - inversion Hs; subst. constructor; [assumption | now apply IH].
  - destruct (Hr _ _ _ _ _ E Hs) as [H1 H2].
    apply Forall_app. split; [exact H1 | now apply IH].
  - inversion Hs; subst. constructor; [assumption | now apply IH].
Qed.

Lemma lit_rest (P : ascii -> Prop) (p s rest : str) :
  lit p s = Some rest -> Forall P s -> Forall P rest.
Proof.
  intros H Hs. apply Consumed.lit_spec in H. subst s.
  now apply Forall_app in Hs as [_ Hs].
Qed.

Lemma spaces1_rest (P : ascii -> Prop) (s rest : str) :
  spaces1 s = Some rest -> Forall P s -> Forall P rest.
Proof.
  unfold spaces1. destruct s as [|c s]; [discriminate|].
  destruct (is_space c); [|discriminate]. intros [= <-] Hs.
  change (Forall P (drop_while is_space (c :: s))). now apply Forall_drop_while.
Qed.

Lemma ident_rest (P : ascii -> Prop) (s x rest : str) :
  ident s = Some (x, rest) -> Forall P s -> Forall P x /\ Forall P rest.
Proof.
  unfold ident. destruct s as [|c s]; [discriminate|].
  destruct (is_ident_start c); [|discriminate]. intros [= <- <-] Hs.
  inversion Hs; subst. split.
  - constructor; [assumption | now apply Forall_take_while].
  - now apply Forall_drop_while.
Qed.

Ltac preserved :=
  repeat match goal with
         | H : bind ?e _ = Some _ |- _ =>
             let E := fresh "E" in
             destruct e as [?|] eqn:E; cbn [bind] in H; [|discriminate]
         | H : (let (_, _) := ?p in _) = Some _ |- _ => destruct p
         | H : (if ?b then _ else _) = Some _ |- _ => destruct b; [|discriminate]
         | H : (if ?b then None else _) = Some _ |- _ => destruct b; [discriminate|]
         | E : lit _ ?s = Some ?r, Hs : Forall _ ?s |- _ =>
             apply (fun H => lit_rest _ _ _ _ H Hs) in E
         | E : spaces1 ?s = Some ?r, Hs : Forall _ ?s |- _ =>
             apply (fun H => spaces1_rest _ _ _ H Hs) in E
         | E : ident ?s = Some (_, _), Hs : Forall _ ?s |- _ =>
             apply (fun H => ident_rest _ _ _ _ H Hs) in E; destruct E
         end.

Lemma not_is_null_lower (prev : option ascii) (s m rep rest : str) :
  not_is_null prev s = Some (m, rep, rest) ->
  Forall (fun c => is_upper c = false) s ->
  Forall (fun c => is_upper c = false) rep /\ Forall (fun c => is_upper c = false) rest.
Proof.
  unfold not_is_null. intros H Hs.
  destruct (word_boundary prev s); [|discriminate].
  preserved.
  injection H as <- <- <-. split; [|assumption].
  apply Forall_app. split; [assumption|]. repeat constructor.
Qed.

Lemma not_is_not_null_lower (prev : option ascii) (s m rep rest : str) :
  not_is_not_null prev s = Some (m, rep, rest) ->
  Forall (fun c => is_upper c = false) s ->
  Forall (fun c => is_upper c = false) rep /\ Forall (fun c => is_upper c = false) rest.
Proof.
  unfold not_is_not_null. intros H Hs.
  destruct (word_boundary prev s); [|discriminate].
  preserved.
  injection H as <- <- <-. split; [|assumption].
  apply Forall_app. split; [assumption|]. repeat constructor.
Qed.

Lemma table_prefix_lower (prev : option ascii) (s m rep rest : str) :
  table_prefix prev s = Some (m, rep, rest) ->
  Forall (fun c => is_upper c = false) s ->
  Forall (fun c => is_upper c = false) rep /\ Forall (fun c => is_upper c = false) rest.
Proof.
  unfold table_prefix. intros H Hs.
  destruct (word_boundary prev s); [|discriminate].
  destruct (take_while is_word s) as [|x w]; [discriminate|].
  assert (Hd := Forall_drop_while _ is_word s Hs).
  destruct (drop_while is_word s) as [|dot r]; [discriminate|].
  destruct (ascii_eqb dot "."); [|discriminate].
  injection H as <- <- <-. split; [constructor|]. now inversion Hd.
Qed.

Lemma blanks_lower (prev : option ascii) (s m rep rest : str) :
  blanks prev s = Some (m, rep, rest) ->
  Forall (fun c => is_upper c = false) s ->
  Forall (fun c => is_upper c = false) rep /\ Forall (fun c => is_upper c = false) rest.
Proof.
  unfold blanks. intros H Hs. destruct s as [|c s]; [discriminate|].
  destruct (is_space c); [|discriminate]. injection H as <- <- <-.
  split; [repeat constructor|].
  change (Forall (fun c => is_upper c = false) (drop_while is_space (c :: s))).
  now apply Forall_drop_while.
Qed.

Lemma lower_has_no_capital (s : str) : Forall (fun c => is_upper c = false) (lower s).
Proof.
  unfold lower. apply Forall_map, Forall_forall. intros c _.
  destruct c as [[] [] [] [] [] [] [] []]; vm_compute; reflexivity.
Qed.

Lemma strip_preserves (P : ascii -> Prop) (s : str) : Forall P s -> Forall P (strip s).
Proof.
  intro H. unfold strip. apply Forall_rev, Forall_drop_while, Forall_rev.
  now apply Forall_drop_while.
Qed.

Lemma blanks_step (f : nat) (prev : option ascii) (c : ascii) (s : str) :
  sub_loop blanks (S f) prev (c :: s)
  = if is_space c
    then " "%char :: sub_loop blanks f (last_opt prev (c :: take_while is_space s))
                              (drop_while is_space s)
    else c :: sub_loop blanks f (Some c) s.
Proof.
  cbn [sub_loop]. unfold blanks at 1. cbn [take_while drop_while].
  now destruct (is_space c).
Qed.

(** the blanks of a text that does not end with one, collapsed *)
Lemma blanks_collapsed (fuel : nat) :
  forall prev s,
    length s <= fuel -> TextShape.ends_solid s ->
    Forall (fun c => is_space c = true -> c = " "%char) (sub_loop blanks fuel prev s)
    /\ is_substring $"  " (sub_loop blanks fuel prev s) = false
    /\ TextShape.ends_solid (sub_loop blanks fuel prev s)
    /\ (opt_test is_space (hd_error s) = false ->
        opt_test is_space (hd_error (sub_loop blanks fuel prev s)) = false)
    /\ (s <> [] -> sub_loop blanks fuel prev s <> []).
Proof.
  induction fuel as [|f IH]; intros prev s Hf Hs.
  { destruct s; [|simpl in Hf; lia]. repeat split; try easy; try constructor. }
  destruct s as [|c s]; [repeat split; try easy; try constructor|].
  rewrite blanks_step.
  destruct (is_space c) eqn:Ec.
  - set (rest := drop_while is_space s).
    set (p := last_opt prev (c :: take_while is_space s)).
    assert (Es : c :: s = (c :: take_while is_space s) ++ rest).
    { cbn [app]. f_equal. apply Consumed.take_drop. }
    assert (Hne : rest <> []).
    { intro E. rewrite E, app_nil_r in Es. unfold TextShape.ends_solid in Hs.
      rewrite Es in Hs.
      rewrite (Consumed.last_of_all is_space (c :: take_while is_space s)) in Hs;
        [discriminate | discriminate|].
      cbn [forallb]. now rewrite Ec, Consumed.take_while_all. }
    assert (Hr : TextShape.ends_solid rest).
    { unfold TextShape.ends_solid in *. rewrite Es in Hs.
      now rewrite (Consumed.last_app _ _ Hne) in Hs. }
    assert (Hh : opt_test is_space (hd_error rest) = false).
    { subst rest. generalize (GuardText.drop_while_head is_space s).
      now destruct (drop_while is_space s). }
    assert (Hl : length rest <= f).
    { subst rest. assert (L := GuardText.drop_while_length is_space s).
      simpl in Hf. lia. }
    destruct (IH p rest Hl Hr) as (H1 & H2 & H3 & H4 & H5).
    specialize (H4 Hh). specialize (H5 Hne).
    repeat split.
    + constructor; [reflexivity | exact H1].
    + cbn [is_substring]. apply orb_false_iff. split; [|exact H2].
      destruct (sub_loop blanks f p rest) as [|d out]; [reflexivity|].
      simpl in H4 |- *. rewrite andb_true_r.
      destruct (ascii_eqb " " d) eqn:Ed; [|reflexivity].
      apply ascii_eqb_eq in Ed. subst d. discriminate.
    + unfold TextShape.ends_solid in *.
      change (" "%char :: sub_loop blanks f p rest)
        with ([" "%char] ++ sub_loop blanks f p rest).
      now rewrite (Consumed.last_app _ _ H5).
    + simpl. now rewrite Ec.
    + discriminate.
  - destruct s as [|c' s'].
    + assert (E : sub_loop blanks f (Some c) [] = []) by now destruct f.
      rewrite E. repeat split; try easy.
      * constructor; [|constructor]. intro H. congruence.
      * simpl. rewrite andb_false_r, orb_false_r. reflexivity.
    + destruct (GuardText.ends_solid_tail c (c' :: s') Hs) as [Hs' _]; [discriminate|].
      assert (Hl : length (c' :: s') <= f) by (simpl in *; lia).
      destruct (IH (Some c) (c' :: s') Hl Hs') as (H1 & H2 & H3 & H4 & H5).
      assert (H5' := H5 ltac:(discriminate)).
      repeat split.
      * constructor; [|exact H1]. intro H. congruence.
      * cbn [is_substring]. apply orb_false_iff. split; [|exact H2].
        cbn [starts_with list_ascii_of_string].
        destruct (ascii_eqb " " c) eqn:Ed; [|reflexivity].
        apply ascii_eqb_eq in Ed. subst c. discriminate.
      * unfold TextShape.ends_solid in *.
        change (c :: sub_loop blanks f (Some c) (c' :: s'))
          with ([c] ++ sub_loop blanks f (Some c) (c' :: s')).
        now rewrite (Consumed.last_app _ _ H5').
      * intros _. simpl. exact Ec.
      * discriminate.
Qed.

(** X11: a normalised predicate holds no capital letter, no blank but the
    space, no two spaces in a row, and no space at either end: predicates
    that differ by letter case or by the amount of white space between
    their words only are compared as equal texts. *)
Theorem normalised_predicate_shape (predicate : str) :
  Forall (fun c => is_upper c = false) (normalize_predicate predicate)
  /\ Forall (fun c => is_space c = true -> c = " "%char) (normalize_predicate predicate)
  /\ is_substring $"  " (normalize_predicate predicate) = false
  /\ opt_test is_space (hd_error (normalize_predicate predicate)) = false
  /\ opt_test is_space (hd_error (rev (normalize_predicate predicate))) = false.
Proof.
  unfold normalize_predicate. cbv zeta.
  set (u := sub not_is_not_null (sub not_is_null (sub table_prefix (lower predicate)))).
  split.
  - unfold sub. apply (sub_loop_preserves _ _ blanks_lower), strip_preserves.
    subst u. unfold sub.
    apply (sub_loop_preserves _ _ not_is_not_null_lower).
    apply (sub_loop_preserves _ _ not_is_null_lower).
    apply (sub_loop_preserves _ _ table_prefix_lower).
    apply lower_has_no_capital.
  - unfold sub.
    destruct (blanks_collapsed (length (strip u)) None (strip u) (le_n _)
                               (GuardText.strip_ends_solid u))
      as (H1 & H2 & H3 & H4 & _).
    repeat split; try assumption. apply H4, GuardText.strip_starts_solid.
Qed.

End NormalForm.

(** ** The repair of a statement: what is done to the tree *)

Module TreeFacts.

Import SqlGlot TreeShape.

Lemma outside_where_unfold (c : Class) (t : str) (a : list (str * list Expression))
      (cm : list str) :
  Spec.outside_where (Exp c t a cm)
  = Exp c t (remove_key $"where" (map (fun kv => (fst kv, flat_map kept (snd kv))) a)) cm.
Proof. reflexivity. Qed.

Lemma map_acc_cons {A S : Type} (g : A -> S -> A * S) (x : A) (l : list A) (s : S) :
  map_acc g (x :: l) s
  = (fst (g x s) :: fst (map_acc g l (snd (g x s))), snd (map_acc g l (snd (g x s)))).
Proof.
  simpl. destruct (g x s) as [x' s']. simpl. now destruct (map_acc g l s').
Qed.

Lemma map_acc_done {A : Type} (g : A -> bool -> A * bool) :
  (forall x, g x true = (x, true)) -> forall l, map_acc g l true = (l, true).
Proof.
  intros Hg l. induction l as [|x l IH]; [reflexivity|].
  rewrite map_acc_cons, Hg. simpl. now rewrite IH.
Qed.

(** a projection that every step keeps is kept by the whole pass *)
Lemma map_acc_flat_map {A B S : Type} (proj : A -> list B) (g : A -> S -> A * S) :
  (forall x s, proj (fst (g x s)) = proj x) ->
  forall l s, flat_map proj (fst (map_acc g l s)) = flat_map proj l.
Proof.
  intros Hg l. induction l as [|x l IH]; intro s; [reflexivity|].
  rewrite map_acc_cons. simpl. now rewrite Hg, IH.
Qed.

Lemma map_acc_map {A B S : Type} (F : A -> B) (g : A -> S -> A * S) :
  (forall x s, F (fst (g x s)) = F x) ->
  forall l s, map F (fst (map_acc g l s)) = map F l.
Proof.
  intros Hg l. induction l as [|x l IH]; intro s; [reflexivity|].
  rewrite map_acc_cons. simpl. now rewrite Hg, IH.
Qed.

Lemma map_flat_map {A B C : Type} (f : B -> C) (g : A -> list B) (l : list A) :
  map f (flat_map g l) = flat_map (fun x => map f (g x)) l.
Proof.
  induction l as [|x l IH]; simpl; [reflexivity|]. now rewrite map_app, IH.
Qed.

Lemma flat_map_single {A : Type} (l : list A) : flat_map (fun n => [n]) l = l.
Proof. induction l as [|x l IH]; simpl; [reflexivity | now rewrite IH]. Qed.

Lemma has_where_app (l1 l2 : list Expression) :
  has_where (l1 ++ l2) = has_where l1 || has_where l2.
Proof. apply existsb_app. Qed.

Lemma has_where_classes (l1 l2 : list Expression) :
  map cls l1 = map cls l2 -> has_where l1 = has_where l2.
Proof.
  revert l2. induction l1 as [|x l1 IH]; intros [|y l2]; simpl; try discriminate;
    [reflexivity|].
  intros [= E1 E2]. now rewrite E1, (IH _ E2).
Qed.

Lemma has_where_filter (l : list Expression) :
  has_where l = false -> filter (fun n => is_Where (cls n)) l = [].
Proof.
  induction l as [|x l IH]; simpl; [reflexivity|].
  destruct (is_Where (cls x)); [discriminate | exact IH].
Qed.

(** the level of a node of the tree is below its height *)
Lemma level_nonempty_height (k : nat) :
  forall e, level k e <> [] -> k < height e.
Proof.
  induction k as [|k IH]; intros [c t a cm] H; simpl; [lia|].
  simpl in H.
  destruct (flat_map (fun kv => flat_map (level k) (snd kv)) a) as [|x l] eqn:E;
    [easy|].
  assert (Hx : In x (flat_map (fun kv => flat_map (level k) (snd kv)) a))
    by (rewrite E; now left).
  apply in_flat_map in Hx as (kv & Hkv & Hx).
  apply in_flat_map in Hx as (n & Hn & Hx).
  assert (Hk : k < height n) by (apply IH; intro E0; now rewrite E0 in Hx).
  assert (Hm : height n <= list_max (flat_map (fun kv => map height (snd kv)) a)).
  { assert (L := proj1 (list_max_le (flat_map (fun kv => map height (snd kv)) a)
                                    (list_max (flat_map (fun kv => map height (snd kv)) a)))
                       (Nat.le_refl _)).
    rewrite Forall_forall in L. apply L.
    apply in_flat_map. exists kv. split; [exact Hkv|]. now apply in_map. }
  lia.
Qed.

Lemma find_in_seq (test : nat -> bool) (n : nat) :
  forall a k,
    List.find test (seq a n) = Some k
    <-> a <= k < a + n /\ test k = true /\ forall j, a <= j < k -> test j = false.
Proof.
  induction n as [|n IH]; intros a k; simpl.
  - split; [discriminate | lia].
  - destruct (test a) eqn:E.
    + split.
      * intros [= <-]. split; [lia|]. split; [assumption|]. intros j Hj. lia.
      * intros (H1 & H2 & H3). f_equal.
        destruct (Nat.eq_dec a k) as [-> | Hne]; [reflexivity|].
        rewrite (H3 a) in E; [discriminate | lia].
    + rewrite IH. split.
      * intros (H1 & H2 & H3). split; [lia|]. split; [assumption|].
        intros j Hj. destruct (Nat.eq_dec j a) as [-> | Hne]; [exact E|].
        apply H3. lia.
      * intros (H1 & H2 & H3).
        assert (a <> k) by (intros ->; congruence).
        split; [lia|]. split; [assumption|]. intros j Hj. apply H3. lia.
Qed.

Lemma find_none_in_seq (test : nat -> bool) (n a : nat) :
  List.find test (seq a n) = None -> forall j, a <= j < a + n -> test j = false.
Proof.
  revert a. induction n as [|n IH]; intros a H j Hj; simpl in *; [lia|].
  destruct (test a) eqn:E; [discriminate|].
  destruct (Nat.eq_dec j a) as [-> | Hne]; [exact E|].
  apply (IH (S a)); [exact H | lia].
Qed.

(** [find] reads the first level that holds a node of the class *)
Lemma find_by_depth (p : Class -> bool) (e : Expression) :
  find p e
  = match first_depth p e with
    | Some k => hd_error (filter (fun n => p (cls n)) (level k e))
    | None => None
    end.
Proof.
  unfold find, first_depth, bfs. generalize (seq 0 (height e)). intro ks.
  induction ks as [|k ks IH]; simpl; [reflexivity|].
  rewrite filter_app.
  destruct (existsb (fun n => p (cls n)) (level k e)) eqn:E.
  - apply existsb_exists in E as (n & Hn & Hp).
    destruct (filter (fun n => p (cls n)) (level k e)) as [|y l] eqn:F; [|reflexivity].
    assert (Hin : In n (filter (fun n => p (cls n)) (level k e)))
      by (apply filter_In; now split).
    now rewrite F in Hin.
  - assert (F : filter (fun n => p (cls n)) (level k e) = []).
    { clear IH. induction (level k e) as [|x l IHl]; simpl in *; [reflexivity|].
      destruct (p (cls x)); [discriminate | now apply IHl]. }
    rewrite F. exact IH.
Qed.

Section Update.

Variable f : Expression -> Expression.
Hypothesis f_keeps_class :
  forall n, is_Where (cls n) = true -> is_Where (cls (f n)) = true.

Lemma replace_first_app (l1 l2 : list Expression) :
  replace_first f (l1 ++ l2)
  = if has_where l1 then replace_first f l1 ++ l2 else l1 ++ replace_first f l2.
Proof.
  induction l1 as [|x l1 IH]; simpl; [reflexivity|].
  destruct (is_Where (cls x)); simpl; [reflexivity|].
  rewrite IH. now destruct (has_where l1).
Qed.

Lemma replace_first_none (l : list Expression) :
  has_where l = false -> replace_first f l = l.
Proof.
  induction l as [|x l IH]; simpl; [reflexivity|].
  destruct (is_Where (cls x)); simpl; [discriminate|]. intro H. now rewrite IH.
Qed.

Lemma replace_first_head (l : list Expression) :
  hd_error (filter (fun n => is_Where (cls n)) (replace_first f l))
  = option_map f (hd_error (filter (fun n => is_Where (cls n)) l)).
Proof.
  induction l as [|x l IH]; simpl; [reflexivity|].
  destruct (is_Where (cls x)) eqn:E; simpl.
  - now rewrite (f_keeps_class _ E).
  - now rewrite E.
Qed.

Lemma replace_first_has (l : list Expression) :
  has_where (replace_first f l) = has_where l.
Proof.
  induction l as [|x l IH]; simpl; [reflexivity|].
  destruct (is_Where (cls x)) eqn:E; simpl.
  - now rewrite (f_keeps_class _ E).
  - now rewrite E, IH.
Qed.

Lemma update_level_done (k : nat) :
  forall e, update_level is_Where f k e true = (e, true).
Proof.
  induction k as [|k IH]; intros [c t a cm]; simpl; [reflexivity|].
  rewrite map_acc_done; [reflexivity|].
  intros [key es]. simpl. rewrite map_acc_done; [reflexivity | exact IH].
Qed.

Lemma map_acc_passes {A : Type} (lev : A -> list Expression)
      (g : A -> bool -> A * bool) :
  passes f lev g -> passes f (flat_map lev) (map_acc g).
Proof.
  intros Hg l. induction l as [|x l IH]; intro d.
  - simpl. split; [now destruct d | now rewrite orb_false_r].
  - rewrite map_acc_cons. cbn [fst snd flat_map].
    destruct (Hg x d) as [H1 H2]. destruct (IH (snd (g x d))) as [H3 H4].
    rewrite H1, H3, H4, H2, has_where_app. split.
    + destruct d; cbn [orb]; [reflexivity|].
      rewrite replace_first_app. destruct (has_where (lev x)) eqn:E; [reflexivity|].
      now rewrite (replace_first_none _ E).
    + now rewrite orb_assoc.
Qed.

Lemma update_level_passes (k : nat) :
  passes f (level k) (update_level is_Where f k).
Proof.
  induction k as [|k IH]; intros [c t a cm] d.
  - simpl. destruct d; simpl; [now split|].
    destruct (is_Where c); simpl; now split.
  - assert (G := map_acc_passes
                   (fun kv : str * list Expression => flat_map (level k) (snd kv))
                   (fun kv d =>
                      let (es, d') := map_acc (update_level is_Where f k) (snd kv) d in
                      ((fst kv, es), d'))).
    assert (Hg : passes f (fun kv : str * list Expression => flat_map (level k) (snd kv))
                        (fun kv d =>
                           let (es, d') :=
                             map_acc (update_level is_Where f k) (snd kv) d in
                           ((fst kv, es), d'))).
    { intros [key es] d0. cbn [fst snd].
      destruct (map_acc_passes (level k) (update_level is_Where f k) IH es d0)
        as [H1 H2].
      destruct (map_acc (update_level is_Where f k) es d0) as [es' d']. exact (conj H1 H2). }
    specialize (G Hg a d). simpl.
    destruct (map_acc _ a d) as [a' d']. exact G.
Qed.

(** above the level of the update every node keeps its class *)
Lemma update_level_classes (k : nat) :
  forall j e d,
    j < k ->
    map cls (level j (fst (update_level is_Where f k e d))) = map cls (level j e).
Proof.
  induction k as [|k IH]; intros j [c t a cm] d Hj; [lia|].
  simpl.
  destruct (map_acc _ a d) as [a' d'] eqn:M.
  destruct j as [|j]; [reflexivity|].
  cbn [fst level args]. rewrite !map_flat_map.
  replace a' with (fst (map_acc
                          (fun kv d =>
                             let (es, d') :=
                               map_acc (update_level is_Where f k) (snd kv) d in
                             ((fst kv, es), d'))
                          a d)) by (now rewrite M).
  apply map_acc_flat_map. intros [key es] d0. cbn [fst snd].
  replace (fst (let (es0, d'0) := map_acc (update_level is_Where f k) es d0 in
                (key, es0, d'0)))
    with (key, fst (map_acc (update_level is_Where f k) es d0))
    by (now destruct (map_acc (update_level is_Where f k) es d0)).
  cbn [snd]. rewrite !map_flat_map.
  apply map_acc_flat_map. intros n d1. apply IH. lia.
Qed.

(** what [Spec.outside_where] keeps is the same after the update *)
Lemma update_level_kept (k : nat) :
  forall e d, kept (fst (update_level is_Where f k e d)) = kept e.
Proof.
  induction k as [|k IH]; intros [c t a cm] d.
  - simpl. destruct (negb d && is_Where c) eqn:E; [|reflexivity].
    apply andb_true_iff in E as [_ E]. cbn [fst]. unfold kept.
    rewrite (f_keeps_class (Exp c t a cm) E). cbn [cls]. now rewrite E.
  - simpl. destruct (map_acc _ a d) as [a' d'] eqn:M. cbn [fst]. unfold kept.
    cbn [cls]. destruct (is_Where c); [reflexivity|].
    rewrite !outside_where_unfold. do 3 f_equal.
    replace a' with (fst (map_acc
                            (fun kv d =>
                               let (es, d') :=
                                 map_acc (update_level is_Where f k) (snd kv) d in
                               ((fst kv, es), d'))
                            a d)) by (now rewrite M).
    apply map_acc_map. intros [key es] d0. cbn [fst snd].
    replace (fst (let (es0, d'0) := map_acc (update_level is_Where f k) es d0 in
                  (key, es0, d'0)))
      with (key, fst (map_acc (update_level is_Where f k) es d0))
      by (now destruct (map_acc (update_level is_Where f k) es d0)).
    cbn [fst snd]. f_equal. apply map_acc_flat_map. intros n d1. apply IH.
Qed.

(** the update changes nothing outside the WHERE clauses *)
Lemma update_first_outside (e : Expression) :
  is_Where (cls e) = false ->
  Spec.outside_where (update_first is_Where f e) = Spec.outside_where e.
Proof.
  intro H. unfold update_first.
  destruct (first_depth is_Where e) as [k|]; [|reflexivity].
  assert (K := update_level_kept k e false). unfold kept in K.
  rewrite H in K.
  destruct (is_Where (cls (fst (update_level is_Where f k e false))));
    [discriminate | now injection K].
Qed.

(** the node that [find] returns is the node that the update changes *)
Lemma update_first_find (e w : Expression) :
  find is_Where e = Some w ->
  find is_Where (update_first is_Where f e) = Some (f w).
Proof.
  rewrite (find_by_depth is_Where e). unfold update_first.
  destruct (first_depth is_Where e) as [k|] eqn:D; [|discriminate].
  intro Hw. unfold first_depth in D. apply find_in_seq in D as (Hk & Ht & Hlow).
  set (u := fst (update_level is_Where f k e false)).
  assert (L : level k u = replace_first f (level k e)).
  { exact (proj1 (update_level_passes k e false)). }
  assert (Hu : has_where (level k u) = true).
  { rewrite L, replace_first_has. exact Ht. }
  rewrite find_by_depth.
  assert (D' : first_depth is_Where u = Some k).
  { unfold first_depth. apply find_in_seq. split; [|split].
    - split; [lia|]. rewrite Nat.add_0_l. apply level_nonempty_height.
      intro E. now rewrite E in Hu.
    - exact Hu.
    - intros j Hj. fold (has_where (level j u)).
      rewrite (has_where_classes (level j u) (level j e)).
      + apply Hlow. lia.
      + apply update_level_classes. lia. }
  rewrite D', L, replace_first_head, Hw. reflexivity.
Qed.

End Update.

Lemma lookup_dict_set {A : Type} (k : str) (v : A) (d : list (str * A)) :
  lookup k (dict_set k v d) = Some v.
Proof.
  induction d as [|[k' v'] d IH]; simpl.
  - assert (E : str_eqb k k = true) by (now apply str_eqb_eq). now rewrite E.
  - destruct (str_eqb k k') eqn:E; simpl.
    + assert (E' : str_eqb k k = true) by (now apply str_eqb_eq). now rewrite E'.
    + now rewrite E.
Qed.

Lemma this_set_this (c : Expression) (w : Expression) :
  this (set $"this" [c] w) = Some c.
Proof.
  destruct w as [cl t a cm]. unfold this, arg, set. cbn [args].
  now rewrite lookup_dict_set.
Qed.

Lemma set_keeps_class (k : str) (v : list Expression) (e : Expression) :
  cls (set k v e) = cls e.
Proof. now destruct e. Qed.

Lemma remove_key_dict_set {A B : Type} (F : str * A -> str * B) (k : str) (v : A)
      (d : list (str * A)) :
  (forall kv, fst (F kv) = fst kv) ->
  remove_key k (map F (dict_set k v d)) = remove_key k (map F d).
Proof.
  intro HF.
  assert (Ek : str_eqb k k = true) by (now apply str_eqb_eq).
  induction d as [|[k' v'] d IH]; simpl.
  - destruct (F (k, v)) as [k1 v1] eqn:E.
    assert (E1 := HF (k, v)). rewrite E in E1. simpl in E1. subst k1. now rewrite Ek.
  - destruct (str_eqb k k') eqn:E; simpl.
    + apply str_eqb_eq in E. subst k'.
      destruct (F (k, v)) as [k1 v1] eqn:E1.
      assert (H1 := HF (k, v)). rewrite E1 in H1. simpl in H1. subst k1.
      destruct (F (k, v')) as [k2 v2] eqn:E2.
      assert (H2 := HF (k, v')). rewrite E2 in H2. simpl in H2. subst k2.
      now rewrite Ek.
    + destruct (F (k', v')) as [k1 v1] eqn:E1.
      assert (H1 := HF (k', v')). rewrite E1 in H1. simpl in H1. subst k1.
      rewrite E. now rewrite IH.
Qed.

(** a WHERE clause given to a node changes nothing outside the WHERE
    clauses *)
Lemma set_where_outside (v : list Expression) (e : Expression) :
  Spec.outside_where (set $"where" v e) = Spec.outside_where e.
Proof.
  destruct e as [c t a cm]. unfold set. rewrite !outside_where_unfold. f_equal.
  now apply remove_key_dict_set.
Qed.

Lemma children_dict_set (k : str) (w : Expression) (a : list (str * list Expression)) :
  has_where (children a) = false ->
  is_Where (cls w) = true ->
  filter (fun n => is_Where (cls n)) (children (dict_set k [w] a)) = [w].
Proof.
  intros H Hw. unfold children in *.
  induction a as [|[k' v'] a IH]; simpl.
  - now rewrite Hw.
  - simpl in H. rewrite has_where_app in H. apply orb_false_iff in H as [H1 H2].
    destruct (str_eqb k k'); simpl.
    + rewrite Hw. f_equal. now apply has_where_filter.
    + rewrite filter_app, (has_where_filter _ H1). simpl. now apply IH.
Qed.

(** in a tree without any WHERE, the WHERE given to the root is the node
    that [find] returns *)
Lemma set_where_find (w e : Expression) :
  find is_Where e = None ->
  is_Where (cls e) = false ->
  is_Where (cls w) = true ->
  find is_Where (set $"where" [w] e) = Some w.
Proof.
  intros Hn Hc Hw.
  assert (L1 : forall x : Expression, level 1 x = children (args x)).
  { intros [c t a cm]. unfold children. simpl.
    induction a as [|kv a IH]; simpl; [reflexivity|].
    now rewrite flat_map_single, IH. }
  assert (H1 : has_where (level 1 e) = false).
  { rewrite find_by_depth in Hn.
    destruct (first_depth is_Where e) as [k|] eqn:D.
    - exfalso. unfold first_depth in D. apply find_in_seq in D as (_ & Ht & _).
      apply existsb_exists in Ht as (n & Hin & Hp).
      assert (Hf : In n (filter (fun n => is_Where (cls n)) (level k e)))
        by (apply filter_In; now split).
      destruct (filter (fun n => is_Where (cls n)) (level k e)); [easy | discriminate].
    - destruct (level 1 e) as [|x l] eqn:E; [reflexivity|]. rewrite <- E.
      unfold first_depth in D.
      apply (find_none_in_seq _ _ _ D 1). split; [lia|]. rewrite Nat.add_0_l.
      apply level_nonempty_height. now rewrite E. }
  rewrite L1 in H1.
  assert (F : filter (fun n => is_Where (cls n)) (level 1 (set $"where" [w] e)) = [w]).
  { rewrite L1. destruct e as [c t a cm]. cbn [set args]. cbn [args] in H1.
    now apply children_dict_set. }
  rewrite find_by_depth.
  assert (D : first_depth is_Where (set $"where" [w] e) = Some 1).
  { unfold first_depth. apply find_in_seq. split; [|split].
    - split; [lia|]. rewrite Nat.add_0_l. apply level_nonempty_height.
      intro E. now rewrite E in F.
    - fold (has_where (level 1 (set $"where" [w] e))).
      destruct (has_where (level 1 (set $"where" [w] e))) eqn:E; [reflexivity|].
      now rewrite (has_where_filter _ E) in F.
    - intros j Hj. assert (j = 0) by lia. subst j. simpl.
      rewrite set_keeps_class, Hc. reflexivity. }
  now rewrite D, F.
Qed.

End TreeFacts.

(** ** The repair of a statement: what is done to the text *)

Module TextFacts.

Import Re ValidationEngine.

Lemma split_first_spec (r : rule) (s : str) :
  forall prev cur before m rest,
    split_first r prev cur s = Some (before, m, rest) ->
    exists l suffix p rep,
      before = cur ++ l /\ s = l ++ suffix /\ m <> []
      /\ r p suffix = Some (m, rep, rest).
Proof.
  induction s as [|c s IH]; intros prev cur before m rest; simpl; [discriminate|].
  destruct (r prev (c :: s)) as [[[[|x m0] rep] rest0]|] eqn:E.
  - intro H. destruct (IH _ _ _ _ _ H) as (l & suffix & p & rep' & -> & -> & Hm & Hr).
    exists (c :: l), suffix, p, rep'. rewrite <- app_assoc. now repeat split.
  - intros [= <- <- <-]. exists [], (c :: s), prev, rep.
    rewrite app_nil_r. repeat split; [discriminate | exact E].
  - intro H. destruct (IH _ _ _ _ _ H) as (l & suffix & p & rep' & -> & -> & Hm & Hr).
    exists (c :: l), suffix, p, rep'. rewrite <- app_assoc. now repeat split.
Qed.

Lemma search_split_first (r : rule) (s : str) :
  forall prev cur, search_loop r prev s = true -> split_first r prev cur s <> None.
Proof.
  induction s as [|c s IH]; intros prev cur; simpl; [discriminate|].
  destruct (r prev (c :: s)) as [[[[|x m0] rep] rest0]|]; try apply IH. discriminate.
Qed.

Lemma where_word_spec (p : option ascii) (suffix m rep rest : str) :
  where_word p suffix = Some (m, rep, rest) -> suffix = m ++ rest /\ lower m = $"where".
Proof.
  unfold where_word. destruct (word_boundary p suffix); [|discriminate].
  destruct (lit_ci $"where" suffix) as [r1|] eqn:L; [|discriminate]. cbn [bind].
  destruct (opt_test is_word (hd_error r1)); [discriminate|].
  intros [= <- _ <-].
  apply Consumed.lit_ci_spec in L as (w & -> & E).
  rewrite Consumed.upto_app. now split.
Qed.

Lemma spaces1_spec (s rest : str) :
  spaces1 s = Some rest ->
  exists b, s = b ++ rest /\ b <> [] /\ forallb is_space b = true.
Proof.
  unfold spaces1. destruct s as [|c s]; [discriminate|].
  destruct (is_space c) eqn:E; [|discriminate]. intros [= <-].
  exists (take_while is_space (c :: s)). split; [apply Consumed.take_drop|].
  split; [simpl; rewrite E; discriminate | apply Consumed.take_while_all].
Qed.

Lemma two_words_spec (w1 w2 s rest : str) :
  two_words w1 w2 s = Some rest ->
  exists first blanks second,
    s = (first ++ blanks ++ second) ++ rest
    /\ lower first = w1 /\ blanks <> [] /\ forallb is_space blanks = true
    /\ lower second = w2.
Proof.
  unfold two_words.
  destruct (lit_ci w1 s) as [r1|] eqn:L1; [|discriminate]. cbn [bind].
  destruct (spaces1 r1) as [r2|] eqn:S; [|discriminate]. cbn [bind].
  destruct (lit_ci w2 r2) as [r3|] eqn:L2; [|discriminate]. cbn [bind].
  destruct (opt_test is_word (hd_error r3)); [discriminate|]. intros [= <-].
  apply Consumed.lit_ci_spec in L1 as (m1 & -> & E1).
  apply spaces1_spec in S as (b & -> & Hb & Hs).
  apply Consumed.lit_ci_spec in L2 as (m2 & -> & E2).
  exists m1, b, m2. rewrite <- !app_assoc. now repeat split.
Qed.

Lemma clause_keyword_spec (p : option ascii) (suffix m rep rest : str) :
  clause_keyword p suffix = Some (m, rep, rest) ->
  suffix = m ++ rest /\ Spec.is_clause_keyword m.
Proof.
  unfold clause_keyword. destruct (word_boundary p suffix); [|discriminate].
  destruct (two_words $"group" $"by" suffix) as [r|] eqn:G.
  { intros [= <- _ <-].
    apply two_words_spec in G as (m1 & b & m2 & -> & E1 & Hb & Hs & E2).
    rewrite Consumed.upto_app. split; [reflexivity|].
    right. exists m1, b, m2. repeat split; auto. }
  destruct (two_words $"order" $"by" suffix) as [r|] eqn:O.
  { intros [= <- _ <-].
    apply two_words_spec in O as (m1 & b & m2 & -> & E1 & Hb & Hs & E2).
    rewrite Consumed.upto_app. split; [reflexivity|].
    right. exists m1, b, m2. repeat split; auto. }
  destruct (lit_ci $"limit" suffix) as [r1|] eqn:L; [|discriminate]. cbn [bind].
  destruct (opt_test is_word (hd_error r1)); [discriminate|].
  intros [= <- _ <-].
  apply Consumed.lit_ci_spec in L as (w & -> & E).
  rewrite Consumed.upto_app. split; [reflexivity | now left].
Qed.

Section Text.

Variable compile_template : str -> option (str -> str).

(** the template of the repair holds a backslash when the clause does *)
Lemma template_backslash (clause : str) :
  existsb (ascii_eqb backslash) ($"WHERE " ++ clause ++ $" AND ")
  = existsb (ascii_eqb backslash) clause.
Proof.
  rewrite !existsb_app.
  change (existsb (ascii_eqb backslash) $"WHERE ") with false.
  change (existsb (ascii_eqb backslash) $" AND ") with false.
  now rewrite orb_false_r.
Qed.

(** what the textual part returns *)
Lemma inject_in_text_returns (sql_text : str) (predicates : list str) (r : str) :
  inject_in_text compile_template sql_text predicates = Some r ->
  let clause := clause_of predicates in
  (exists before w rest replacement,
      sql_text = before ++ w ++ rest /\ lower w = $"where"
      /\ r = before ++ replacement ++ rest
      /\ (existsb (ascii_eqb backslash) clause = false ->
          replacement = $"WHERE " ++ clause ++ $" AND "))
  \/ (search where_word sql_text = false
      /\ exists before kw rest,
          sql_text = before ++ kw ++ rest /\ Spec.is_clause_keyword kw
          /\ r = rstrip before ++ $" WHERE " ++ clause ++ $" " ++ kw ++ rest)
  \/ (search where_word sql_text = false
      /\ r = rstrip sql_text ++ $" WHERE " ++ clause).
Proof.
  unfold inject_in_text. cbv zeta.
  destruct (search where_word sql_text) eqn:S.
  - unfold sub_first_template, template. rewrite template_backslash.
    intro H. left.
    assert (M := search_split_first where_word sql_text None [] S).
    destruct (split_first where_word None [] sql_text) as [[[before m] rest]|] eqn:F;
      [|easy].
    destruct (split_first_spec _ _ _ _ _ _ _ F) as (l & suffix & p & rep & -> & E & _ & Hr).
    apply where_word_spec in Hr as [-> Hw].
    destruct (existsb (ascii_eqb backslash) (clause_of predicates)) eqn:B.
    + destruct (compile_template _) as [expand|]; [|discriminate].
      cbn [bind] in H. injection H as <-.
      exists l, m, rest, (expand m). repeat split; auto. discriminate.
    + cbn [bind] in H. injection H as <-.
      exists l, m, rest, ($"WHERE " ++ clause_of predicates ++ $" AND ").
      now repeat split.
  - destruct (split_first clause_keyword None [] sql_text) as [[[before m] rest]|] eqn:F.
    + intros [= <-]. right. left. split; [reflexivity|].
      destruct (split_first_spec _ _ _ _ _ _ _ F) as (l & suffix & p & rep & -> & E & _ & Hr).
      apply clause_keyword_spec in Hr as [-> Hk].
      exists l, m, rest. now repeat split.
    + intros [= <-]. right. right. now split.
Qed.

(** when the textual part raises *)
Lemma inject_in_text_raises (sql_text : str) (predicates : list str) :
  inject_in_text compile_template sql_text predicates = None ->
  search where_word sql_text = true
  /\ existsb (ascii_eqb backslash) (clause_of predicates) = true
  /\ compile_template ($"WHERE " ++ clause_of predicates ++ $" AND ") = None.
Proof.
  unfold inject_in_text. cbv zeta.
  destruct (search where_word sql_text) eqn:S.
  - unfold sub_first_template, template. rewrite template_backslash.
    destruct (existsb (ascii_eqb backslash) (clause_of predicates)) eqn:B.
    + destruct (compile_template _) as [expand|]; [|now intros _].
      cbn [bind]. now destruct (split_first where_word None [] sql_text) as [[[? ?] ?]|].
    + cbn [bind]. now destruct (split_first where_word None [] sql_text) as [[[? ?] ?]|].
  - now destruct (split_first clause_keyword None [] sql_text) as [[[? ?] ?]|].
Qed.

End Text.

End TextFacts.

(** ** C4: minimal repair *)

Module C4.

Import ValidationEngine.

Lemma in_combine_seq {A : Type} (l : list A) (k i : nat) (x : A) :
  In (i, x) (combine (seq k (length l)) l) <-> k <= i /\ nth_error l (i - k) = Some x.
Proof.
  revert k. induction l as [|y l IH]; intro k; simpl.
  - split; [easy|]. intros [_ H]. now destruct (i - k).
  - rewrite IH. split.
    + intros [[= <- <-] | [Hk Hn]].
      * split; [lia|]. now rewrite Nat.sub_diag.
      * split; [lia|]. replace (i - k) with (S (i - S k)) by lia. exact Hn.
    + intros [Hk Hn]. destruct (i - k) as [|d] eqn:E.
      * left. injection Hn as ->. f_equal. lia.
      * right. split; [lia|]. replace (i - S k) with d by lia. exact Hn.
Qed.

Lemma in_enumerate {A : Type} (l : list A) (i : nat) (x : A) :
  In (i, x) (enumerate l) <-> nth_error l i = Some x.
Proof.
  unfold enumerate. rewrite in_combine_seq, Nat.sub_0_r. intuition lia.
Qed.

(** a text that passes the basic checks has been parsed *)
Lemma basic_validity_parses (lib : SqlGlot.Lib) (s : str) :
  passed (check_basic_sql_validity lib s) = true ->
  exists e, SqlGlot.parse_one lib s $"mysql" = Some e.
Proof.
  unfold check_basic_sql_validity. cbn [passed].
  destruct (SqlGlot.parse_one lib s $"mysql") as [e|]; [intros _; now exists e|].
  destruct (Re.search Checks.select_star s), (Re.search Checks.cjk s),
           (Re.search Checks.placeholder s); discriminate.
Qed.

Section Repair.

Variable lib : SqlGlot.Lib.
Variable compile_template : str -> option (str -> str).
Variable plan : Planner.PlanV1.
Variable contract : Generator.SafetyContract.

Let judged := judge lib compile_template plan contract.
Let valid (s : str) := passed (validate_must_constraints lib s plan contract).
Let repair (s : str) := minimal_repair lib compile_template s plan contract.
Let inject := _inject_missing_predicates lib compile_template.
Let kept_of (candidates : list Candidate) :=
  simple_candidate_filter lib compile_template candidates plan contract.

(** when a repair is attempted *)
Lemma attempted_iff (c : Candidate) :
  attempted (judged c)
  <-> sql c <> []
      /\ passed (check_basic_sql_validity lib (sql c)) = true
      /\ valid (sql c) = false.
Proof.
  subst judged valid. unfold judge, attempted. cbv zeta.
  destruct (sql c) as [|x s] eqn:Es; cbn [is_empty].
  { split; [easy | now intros [H _]]. }
  destruct (passed (check_basic_sql_validity lib (x :: s))); cbn [negb];
    [|split; [easy | now intros (_ & H & _)]].
  destruct (passed (validate_must_constraints lib (x :: s) plan contract));
    [split; [easy | now intros (_ & _ & H)]|].
  split; [intros _; now repeat split|]. intros _.
  destruct (minimal_repair lib compile_template (x :: s) plan contract) as [r|];
    [|exact I].
  now destruct (passed (validate_must_constraints lib r plan contract)).
Qed.

(** how an attempt ends *)
Lemma attempt_outcome (c : Candidate) :
  attempted (judged c) ->
  judged c = match repair (sql c) with
             | None => Repair_raised
             | Some r => if valid r then Repaired_ok r else Repair_failed r
             end.
Proof.
  subst judged valid repair. unfold judge, attempted. cbv zeta.
  destruct (is_empty (sql c)); [easy|].
  destruct (negb _); [easy|].
  now destruct (passed (validate_must_constraints lib (sql c) plan contract)).
Qed.

(** what the repair hands over to the rewriting *)
Lemma repair_of_parsed (s : str) (e : SqlGlot.Expression) :
  SqlGlot.parse_one lib s $"mysql" = Some e ->
  repair s
  = match missing_atoms (AstValidator.extract_where_conditions lib e)
                        (Generator.must_predicates contract) with
    | [] => Some s
    | missing =>
        match inject s missing with
        | Some r => Some r
        | None =>
            _fallback_string_repair lib compile_template s
                                    (Generator.must_predicates contract)
        end
    end.
Proof.
  intro Hp. subst repair inject. unfold minimal_repair, repair_on_tree.
  rewrite Hp. cbn [bind].
  destruct (Generator.must_predicates contract) as [|p ps] eqn:E; [reflexivity|].
  now destruct (missing_atoms _ (p :: ps)).
Qed.

Lemma missing_atoms_iff (conditions predicates : list str) (atom : str) :
  In atom (missing_atoms conditions predicates)
  <-> exists p, In p predicates
                /\ In atom (AstValidator.decompose_predicate_to_atoms p)
                /\ AstValidator.check_predicate_presence conditions atom = false.
Proof.
  unfold missing_atoms. rewrite in_flat_map. split.
  - intros (p & Hp & Ha). apply filter_In in Ha as [Ha Hc].
    exists p. repeat split; try assumption. now apply negb_true_iff.
  - intros (p & Hp & Ha & Hc). exists p. split; [assumption|].
    apply filter_In. split; [assumption | now apply negb_true_iff].
Qed.

(** what the rewriting does on the tree *)
Lemma inject_in_tree_returns (s : str) (predicates : list str) (r : str) :
  inject_in_tree lib s predicates = Some r ->
  let new_conditions := flat_map (condition_of lib) predicates in
  exists parsed repaired,
    SqlGlot.parse_one lib s $"mysql" = Some parsed
    /\ SqlGlot.is_Select (SqlGlot.cls parsed) = true
    /\ SqlGlot.sql lib repaired $"mysql" = Some r
    /\ Spec.outside_where repaired = Spec.outside_where parsed
    /\ (new_conditions = [] -> repaired = parsed)
    /\ (new_conditions <> [] ->
        exists new_where,
          SqlGlot.find SqlGlot.is_Where repaired = Some new_where
          /\ match SqlGlot.find SqlGlot.is_Where parsed with
             | Some existing_where =>
                 exists combined,
                   SqlGlot.and_ lib (SqlGlot.this existing_where :: new_conditions)
                   = Some combined
                   /\ new_where = SqlGlot.set $"this" [combined] existing_where
             | None =>
                 (exists where_expr,
                     new_conditions = [where_expr] /\ new_where = Where_of where_expr)
                 \/ (exists combined,
                        2 <= length new_conditions
                        /\ SqlGlot.and_ lib new_conditions = Some combined
                        /\ new_where = Where_of (Some combined))
             end).
Proof.
  intros H new_conditions. unfold inject_in_tree in H.
  destruct (SqlGlot.parse_one lib s $"mysql") as [parsed|]; [|discriminate].
  cbn [bind] in H.
  destruct (SqlGlot.is_Select (SqlGlot.cls parsed)) eqn:Sel; [|discriminate].
  assert (NW : SqlGlot.is_Where (SqlGlot.cls parsed) = false).
  { now destruct (SqlGlot.cls parsed). }
  fold new_conditions in H. exists parsed.
  destruct new_conditions as [|c1 cs] eqn:N.
  - assert (H' : SqlGlot.sql lib parsed $"mysql" = Some r).
    { now destruct (SqlGlot.find SqlGlot.is_Where parsed). }
    exists parsed. repeat split; auto. easy.
  - destruct (SqlGlot.find SqlGlot.is_Where parsed) as [w|] eqn:F.
    + destruct (SqlGlot.and_ lib (SqlGlot.this w :: c1 :: cs)) as [combined|] eqn:A;
        [|discriminate].
      cbn [bind] in H.
      exists (SqlGlot.update_first SqlGlot.is_Where (SqlGlot.set $"this" [combined]) parsed).
      split; [reflexivity|]. split; [exact Sel|]. split; [exact H|]. split.
      { apply TreeFacts.update_first_outside; [|exact NW].
        intros n Hn. now rewrite TreeFacts.set_keeps_class. }
      split; [discriminate|]. intros _.
      exists (SqlGlot.set $"this" [combined] w). split.
      { apply TreeFacts.update_first_find; [|exact F].
        intros n Hn. now rewrite TreeFacts.set_keeps_class. }
      now exists combined.
    + destruct cs as [|c2 cs].
      * cbn [bind] in H.
        exists (SqlGlot.set $"where" [Where_of c1] parsed).
        split; [reflexivity|]. split; [exact Sel|]. split; [exact H|].
        split; [apply TreeFacts.set_where_outside|].
        split; [discriminate|]. intros _. exists (Where_of c1).
        split; [now apply TreeFacts.set_where_find|].
        left. now exists c1.
      * destruct (SqlGlot.and_ lib (c1 :: c2 :: cs)) as [combined|] eqn:A;
          [|discriminate].
        cbn [bind] in H.
        exists (SqlGlot.set $"where" [Where_of (Some combined)] parsed).
        split; [reflexivity|]. split; [exact Sel|]. split; [exact H|].
        split; [apply TreeFacts.set_where_outside|].
        split; [discriminate|]. intros _. exists (Where_of (Some combined)).
        split; [now apply TreeFacts.set_where_find|].
        right. exists combined. split; [simpl; lia | now split].
Qed.

(** the loop of the filter, told at once *)
Lemma filter_loop (l : list (nat * Candidate)) :
  forall so_far,
    fold_left (fun so_far ic =>
                 do valid_candidates <- so_far;
                 match judged (snd ic) with
                 | Passed_as_is => Some (valid_candidates ++ [ic])
                 | Repaired_ok repaired_sql =>
                     Some (valid_candidates
                           ++ [(fst ic, repaired_with repaired_sql (snd ic))])
                 | Repair_raised => None
                 | _ => Some valid_candidates
                 end)
              l so_far
    = match so_far with
      | None => None
      | Some valid_candidates =>
          if existsb (fun ic => raised (judged (snd ic))) l then None
          else Some (valid_candidates
                     ++ flat_map (fun ic => kept_as (judged (snd ic)) ic) l)
      end.
Proof.
  induction l as [|ic l IH]; intros [acc|]; cbn [fold_left existsb flat_map].
  - now rewrite app_nil_r.
  - reflexivity.
  - rewrite IH. cbn [bind].
    destruct (judged (snd ic)); cbn [raised kept_as orb app];
      try reflexivity; try (now rewrite app_nil_r);
      destruct (existsb _ l); try reflexivity; now rewrite <- app_assoc.
  - now rewrite IH.
Qed.

Lemma filter_raises (candidates : list Candidate) :
  kept_of candidates = None
  <-> exists c, In c candidates /\ judged c = Repair_raised.
Proof.
  subst kept_of. cbv beta. unfold simple_candidate_filter.
  fold judged. rewrite filter_loop.
  destruct (existsb (fun ic => raised (judged (snd ic))) (enumerate candidates)) eqn:E.
  - split; [intros _|reflexivity].
    apply existsb_exists in E as ([i c] & Hin & Hr). exists c.
    apply in_enumerate, nth_error_In in Hin. split; [exact Hin|].
    simpl in Hr. now destruct (judged c).
  - split; [discriminate|]. intros (c & Hin & Hj). exfalso.
    apply In_nth_error in Hin as (i & Hi).
    assert (X : existsb (fun ic => raised (judged (snd ic))) (enumerate candidates)
                = true).
    { apply existsb_exists. exists (i, c). split; [now apply in_enumerate|].
      simpl. now rewrite Hj. }
    congruence.
Qed.

Lemma filter_member (candidates : list Candidate) (valid_candidates : list (nat * Candidate))
      (i : nat) (c' : Candidate) :
  kept_of candidates = Some valid_candidates ->
  (In (i, c') valid_candidates
   <-> exists c, nth_error candidates i = Some c
                 /\ ((judged c = Passed_as_is /\ c' = c)
                     \/ exists r, judged c = Repaired_ok r /\ c' = repaired_with r c)).
Proof.
  subst kept_of. cbv beta. unfold simple_candidate_filter.
  fold judged. rewrite filter_loop.
  destruct (existsb _ (enumerate candidates)); [discriminate|].
  intros [= <-]. cbn [app]. rewrite in_flat_map. split.
  - intros ([j c] & Hin & Hk). apply in_enumerate in Hin. cbn [snd] in Hk.
    destruct (judged c) eqn:J; simpl in Hk;
      try contradiction; destruct Hk as [[= <- <-] | []]; exists c;
      (split; [assumption|]); [left; now split | right; eauto].
  - intros (c & Hn & [[J ->] | (r & J & ->)]);
      exists (i, c); (split; [now apply in_enumerate|]); cbn [snd]; rewrite J; now left.
Qed.


End Repair.



End C4.

(** ** Texts as lists of tokens *)

Module Tokens.

Import Re Spec TokenShape.

Lemma untokens_push (c : ascii) (ts : list token) : untokens (push c ts) = c :: untokens ts.
Proof.
  unfold push. destruct (is_word c); [now destruct ts as [|[w|b|d] ts]|].
  destruct (is_space c); [now destruct ts as [|[w|b|d] ts] | reflexivity].
Qed.

Lemma untokens_tokens (s : str) : untokens (tokens s) = s.
Proof.
  induction s as [|c s IH]; [reflexivity|].
  change (tokens (c :: s)) with (push c (tokens s)). now rewrite untokens_push, IH.
Qed.

Lemma untokens_app (ts1 ts2 : list token) :
  untokens (ts1 ++ ts2) = untokens ts1 ++ untokens ts2.
Proof. apply flat_map_app. Qed.

Lemma length_push (c : ascii) (ts : list token) : length (push c ts) <= S (length ts).
Proof.
  unfold push. destruct (is_word c); [destruct ts as [|[w|b|d] ts]; simpl; lia|].
  destruct (is_space c); [destruct ts as [|[w|b|d] ts]; simpl; lia | simpl; lia].
Qed.

Lemma length_tokens (s : str) : length (tokens s) <= length s.
Proof.
  induction s as [|c s IH]; [simpl; lia|].
  change (tokens (c :: s)) with (push c (tokens s)).
  assert (H := length_push c (tokens s)). simpl. lia.
Qed.

Lemma word_not_space (c : ascii) : is_word c = true -> is_space c = false.
Proof.
  unfold is_word, is_space, is_digit, is_upper, is_lower, in_range.
  rewrite !orb_true_iff, !andb_true_iff, !Nat.leb_le, Nat.eqb_eq. intro H.
  apply orb_false_iff. split; apply andb_false_iff;
    rewrite !Nat.leb_gt; lia.
Qed.

Lemma starts_with_word_tokens (s : str) :
  starts_with_word (tokens s) = opt_test is_word (hd_error s).
Proof.
  destruct s as [|c s]; [reflexivity|].
  change (tokens (c :: s)) with (push c (tokens s)). unfold push. simpl.
  destruct (is_word c); [now destruct (tokens s) as [|[w|b|d] ts]|].
  destruct (is_space c); [now destruct (tokens s) as [|[w|b|d] ts] | reflexivity].
Qed.

Lemma starts_with_blank_tokens (s : str) :
  starts_with_blank (tokens s) = opt_test is_space (hd_error s).
Proof.
  destruct s as [|c s]; [reflexivity|].
  change (tokens (c :: s)) with (push c (tokens s)). unfold push. simpl.
  destruct (is_word c) eqn:W.
  - rewrite (word_not_space _ W). now destruct (tokens s) as [|[w|b|d] ts].
  - destruct (is_space c); [now destruct (tokens s) as [|[w|b|d] ts] | reflexivity].
Qed.

(** a run of word characters in front of tokens that do not begin with a
    word *)
Lemma push_word_run (w : str) (ts : list token) :
  w <> [] -> forallb is_word w = true -> starts_with_word ts = false ->
  fold_right push ts w = Word w :: ts.
Proof.
  intros Hne Hw Hs. induction w as [|c w IH]; [easy|].
  simpl in Hw. apply andb_true_iff in Hw as [Hc Hw]. simpl.
  destruct w as [|d w].
  - simpl. unfold push. rewrite Hc. now destruct ts as [|[w|b|e] ts].
  - rewrite IH; [|discriminate | exact Hw]. unfold push. now rewrite Hc.
Qed.

Lemma push_blank_run (b : str) (ts : list token) :
  b <> [] -> forallb is_space b = true -> starts_with_blank ts = false ->
  fold_right push ts b = Blank b :: ts.
Proof.
  intros Hne Hb Hs. induction b as [|c b IH]; [easy|].
  simpl in Hb. apply andb_true_iff in Hb as [Hc Hb]. simpl.
  assert (Hw : is_word c = false).
  { destruct (is_word c) eqn:W; [|reflexivity].
    apply word_not_space in W. congruence. }
  destruct b as [|d b].
  - simpl. unfold push. rewrite Hw, Hc. now destruct ts as [|[w|b|e] ts].
  - rewrite IH; [|discriminate | exact Hb]. unfold push. now rewrite Hw, Hc.
Qed.

Lemma tokens_app (a b : str) : tokens (a ++ b) = fold_right push (tokens b) a.
Proof. unfold tokens. now rewrite fold_right_app. Qed.

(** the first token of a text *)
Lemma tokens_word (s : str) :
  opt_test is_word (hd_error s) = true ->
  tokens s = Word (take_while is_word s) :: tokens (drop_while is_word s).
Proof.
  intro H. rewrite (Consumed.take_drop is_word s) at 1. rewrite tokens_app.
  apply push_word_run.
  - destruct s as [|c s]; [discriminate|]. simpl in *. now rewrite H.
  - apply Consumed.take_while_all.
  - rewrite starts_with_word_tokens.
    assert (D := GuardText.drop_while_head is_word s).
    now destruct (drop_while is_word s).
Qed.

Lemma tokens_blank (s : str) :
  opt_test is_space (hd_error s) = true ->
  tokens s = Blank (take_while is_space s) :: tokens (drop_while is_space s).
Proof.
  intro H. rewrite (Consumed.take_drop is_space s) at 1. rewrite tokens_app.
  apply push_blank_run.
  - destruct s as [|c s]; [discriminate|]. simpl in *. now rewrite H.
  - apply Consumed.take_while_all.
  - rewrite starts_with_blank_tokens.
    assert (D := GuardText.drop_while_head is_space s).
    now destruct (drop_while is_space s).
Qed.

Lemma tokens_other (c : ascii) (s : str) :
  is_word c = false -> is_space c = false -> tokens (c :: s) = Other c :: tokens s.
Proof.
  intros Hw Hs. change (tokens (c :: s)) with (push c (tokens s)).
  unfold push. now rewrite Hw, Hs.
Qed.

(** the tokens of a text are well formed *)
Lemma well_formed_push (c : ascii) (ts : list token) :
  well_formed ts = true -> well_formed (push c ts) = true.
Proof.
  unfold push. intro H.
  destruct (is_word c) eqn:W.
  - destruct ts as [|[w|b|d] ts]; simpl in *; rewrite ?W; simpl; try exact H.
    + apply andb_true_iff in H as [H H3]. apply andb_true_iff in H as [H1 H2].
      apply andb_true_iff in H1 as [_ H1]. now rewrite H1, H2, H3.
  - destruct (is_space c) eqn:S.
    + destruct ts as [|[w|b|d] ts]; simpl in *; rewrite ?S; simpl; try exact H.
      apply andb_true_iff in H as [H H3]. apply andb_true_iff in H as [H1 H2].
      apply andb_true_iff in H1 as [_ H1]. now rewrite H1, H2, H3.
    + destruct ts as [|[w|b|d] ts]; simpl in *; rewrite W, S; simpl; exact H.
Qed.

Lemma well_formed_tokens (s : str) : well_formed (tokens s) = true.
Proof.
  induction s as [|c s IH]; [reflexivity|].
  change (tokens (c :: s)) with (push c (tokens s)). now apply well_formed_push.
Qed.

Lemma well_formed_tail (t : token) (ts : list token) :
  well_formed (t :: ts) = true -> well_formed ts = true.
Proof. simpl. intro H. now apply andb_true_iff in H as [_ H]. Qed.

(** a well-formed list is the list of the tokens of its text *)
Lemma tokens_untokens (ts : list token) :
  well_formed ts = true -> tokens (untokens ts) = ts.
Proof.
  induction ts as [|t ts IH]; [reflexivity|]. intro H.
  assert (Ht := well_formed_tail _ _ H). specialize (IH Ht).
  simpl in H. apply andb_true_iff in H as [H _].
  apply andb_true_iff in H as [H1 H2].
  change (untokens (t :: ts)) with (text_of t ++ untokens ts).
  rewrite tokens_app, IH.
  destruct t as [w|b|c]; simpl in *.
  - apply andb_true_iff in H1 as [Hn Hw]. apply push_word_run.
    + now destruct w.
    + exact Hw.
    + now destruct ts as [|[w'|b'|d'] ts].
  - apply andb_true_iff in H1 as [Hn Hb]. apply push_blank_run.
    + now destruct b.
    + exact Hb.
    + now destruct ts as [|[w'|b'|d'] ts].
  - apply andb_true_iff in H1 as [Hw Hs]. apply negb_true_iff in Hw, Hs.
    unfold push. now rewrite Hw, Hs.
Qed.

Lemma well_formed_app (ts1 ts2 : list token) :
  well_formed (ts1 ++ ts2) = true -> well_formed ts2 = true.
Proof.
  induction ts1 as [|t ts1 IH]; [easy|]. intro H. apply IH.
  now apply well_formed_tail in H.
Qed.

(** the tokens of a text that begins with a well-formed list *)
Lemma tokens_prefix (ts : list token) (rest : str) :
  well_formed (ts ++ tokens rest) = true ->
  tokens (untokens ts ++ rest) = ts ++ tokens rest.
Proof.
  intro H. rewrite <- (untokens_tokens rest) at 1.
  rewrite <- untokens_app. now apply tokens_untokens.
Qed.

Lemma head_untokens_word (ts : list token) :
  well_formed ts = true ->
  opt_test is_word (hd_error (untokens ts)) = starts_with_word ts.
Proof.
  intro H. rewrite <- starts_with_word_tokens. now rewrite tokens_untokens.
Qed.

End Tokens.

(** ** The loops of [re] and the tokens *)

Module Scanning.

Import Re Spec TokenShape Tokens.

Lemma sub_loop_nil (r : rule) (fuel : nat) (prev : option ascii) :
  sub_loop r fuel prev [] = [].
Proof. now destruct fuel. Qed.

Lemma rewrite_windows_nil (win : window) (fuel : nat) : rewrite_windows win fuel [] = [].
Proof. now destruct fuel. Qed.

Lemma sub_loop_step (r : rule) (f : nat) (prev : option ascii) (c : ascii) (s : str) :
  no_match (r prev (c :: s)) ->
  sub_loop r (S f) prev (c :: s) = c :: sub_loop r f (Some c) s.
Proof.
  simpl. unfold no_match.
  now destruct (r prev (c :: s)) as [[[[|x m] rep] rest]|].
Qed.

Lemma head_of_drop_word (s : str) :
  opt_test is_word (hd_error (drop_while is_word s)) = false.
Proof.
  assert (D := GuardText.drop_while_head is_word s).
  now destruct (drop_while is_word s).
Qed.

Lemma head_of_drop_space (s : str) :
  opt_test is_space (hd_error (drop_while is_space s)) = false.
Proof.
  assert (D := GuardText.drop_while_head is_space s).
  now destruct (drop_while is_space s).
Qed.

Lemma length_take_drop (f : ascii -> bool) (s : str) :
  length s = length (take_while f s) + length (drop_while f s).
Proof. rewrite (Consumed.take_drop f s) at 1. apply length_app. Qed.

(** a token that no window begins with is kept *)
Lemma rewrite_windows_keep (win : window) (f : nat) (t : token) (ts : list token) :
  win (t :: ts) = None ->
  rewrite_windows win (S f) (t :: ts) = text_of t ++ rewrite_windows win f ts.
Proof. simpl. now intros ->. Qed.

Section Anchored.

(** a rule that matches at the beginning of a word only, and the window
    that it stands for *)
Variable r : rule.
Variable win : window.

Hypothesis outside_words :
  forall prev s,
    opt_test is_word prev = true \/ opt_test is_word (hd_error s) = false ->
    no_match (r prev s).

Hypothesis rule_to_window :
  forall prev s x m rep rest,
    opt_test is_word prev = false ->
    r prev s = Some (x :: m, rep, rest) ->
    s = (x :: m) ++ rest
    /\ win (tokens s) = Some (rep, tokens rest)
    /\ word_free (last_opt prev (x :: m)) rest.

Hypothesis window_to_rule :
  forall prev s rep behind,
    opt_test is_word prev = false ->
    win (tokens s) = Some (rep, behind) ->
    ~ no_match (r prev s).

Hypothesis window_shape :
  forall ts rep behind,
    win ts = Some (rep, behind) ->
    starts_with_word ts = true /\ length behind < length ts.

Lemma window_not_word (ts : list token) :
  starts_with_word ts = false -> win ts = None.
Proof.
  intro H. destruct (win ts) as [[rep behind]|] eqn:E; [|reflexivity].
  apply window_shape in E as [E _]. congruence.
Qed.

(** inside a word nothing matches *)
Lemma sub_loop_in_word (w rest : str) :
  forall f p,
    forallb is_word w = true -> is_word p = true ->
    length (w ++ rest) <= f ->
    sub_loop r f (Some p) (w ++ rest)
    = w ++ sub_loop r (f - length w) (last_opt (Some p) w) rest.
Proof.
  induction w as [|d w IH]; intros f p Hw Hp Hf.
  - simpl. now rewrite Nat.sub_0_r.
  - simpl in Hw. apply andb_true_iff in Hw as [Hd Hw].
    destruct f as [|f]; [simpl in Hf; lia|].
    change ((d :: w) ++ rest) with (d :: (w ++ rest)).
    rewrite sub_loop_step.
    + rewrite IH; [|exact Hw | exact Hd | simpl in Hf; lia].
      now rewrite Consumed.last_opt_cons.
    + apply outside_words. left. exact Hp.
Qed.

Lemma sub_loop_tokens (n : nat) :
  forall s, length s <= n ->
  forall f1 f2 prev,
    length s <= f1 -> length (tokens s) <= f2 -> word_free prev s ->
    sub_loop r f1 prev s = rewrite_windows win f2 (tokens s).
Proof.
  induction n as [|n IH]; intros s Hn f1 f2 prev H1 H2 Hfree.
  { destruct s; [|simpl in Hn; lia]. now rewrite sub_loop_nil, rewrite_windows_nil. }
  destruct s as [|c s'].
  { now rewrite sub_loop_nil, rewrite_windows_nil. }
  destruct f1 as [|f1]; [simpl in H1; lia|].
  destruct (is_word c) eqn:W.
  - (* a word begins *)
    assert (Hprev : opt_test is_word prev = false).
    { destruct Hfree as [H | H]; [exact H|]. simpl in H. congruence. }
    assert (T := tokens_word (c :: s') W). rewrite T in *.
    destruct f2 as [|f2]; [simpl in H2; lia|].
    set (w := take_while is_word (c :: s')) in *.
    set (rest := drop_while is_word (c :: s')) in *.
    assert (L := length_take_drop is_word (c :: s')). fold w rest in L.
    destruct (win (Word w :: tokens rest)) as [[rep behind]|] eqn:Ew.
    + assert (M := window_to_rule prev (c :: s') rep behind Hprev).
      rewrite T in M. specialize (M Ew).
      destruct (r prev (c :: s')) as [[[[|x m] rep'] rest']|] eqn:Er;
        try (exfalso; apply M; exact I).
      destruct (rule_to_window _ _ _ _ _ _ Hprev Er) as (Es & Ewin & Hf').
      rewrite T, Ew in Ewin. injection Ewin as <- ->.
      simpl. rewrite Er, Ew. f_equal.
      assert (Lr : length (c :: s') = length (x :: m) + length rest').
      { rewrite Es at 1. apply length_app. }
      apply IH; try assumption.
      * simpl in *. lia.
      * simpl in *. lia.
      * apply window_shape in Ew as [_ Ew]. simpl in *. lia.
    + assert (N : no_match (r prev (c :: s'))).
      { unfold no_match.
        destruct (r prev (c :: s')) as [[[[|x m] rep'] rest']|] eqn:Er; try exact I.
        destruct (rule_to_window _ _ _ _ _ _ Hprev Er) as (_ & Ewin & _).
        rewrite T in Ewin. congruence. }
      rewrite sub_loop_step; [|exact N].
      rewrite rewrite_windows_keep; [|exact Ew]. cbn [text_of].
      assert (Ew' : w = c :: take_while is_word s').
      { subst w. simpl. now rewrite W. }
      assert (Er' : rest = drop_while is_word s').
      { subst rest. simpl. now rewrite W. }
      rewrite (Consumed.take_drop is_word s') at 1.
      rewrite sub_loop_in_word;
        [|apply Consumed.take_while_all | exact W
         |rewrite <- Consumed.take_drop; simpl in H1; lia].
      rewrite Ew'. simpl. f_equal. f_equal. rewrite <- Er'.
      apply IH.
      * rewrite Er'. assert (D := length_take_drop is_word s'). simpl in Hn. lia.
      * rewrite Er'. assert (D := length_take_drop is_word s'). simpl in H1. lia.
      * simpl in H2. lia.
      * right. apply head_of_drop_word.
  - (* no word begins *)
    assert (N : no_match (r prev (c :: s'))).
    { apply outside_words. right. simpl. exact W. }
    rewrite sub_loop_step; [|exact N].
    assert (Hfree' : word_free (Some c) s') by (left; exact W).
    change (tokens (c :: s')) with (push c (tokens s')) in *.
    unfold push in *. rewrite W in *.
    destruct (is_space c) eqn:Sp.
    + destruct (tokens s') as [|[w|b|d] ts] eqn:T.
      * destruct f2 as [|f2]; [simpl in H2; lia|].
        rewrite rewrite_windows_keep; [|now apply window_not_word]. simpl.
        f_equal. rewrite (IH s' ltac:(simpl in Hn; lia) f1 f2 (Some c));
          [now rewrite T | simpl in H1; lia | rewrite T; simpl; lia | exact Hfree'].
      * destruct f2 as [|f2]; [simpl in H2; lia|].
        rewrite rewrite_windows_keep; [|now apply window_not_word]. simpl.
        f_equal. rewrite (IH s' ltac:(simpl in Hn; lia) f1 f2 (Some c));
          [now rewrite T | simpl in H1; lia | rewrite T; simpl in *; lia | exact Hfree'].
      * destruct f2 as [|f2]; [simpl in H2; lia|].
        rewrite rewrite_windows_keep; [|now apply window_not_word]. simpl.
        f_equal. rewrite (IH s' ltac:(simpl in Hn; lia) f1 (S f2) (Some c));
          [|simpl in H1; lia | rewrite T; simpl in *; lia | exact Hfree'].
        rewrite T. rewrite rewrite_windows_keep; [reflexivity|].
        now apply window_not_word.
      * destruct f2 as [|f2]; [simpl in H2; lia|].
        rewrite rewrite_windows_keep; [|now apply window_not_word]. simpl.
        f_equal. rewrite (IH s' ltac:(simpl in Hn; lia) f1 f2 (Some c));
          [now rewrite T | simpl in H1; lia | rewrite T; simpl in *; lia | exact Hfree'].
    + destruct f2 as [|f2]; [simpl in H2; lia|].
      rewrite rewrite_windows_keep; [|now apply window_not_word]. simpl.
      f_equal. apply IH; [simpl in Hn; lia | simpl in H1; lia | simpl in H2; lia
                          | exact Hfree'].
Qed.

(** [re.sub] with the rule rewrites the windows *)
Lemma sub_rewrites (s : str) : sub r s = rewritten win s.
Proof.
  unfold sub, rewritten. apply (sub_loop_tokens (length s)); try lia.
  - apply length_tokens.
  - now left.
Qed.

End Anchored.

End Scanning.

(** ** The patterns of the predicate check, on tokens *)

Module PredicateTokens.

Import Re Spec TokenShape Tokens Scanning.

Lemma is_word_lower_char (c : ascii) : is_word (lower_char c) = is_word c.
Proof. destruct c as [[] [] [] [] [] [] [] []]; reflexivity. Qed.

Lemma space_not_word (c : ascii) : is_space c = true -> is_word c = false.
Proof.
  intro H. destruct (is_word c) eqn:W; [|reflexivity].
  apply word_not_space in W. congruence.
Qed.

Lemma forallb_word_lower (m : str) :
  forallb is_word (map lower_char m) = forallb is_word m.
Proof.
  induction m as [|c m IH]; simpl; [reflexivity|]. now rewrite is_word_lower_char, IH.
Qed.

Lemma take_while_app_all (f : ascii -> bool) (m r : str) :
  forallb f m = true -> opt_test f (hd_error r) = false ->
  take_while f (m ++ r) = m /\ drop_while f (m ++ r) = r.
Proof.
  intros Hm Hr. induction m as [|c m IH]; simpl.
  - destruct r as [|d r]; [now split|]. simpl in *. now rewrite Hr.
  - simpl in Hm. apply andb_true_iff in Hm as [Hc Hm]. rewrite Hc.
    destruct (IH Hm) as [-> ->]. now split.
Qed.

Lemma tokens_word_app (w rest : str) :
  w <> [] -> forallb is_word w = true -> opt_test is_word (hd_error rest) = false ->
  tokens (w ++ rest) = Word w :: tokens rest.
Proof.
  intros Hn Hw Hr. rewrite tokens_app. apply push_word_run; try assumption.
  now rewrite starts_with_word_tokens.
Qed.

Lemma tokens_blank_app (b rest : str) :
  b <> [] -> forallb is_space b = true -> opt_test is_space (hd_error rest) = false ->
  tokens (b ++ rest) = Blank b :: tokens rest.
Proof.
  intros Hn Hb Hr. rewrite tokens_app. apply push_blank_run; try assumption.
  now rewrite starts_with_blank_tokens.
Qed.

(** *** The collapsing of blanks *)

Lemma blanks_loop_tokens (n : nat) :
  forall s, length s <= n ->
  forall f1 f2 prev,
    length s <= f1 -> length (tokens s) <= f2 ->
    sub_loop AstValidator.blanks f1 prev s = rewrite_windows Spec.blanks f2 (tokens s).
Proof.
  induction n as [|n IH]; intros s Hn f1 f2 prev H1 H2.
  { destruct s; [|simpl in Hn; lia]. now rewrite sub_loop_nil, rewrite_windows_nil. }
  destruct s as [|c s'].
  { now rewrite sub_loop_nil, rewrite_windows_nil. }
  destruct f1 as [|f1]; [simpl in H1; lia|].
  destruct (is_space c) eqn:Sp.
  - assert (T := tokens_blank (c :: s') Sp).
    assert (L := length_take_drop is_space (c :: s')).
    assert (E : take_while is_space (c :: s') = c :: take_while is_space s').
    { simpl. now rewrite Sp. }
    assert (Hs : sub_loop AstValidator.blanks (S f1) prev (c :: s')
                 = $" " ++ sub_loop AstValidator.blanks f1
                                    (last_opt prev (take_while is_space (c :: s')))
                                    (drop_while is_space (c :: s'))).
    { simpl. rewrite Sp. reflexivity. }
    rewrite Hs, T. rewrite T in H2.
    destruct f2 as [|f2]; [simpl in H2; lia|].
    change (rewrite_windows Spec.blanks (S f2)
                            (Blank (take_while is_space (c :: s'))
                             :: tokens (drop_while is_space (c :: s'))))
      with ($" " ++ rewrite_windows Spec.blanks f2
                                    (tokens (drop_while is_space (c :: s')))).
    f_equal. rewrite E in L. cbn [length] in *.
    apply IH; lia.
  - assert (N : no_match (AstValidator.blanks prev (c :: s'))).
    { unfold AstValidator.blanks. now rewrite Sp. }
    rewrite sub_loop_step; [|exact N].
    change (tokens (c :: s')) with (push c (tokens s')) in *.
    unfold push in *. rewrite Sp in *.
    destruct (is_word c) eqn:W.
    + destruct (tokens s') as [|[w|b|d] ts] eqn:T;
        (destruct f2 as [|f2]; [simpl in H2; lia|]);
        rewrite rewrite_windows_keep by reflexivity; simpl; f_equal.
      * rewrite (IH s' ltac:(simpl in Hn; lia) f1 f2 (Some c));
          [now rewrite T | simpl in H1; lia | rewrite T; simpl; lia].
      * rewrite (IH s' ltac:(simpl in Hn; lia) f1 (S f2) (Some c));
          [|simpl in H1; lia | rewrite T; simpl in *; lia].
        rewrite T. now rewrite rewrite_windows_keep by reflexivity.
      * rewrite (IH s' ltac:(simpl in Hn; lia) f1 f2 (Some c));
          [now rewrite T | simpl in H1; lia | rewrite T; simpl in *; lia].
      * rewrite (IH s' ltac:(simpl in Hn; lia) f1 f2 (Some c));
          [now rewrite T | simpl in H1; lia | rewrite T; simpl in *; lia].
    + destruct f2 as [|f2]; [simpl in H2; lia|].
      rewrite rewrite_windows_keep by reflexivity. simpl. f_equal.
      apply IH; [simpl in Hn; lia | simpl in H1; lia | simpl in H2; lia].
Qed.

Lemma blanks_rewrites (s : str) : sub AstValidator.blanks s = rewritten Spec.blanks s.
Proof.
  unfold sub, rewritten. apply (blanks_loop_tokens (length s)); try lia.
  apply length_tokens.
Qed.

(** *** The word AND *)

(** [and_word] where a word begins *)
Lemma and_word_at_word (prev : option ascii) (s : str) :
  opt_test is_word prev = false ->
  opt_test is_word (hd_error s) = true ->
  AstValidator.and_word prev s
  = if is_and (Word (take_while is_word s))
    then Some (take_while is_word s, [], drop_while is_word s)
    else None.
Proof.
  intros Hp Hs. unfold AstValidator.and_word, word_boundary. rewrite Hp, Hs.
  cbn [xorb is_and].
  set (w := take_while is_word s). set (rest := drop_while is_word s).
  assert (E : s = w ++ rest) by apply Consumed.take_drop.
  assert (Hw : forallb is_word w = true) by apply Consumed.take_while_all.
  assert (Hr : opt_test is_word (hd_error rest) = false) by apply head_of_drop_word.
  destruct (str_eqb (lower w) $"and") eqn:A.
  - apply str_eqb_eq in A. rewrite E at 1. unfold lower in A. rewrite <- A.
    rewrite Consumed.lit_ci_complete. cbn [bind]. rewrite Hr.
    rewrite E at 1. now rewrite Consumed.upto_app.
  - destruct (lit_ci $"and" s) as [r1|] eqn:L; [|reflexivity]. cbn [bind].
    destruct (opt_test is_word (hd_error r1)) eqn:H1; [reflexivity|]. exfalso.
    apply Consumed.lit_ci_spec in L as (m & Em & Lm).
    assert (Hm : forallb is_word m = true).
    { rewrite <- forallb_word_lower, Lm. reflexivity. }
    destruct (take_while_app_all is_word m r1 Hm H1) as [T _].
    rewrite <- Em in T. fold w in T. subst m.
    unfold lower in A. rewrite Lm in A. discriminate.
Qed.

Lemma and_word_outside (prev : option ascii) (s : str) :
  opt_test is_word prev = true \/ opt_test is_word (hd_error s) = false ->
  no_match (AstValidator.and_word prev s).
Proof.
  intro H. unfold AstValidator.and_word, word_boundary.
  destruct (opt_test is_word (hd_error s)) eqn:Hs.
  - destruct H as [-> | H]; [exact I | discriminate].
  - destruct (opt_test is_word prev); cbn [xorb]; [|exact I].
    destruct (lit_ci $"and" s) as [r1|] eqn:L; [|exact I]. exfalso.
    destruct s as [|c s]; [discriminate|]. simpl in L, Hs.
    destruct (ascii_eqb "a" (lower_char c)) eqn:A; [|discriminate].
    apply ascii_eqb_eq in A.
    assert (W : is_word (lower_char c) = true) by (now rewrite <- A).
    rewrite is_word_lower_char in W. congruence.
Qed.

Lemma prepend_prepend (a b : str) (l : list str) :
  prepend a (prepend b l) = prepend (a ++ b) l.
Proof. destruct l as [|p ps]; simpl; [reflexivity | now rewrite app_assoc]. Qed.

Lemma split_on_and_prepend (ts : list token) :
  forall cur,
    map untokens (split_on_and cur ts)
    = prepend (untokens cur) (map untokens (split_on_and [] ts)).
Proof.
  induction ts as [|t ts IH]; intro cur; simpl.
  - now rewrite app_nil_r.
  - destruct (is_and t); simpl.
    + now rewrite app_nil_r.
    + rewrite (IH (cur ++ [t])), (IH [t]), prepend_prepend, untokens_app. reflexivity.
Qed.

Lemma pieces_keep (t : token) (ts : list token) :
  is_and t = false ->
  map untokens (split_on_and [] (t :: ts))
  = prepend (text_of t) (map untokens (split_on_and [] ts)).
Proof.
  intro H. cbn [split_on_and]. rewrite H.
  rewrite split_on_and_prepend. cbn [app untokens flat_map]. now rewrite app_nil_r.
Qed.

Lemma pieces_push (c : ascii) (ts : list token) :
  is_word c = false ->
  map untokens (split_on_and [] (push c ts))
  = prepend [c] (map untokens (split_on_and [] ts)).
Proof.
  intro W. unfold push. rewrite W.
  destruct (is_space c); [|now apply pieces_keep].
  destruct ts as [|[w|b|d] ts]; try (now apply pieces_keep).
  rewrite (pieces_keep (Blank (c :: b))), (pieces_keep (Blank b)) by reflexivity.
  now rewrite prepend_prepend.
Qed.

Lemma split_on_and_not_empty (ts : list token) :
  forall cur, split_on_and cur ts <> [].
Proof.
  induction ts as [|t ts IH]; intro cur; simpl; [discriminate|].
  destruct (is_and t); [discriminate | apply IH].
Qed.

Lemma prepend_nil (l : list str) : l <> [] -> prepend [] l = l.
Proof. now destruct l. Qed.

Lemma split_loop_nil (r : rule) (fuel : nat) (prev : option ascii) (cur : str) :
  split_loop r fuel prev cur [] = [cur].
Proof. destruct fuel; simpl; now rewrite app_nil_r. Qed.

Lemma split_loop_step (r : rule) (f : nat) (prev : option ascii) (cur : str)
      (c : ascii) (s : str) :
  no_match (r prev (c :: s)) ->
  split_loop r (S f) prev cur (c :: s) = split_loop r f (Some c) (cur ++ [c]) s.
Proof.
  simpl. unfold no_match.
  now destruct (r prev (c :: s)) as [[[[|x m] rep] rest]|].
Qed.

Lemma split_loop_in_word (w rest : str) :
  forall f p cur,
    forallb is_word w = true -> is_word p = true ->
    length (w ++ rest) <= f ->
    split_loop AstValidator.and_word f (Some p) cur (w ++ rest)
    = split_loop AstValidator.and_word (f - length w) (last_opt (Some p) w)
                 (cur ++ w) rest.
Proof.
  induction w as [|d w IH]; intros f p cur Hw Hp Hf.
  - simpl. now rewrite Nat.sub_0_r, app_nil_r.
  - simpl in Hw. apply andb_true_iff in Hw as [Hd Hw].
    destruct f as [|f]; [simpl in Hf; lia|].
    change ((d :: w) ++ rest) with (d :: (w ++ rest)).
    rewrite split_loop_step.
    + rewrite IH; [|exact Hw | exact Hd | simpl in Hf; lia].
      rewrite Consumed.last_opt_cons, <- app_assoc. reflexivity.
    + apply and_word_outside. left. exact Hp.
Qed.

Lemma split_loop_tokens (n : nat) :
  forall s, length s <= n ->
  forall f prev cur,
    length s <= f -> word_free prev s ->
    split_loop AstValidator.and_word f prev cur s = prepend cur (pieces s).
Proof.
  unfold pieces.
  induction n as [|n IH]; intros s Hn f prev cur H1 Hfree.
  { destruct s; [|simpl in Hn; lia]. rewrite split_loop_nil. simpl.
    now rewrite app_nil_r. }
  destruct s as [|c s'].
  { rewrite split_loop_nil. simpl. now rewrite app_nil_r. }
  destruct f as [|f]; [simpl in H1; lia|].
  destruct (is_word c) eqn:W.
  - assert (Hprev : opt_test is_word prev = false).
    { destruct Hfree as [H | H]; [exact H|]. simpl in H. congruence. }
    assert (T := tokens_word (c :: s') W). rewrite T.
    assert (A := and_word_at_word prev (c :: s') Hprev W).
    set (w := take_while is_word (c :: s')) in *.
    set (rest := drop_while is_word (c :: s')) in *.
    assert (Ew' : w = c :: take_while is_word s').
    { subst w. simpl. now rewrite W. }
    assert (Er' : rest = drop_while is_word s').
    { subst rest. simpl. now rewrite W. }
    assert (D := length_take_drop is_word s').
    cbn [split_on_and]. destruct (is_and (Word w)) eqn:Ia.
    + cbn [split_loop]. rewrite A, Ew'. cbn [map untokens flat_map prepend].
      rewrite app_nil_r. f_equal. rewrite <- Ew'.
      rewrite (IH rest); [| | |right; apply head_of_drop_word].
      * apply prepend_nil. intro E. apply map_eq_nil in E.
        now apply split_on_and_not_empty in E.
      * rewrite Er'. simpl in Hn. lia.
      * rewrite Er'. simpl in H1. lia.
    + assert (N : no_match (AstValidator.and_word prev (c :: s'))).
      { rewrite A. exact I. }
      rewrite split_loop_step; [|exact N].
      rewrite (Consumed.take_drop is_word s') at 1.
      rewrite split_loop_in_word;
        [|apply Consumed.take_while_all | exact W
         |rewrite <- Consumed.take_drop; simpl in H1; lia].
      rewrite <- Er'.
      rewrite (IH rest);
        [| rewrite Er'; simpl in Hn; lia | rewrite Er'; simpl in H1; lia
         | right; apply head_of_drop_word].
      rewrite (split_on_and_prepend (tokens rest) ([] ++ [Word w])).
      rewrite prepend_prepend. cbn [app untokens flat_map text_of].
      rewrite app_nil_r, Ew', <- app_assoc. reflexivity.
  - assert (N : no_match (AstValidator.and_word prev (c :: s'))).
    { apply and_word_outside. right. simpl. exact W. }
    rewrite split_loop_step; [|exact N].
    rewrite (IH s'); [|simpl in Hn; lia | simpl in H1; lia | left; exact W].
    change (tokens (c :: s')) with (push c (tokens s')).
    rewrite pieces_push by exact W. now rewrite prepend_prepend.
Qed.

(** [re.split] on the word AND cuts the text at the tokens that read AND *)
Lemma split_pieces (s : str) : split AstValidator.and_word s = pieces s.
Proof.
  unfold split. rewrite (split_loop_tokens (length s)); try lia; [|now left].
  apply prepend_nil. unfold pieces. intro E. apply map_eq_nil in E.
  now apply split_on_and_not_empty in E.
Qed.

End PredicateTokens.

(** ** The rewritings of the normalization, on tokens *)

Module NormalTokens.

Import Re Spec TokenShape Tokens Scanning PredicateTokens.

Lemma lit_app (p r : str) : lit p (p ++ r) = Some r.
Proof.
  induction p as [|c p IH]; simpl; [now destruct r|]. now rewrite ascii_eqb_refl.
Qed.

Lemma last_opt_snoc (prev : option ascii) (l : str) (d : ascii) :
  last_opt prev (l ++ [d]) = Some d.
Proof. unfold last_opt. now rewrite rev_app_distr. Qed.

Lemma head_blank_run (b r : str) :
  b <> [] -> forallb is_space b = true -> opt_test is_word (hd_error (b ++ r)) = false.
Proof.
  destruct b as [|c b]; [easy|]. simpl. intros _ H.
  apply andb_true_iff in H as [H _]. now apply space_not_word.
Qed.

Lemma head_word_run (w r : str) :
  w <> [] -> forallb is_word w = true -> opt_test is_space (hd_error (w ++ r)) = false.
Proof.
  destruct w as [|c w]; [easy|]. simpl. intros _ H.
  apply andb_true_iff in H as [H _]. now apply word_not_space.
Qed.

Lemma spaces1_inv (s r : str) :
  spaces1 s = Some r ->
  exists b, s = b ++ r /\ b <> [] /\ forallb is_space b = true
            /\ opt_test is_space (hd_error r) = false.
Proof.
  intro H.
  assert (R : r = drop_while is_space s).
  { unfold spaces1 in H. destruct s as [|c s]; [discriminate|].
    destruct (is_space c); [|discriminate]. now injection H. }
  destruct (TextFacts.spaces1_spec _ _ H) as (b & E & Hb & Hs).
  exists b. repeat split; try assumption.
  rewrite R. apply head_of_drop_space.
Qed.

Lemma spaces1_app (b r : str) :
  b <> [] -> forallb is_space b = true -> opt_test is_space (hd_error r) = false ->
  spaces1 (b ++ r) = Some r.
Proof.
  intros Hn Hb Hr. destruct (take_while_app_all is_space b r Hb Hr) as [_ D].
  unfold spaces1. destruct b as [|c b]; [easy|].
  change ((c :: b) ++ r) with (c :: (b ++ r)) in *.
  simpl in Hb. apply andb_true_iff in Hb as [Hc _]. now rewrite Hc, D.
Qed.

Lemma ident_char_word (d : ascii) :
  AstValidator.is_ident_char d = true -> is_word d = true.
Proof.
  unfold AstValidator.is_ident_char, is_word.
  destruct (is_lower d), (is_digit d), (code d =? 95); simpl; try discriminate;
    intros _; now rewrite ?orb_true_r.
Qed.

Lemma ident_start_char (d : ascii) :
  AstValidator.is_ident_start d = true -> AstValidator.is_ident_char d = true.
Proof.
  unfold AstValidator.is_ident_start, AstValidator.is_ident_char.
  destruct (is_lower d), (is_digit d), (code d =? 95); simpl; try discriminate;
    reflexivity.
Qed.

Lemma forallb_ident_word (x : str) :
  forallb AstValidator.is_ident_char x = true -> forallb is_word x = true.
Proof.
  induction x as [|c x IH]; simpl; [reflexivity|].
  intro H. apply andb_true_iff in H as [Hc Hx].
  now rewrite (ident_char_word _ Hc), (IH Hx).
Qed.

Lemma is_identifier_spec (x : str) :
  is_identifier x
  = match x with
    | [] => false
    | c :: x' =>
        AstValidator.is_ident_start c && forallb AstValidator.is_ident_char x'
    end.
Proof. reflexivity. Qed.

Lemma ident_inv (s x r : str) :
  AstValidator.ident s = Some (x, r) ->
  s = x ++ r /\ is_identifier x = true /\ forallb is_word x = true /\ x <> [].
Proof.
  unfold AstValidator.ident. destruct s as [|c s]; [discriminate|].
  destruct (AstValidator.is_ident_start c) eqn:E; [|discriminate].
  intros [= <- <-].
  assert (A := Consumed.take_while_all AstValidator.is_ident_char s).
  split; [simpl; f_equal; apply Consumed.take_drop|].
  split; [rewrite is_identifier_spec; now rewrite E, A|].
  split; [|discriminate].
  simpl. rewrite (ident_char_word _ (ident_start_char _ E)). simpl.
  now apply forallb_ident_word.
Qed.

Lemma ident_app (x r : str) :
  is_identifier x = true ->
  opt_test AstValidator.is_ident_char (hd_error r) = false ->
  AstValidator.ident (x ++ r) = Some (x, r).
Proof.
  rewrite is_identifier_spec. destruct x as [|c x]; [discriminate|].
  intros H Hr. apply andb_true_iff in H as [Hc Hx].
  unfold AstValidator.ident. cbn [app]. rewrite Hc.
  destruct (take_while_app_all AstValidator.is_ident_char x r Hx Hr) as [-> ->].
  reflexivity.
Qed.

Lemma identifier_word_run (x : str) :
  is_identifier x = true -> x <> [] /\ forallb is_word x = true.
Proof.
  rewrite is_identifier_spec. destruct x as [|c x]; [discriminate|].
  intro H. apply andb_true_iff in H as [Hc Hx]. split; [discriminate|].
  simpl. rewrite (ident_char_word _ (ident_start_char _ Hc)). simpl.
  now apply forallb_ident_word.
Qed.

Lemma head_blank_not_ident (b r : str) :
  b <> [] -> forallb is_space b = true ->
  opt_test AstValidator.is_ident_char (hd_error (b ++ r)) = false.
Proof.
  destruct b as [|c b]; [easy|]. simpl. intros _ H.
  apply andb_true_iff in H as [H _].
  destruct (AstValidator.is_ident_char c) eqn:E; [|reflexivity].
  apply ident_char_word, word_not_space in E. congruence.
Qed.

(** *** Table prefixes *)

Lemma table_prefix_outside (prev : option ascii) (s : str) :
  opt_test is_word prev = true \/ opt_test is_word (hd_error s) = false ->
  no_match (AstValidator.table_prefix prev s).
Proof.
  intro H. unfold AstValidator.table_prefix, word_boundary.
  destruct (opt_test is_word (hd_error s)) eqn:Hs.
  - destruct H as [-> | H]; [exact I | discriminate].
  - assert (E : take_while is_word s = []).
    { destruct s as [|c s]; [reflexivity|]. simpl in *. now rewrite Hs. }
    rewrite E. now destruct (xorb (opt_test is_word prev) false).
Qed.

Lemma table_prefix_to_window (prev : option ascii) (s : str) (x : ascii) (m rep rest : str) :
  opt_test is_word prev = false ->
  AstValidator.table_prefix prev s = Some (x :: m, rep, rest) ->
  s = (x :: m) ++ rest
  /\ Spec.table_prefix (tokens s) = Some (rep, tokens rest)
  /\ word_free (last_opt prev (x :: m)) rest.
Proof.
  intros Hp. unfold AstValidator.table_prefix, word_boundary. rewrite Hp.
  destruct (opt_test is_word (hd_error s)) eqn:Hs; cbn [xorb]; [|discriminate].
  assert (T := tokens_word s Hs). assert (E := Consumed.take_drop is_word s).
  destruct (take_while is_word s) as [|x0 w]; [discriminate|].
  destruct (drop_while is_word s) as [|dot rest0]; [discriminate|].
  destruct (ascii_eqb dot ".") eqn:Ed; [|discriminate].
  apply ascii_eqb_eq in Ed. subst dot.
  intros [= <- <- <- <-]. split; [|split].
  - rewrite E. cbn [app]. f_equal. now rewrite <- app_assoc.
  - rewrite T, tokens_other by reflexivity. reflexivity.
  - left. change (x0 :: w ++ ["."%char]) with ((x0 :: w) ++ ["."%char]).
    now rewrite last_opt_snoc.
Qed.

Lemma table_prefix_from_window (prev : option ascii) (s rep : str) (behind : list token) :
  opt_test is_word prev = false ->
  Spec.table_prefix (tokens s) = Some (rep, behind) ->
  ~ no_match (AstValidator.table_prefix prev s).
Proof.
  intros Hp H.
  assert (Hs : opt_test is_word (hd_error s) = true).
  { rewrite <- starts_with_word_tokens.
    now destruct (tokens s) as [|[w|b|d] ts]. }
  assert (T := tokens_word s Hs). rewrite T in H.
  assert (E := untokens_tokens (drop_while is_word s)).
  assert (Hn : take_while is_word s <> []).
  { destruct s as [|c s]; [discriminate|]. simpl in *. now rewrite Hs. }
  cbn [Spec.table_prefix] in H.
  destruct (tokens (drop_while is_word s)) as [|[w|b|c] ts]; try discriminate.
  destruct (ascii_eqb c ".") eqn:Ec; [|discriminate].
  unfold AstValidator.table_prefix, word_boundary. rewrite Hp, Hs. cbn [xorb].
  destruct (take_while is_word s) as [|x0 w]; [easy|].
  rewrite <- E. cbn [untokens flat_map text_of app]. rewrite Ec.
  intro N. exact N.
Qed.

Lemma table_prefix_shape (ts : list token) (rep : str) (behind : list token) :
  Spec.table_prefix ts = Some (rep, behind) ->
  starts_with_word ts = true /\ length behind < length ts.
Proof.
  destruct ts as [|[w|b|d] [|[w2|b2|c] ts]]; try discriminate. simpl.
  destruct (ascii_eqb c "."); [|discriminate]. intros [= _ <-]. split; [reflexivity | lia].
Qed.

Lemma table_prefix_rewrites (s : str) :
  sub AstValidator.table_prefix s = rewritten Spec.table_prefix s.
Proof.
  apply sub_rewrites.
  - exact table_prefix_outside.
  - exact table_prefix_to_window.
  - exact table_prefix_from_window.
  - exact table_prefix_shape.
Qed.

(** *** NOT X IS NULL *)

Lemma lit_needs_word (p : str) (prev : option ascii) (s : str) :
  opt_test is_word (hd_error p) = true ->
  opt_test is_word prev = true \/ opt_test is_word (hd_error s) = false ->
  word_boundary prev s = true -> lit p s = None.
Proof.
  intros Hc H B. unfold word_boundary in B.
  destruct p as [|c p]; [discriminate|].
  destruct s as [|d s]; [reflexivity|]. simpl in *.
  destruct (ascii_eqb c d) eqn:E; [|reflexivity]. exfalso.
  apply ascii_eqb_eq in E. subst d. rewrite Hc in *.
  destruct H as [H | H]; [|discriminate]. now rewrite H in B.
Qed.

Lemma not_is_null_outside (prev : option ascii) (s : str) :
  opt_test is_word prev = true \/ opt_test is_word (hd_error s) = false ->
  no_match (AstValidator.not_is_null prev s).
Proof.
  intro H. unfold AstValidator.not_is_null.
  destruct (word_boundary prev s) eqn:B; [|exact I].
  now rewrite (lit_needs_word $"not" prev s eq_refl H B).
Qed.

Lemma not_is_not_null_outside (prev : option ascii) (s : str) :
  opt_test is_word prev = true \/ opt_test is_word (hd_error s) = false ->
  no_match (AstValidator.not_is_not_null prev s).
Proof.
  intro H. unfold AstValidator.not_is_not_null.
  destruct (word_boundary prev s) eqn:B; [|exact I].
  now rewrite (lit_needs_word $"not" prev s eq_refl H B).
Qed.

(** the tokens of a text that begins with a word or with blanks *)
Lemma tokens_word_then (w rest : str) (ts : list token) :
  w <> [] -> forallb is_word w = true ->
  opt_test is_word (hd_error rest) = false ->
  tokens rest = ts ->
  tokens (w ++ rest) = Word w :: ts.
Proof. intros Hn Hw Hr <-. now apply tokens_word_app. Qed.

Lemma tokens_blank_then (b rest : str) (ts : list token) :
  b <> [] -> forallb is_space b = true ->
  opt_test is_space (hd_error rest) = false ->
  tokens rest = ts ->
  tokens (b ++ rest) = Blank b :: ts.
Proof. intros Hn Hb Hr <-. now apply tokens_blank_app. Qed.

Lemma not_is_null_to_window (prev : option ascii) (s : str) (x : ascii) (m rep rest : str) :
  opt_test is_word prev = false ->
  AstValidator.not_is_null prev s = Some (x :: m, rep, rest) ->
  s = (x :: m) ++ rest
  /\ Spec.not_x_is_null (tokens s) = Some (rep, tokens rest)
  /\ word_free (last_opt prev (x :: m)) rest.
Proof.
  intros Hp. unfold AstValidator.not_is_null.
  destruct (word_boundary prev s); [|discriminate].
  destruct (lit $"not" s) as [r1|] eqn:L1; [|discriminate]. cbn [bind].
  destruct (spaces1 r1) as [r2|] eqn:S1; [|discriminate]. cbn [bind].
  destruct (AstValidator.ident r2) as [[y r3]|] eqn:I1; [|discriminate]. cbn [bind].
  destruct (spaces1 r3) as [r4|] eqn:S2; [|discriminate]. cbn [bind].
  destruct (lit $"is" r4) as [r5|] eqn:L2; [|discriminate]. cbn [bind].
  destruct (spaces1 r5) as [r6|] eqn:S3; [|discriminate]. cbn [bind].
  destruct (lit $"null" r6) as [r7|] eqn:L3; [|discriminate]. cbn [bind].
  destruct (opt_test is_word (hd_error r7)) eqn:Hw; [discriminate|].
  apply Consumed.lit_spec in L1, L2, L3.
  apply spaces1_inv in S1 as (b1 & E1 & Hn1 & Hb1 & Hh1).
  apply ident_inv in I1 as (Ey & Hy & Hyw & Hyn).
  apply spaces1_inv in S2 as (b2 & E2 & Hn2 & Hb2 & Hh2).
  apply spaces1_inv in S3 as (b3 & E3 & Hn3 & Hb3 & Hh3).
  subst r6 r5 r4 r3 r2 r1.
  remember ($"not" ++ b1 ++ y ++ b2 ++ $"is" ++ b3 ++ $"null") as pre eqn:Epre.
  assert (Es : s = pre ++ r7).
  { rewrite L1, Epre. now rewrite <- !app_assoc. }
  rewrite Es at 1. rewrite Consumed.upto_app.
  intros [= Em <- <-]. split; [|split].
  - rewrite <- Em. exact Es.
  - rewrite L1.
    rewrite (tokens_word_then
               $"not" _
               (Blank b1 :: Word y :: Blank b2 :: Word $"is" :: Blank b3
                :: Word $"null" :: tokens r7));
      [now cbn; rewrite Hy | discriminate | reflexivity
       | now apply head_blank_run |].
    apply tokens_blank_then; [assumption | assumption | assumption |].
    apply tokens_word_then;
      [assumption | assumption | now apply head_blank_run |].
    apply tokens_blank_then; [assumption | assumption | assumption |].
    apply tokens_word_then;
      [discriminate | reflexivity | now apply head_blank_run |].
    apply tokens_blank_then; [assumption | assumption | assumption |].
    apply tokens_word_then; [discriminate | reflexivity | assumption | reflexivity].
  - right. exact Hw.
Qed.

(** what a list of tokens is when the window matches *)
Lemma not_x_is_null_inv (ts : list token) (rep : str) (behind : list token) :
  Spec.not_x_is_null ts = Some (rep, behind) ->
  exists b1 x b2 b3,
    ts = Word $"not" :: Blank b1 :: Word x :: Blank b2 :: Word $"is" :: Blank b3
         :: Word $"null" :: behind
    /\ is_identifier x = true /\ rep = x ++ $" is not null".
Proof.
  destruct ts as [|[n|?|?] ts]; try discriminate.
  destruct ts as [|[?|b1|?] ts]; try discriminate.
  destruct ts as [|[x|?|?] ts]; try discriminate.
  destruct ts as [|[?|b2|?] ts]; try discriminate.
  destruct ts as [|[i|?|?] ts]; try discriminate.
  destruct ts as [|[?|b3|?] ts]; try discriminate.
  destruct ts as [|[u|?|?] ts]; try discriminate.
  cbn [Spec.not_x_is_null].
  destruct (str_eqb n $"not") eqn:En; [|discriminate].
  destruct (is_identifier x) eqn:Ex; [|discriminate].
  destruct (str_eqb i $"is") eqn:Ei; [|discriminate].
  destruct (str_eqb u $"null") eqn:Eu; [|discriminate].
  cbn [andb]. intros [= <- <-].
  apply str_eqb_eq in En, Ei, Eu. subst.
  exists b1, x, b2, b3. now repeat split.
Qed.

Lemma well_formed_blank (b : str) (ts : list token) :
  well_formed (Blank b :: ts) = true ->
  b <> [] /\ forallb is_space b = true /\ starts_with_blank ts = false
  /\ well_formed ts = true.
Proof.
  simpl. intro H. apply andb_true_iff in H as [H H3].
  apply andb_true_iff in H as [H1 H2]. apply andb_true_iff in H1 as [Hn Hb].
  repeat split; try assumption.
  - now destruct b.
  - now destruct ts as [|[w'|b'|d'] ts].
Qed.

Lemma well_formed_word (w : str) (ts : list token) :
  well_formed (Word w :: ts) = true ->
  w <> [] /\ forallb is_word w = true /\ starts_with_word ts = false
  /\ well_formed ts = true.
Proof.
  simpl. intro H. apply andb_true_iff in H as [H H3].
  apply andb_true_iff in H as [H1 H2]. apply andb_true_iff in H1 as [Hn Hw].
  repeat split; try assumption.
  - now destruct w.
  - now destruct ts as [|[w'|b'|d'] ts].
Qed.

Lemma not_is_null_from_window (prev : option ascii) (s rep : str) (behind : list token) :
  opt_test is_word prev = false ->
  Spec.not_x_is_null (tokens s) = Some (rep, behind) ->
  ~ no_match (AstValidator.not_is_null prev s).
Proof.
  intros Hp H.
  apply not_x_is_null_inv in H as (b1 & x & b2 & b3 & T & Hx & _).
  assert (Wf := well_formed_tokens s). rewrite T in Wf.
  assert (Es := untokens_tokens s). rewrite T in Es.
  cbn [untokens flat_map text_of] in Es. fold (untokens behind) in Es.
  apply well_formed_word in Wf as (_ & _ & _ & Wf).
  apply well_formed_blank in Wf as (Hn1 & Hb1 & _ & Wf).
  apply well_formed_word in Wf as (Hnx & Hwx & _ & Wf).
  apply well_formed_blank in Wf as (Hn2 & Hb2 & _ & Wf).
  apply well_formed_word in Wf as (_ & _ & _ & Wf).
  apply well_formed_blank in Wf as (Hn3 & Hb3 & _ & Wf).
  apply well_formed_word in Wf as (_ & _ & Hbehind & Wf).
  assert (Hr7 : opt_test is_word (hd_error (untokens behind)) = false).
  { now rewrite head_untokens_word. }
  unfold AstValidator.not_is_null.
  assert (B : word_boundary prev s = true).
  { unfold word_boundary. rewrite Hp, <- Es. reflexivity. }
  rewrite B. rewrite <- Es at 1.
  rewrite lit_app. cbn [bind].
  rewrite spaces1_app; [|assumption | assumption | now apply head_word_run].
  cbn [bind].
  rewrite ident_app; [|assumption | now apply head_blank_not_ident]. cbn [bind].
  rewrite spaces1_app; [|assumption | assumption | reflexivity]. cbn [bind].
  rewrite lit_app. cbn [bind].
  rewrite spaces1_app; [|assumption | assumption | reflexivity]. cbn [bind].
  rewrite lit_app. cbn [bind]. rewrite Hr7.
  assert (U : upto s (untokens behind)
              = $"not" ++ b1 ++ x ++ b2 ++ $"is" ++ b3 ++ $"null").
  { rewrite <- Es at 1.
    replace ($"not" ++ b1 ++ x ++ b2 ++ $"is" ++ b3 ++ $"null" ++ untokens behind)
      with (($"not" ++ b1 ++ x ++ b2 ++ $"is" ++ b3 ++ $"null") ++ untokens behind)
      by (now rewrite <- !app_assoc).
    apply Consumed.upto_app. }
  rewrite U. intro N. exact N.
Qed.

Lemma not_x_is_null_shape (ts : list token) (rep : str) (behind : list token) :
  Spec.not_x_is_null ts = Some (rep, behind) ->
  starts_with_word ts = true /\ length behind < length ts.
Proof.
  intro H. apply not_x_is_null_inv in H as (b1 & x & b2 & b3 & -> & _ & _).
  split; [reflexivity | simpl; lia].
Qed.

Lemma not_is_null_rewrites (s : str) :
  sub AstValidator.not_is_null s = rewritten Spec.not_x_is_null s.
Proof.
  apply sub_rewrites.
  - exact not_is_null_outside.
  - exact not_is_null_to_window.
  - exact not_is_null_from_window.
  - exact not_x_is_null_shape.
Qed.

(** *** NOT X IS NOT NULL *)

Lemma not_is_not_null_to_window (prev : option ascii) (s : str) (x : ascii)
      (m rep rest : str) :
  opt_test is_word prev = false ->
  AstValidator.not_is_not_null prev s = Some (x :: m, rep, rest) ->
  s = (x :: m) ++ rest
  /\ Spec.not_x_is_not_null (tokens s) = Some (rep, tokens rest)
  /\ word_free (last_opt prev (x :: m)) rest.
Proof.
  intros Hp. unfold AstValidator.not_is_not_null.
  destruct (word_boundary prev s); [|discriminate].
  destruct (lit $"not" s) as [r1|] eqn:L1; [|discriminate]. cbn [bind].
  destruct (spaces1 r1) as [r2|] eqn:S1; [|discriminate]. cbn [bind].
  destruct (AstValidator.ident r2) as [[y r3]|] eqn:I1; [|discriminate]. cbn [bind].
  destruct (spaces1 r3) as [r4|] eqn:S2; [|discriminate]. cbn [bind].
  destruct (lit $"is" r4) as [r5|] eqn:L2; [|discriminate]. cbn [bind].
  destruct (spaces1 r5) as [r6|] eqn:S3; [|discriminate]. cbn [bind].
  destruct (lit $"not" r6) as [r7|] eqn:L3; [|discriminate]. cbn [bind].
  destruct (spaces1 r7) as [r8|] eqn:S4; [|discriminate]. cbn [bind].
  destruct (lit $"null" r8) as [r9|] eqn:L4; [|discriminate]. cbn [bind].
  destruct (opt_test is_word (hd_error r9)) eqn:Hw; [discriminate|].
  apply Consumed.lit_spec in L1, L2, L3, L4.
  apply spaces1_inv in S1 as (b1 & E1 & Hn1 & Hb1 & Hh1).
  apply ident_inv in I1 as (Ey & Hy & Hyw & Hyn).
  apply spaces1_inv in S2 as (b2 & E2 & Hn2 & Hb2 & Hh2).
  apply spaces1_inv in S3 as (b3 & E3 & Hn3 & Hb3 & Hh3).
  apply spaces1_inv in S4 as (b4 & E4 & Hn4 & Hb4 & Hh4).
  subst r8 r7 r6 r5 r4 r3 r2 r1.
  remember ($"not" ++ b1 ++ y ++ b2 ++ $"is" ++ b3 ++ $"not" ++ b4 ++ $"null")
    as pre eqn:Epre.
  assert (Es : s = pre ++ r9).
  { rewrite L1, Epre. now rewrite <- !app_assoc. }
  rewrite Es at 1. rewrite Consumed.upto_app.
  intros [= Em <- <-]. split; [|split].
  - rewrite <- Em. exact Es.
  - rewrite L1.
    rewrite (tokens_word_then
               $"not" _
               (Blank b1 :: Word y :: Blank b2 :: Word $"is" :: Blank b3
                :: Word $"not" :: Blank b4 :: Word $"null" :: tokens r9));
      [now cbn; rewrite Hy | discriminate | reflexivity
       | now apply head_blank_run |].
    apply tokens_blank_then; [assumption | assumption | assumption |].
    apply tokens_word_then;
      [assumption | assumption | now apply head_blank_run |].
    apply tokens_blank_then; [assumption | assumption | assumption |].
    apply tokens_word_then;
      [discriminate | reflexivity | now apply head_blank_run |].
    apply tokens_blank_then; [assumption | assumption | assumption |].
    apply tokens_word_then;
      [discriminate | reflexivity | now apply head_blank_run |].
    apply tokens_blank_then; [assumption | assumption | assumption |].
    apply tokens_word_then; [discriminate | reflexivity | assumption | reflexivity].
  - right. exact Hw.
Qed.

Lemma not_x_is_not_null_inv (ts : list token) (rep : str) (behind : list token) :
  Spec.not_x_is_not_null ts = Some (rep, behind) ->
  exists b1 x b2 b3 b4,
    ts = Word $"not" :: Blank b1 :: Word x :: Blank b2 :: Word $"is" :: Blank b3
         :: Word $"not" :: Blank b4 :: Word $"null" :: behind
    /\ is_identifier x = true /\ rep = x ++ $" is null".
Proof.
  destruct ts as [|[n|?|?] ts]; try discriminate.
  destruct ts as [|[?|b1|?] ts]; try discriminate.
  destruct ts as [|[x|?|?] ts]; try discriminate.
  destruct ts as [|[?|b2|?] ts]; try discriminate.
  destruct ts as [|[i|?|?] ts]; try discriminate.
  destruct ts as [|[?|b3|?] ts]; try discriminate.
  destruct ts as [|[n'|?|?] ts]; try discriminate.
  destruct ts as [|[?|b4|?] ts]; try discriminate.
  destruct ts as [|[u|?|?] ts]; try discriminate.
  cbn [Spec.not_x_is_not_null].
  destruct (str_eqb n $"not") eqn:En; [|discriminate].
  destruct (is_identifier x) eqn:Ex; [|discriminate].
  destruct (str_eqb i $"is") eqn:Ei; [|discriminate].
  destruct (str_eqb n' $"not") eqn:En'; [|discriminate].
  destruct (str_eqb u $"null") eqn:Eu; [|discriminate].
  cbn [andb]. intros [= <- <-].
  apply str_eqb_eq in En, Ei, En', Eu. subst.
  exists b1, x, b2, b3, b4. now repeat split.
Qed.

Lemma not_is_not_null_from_window (prev : option ascii) (s rep : str)
      (behind : list token) :
  opt_test is_word prev = false ->
  Spec.not_x_is_not_null (tokens s) = Some (rep, behind) ->
  ~ no_match (AstValidator.not_is_not_null prev s).
Proof.
  intros Hp H.
  apply not_x_is_not_null_inv in H as (b1 & x & b2 & b3 & b4 & T & Hx & _).
  assert (Wf := well_formed_tokens s). rewrite T in Wf.
  assert (Es := untokens_tokens s). rewrite T in Es.
  cbn [untokens flat_map text_of] in Es. fold (untokens behind) in Es.
  apply well_formed_word in Wf as (_ & _ & _ & Wf).
  apply well_formed_blank in Wf as (Hn1 & Hb1 & _ & Wf).
  apply well_formed_word in Wf as (Hnx & Hwx & _ & Wf).
  apply well_formed_blank in Wf as (Hn2 & Hb2 & _ & Wf).
  apply well_formed_word in Wf as (_ & _ & _ & Wf).
  apply well_formed_blank in Wf as (Hn3 & Hb3 & _ & Wf).
  apply well_formed_word in Wf as (_ & _ & _ & Wf).
  apply well_formed_blank in Wf as (Hn4 & Hb4 & _ & Wf).
  apply well_formed_word in Wf as (_ & _ & Hbehind & Wf).
  assert (Hr9 : opt_test is_word (hd_error (untokens behind)) = false).
  { now rewrite head_untokens_word. }
  unfold AstValidator.not_is_not_null.
  assert (B : word_boundary prev s = true).
  { unfold word_boundary. rewrite Hp, <- Es. reflexivity. }
  rewrite B. rewrite <- Es at 1.
  rewrite lit_app. cbn [bind].
  rewrite spaces1_app; [|assumption | assumption | now apply head_word_run].
  cbn [bind].
  rewrite ident_app; [|assumption | now apply head_blank_not_ident]. cbn [bind].
  rewrite spaces1_app; [|assumption | assumption | reflexivity]. cbn [bind].
  rewrite lit_app. cbn [bind].
  rewrite spaces1_app; [|assumption | assumption | reflexivity]. cbn [bind].
  rewrite lit_app. cbn [bind].
  rewrite spaces1_app; [|assumption | assumption | reflexivity]. cbn [bind].
  rewrite lit_app. cbn [bind]. rewrite Hr9.
  assert (U : upto s (untokens behind)
              = $"not" ++ b1 ++ x ++ b2 ++ $"is" ++ b3 ++ $"not" ++ b4 ++ $"null").
  { rewrite <- Es at 1.
    replace ($"not" ++ b1 ++ x ++ b2 ++ $"is" ++ b3 ++ $"not" ++ b4 ++ $"null"
              ++ untokens behind)
      with (($"not" ++ b1 ++ x ++ b2 ++ $"is" ++ b3 ++ $"not" ++ b4 ++ $"null")
              ++ untokens behind)
      by (now rewrite <- !app_assoc).
    apply Consumed.upto_app. }
  rewrite U. intro N. exact N.
Qed.

Lemma not_x_is_not_null_shape (ts : list token) (rep : str) (behind : list token) :
  Spec.not_x_is_not_null ts = Some (rep, behind) ->
  starts_with_word ts = true /\ length behind < length ts.
Proof.
  intro H. apply not_x_is_not_null_inv in H as (b1 & x & b2 & b3 & b4 & -> & _ & _).
  split; [reflexivity | simpl; lia].
Qed.

Lemma not_is_not_null_rewrites (s : str) :
  sub AstValidator.not_is_not_null s = rewritten Spec.not_x_is_not_null s.
Proof.
  apply sub_rewrites.
  - exact not_is_not_null_outside.
  - exact not_is_not_null_to_window.
  - exact not_is_not_null_from_window.
  - exact not_x_is_not_null_shape.
Qed.

(** *** The normalization and the atoms *)

(** [normalize_predicate] is the normalization told on tokens *)
Lemma normalize_predicate_normalised (predicate : str) :
  AstValidator.normalize_predicate predicate = normalised predicate.
Proof.
  unfold AstValidator.normalize_predicate, normalised. cbv zeta.
  now rewrite table_prefix_rewrites, not_is_null_rewrites, not_is_not_null_rewrites,
    blanks_rewrites.
Qed.

Lemma removelast_snoc (l : str) (a : ascii) : removelast (l ++ [a]) = l.
Proof.
  induction l as [|x l IH]; [reflexivity|]. simpl. rewrite IH.
  now destruct (l ++ [a]) eqn:E; [destruct l; discriminate|].
Qed.

Lemma starts_with_one (c d : ascii) (s : str) :
  starts_with [c] (d :: s) = ascii_eqb c d.
Proof. simpl. now rewrite andb_true_r. Qed.

(** the body of the loop of [decompose_predicate_to_atoms] *)
Lemma strip_one_paren_unwrapped (piece : str) :
  AstValidator.strip_one_paren piece = unwrapped piece.
Proof.
  unfold AstValidator.strip_one_paren, unwrapped. cbv zeta.
  destruct (strip piece) as [|first rest]; [reflexivity|].
  unfold ends_with, slice_1_m1. cbn [tl].
  destruct (rev rest) as [|last inner] eqn:R.
  - assert (rest = []) by (now destruct rest using rev_ind; [|rewrite rev_app_distr in R]).
    subst rest. simpl. rewrite !andb_true_r.
    destruct (ascii_eqb "(" first) eqn:E1; [|reflexivity].
    destruct (ascii_eqb ")" first) eqn:E2; [|reflexivity].
    apply ascii_eqb_eq in E1, E2. congruence.
  - assert (Er : rest = rev inner ++ [last]).
    { rewrite <- (rev_involutive rest), R. reflexivity. }
    cbn [rev]. rewrite R. cbn [app].
    change ($"(") with ["("%char]. change (rev $")") with [")"%char].
    rewrite !starts_with_one.
    replace (ascii_eqb "(" first) with (ascii_eqb first "(")
      by (unfold ascii_eqb; apply Nat.eqb_sym).
    replace (ascii_eqb ")" last) with (ascii_eqb last ")")
      by (unfold ascii_eqb; apply Nat.eqb_sym).
    destruct (ascii_eqb first "(" && ascii_eqb last ")"); [|reflexivity].
    now rewrite Er, removelast_snoc.
Qed.

(** [decompose_predicate_to_atoms] yields the atoms told on tokens *)
Lemma decompose_atoms (predicate : str) :
  AstValidator.decompose_predicate_to_atoms predicate = atoms predicate.
Proof.
  unfold AstValidator.decompose_predicate_to_atoms, atoms.
  destruct predicate as [|c p]; [reflexivity|].
  rewrite split_pieces. f_equal. apply map_ext. exact strip_one_paren_unwrapped.
Qed.

End NormalTokens.

(** ** C2: the MUST-predicate presence check *)

Module C2.

Import AstValidator.

(** The atoms of the source are never empty. *)
Lemma atoms_not_empty (p atom : str) :
  In atom (decompose_predicate_to_atoms p) -> atom <> [].
Proof.
  unfold decompose_predicate_to_atoms. destruct p as [|c p]; [easy|].
  rewrite filter_In. intros [_ H] ->. discriminate.
Qed.



(** the atoms and the normal forms of some predicates *)
Lemma atoms_and_normal_forms :
  Spec.atoms $"(a = 1 AND b = 2)" = [$"(a = 1"; $"b = 2)"]
  /\ Spec.atoms $"(t.a = 1) and  NOT t.b IS NULL" = [$"t.a = 1"; $"NOT t.b IS NULL"]
  /\ Spec.atoms $"band = 1" = [$"band = 1"]
  /\ Spec.normalised $"NOT  T.b   IS NULL" = $"b is not null"
  /\ Spec.normalised $" not t.b is not null " = $"b is null"
  /\ Spec.normalised $"T1.a  =  T2.a" = $"a = a".
Proof. vm_compute. repeat split. Qed.

End C2.
(** ** The validation engine: what is selected *)

Module Selection.

Import ValidationEngine.

Section Engine.

Variable lib : SqlGlot.Lib.
Variable compile_template : str -> option (str -> str).
Variable plan : Planner.PlanV1.
Variable contract : Generator.SafetyContract.

Let judged := judge lib compile_template plan contract.
Let basic (s : str) := passed (check_basic_sql_validity lib s).
Let valid (s : str) := passed (validate_must_constraints lib s plan contract).
Let repair (s : str) := minimal_repair lib compile_template s plan contract.
Let kept (candidates : list Candidate) :=
  simple_candidate_filter lib compile_template candidates plan contract.
Let best_of (candidates : list Candidate) :=
  validate_and_select_best lib compile_template candidates plan contract.

Lemma kept_member (candidates : list Candidate) (valid_candidates : list (nat * Candidate))
      (i : nat) (c' : Candidate) :
  kept candidates = Some valid_candidates ->
  (In (i, c') valid_candidates
   <-> exists c, nth_error candidates i = Some c
                 /\ ((judged c = Passed_as_is /\ c' = c)
                     \/ exists r, judged c = Repaired_ok r /\ c' = repaired_with r c)).
Proof. apply C4.filter_member. Qed.

Lemma kept_raises (candidates : list Candidate) :
  kept candidates = None <-> exists c, In c candidates /\ judged c = Repair_raised.
Proof. apply C4.filter_raises. Qed.

(** the branches of the loop, by the tests that lead to them *)
Lemma judged_passed (c : Candidate) :
  judged c = Passed_as_is
  <-> sql c <> [] /\ basic (sql c) = true /\ valid (sql c) = true.
Proof.
  subst judged basic valid. cbv beta. unfold judge. cbv zeta.
  destruct (sql c) as [|x s]; cbn [is_empty]; [split; [easy | now intros [H _]]|].
  destruct (passed (check_basic_sql_validity lib (x :: s))); cbn [negb];
    [|split; [easy | now intros (_ & H & _)]].
  destruct (passed (validate_must_constraints lib (x :: s) plan contract));
    [split; [intros _; now repeat split | reflexivity]|].
  split; [|now intros (_ & _ & H)].
  destruct (minimal_repair lib compile_template (x :: s) plan contract) as [r|];
    [|discriminate].
  now destruct (passed (validate_must_constraints lib r plan contract)).
Qed.

Lemma judged_repaired (c : Candidate) (r : str) :
  judged c = Repaired_ok r
  <-> sql c <> [] /\ basic (sql c) = true /\ valid (sql c) = false
      /\ repair (sql c) = Some r /\ valid r = true.
Proof.
  subst judged basic valid repair. cbv beta. unfold judge. cbv zeta.
  destruct (sql c) as [|x s]; cbn [is_empty]; [split; [easy | now intros [H _]]|].
  destruct (passed (check_basic_sql_validity lib (x :: s))); cbn [negb];
    [|split; [easy | now intros (_ & H & _)]].
  destruct (passed (validate_must_constraints lib (x :: s) plan contract));
    [split; [easy | now intros (_ & _ & H & _)]|].
  destruct (minimal_repair lib compile_template (x :: s) plan contract) as [r0|];
    [|split; [easy | now intros (_ & _ & _ & H & _)]].
  destruct (passed (validate_must_constraints lib r0 plan contract)) eqn:V.
  - split; [intros [= <-]; now repeat split|].
    intros (_ & _ & _ & [= <-] & _). reflexivity.
  - split; [easy|]. intros (_ & _ & _ & [= <-] & H). congruence.
Qed.

Lemma judged_raised (c : Candidate) :
  judged c = Repair_raised
  <-> sql c <> [] /\ basic (sql c) = true /\ valid (sql c) = false
      /\ repair (sql c) = None.
Proof.
  subst judged basic valid repair. cbv beta. unfold judge. cbv zeta.
  destruct (sql c) as [|x s]; cbn [is_empty]; [split; [easy | now intros [H _]]|].
  destruct (passed (check_basic_sql_validity lib (x :: s))); cbn [negb];
    [|split; [easy | now intros (_ & H & _)]].
  destruct (passed (validate_must_constraints lib (x :: s) plan contract));
    [split; [easy | now intros (_ & _ & H & _)]|].
  destruct (minimal_repair lib compile_template (x :: s) plan contract) as [r0|].
  - split; [|now intros (_ & _ & _ & H)].
    now destruct (passed (validate_must_constraints lib r0 plan contract)).
  - split; [intros _; now repeat split | reflexivity].
Qed.

(** a candidate that the loop drops *)
Lemma judged_dropped (c : Candidate) :
  (judged c <> Passed_as_is /\ (forall r, judged c <> Repaired_ok r)
   /\ judged c <> Repair_raised)
  <-> sql c = [] \/ basic (sql c) = false
      \/ (valid (sql c) = false
          /\ exists r, repair (sql c) = Some r /\ valid r = false).
Proof.
  rewrite judged_passed, judged_raised.
  assert (R : (forall r, judged c <> Repaired_ok r)
              <-> forall r, ~ (sql c <> [] /\ basic (sql c) = true
                               /\ valid (sql c) = false
                               /\ repair (sql c) = Some r /\ valid r = true)).
  { split; intros H r; specialize (H r); now rewrite judged_repaired in *. }
  rewrite R. clear R.
  destruct (sql c) as [|x s] eqn:Es.
  { split; [now left|]. intros _.
    split; [|split]; [intros [H _] | intros r [H _] | intros [H _]]; now apply H. }
  destruct (basic (x :: s)) eqn:B.
  2:{ split; [now right; left|]. intros _.
      split; [|split];
        [intros (_ & H & _) | intros r (_ & H & _) | intros (_ & H & _)];
        discriminate. }
  destruct (valid (x :: s)) eqn:V.
  { split.
    - intros [H _]. exfalso. apply H. now repeat split.
    - intros [H | [H | [H _]]]; discriminate. }
  destruct (repair (x :: s)) as [r0|] eqn:Er.
  - destruct (valid r0) eqn:V0.
    + split.
      * intros (_ & H & _). exfalso. apply (H r0). now repeat split.
      * intros [H | [H | (_ & r & [= <-] & H)]]; try discriminate. congruence.
    + split.
      * intros _. right. right. split; [reflexivity|]. now exists r0.
      * intros _. split; [intros (_ & _ & H); discriminate|]. split.
        -- intros r (_ & _ & _ & [= <-] & H). congruence.
        -- intros (_ & _ & _ & H). discriminate.
  - split.
    + intros (_ & _ & H). exfalso. apply H. now repeat split.
    + intros [H | [H | (_ & r & H & _)]]; discriminate.
Qed.

Lemma best_is_kept (candidates : list Candidate) (best : Candidate) :
  best_of candidates = Some (Some best) ->
  exists valid_candidates i,
    kept candidates = Some valid_candidates
    /\ In (i, best) valid_candidates
    /\ forall j d, In (j, d) valid_candidates ->
                   key_leb (selection_key (i, best)) (selection_key (j, d)) = true.
Proof.
  subst best_of kept. cbv beta. unfold validate_and_select_best.
  destruct (simple_candidate_filter lib compile_template candidates plan contract)
    as [[|x l]|] eqn:E; cbn [bind]; try discriminate.
  unfold deterministic_selection. cbn [fst].
  assert (Hp := C5.sort_perm (x :: l)). assert (Hs := C5.sort_sorted (x :: l)).
  destruct (sort_by_key (x :: l)) as [|[i b] rest]; [discriminate|].
  intros [= <-]. exists (x :: l), i. split; [reflexivity|]. split.
  - apply (Permutation_in _ (Permutation_sym Hp)). now left.
  - intros j d Hj. apply (Permutation_in _ Hp) in Hj.
    inversion Hs as [|? ? Hall _]; subst.
    destruct Hj as [[= <- <-] | Hj]; [apply C5.key_leb_refl|].
    unfold le_all in Hall. rewrite Forall_forall in Hall. now apply Hall.
Qed.

(** X12: the candidate that the engine selects carries a SQL text that
    passes the validation of the MUST constraints; it is one of the
    candidates given, as it was or with its text repaired and its repaired
    flag set, all its other fields untouched. *)
Theorem selected_candidate_passes (candidates : list Candidate) (best : Candidate) :
  best_of candidates = Some (Some best) ->
  valid (sql best) = true
  /\ exists i c,
      nth_error candidates i = Some c
      /\ (best = c
          \/ exists r, repair (sql c) = Some r /\ best = repaired_with r c)
      /\ label best = label c /\ checks best = checks c
      /\ confidence best = confidence c.
Proof.
  intro H. destruct (best_is_kept _ _ H) as (vc & i & Hk & Hin & _).
  apply (kept_member _ _ _ _ Hk) in Hin as (c & Hn & [[J ->] | (r & J & ->)]).
  - apply judged_passed in J as (_ & _ & J).
    split; [exact J|]. exists i, c. repeat split; auto.
  - apply judged_repaired in J as (_ & _ & _ & Hr & Hv).
    split; [exact Hv|]. exists i, c. repeat split; eauto.
Qed.

Lemma best_none (candidates : list Candidate) :
  best_of candidates = Some None <-> kept candidates = Some [].
Proof.
  subst best_of kept. cbv beta. unfold validate_and_select_best.
  destruct (simple_candidate_filter lib compile_template candidates plan contract)
    as [[|x l]|] eqn:E; cbn [bind]; [easy| |easy].
  unfold deterministic_selection. cbn [fst].
  assert (Hp := C5.sort_perm (x :: l)).
  destruct (sort_by_key (x :: l)); [|easy].
  now apply Permutation_sym, Permutation_nil in Hp.
Qed.

Lemma best_raises (candidates : list Candidate) :
  best_of candidates = None <-> kept candidates = None.
Proof.
  subst best_of kept. cbv beta. unfold validate_and_select_best.
  destruct (simple_candidate_filter lib compile_template candidates plan contract)
    as [[|x l]|]; cbn [bind]; easy.
Qed.

(** X13: the engine returns None exactly when every candidate is dropped,
    that is has no SQL text, or fails the basic checks, or fails the
    validation of the MUST constraints both as it is and after a repair
    that returns; and the call raises exactly when some candidate has a SQL
    text that passes the basic checks and fails that validation, and its
    repair raises. *)
Theorem nothing_selected_iff_nothing_passes (candidates : list Candidate) :
  (best_of candidates = Some None
   <-> forall c, In c candidates ->
                 sql c = [] \/ basic (sql c) = false
                 \/ (valid (sql c) = false
                     /\ exists r, repair (sql c) = Some r /\ valid r = false))
  /\ (best_of candidates = None
      <-> exists c, In c candidates
                    /\ sql c <> [] /\ basic (sql c) = true
                    /\ valid (sql c) = false /\ repair (sql c) = None).
Proof.
  split.
  - rewrite best_none. split.
    + intros H c Hc. apply judged_dropped.
      apply In_nth_error in Hc as (i & Hn).
      assert (K : forall c' : Candidate, ~ In (i, c') []) by (intros c' []).
      split; [|split].
      * intro J. apply (K c). apply (kept_member _ _ _ _ H).
        exists c. split; [exact Hn|]. now left.
      * intros r J. apply (K (repaired_with r c)). apply (kept_member _ _ _ _ H).
        exists c. split; [exact Hn|]. right. now exists r.
      * intro J. apply nth_error_In in Hn.
        assert (X : kept candidates = None) by (apply kept_raises; now exists c).
        congruence.
    + intro H. destruct (kept candidates) as [[|[i c'] l]|] eqn:E; [reflexivity| |].
      * exfalso.
        assert (Hin : In (i, c') ((i, c') :: l)) by (now left).
        apply (kept_member _ _ _ _ E) in Hin as (c & Hn & HJ).
        apply nth_error_In in Hn. apply H, judged_dropped in Hn as (H1 & H2 & _).
        destruct HJ as [[J _] | (r & J & _)]; [now apply H1 | now apply (H2 r)].
      * exfalso. apply kept_raises in E as (c & Hc & J).
        apply H, judged_dropped in Hc as (_ & _ & H3). now apply H3.
  - rewrite best_raises, kept_raises. split.
    + intros (c & Hc & J). exists c. split; [exact Hc|]. now apply judged_raised.
    + intros (c & Hc & J). exists c. split; [exact Hc|]. now apply judged_raised.
Qed.

(** X14: a candidate that passes as it is always wins over a repaired one.
    When the candidates come without a repaired flag, no repair raises, and
    one candidate has a SQL text that passes the basic checks and the
    validation of the MUST constraints, the engine returns one of the
    candidates given, unchanged, whose SQL text passes the basic checks and
    that validation. *)
Theorem unrepaired_candidate_is_preferred (candidates : list Candidate) :
  (forall c, In c candidates -> repaired c <> Some true) ->
  (forall c, In c candidates -> repair (sql c) <> None) ->
  (exists c, In c candidates
             /\ sql c <> [] /\ basic (sql c) = true /\ valid (sql c) = true) ->
  exists best, best_of candidates = Some (Some best)
               /\ In best candidates
               /\ sql best <> [] /\ basic (sql best) = true
               /\ valid (sql best) = true.
Proof.
  intros Hflag Hrep (c & Hc & J). apply judged_passed in J.
  destruct (kept candidates) as [vc|] eqn:K.
  2:{ exfalso. apply kept_raises in K as (c0 & Hc0 & J0).
      apply judged_raised in J0 as (_ & _ & _ & J0). now apply (Hrep c0). }
  apply In_nth_error in Hc as (j & Hj).
  assert (Hk : In (j, c) vc).
  { apply (kept_member _ _ _ _ K). exists c. split; [exact Hj|]. now left. }
  destruct (best_of candidates) as [[best|]|] eqn:B.
  - exists best. split; [reflexivity|].
    destruct (best_is_kept _ _ B) as (vc' & i & K' & Hin & Hmin).
    assert (vc' = vc) by congruence. subst vc'.
    specialize (Hmin j c Hk).
    apply (kept_member _ _ _ _ K) in Hin as (c0 & Hn & [[J0 ->] | (r & J0 & ->)]).
    + split; [now apply nth_error_In in Hn | now apply judged_passed].
    + exfalso. apply nth_error_In in Hj. specialize (Hflag c Hj).
      unfold selection_key, key_leb, bool_ltb, repaired_with in Hmin.
      cbn [repaired] in Hmin.
      destruct (repaired c) as [[|]|]; [now apply Hflag | discriminate | discriminate].
  - exfalso. apply best_none in B. rewrite K in B. injection B as ->. easy.
  - exfalso. apply best_raises in B. congruence.
Qed.

End Engine.

(** the candidate SELECT a FROM t WHERE b = 1 under a plan that requires
    the table t and the predicate t.b = 1 *)
Lemma selected_candidate_example :
  validate_and_select_best Example.sqlglot Example.refused
                           [Example.candidate_where] Cases.plan_t_b1 Cases.contract_t_b1
  = Some (Some Example.candidate_where)
  /\ passed (validate_must_constraints Example.sqlglot (sql Example.candidate_where)
                                       Cases.plan_t_b1 Cases.contract_t_b1) = true.
Proof.
  assert (H : validate_and_select_best Example.sqlglot Example.refused
                                       [Example.candidate_where] Cases.plan_t_b1
                                       Cases.contract_t_b1
              = Some (Some Example.candidate_where)) by reflexivity.
  split; [exact H|].
  exact (proj1 (selected_candidate_passes
                  Example.sqlglot Example.refused Cases.plan_t_b1
                  Cases.contract_t_b1 [Example.candidate_where]
                  Example.candidate_where H)).
Defined.

(** of a candidate that is repaired and one that passes as it is, the
    second is returned *)
Lemma unrepaired_candidate_example :
  judge Example.sqlglot Example.refused Cases.plan_t_b1 Cases.contract_t_b1
        Example.candidate_plain
  = Repaired_ok Example.q_where_q
  /\ exists best,
      validate_and_select_best Example.sqlglot Example.refused
                               [Example.candidate_plain; Example.candidate_where]
                               Cases.plan_t_b1 Cases.contract_t_b1
      = Some (Some best)
      /\ In best [Example.candidate_plain; Example.candidate_where]
      /\ sql best <> []
      /\ passed (check_basic_sql_validity Example.sqlglot (sql best)) = true
      /\ passed (validate_must_constraints Example.sqlglot (sql best)
                                           Cases.plan_t_b1 Cases.contract_t_b1) = true.
Proof.
  split; [reflexivity|].
  apply (unrepaired_candidate_is_preferred
           Example.sqlglot Example.refused Cases.plan_t_b1 Cases.contract_t_b1
           [Example.candidate_plain; Example.candidate_where]).
  - intros c [<- | [<- | []]]; discriminate.
  - intros c [<- | [<- | []]]; discriminate.
  - exists Example.candidate_where. split; [right; now left|].
    split; [discriminate|]. split; reflexivity.
Defined.

End Selection.

(** ** The validation engine: its other checks *)

Module EngineChecks.

Import ValidationEngine.

(** a predicate with its blanks collapsed and its table prefixes removed *)
Lemma equivalent_iff (pred1 pred2 : str) :
  _are_predicates_equivalent pred1 pred2 = true
  <-> Re.sub word_dot (Re.sub AstValidator.blanks (lower (strip pred1)))
      = Re.sub word_dot (Re.sub AstValidator.blanks (lower (strip pred2))).
Proof.
  unfold _are_predicates_equivalent. cbv zeta.
  destruct (str_eqb _ _) eqn:E.
  - apply str_eqb_eq in E. rewrite E. now split.
  - apply str_eqb_eq.
Qed.

(** X15: [_are_predicates_equivalent] is an equivalence relation: its
    first test, the equality of the predicates once lower-cased with their
    blanks collapsed, adds nothing to the second, the equality of these
    texts once their table prefixes are removed. *)
Theorem predicate_equivalence_is_an_equivalence :
  (forall p, _are_predicates_equivalent p p = true)
  /\ (forall p q, _are_predicates_equivalent p q = _are_predicates_equivalent q p)
  /\ (forall p q r,
         _are_predicates_equivalent p q = true ->
         _are_predicates_equivalent q r = true ->
         _are_predicates_equivalent p r = true)
  /\ (forall p q,
         _are_predicates_equivalent p q
         = str_eqb (Re.sub word_dot (Re.sub AstValidator.blanks (lower (strip p))))
                   (Re.sub word_dot (Re.sub AstValidator.blanks (lower (strip q))))).
Proof.
  assert (B : forall x y, x = true <-> y = true -> x = y).
  { intros [] [] H; try reflexivity; [symmetry|]; now apply H. }
  repeat split.
  - intro p. now apply equivalent_iff.
  - intros p q. apply B. rewrite !equivalent_iff. split; congruence.
  - intros p q r. rewrite !equivalent_iff. congruence.
  - intros p q. apply B. now rewrite equivalent_iff, str_eqb_eq.
Qed.

(** X16: what the engine's basic check has found in a text without
    comments, the Guard finds again: for the mysql dialect it rejects such
    a text neither for Chinese characters, for a placeholder or for a
    SELECT with a star, nor because it does not parse. *)
Theorem basic_checks_carry_over_to_the_guard
        (lib : SqlGlot.Lib) (env : SqlGuard.Env) (sql_text : str) (m_schema : m_schema_t)
        (max_limit : Z) (keep_order_by : bool)
        (allowed_columns_by_table : list (str * list str)) :
  passed (check_basic_sql_validity lib sql_text) = true ->
  SqlGuard._remove_comments sql_text = sql_text ->
  match SqlGuard.validate_and_rewrite lib env sql_text $"mysql" m_schema max_limit
                                      keep_order_by allowed_columns_by_table with
  | SqlGuard.Raises SqlGuard.Chinese_content
  | SqlGuard.Raises SqlGuard.Placeholder
  | SqlGuard.Raises SqlGuard.Select_star
  | SqlGuard.Raises SqlGuard.Parse_failed => False
  | _ => True
  end.
Proof.
  unfold check_basic_sql_validity. cbn [passed]. intros H Hc.
  unfold SqlGuard.validate_and_rewrite. cbv zeta. rewrite Hc.
  destruct (Re.search Checks.select_star sql_text); [discriminate|].
  destruct (Re.search Checks.cjk sql_text); [discriminate|].
  destruct (Re.search Checks.placeholder sql_text); [discriminate|].
  destruct (SqlGlot.parse_one lib sql_text $"mysql") as [expr|]; [|discriminate].
  destruct (negb _); [exact I|].
  destruct (filter _ (SqlGuard._collect_table_names expr)); [|exact I].
  destruct (SqlGuard.unknown_columns lib env expr m_schema allowed_columns_by_table);
    [|exact I].
  destruct (SqlGlot.sql lib _ $"mysql"); [|exact I].
  now destruct (SqlGuard.SQL_PERMISSIVE_MODE env).
Qed.

(** the statement with a string literal *)
Lemma basic_checks_example :
  passed (check_basic_sql_validity Example.sqlglot Example.q_literal) = true
  /\ SqlGuard._remove_comments Example.q_literal = Example.q_literal
  /\ match SqlGuard.validate_and_rewrite Example.sqlglot Example.env Example.q_literal
                                         $"mysql" Example.schema 200 false [] with
     | SqlGuard.Raises SqlGuard.Chinese_content
     | SqlGuard.Raises SqlGuard.Placeholder
     | SqlGuard.Raises SqlGuard.Select_star
     | SqlGuard.Raises SqlGuard.Parse_failed => False
     | _ => True
     end.
Proof.
  split; [reflexivity|]. split; [reflexivity|].
  apply (basic_checks_carry_over_to_the_guard
           Example.sqlglot Example.env Example.q_literal Example.schema 200 false []);
    reflexivity.
Defined.

Lemma list_of_set_In (x : str) (xs : list str) : In x (list_of_set xs) <-> In x xs.
Proof.
  induction xs as [|y xs IH]; simpl; [reflexivity|].
  rewrite filter_In, IH, negb_true_iff. split.
  - intros [H | [H _]]; [now left | now right].
  - intros [H | H]; [now left|].
    destruct (str_eq_dec y x) as [E | E]; [now left|]. right. split; [exact H|].
    destruct (str_eqb y x) eqn:B; [|reflexivity]. now apply str_eqb_eq in B.
Qed.


End EngineChecks.

(** ** The planner: the tables of a plan, and a plan applied to the context *)

Module PlanTables.

Import Planner.

Lemma clean_must_tables (allowed : list str) (plan : PlanV1) :
  incl (must_tables (clean allowed plan)) allowed
  /\ incl (should_tables (clean allowed plan)) allowed.
Proof.
  split; intros t H; simpl in H; apply filter_In in H as [_ H]; now apply mem_In.
Qed.

(** X18: whatever the model answers, the plan that [llm_plan] returns
    names, in its required and in its preferred tables, only tables of the
    allowed list (the tables of the schema clip or, when the clip is no
    JSON, the tables of the semantic recall). *)
Theorem plan_names_allowed_tables_only
        (Json : Type) (json_loads : str -> option Json)
        (PlanV1_of : Json -> option PlanV1)
        (schema_tables : str -> option (list str))
        (chat : str -> reply)
        (build : str -> str -> str -> list str -> list (str * list str) ->
                 list str -> str -> str)
        (hint : list str -> str)
        (question kb_hint schema_clip : str) (semantic_tables : list str)
        (semantic_colmap : list (str * list str)) (plan : PlanV1) :
  llm_plan json_loads PlanV1_of schema_tables chat build hint
           question kb_hint schema_clip semantic_tables semantic_colmap
  = Returns plan ->
  let allowed := allowed_tables_of schema_tables schema_clip semantic_tables in
  incl (must_tables plan) allowed /\ incl (should_tables plan) allowed.
Proof.
  intros H allowed.
  assert (D : incl (must_tables PlanV1_default) allowed
              /\ incl (should_tables PlanV1_default) allowed).
  { split; intros t []. }
  revert H. unfold llm_plan. fold allowed.
  destruct (chat _) as [raw|[| |]]; try discriminate;
    [|intros [= <-]; exact D].
  destruct (parse_response json_loads PlanV1_of raw) as [| | |original];
    try (intros [= <-]; exact D).
  destruct (need_retry allowed original (clean allowed original));
    [|intros [= <-]; apply clean_must_tables].
  destruct (chat _) as [raw_retry|[| |]]; try discriminate;
    try (intros [= <-]; exact D).
  destruct (parse_response json_loads PlanV1_of raw_retry) as [| | |plan_retry];
    intros [= <-]; try exact D; apply clean_must_tables.
Qed.

(** the plan of the example, whose table ghost is not allowed *)
Lemma plan_names_allowed_tables_example :
  llm_plan Example.json_loads Example.PlanV1_of Example.schema_tables
           Example.chat_once Example.build_prompt Example.retry_hint_of
           $"q" [] [] [] []
  = Returns (clean [$"t"] Example.plan_count_ghost)
  /\ incl (must_tables (clean [$"t"] Example.plan_count_ghost)) [$"t"]
  /\ incl (should_tables (clean [$"t"] Example.plan_count_ghost)) [$"t"].
Proof.
  assert (H : llm_plan Example.json_loads Example.PlanV1_of Example.schema_tables
                       Example.chat_once Example.build_prompt Example.retry_hint_of
                       $"q" [] [] [] []
              = Returns (clean [$"t"] Example.plan_count_ghost)) by reflexivity.
  split; [exact H|].
  exact (plan_names_allowed_tables_only
           str Example.json_loads Example.PlanV1_of Example.schema_tables
           Example.chat_once Example.build_prompt Example.retry_hint_of
           $"q" [] [] [] [] _ H).
Defined.

(** X19: a call to the model that raises.  An exception other than
    [json.JSONDecodeError] gives the default plan, at the first call and at
    the call of the retry, after which the plan of the first answer, valid
    as it was, is dropped.  A [json.JSONDecodeError] gives the default plan
    at the call of the retry; at the first call the clause that catches it
    reads the response, which is not there, and [llm_plan] raises
    [UnboundLocalError].  What is no instance of [Exception] goes through.
    In every other case [llm_plan] returns a plan, which is the cleaned
    plan of the first answer when that answer is valid and needs no
    retry. *)
Theorem failed_call_gives_default
        (Json : Type) (json_loads : str -> option Json)
        (PlanV1_of : Json -> option PlanV1)
        (schema_tables : str -> option (list str))
        (chat : str -> reply)
        (build : str -> str -> str -> list str -> list (str * list str) ->
                 list str -> str -> str)
        (hint : list str -> str)
        (question kb_hint schema_clip : str) (semantic_tables : list str)
        (semantic_colmap : list (str * list str)) :
  let allowed := allowed_tables_of schema_tables schema_clip semantic_tables in
  let prompt := build question kb_hint schema_clip semantic_tables semantic_colmap allowed in
  let plan :=
    llm_plan json_loads PlanV1_of schema_tables chat build hint
             question kb_hint schema_clip semantic_tables semantic_colmap in
  (chat (prompt []) = Fails Exception_ -> plan = Returns PlanV1_default)
  /\ (chat (prompt []) = Fails JSONDecodeError -> plan = Raises_UnboundLocalError)
  /\ (chat (prompt []) = Fails BaseException_ -> plan = Raises_BaseException)
  /\ (forall raw original,
        chat (prompt []) = Answers raw ->
        parse_response json_loads PlanV1_of raw = Valid original ->
        need_retry allowed original (clean allowed original) = true ->
        (chat (prompt (hint allowed)) = Fails Exception_
         \/ chat (prompt (hint allowed)) = Fails JSONDecodeError ->
         plan = Returns PlanV1_default)
        /\ (chat (prompt (hint allowed)) = Fails BaseException_ ->
            plan = Raises_BaseException))
  /\ (forall raw original,
        chat (prompt []) = Answers raw ->
        parse_response json_loads PlanV1_of raw = Valid original ->
        need_retry allowed original (clean allowed original) = false ->
        plan = Returns (clean allowed original))
  /\ (forall raw,
        chat (prompt []) = Answers raw ->
        chat (prompt (hint allowed)) <> Fails BaseException_ ->
        exists p, plan = Returns p).
Proof.
  intros allowed prompt plan. subst plan. unfold llm_plan. fold allowed. fold prompt.
  repeat split.
  - now intros ->.
  - now intros ->.
  - now intros ->.
  - intros [H4 | H4]; now rewrite H, H0, H1, H4.
  - intros H4. now rewrite H, H0, H1, H4.
  - intros raw original H1 H2 H3. now rewrite H1, H2, H3.
  - intros raw H1 H2. rewrite H1.
    destruct (parse_response json_loads PlanV1_of raw) as [| | |original]; eauto.
    destruct (need_retry allowed original (clean allowed original)); eauto.
    destruct (chat (prompt (hint allowed))) as [raw_retry|[| |]]; eauto;
      [|now elim H2].
    destruct (parse_response json_loads PlanV1_of raw_retry); eauto.
Qed.

(** a model that answers the first call and raises at the second *)
Lemma failed_call_example :
  llm_plan Example.json_loads Example.PlanV1_of Example.schema_tables
           (Example.chat_once_then JSONDecodeError)
           Example.build_prompt Example.retry_hint_of $"q" [] [] [] []
  = Returns PlanV1_default.
Proof.
  apply (proj1 (proj1 (proj2 (proj2 (proj2
           (failed_call_gives_default
              str Example.json_loads Example.PlanV1_of Example.schema_tables
              (Example.chat_once_then JSONDecodeError)
              Example.build_prompt Example.retry_hint_of $"q" [] [] [] []))))
           Example.answer_count_ghost Example.plan_count_ghost
           eq_refl eq_refl eq_refl)).
  right. reflexivity.
Defined.

Lemma filter_shorter {A : Type} (f : A -> bool) (l : list A) :
  length (filter f l) < length l <-> exists x, In x l /\ f x = false.
Proof.
  induction l as [|y l IH]; simpl.
  - split; [lia | now intros (x & [] & _)].
  - assert (L := filter_length_le f l).
    destruct (f y) eqn:E; simpl.
    + rewrite <- Nat.succ_lt_mono, IH. split.
      * intros (x & Hx & Hf). exists x. split; [now right | exact Hf].
      * intros (x & [<- | Hx] & Hf); [congruence | now exists x].
    + split; [|lia]. intros _. exists y. split; [now left | exact E].
Qed.

Lemma unknown_ref_iff (allowed texts : list str) :
  _has_unknown_table_ref allowed texts = true
  <-> exists text m, In text texts /\ In m (Re.findall table_ref text) /\ ~ In m allowed.
Proof.
  unfold _has_unknown_table_ref. rewrite existsb_exists. split.
  - intros (text & Ht & H). apply existsb_exists in H as (m & Hm & Hn).
    exists text, m. repeat split; try assumption.
    intro Hin. apply mem_In in Hin. now rewrite Hin in Hn.
  - intros (text & m & Ht & Hm & Hn). exists text. split; [exact Ht|].
    apply existsb_exists. exists m. split; [exact Hm|].
    destruct (mem m allowed) eqn:E; [|reflexivity]. now apply mem_In in E.
Qed.

(** X20: the planner asks the model again exactly when the plan requires a
    table that is not allowed, or when a required predicate or a required
    join of the plan holds a table prefix that is not an allowed table. *)
Theorem retry_is_asked_for_unknown_tables (allowed : list str) (original : PlanV1) :
  need_retry allowed original (clean allowed original) = true
  <-> (exists t, In t (must_tables original) /\ ~ In t allowed)
      \/ (exists text m,
             In text (must_predicates original ++ must_joins original)
             /\ In m (Re.findall table_ref text) /\ ~ In m allowed).
Proof.
  unfold need_retry. cbn [clean with_tables must_tables must_predicates must_joins].
  rewrite !orb_true_iff, Nat.ltb_lt, !unknown_ref_iff.
  unfold _filter_tables. rewrite filter_shorter. split.
  - intros [[(t & Ht & Hm) | (text & m & H1 & H2 & H3)] | (text & m & H1 & H2 & H3)].
    + left. exists t. split; [exact Ht|]. intro Hin. apply mem_In in Hin. congruence.
    + right. exists text, m. repeat split; try assumption. apply in_or_app. now left.
    + right. exists text, m. repeat split; try assumption. apply in_or_app. now right.
  - intros [(t & Ht & Hn) | (text & m & H1 & H2 & H3)].
    + left. left. exists t. split; [exact Ht|].
      destruct (mem t allowed) eqn:E; [|reflexivity]. now apply mem_In in E.
    + apply in_app_or in H1 as [H1 | H1].
      * left. right. now exists text, m.
      * right. now exists text, m.
Qed.

Lemma add_required_spec (required : list str) :
  forall table_names,
  exists extra,
    add_required table_names required = table_names ++ extra
    /\ (forall t, In t extra -> In t required /\ ~ In t table_names)
    /\ NoDup extra
    /\ (forall t, In t required -> In t (table_names ++ extra)).
Proof.
  unfold add_required.
  induction required as [|r required IH]; intro table_names; cbn [fold_left].
  - exists []. rewrite app_nil_r. repeat split; try easy. constructor.
  - destruct (mem r table_names) eqn:M.
    + destruct (IH table_names) as (extra & E & H1 & H2 & H3).
      exists extra. split; [exact E|]. split; [|split; [exact H2|]].
      * intros t Ht. destruct (H1 t Ht). split; [now right | assumption].
      * intros t [<- | Ht]; [|now apply H3].
        apply in_or_app. left. now apply mem_In.
    + destruct (IH (table_names ++ [r])) as (extra & E & H1 & H2 & H3).
      assert (Hr : ~ In r table_names).
      { intro H. apply mem_In in H. congruence. }
      exists (r :: extra). rewrite E, <- app_assoc. split; [reflexivity|].
      split; [|split].
      * intros t [<- | Ht]; [split; [now left | exact Hr]|].
        destruct (H1 t Ht) as [Ha Hb]. split; [now right|].
        intro Hn. apply Hb, in_or_app. now left.
      * constructor; [|exact H2]. intro Hin. destruct (H1 r Hin) as [_ Hb].
        apply Hb, in_or_app. right. now left.
      * intros t [<- | Ht].
        -- apply in_or_app. right. now left.
        -- specialize (H3 t Ht). rewrite <- app_assoc in H3. exact H3.
Qed.

(** X21: a plan applied to the context keeps the tables of the context, in
    their order, and appends the required tables of the plan that were
    missing, each once: no table is dropped, none is added that the plan
    does not require, and every required table is there in the end. *)
Theorem required_tables_are_appended
        (plan : PlanV1) (table_names : list str)
        (selected_columns : list (str * list str)) (auto_evidence_parts : list str) :
  exists extra,
    fst (fst (apply_plan_to_context plan table_names selected_columns
                                    auto_evidence_parts))
    = table_names ++ extra
    /\ (forall t, In t extra -> In t (required_tables plan) /\ ~ In t table_names)
    /\ NoDup extra
    /\ (forall t, In t (required_tables plan) -> In t (table_names ++ extra)).
Proof. apply add_required_spec. Qed.

Lemma table_priority_cols_incl (priority : list str) (table : str) (cols : list str) :
  incl (table_priority_cols priority table cols) cols.
Proof.
  intros c H. unfold table_priority_cols in H.
  apply in_flat_map in H as (col & _ & H).
  destruct (split_at_dot [] col) as [[t c']|].
  - destruct (str_eqb t table && mem c' cols) eqn:E; [|easy].
    destruct H as [<- | []]. apply andb_true_iff in E as [_ E]. now apply mem_In.
  - destruct (mem col cols) eqn:E; [|easy].
    destruct H as [<- | []]. now apply mem_In.
Qed.

Lemma firstn_incl {A : Type} (n : nat) (l : list A) : incl (firstn n l) l.
Proof.
  revert n. induction l as [|x l IH]; intros [|n]; simpl; try easy.
  intros y [<- | H]; [now left | right; now apply (IH n)].
Qed.

(** X22: a plan applied to the context never invents a column.  The tables
    of the column map stay the same, in the same order; without priority
    columns in the plan the map is returned as it was; with priority
    columns, every table keeps columns of its own only, eight at most. *)
Theorem reordering_invents_no_column
        (plan : PlanV1) (table_names : list str)
        (selected_columns : list (str * list str)) (auto_evidence_parts : list str) :
  let updated_columns :=
    snd (fst (apply_plan_to_context plan table_names selected_columns
                                    auto_evidence_parts)) in
  map fst updated_columns = map fst selected_columns
  /\ (projection_priority plan = [] -> updated_columns = selected_columns)
  /\ (forall t cols', In (t, cols') updated_columns ->
        exists cols, In (t, cols) selected_columns /\ incl cols' cols
                     /\ (projection_priority plan <> [] -> length cols' <= 8)).
Proof.
  cbn [apply_plan_to_context fst snd]. cbv zeta.
  destruct (projection_priority plan) as [|p0 priority] eqn:E.
  - repeat split; try easy. intros t cols' H. exists cols'.
    repeat split; [exact H | apply incl_refl | easy].
  - rewrite <- E. split; [|split; [rewrite E; discriminate|]].
    + rewrite map_map. reflexivity.
    + intros t cols' H. apply in_map_iff in H as ([t0 cols] & [= <- <-] & Hin).
      exists cols. split; [exact Hin|]. cbn [fst snd]. unfold reordered. cbv zeta.
      split.
      * intros c Hc. apply firstn_incl, in_app_or in Hc as [Hc | Hc].
        -- now apply (table_priority_cols_incl (projection_priority plan) t0 cols c).
        -- now apply filter_In in Hc as [Hc _].
      * intros _. apply firstn_le_length.
Qed.

End PlanTables.

(** ** The safety contract *)

Module ContractFacts.

Import Generator.

(** X23: [make_safety_contract] cannot build a contract that forbids
    nothing: an empty list of forbidden clauses is replaced, like a missing
    one, by the list that holds ORDER BY.  The required joins and
    predicates given under their old names are used only when those given
    under the new names are missing or empty. *)
Theorem contract_always_forbids_something
        (allowed_tables : list str) (allowed_cols : list (str * list str))
        (must_tables must_joins must_predicates should_predicates
         should_projection may_predicates may_projection : option (list str))
        (timeframe_days : option Z)
        (forbidden_clauses required_joins required_predicates : option (list str)) :
  let contract (forbidden must_joins : option (list str)) :=
    make_safety_contract allowed_tables allowed_cols must_tables must_joins
                         must_predicates should_predicates should_projection
                         may_predicates may_projection timeframe_days
                         forbidden required_joins required_predicates in
  Generator.forbidden_clauses (contract forbidden_clauses must_joins) <> []
  /\ Generator.forbidden_clauses (contract (Some []) must_joins) = [$"ORDER BY"]
  /\ Generator.forbidden_clauses (contract None must_joins) = [$"ORDER BY"]
  /\ (forall j joins,
         Generator.must_joins (contract forbidden_clauses (Some (j :: joins)))
         = j :: joins)
  /\ Generator.must_joins (contract forbidden_clauses (Some []))
     = or_list required_joins []
  /\ Generator.must_joins (contract forbidden_clauses None)
     = or_list required_joins [].
Proof.
  intro contract. subst contract. cbn. repeat split.
  destruct forbidden_clauses as [[|f l]|]; discriminate.
Qed.

(** X24: the contract that [do_ask] builds always forbids ORDER BY, also
    for a plan whose task is trend, for which the Guard is told to keep the
    ORDER BY; its required tables, joins and predicates are those of the
    plan. *)
Theorem pipeline_contract_forbids_order_by
        (plan : Planner.PlanV1) (allowed_tables_in_schema : list str)
        (selected_cols : list (str * list str)) :
  let contract := Pipeline.safety_contract_of plan allowed_tables_in_schema selected_cols in
  Generator.forbidden_clauses contract = [$"ORDER BY"]
  /\ (Pipeline.keep_order_by_of plan = true <-> Planner.task plan = Planner.task_trend)
  /\ Generator.must_tables contract = Planner.must_tables plan
  /\ Generator.must_joins contract = Planner.must_joins plan
  /\ Generator.must_predicates contract = Planner.must_predicates plan
  /\ Generator.allowed_tables contract = allowed_tables_in_schema
  /\ Generator.allowed_columns contract = selected_cols.
Proof.
  intro contract. subst contract.
  unfold Pipeline.safety_contract_of, Pipeline.keep_order_by_of, make_safety_contract.
  cbn [Generator.forbidden_clauses Generator.must_tables Generator.must_joins
       Generator.must_predicates Generator.allowed_tables Generator.allowed_columns].
  unfold Planner.required_joins, Planner.required_predicates, Planner.required_tables.
  repeat split.
  - now destruct (Planner.task plan).
  - now destruct (Planner.task plan).
  - now destruct (Planner.task plan).
  - unfold ValidationEngine.or_else. now destruct (Planner.must_tables plan).
  - now destruct (Planner.must_joins plan).
  - now destruct (Planner.must_predicates plan).
Qed.

End ContractFacts.

(** ** The columns that a plan refers to, added to the column map *)

Module ContractColumns.

Import Pipeline.

Section OneReference.

Variables tbl col : str.

Let upd (kv : str * list str) : str * list str :=
  if str_eqb (fst kv) tbl && negb (mem col (snd kv))
  then (fst kv, snd kv ++ [col]) else kv.

Lemma add_col_map (selected_map : list (str * list str)) :
  (if has_key selected_map tbl then _add_col selected_map tbl col else selected_map)
  = map upd selected_map.
Proof.
  unfold _add_col. destruct (has_key selected_map tbl) eqn:K; [reflexivity|].
  unfold has_key in K. symmetry. rewrite <- (map_id selected_map) at 2.
  apply map_ext_in. intros kv Hin. subst upd. cbv beta.
  destruct (str_eqb (fst kv) tbl) eqn:E; [|reflexivity].
  exfalso. assert (T : existsb (fun kv => str_eqb (fst kv) tbl) selected_map = true).
  { apply existsb_exists. now exists kv. }
  congruence.
Qed.

Lemma upd_key (kv : str * list str) : fst (upd kv) = fst kv.
Proof. subst upd. cbv beta. now destruct (_ && _). Qed.

Lemma upd_grows (kv : str * list str) :
  exists extra, snd (upd kv) = snd kv ++ extra
                /\ (forall c, In c extra -> fst kv = tbl /\ c = col /\ ~ In c (snd kv)).
Proof.
  subst upd. cbv beta.
  destruct (str_eqb (fst kv) tbl) eqn:E; cbn [andb].
  - destruct (mem col (snd kv)) eqn:M; cbn [negb].
    + exists []. rewrite app_nil_r. now split.
    + exists [col]. split; [reflexivity|]. intros c [<- | []].
      apply str_eqb_eq in E. repeat split; [exact E|].
      intro H. apply mem_In in H. congruence.
  - exists []. rewrite app_nil_r. now split.
Qed.

Lemma upd_has (kv : str * list str) : fst kv = tbl -> In col (snd (upd kv)).
Proof.
  intros <-. subst upd. cbv beta.
  assert (E : str_eqb (fst kv) (fst kv) = true) by now apply str_eqb_eq.
  rewrite E. cbn [andb].
  destruct (mem col (snd kv)) eqn:M; cbn [negb snd].
  - now apply mem_In.
  - apply in_or_app. right. now left.
Qed.

End OneReference.

Section References.

Let step (m : list (str * list str)) (tc : str * str) : list (str * list str) :=
  if has_key m (fst tc) then _add_col m (fst tc) (snd tc) else m.

(** an entry of the map and what it has become: the same table, and the
    same columns followed by columns of the references *)
Let grown (refs : list (str * str)) (kv kv' : str * list str) : Prop :=
  fst kv' = fst kv
  /\ exists extra, snd kv' = snd kv ++ extra
                   /\ forall c, In c extra -> In (fst kv, c) refs /\ ~ In c (snd kv).

Lemma step_grown (tc : str * str) (m : list (str * list str)) :
  Forall2 (grown [tc]) m (step m tc)
  /\ forall kv', In kv' (step m tc) -> fst kv' = fst tc -> In (snd tc) (snd kv').
Proof.
  destruct tc as [t c]. subst step grown. cbv beta. cbn [fst snd].
  rewrite add_col_map. split.
  - induction m as [|kv m IH]; cbn [map]; constructor; [|exact IH].
    split; [apply upd_key|].
    destruct (upd_grows t c kv) as (extra & E & H). exists extra. split; [exact E|].
    intros x Hx. destruct (H x Hx) as (-> & -> & Hn). split; [now left | exact Hn].
  - intros kv' Hin Hk. apply in_map_iff in Hin as (kv & <- & _).
    apply upd_has. now rewrite upd_key in Hk.
Qed.

Lemma grown_trans (r1 r2 : list (str * str)) (a b c : str * list str) :
  grown r1 a b -> grown r2 b c -> grown (r1 ++ r2) a c.
Proof.
  subst grown. cbv beta. intros (K1 & e1 & E1 & H1) (K2 & e2 & E2 & H2).
  split; [congruence|]. exists (e1 ++ e2). split; [now rewrite E2, E1, app_assoc|].
  intros x Hx. apply in_app_or in Hx as [Hx | Hx].
  - destruct (H1 x Hx) as [Ha Hb]. split; [apply in_or_app; now left | exact Hb].
  - destruct (H2 x Hx) as [Ha Hb]. rewrite K1 in Ha. split; [apply in_or_app; now right|].
    intro Hn. apply Hb. rewrite E1. apply in_or_app. now left.
Qed.

Lemma Forall2_compose {A : Type} (R S T : A -> A -> Prop) (l1 l2 l3 : list A) :
  (forall a b c, R a b -> S b c -> T a c) ->
  Forall2 R l1 l2 -> Forall2 S l2 l3 -> Forall2 T l1 l3.
Proof.
  intros H H1. revert l3. induction H1 as [|a b l1 l2 Hab _ IH]; intros l3 H2.
  - inversion H2. constructor.
  - inversion H2 as [|b' c l2' l3' Hbc H3]; subst. constructor; [eauto | now apply IH].
Qed.

Lemma fold_grown (refs : list (str * str)) :
  forall m,
    Forall2 (grown refs) m (fold_left step refs m)
    /\ forall t c kv', In (t, c) refs -> In kv' (fold_left step refs m) ->
                       fst kv' = t -> In c (snd kv').
Proof.
  induction refs as [|tc refs IH]; intro m; cbn [fold_left].
  - split; [|easy]. induction m as [|kv m IHm]; constructor; [|exact IHm].
    subst grown. cbv beta. split; [reflexivity|]. exists []. now rewrite app_nil_r.
  - destruct (step_grown tc m) as [G1 C1]. destruct (IH (step m tc)) as [G2 C2].
    split.
    + apply (Forall2_compose (grown [tc]) (grown refs) (grown (tc :: refs)) _ _ _
                             (grown_trans [tc] refs) G1 G2).
    + intros t c kv' [-> | Hin] Hkv Hk; [|now apply (C2 t c)].
      cbn [fst snd] in C1.
      assert (P : forall l1 l2, Forall2 (grown refs) l1 l2 -> In kv' l2 ->
                                exists kv, In kv l1 /\ grown refs kv kv').
      { intros l1 l2 F. induction F as [|x y l1 l2 Hxy _ IHF]; [easy|].
        intros [<- | H]; [exists x; split; [now left | exact Hxy]|].
        destruct (IHF H) as (kv & Hkv' & Hg). exists kv. split; [now right | exact Hg]. }
      destruct (P _ _ G2 Hkv) as (kv & Hkv1 & (K & extra & E & _)).
      rewrite E. apply in_or_app. left. apply C1; [exact Hkv1 | congruence].
Qed.

Lemma fold_flat_map {A B C : Type} (f : A -> C -> A) (g : B -> list C) (l : list B) :
  forall a, fold_left (fun a b => fold_left f (g b) a) l a = fold_left f (flat_map g l) a.
Proof.
  induction l as [|b l IH]; intro a; cbn [fold_left flat_map]; [reflexivity|].
  now rewrite fold_left_app, IH.
Qed.

(** X25: [_ensure_contract_columns] keeps the tables of the column map and
    the columns of each, in their order; what it appends to a table are
    columns that the required predicates and joins, the group-by fields or
    the aggregates of the plan refer to with that table as a prefix, and
    that the table did not have; and afterwards every such reference
    [table.column] to a table of the map has its column in the list of the
    table. *)
Theorem plan_references_become_allowed
        (plan_obj : Planner.PlanV1) (selected_map : list (str * list str)) :
  let refs :=
    flat_map refs_of
             (Planner.required_predicates plan_obj ++ Planner.required_joins plan_obj
              ++ Planner.groupby plan_obj ++ Planner.aggregates plan_obj) in
  Forall2 (fun kv kv' =>
             fst kv' = fst kv
             /\ exists extra,
                 snd kv' = snd kv ++ extra
                 /\ forall c, In c extra -> In (fst kv, c) refs /\ ~ In c (snd kv))
          selected_map (_ensure_contract_columns plan_obj selected_map)
  /\ forall t c cols,
      In (t, c) refs ->
      In (t, cols) (_ensure_contract_columns plan_obj selected_map) ->
      In c cols.
Proof.
  intro refs. unfold _ensure_contract_columns. cbv zeta.
  rewrite (fold_flat_map
             (fun m tc => if has_key m (fst tc) then _add_col m (fst tc) (snd tc) else m)
             refs_of).
  fold refs. destruct (fold_grown refs selected_map) as [G C]. split; [exact G|].
  intros t c cols Hin Hk. now apply (C t c (t, cols)).
Qed.

End References.

(** the plan of the example refers to t.b and to u.a: b becomes a column of
    t, and u keeps its columns *)
Lemma plan_references_example :
  _ensure_contract_columns Cases.plan_t_b1 Cases.columns_t_u
  = [($"t", [$"a"; $"b"]); ($"u", [$"a"])]
  /\ In $"b" [$"a"; $"b"].
Proof.
  assert (E : _ensure_contract_columns Cases.plan_t_b1 Cases.columns_t_u
              = [($"t", [$"a"; $"b"]); ($"u", [$"a"])]) by reflexivity.
  split; [exact E|].
  apply (proj2 (plan_references_become_allowed Cases.plan_t_b1 Cases.columns_t_u)
               $"t" $"b" [$"a"; $"b"]).
  - now left.
  - rewrite E. now left.
Defined.

End ContractColumns.

(** ** The shortlister: what is kept and in which order *)

Module Shortlist.

Import Shortlister.

Lemma Qle_bool_total (a b : Q) : Qle_bool a b = false -> Qle_bool b a = true.
Proof.
  intro H. apply Qle_bool_iff, Qlt_le_weak, Qnot_le_lt.
  intro L. apply Qle_bool_iff in L. congruence.
Qed.

Lemma insert_desc_in (x y : str * Q) (l : list (str * Q)) :
  In y (insert_desc x l) <-> y = x \/ In y l.
Proof.
  induction l as [|z l IH]; simpl; [intuition|].
  destruct (Qle_bool (snd z) (snd x)); simpl; [intuition|].
  rewrite IH. intuition.
Qed.

Lemma insert_desc_sorted (x : str * Q) (l : list (str * Q)) :
  StronglySorted (fun a b => Qle_bool (snd b) (snd a) = true) l ->
  StronglySorted (fun a b => Qle_bool (snd b) (snd a) = true) (insert_desc x l).
Proof.
  induction 1 as [|z l Hs IH Hz]; simpl.
  - constructor; constructor.
  - destruct (Qle_bool (snd z) (snd x)) eqn:E.
    + constructor; [now constructor|]. constructor; [exact E|].
      rewrite Forall_forall in *. intros w Hw. specialize (Hz w Hw).
      apply Qle_bool_iff in Hz, E. apply Qle_bool_iff. now apply (Qle_trans _ (snd z)).
    + constructor; [exact IH|]. rewrite Forall_forall in *. intros w Hw.
      apply insert_desc_in in Hw as [-> | Hw]; [now apply Qle_bool_total | now apply Hz].
Qed.

Lemma sort_desc_sorted (l : list (str * Q)) :
  StronglySorted (fun a b => Qle_bool (snd b) (snd a) = true) (sort_desc l).
Proof.
  induction l as [|x l IH]; simpl; [constructor | now apply insert_desc_sorted].
Qed.

Lemma sort_desc_in (y : str * Q) (l : list (str * Q)) :
  In y (sort_desc l) <-> In y l.
Proof.
  induction l as [|x l IH]; simpl; [reflexivity|].
  rewrite insert_desc_in, IH. intuition.
Qed.

Lemma sorted_app_cross {A : Type} (R : A -> A -> Prop) (l1 l2 : list A) :
  StronglySorted R (l1 ++ l2) ->
  StronglySorted R l1 /\ forall x y, In x l1 -> In y l2 -> R x y.
Proof.
  induction l1 as [|a l1 IH]; simpl; intro H.
  - split; [constructor | easy].
  - inversion H as [|? ? Hs Ha]; subst. destruct (IH Hs) as [S1 C1].
    rewrite Forall_forall in Ha. split.
    + constructor; [exact S1|]. apply Forall_forall. intros y Hy.
      apply Ha, in_or_app. now left.
    + intros x y [<- | Hx] Hy; [apply Ha, in_or_app; now right | now apply C1].
Qed.

(** X26: the tables kept are the head of the ranking: the list returned is
    in descending order of score, what is left out follows it in the
    ranking, and no table left out scores more than a table kept. *)
Theorem kept_tables_score_highest
        (score : table_def -> list str -> Q) (m_schema : m_schema_t)
        (tokens : list str) (topk : Z) :
  let kept := snd (auto_select_tables score m_schema tokens topk) in
  exists left_out,
    scored_of score m_schema tokens = kept ++ left_out
    /\ StronglySorted (fun a b => (snd b <= snd a)%Q) kept
    /\ (forall x y, In x kept -> In y left_out -> (snd y <= snd x)%Q)
    /\ (forall x, In x kept ->
                  exists table, In table m_schema /\ table_name table = fst x
                                /\ snd x = score table tokens).
Proof.
  intro kept. subst kept. unfold auto_select_tables. cbn [snd].
  fold (scored_of score m_schema tokens).
  set (scored := scored_of score m_schema tokens).
  set (k := Z.to_nat (Z.max 1 (dynamic_topk topk scored))).
  exists (skipn k scored). split; [now rewrite firstn_skipn|].
  assert (S : StronglySorted (fun a b => Qle_bool (snd b) (snd a) = true)
                             (firstn k scored ++ skipn k scored)).
  { rewrite firstn_skipn. apply sort_desc_sorted. }
  apply sorted_app_cross in S as [S C]. split; [|split].
  - clear C. induction S as [|a l Hs IH Ha]; constructor; [exact IH|].
    rewrite Forall_forall in *. intros y Hy. now apply Qle_bool_iff, Ha.
  - intros x y Hx Hy. now apply Qle_bool_iff, C.
  - intros x Hx.
    assert (Hin : In x scored).
    { rewrite <- (firstn_skipn k scored). apply in_or_app. now left. }
    apply sort_desc_in, in_map_iff in Hin as (table & <- & Ht).
    now exists table.
Qed.

(** X27: a schema that has a table never comes back empty, whatever the
    base K, zero and negative values included: the best table at least is
    kept; and the schema returned holds the tables whose name is in the
    list returned, and no other.  With a base K of one or more, at most
    K + 4 tables are kept. *)
Theorem shortlist_is_never_empty
        (score : table_def -> list str -> Q) (m_schema : m_schema_t)
        (tokens : list str) (topk : Z) :
  let selected := auto_select_tables score m_schema tokens topk in
  (m_schema <> [] -> snd selected <> [] /\ fst selected <> [])
  /\ length (snd selected) <= length m_schema
  /\ (1 <= topk -> Z.of_nat (length (snd selected)) <= topk + 4)%Z
  /\ (forall table, In table (fst selected)
                    <-> In table m_schema /\ In (table_name table) (map fst (snd selected))).
Proof.
  intro selected. subst selected. unfold auto_select_tables. cbn [fst snd].
  fold (scored_of score m_schema tokens).
  set (scored := scored_of score m_schema tokens).
  set (k := Z.to_nat (Z.max 1 (dynamic_topk topk scored))).
  assert (L : length scored = length m_schema).
  { subst scored. unfold scored_of. now rewrite C10.sort_desc_length, length_map. }
  assert (F : forall table, In table (filter_m_schema m_schema (map fst (firstn k scored)))
                            <-> In table m_schema
                                /\ In (table_name table) (map fst (firstn k scored))).
  { intro table. unfold filter_m_schema. rewrite filter_In. now rewrite mem_In. }
  split; [|split; [rewrite length_firstn; lia | split; [|exact F]]].
  2:{ intro Hk. rewrite length_firstn. subst k. unfold dynamic_topk.
      destruct (Qle_bool 10 _), (2 <=? high_score_count scored); lia. }
  intro Hne.
  assert (Hk : 1 <= k) by (subst k; lia).
  destruct scored as [|x scored'] eqn:E.
  { destruct m_schema; [easy | discriminate]. }
  destruct k as [|k']; [lia|]. cbn [firstn]. split; [discriminate|].
  assert (Hx : In x (x :: scored')) by now left.
  rewrite <- E in Hx. subst scored. unfold scored_of in Hx.
  apply sort_desc_in, in_map_iff in Hx as (table & <- & Ht).
  intro Hf.
  assert (Hin : In table (filter_m_schema m_schema
                            (map fst ((table_name table, score table tokens)
                                        :: firstn k' scored')))).
  { unfold filter_m_schema. apply filter_In. split; [exact Ht|].
    apply mem_In. now left. }
  now rewrite Hf in Hin.
Qed.

End Shortlist.
